(** * Hex-grid path search and target acquisition (src/lib/pathfinding.ts)

    A shallow embedding of the path search, the ranged reachability search,
    the effective-distance computation, the tie-break policy and the
    closest-target maps, together with the memoisation layer that wraps
    them.  The collaborators that are imported by pathfinding.ts
    (the hex class, the priority queue, the memo cache and the
    cache-key builders) are interfaces or models stated next to their use. *)

From Stdlib Require Import ZArith List Lia Bool.
From stdpp Require Import base option list gmap sets strings.

Local Open Scope Z_scope.

(** ** Spatial model *)

(** The hex class of './hex' as pathfinding.ts uses it: the primary axial
    coordinate [q], [distance], [neighbor], [equals], the canonical string
    form [toString] (used as the key of sets and maps; any countable key
    type stands for the string) and the identifier [getId]. *)
Class HexOps := {
  Hex : Type;
  HexKey : Type;
  HexKey_eq_dec :: EqDecision HexKey;
  HexKey_countable :: Countable HexKey;
  hex_q : Hex → Z;
  distance : Hex → Hex → Z;
  neighbor : Hex → nat → Hex;
  equals : Hex → Hex → bool;
  toString : Hex → HexKey;
  getId : Hex → Z;
}.

(** What the search relies on: [equals] and [toString] identify the same
    cells, [distance] is a function of the cell, and each of the six
    neighbours is one step away. *)
Class HexLaws (M : HexOps) : Prop := {
  equals_toString : ∀ a b : Hex, equals a b = true ↔ toString a = toString b;
  distance_toString : ∀ a a' b b' : Hex,
    toString a = toString a' → toString b = toString b' →
    distance a b = distance a' b';
  distance_neighbor : ∀ (a : Hex) (d : nat), (d < 6)%nat → distance a (neighbor a d) = 1;
  neighbor_toString : ∀ (a a' : Hex) (d : nat),
    toString a = toString a' → toString (neighbor a d) = toString (neighbor a' d);
}.

(** ** Tiles *)

(** Modelled from the spec: the enumerations of './types/state' and
    './types/team' (default, blocked, breakable-blocked, available and
    occupied for each team). *)
Inductive State :=
  | DEFAULT
  | AVAILABLE_ALLY
  | AVAILABLE_ENEMY
  | OCCUPIED_ALLY
  | OCCUPIED_ENEMY
  | BLOCKED
  | BLOCKED_BREAKABLE.

Inductive Team := ALLY | ENEMY.

#[global] Instance State_eq_dec : EqDecision State.
Proof. solve_decision. Defined.

#[global] Instance Team_eq_dec : EqDecision Team.
Proof. solve_decision. Defined.

(** GridTile of './grid': a hex with its state, optional team and optional
    occupant. *)
Record GridTile `{HexOps} := mkTile {
  hex : Hex;
  state : State;
  team : option Team;
  character : option string;
}.

(** ** Priority queue *)

(** Modelled from the spec: the PriorityQueue of './priorityQueue', a
    min-priority queue kept as a list sorted by priority; entries of equal
    priority leave in insertion order.  [updatePriority] relocates the
    first entry the predicate matches. *)
Section PriorityQueue.
Context {T : Type}.

Definition PriorityQueue := list (T * Z).

Fixpoint enqueue (item : T) (priority : Z) (q : PriorityQueue) : PriorityQueue :=
  match q with
  | [] => [(item, priority)]
  | (x, p) :: q' =>
      if priority <? p then (item, priority) :: (x, p) :: q'
      else (x, p) :: enqueue item priority q'
  end.

Definition dequeue (q : PriorityQueue) : option (T * PriorityQueue) :=
  match q with
  | [] => None
  | (x, _) :: q' => Some (x, q')
  end.

Definition isEmpty (q : PriorityQueue) : bool :=
  match q with [] => true | _ => false end.

Fixpoint removeEntry (matches : T → bool) (q : PriorityQueue) : PriorityQueue :=
  match q with
  | [] => []
  | (x, p) :: q' => if matches x then q' else (x, p) :: removeEntry matches q'
  end.

Definition updatePriority (item : T) (newPriority : Z) (same : T → T → bool)
    (q : PriorityQueue) : PriorityQueue :=
  if existsb (λ e, same e.1 item) q
  then enqueue item newPriority (removeEntry (λ x, same x item) q)
  else q.
End PriorityQueue.
Arguments PriorityQueue : clear implicits.

(** ** A* search *)

Section Search.
Context `{HexOps}.

(** A search node.  Node objects are shared between the node table, the
    open set and the parent links; there is one node per key, so a
    reference to a node is the key of its hex and the table [nodeMap] is
    the store the references point into. *)
Record PathNode := mkNode {
  node_hex : Hex;
  g : Z;
  h : Z;
  f : Z;
  parent : option HexKey;
}.

Record SearchState := mkSearch {
  openSet : PriorityQueue Hex;
  closedSet : gset HexKey;
  nodeMap : gmap HexKey PathNode;
}.

Definition traversable (getTile : Hex → option GridTile)
    (canTraverse : GridTile → bool) (x : Hex) : bool :=
  match getTile x with
  | None => false
  | Some tile => canTraverse tile
  end.

(** The body of the loop over the six directions. *)
Definition visitNeighbor (goal : Hex) (getTile : Hex → option GridTile)
    (canTraverse : GridTile → bool) (current : PathNode)
    (st : SearchState) (direction : nat) : SearchState :=
  let nb := neighbor (node_hex current) direction in
  let neighborKey := toString nb in
  if bool_decide (neighborKey ∈ closedSet st) then st
  else match getTile nb with
  | None => st
  | Some tile =>
    if negb (canTraverse tile) then st
    else
      let tentativeG := g current + 1 in
      match nodeMap st !! neighborKey with
      | None =>
          let neighborNode :=
            {| node_hex := nb; g := tentativeG; h := distance nb goal;
               f := tentativeG + distance nb goal;
               parent := Some (toString (node_hex current)) |} in
          {| openSet := enqueue nb (f neighborNode) (openSet st);
             closedSet := closedSet st;
             nodeMap := <[neighborKey := neighborNode]> (nodeMap st) |}
      | Some neighborNode =>
          if tentativeG <? g neighborNode then
            let relaxed :=
              {| node_hex := node_hex neighborNode; g := tentativeG;
                 h := h neighborNode; f := tentativeG + h neighborNode;
                 parent := Some (toString (node_hex current)) |} in
            {| openSet := updatePriority (node_hex relaxed) (f relaxed) equals (openSet st);
               closedSet := closedSet st;
               nodeMap := <[neighborKey := relaxed]> (nodeMap st) |}
          else st
      end
  end.

(** [while (node) { path.unshift(node.hex); node = node.parent }] *)
Fixpoint reconstructPath (fuel : nat) (nm : gmap HexKey PathNode)
    (node : option HexKey) (path : list Hex) : option (list Hex) :=
  match node with
  | None => Some path
  | Some k =>
      match fuel with
      | O => None
      | S n =>
          nd ← nm !! k;
          reconstructPath n nm (parent nd) (node_hex nd :: path)
      end
  end.

(** The main loop.  The outer [option] is the step budget of the model
    ([None]: the budget ran out); the inner one is the result of the
    function, [None] for [null]. *)
Fixpoint searchLoop (budget fuel : nat) (goal : Hex)
    (getTile : Hex → option GridTile) (canTraverse : GridTile → bool)
    (st : SearchState) : option (option (list Hex)) :=
  match fuel with
  | O => None
  | S n =>
      if isEmpty (openSet st) then Some None
      else match dequeue (openSet st) with
      | None => Some None
      | Some (item, rest) =>
          current ← nodeMap st !! toString item;
          if equals (node_hex current) goal then
            path ← reconstructPath budget (nodeMap st) (Some (toString item)) [];
            Some (Some path)
          else
            let st1 := {| openSet := rest;
                          closedSet := {[toString (node_hex current)]} ∪ closedSet st;
                          nodeMap := nodeMap st |} in
            searchLoop budget n goal getTile canTraverse
              (foldl (visitNeighbor goal getTile canTraverse current) st1 (seq 0 6))
      end
  end.

Definition startState (start goal : Hex) : SearchState :=
  let startNode :=
    {| node_hex := start; g := 0; h := distance start goal;
       f := distance start goal; parent := None |} in
  {| openSet := enqueue start (f startNode) [];
     closedSet := ∅;
     nodeMap := {[toString start := startNode]} |}.

Definition findPath (fuel : nat) (start goal : Hex)
    (getTile : Hex → option GridTile) (canTraverse : GridTile → bool)
    : option (option (list Hex)) :=
  searchLoop fuel fuel goal getTile canTraverse (startState start goal).

Definition findPathDistance (fuel : nat) (start goal : Hex)
    (getTile : Hex → option GridTile) (canTraverse : GridTile → bool)
    : option (option Z) :=
  path ← findPath fuel start goal getTile canTraverse;
  Some (match path with
        | Some p => Some (Z.of_nat (length p) - 1)
        | None => None
        end).
End Search.

(** ** Memoisation *)

(** Modelled from the spec: the MemoCache of './memoization', a bounded
    key-value cache with least-recently-used eviction.  The entries are
    kept oldest first; [memo_get] moves the entry it finds to the recent
    end, [memo_set] evicts the oldest entry when the cache is full. *)
Section MemoCache.
Context {K V : Type} `{EqDecision K}.

Record MemoCache := mkMemo {
  maxSize : nat;
  entries : list (K * V);
}.

Definition memo_lookup (key : K) (l : list (K * V)) : option V :=
  snd <$> find (λ e, bool_decide (e.1 = key)) l.

Definition memo_remove (key : K) (l : list (K * V)) : list (K * V) :=
  filter (λ e, e.1 ≠ key) l.

Definition memo_get (key : K) (c : MemoCache) : option V * MemoCache :=
  match memo_lookup key (entries c) with
  | Some v =>
      (Some v, {| maxSize := maxSize c;
                  entries := memo_remove key (entries c) ++ [(key, v)] |})
  | None => (None, c)
  end.

Definition memo_set (key : K) (value : V) (c : MemoCache) : MemoCache :=
  let kept :=
    match memo_lookup key (entries c) with
    | Some _ => memo_remove key (entries c)
    | None =>
        if bool_decide (maxSize c ≤ length (entries c))%nat
        then tail (entries c) else entries c
    end in
  {| maxSize := maxSize c; entries := kept ++ [(key, value)] |}.

Definition memo_clear (c : MemoCache) : MemoCache :=
  {| maxSize := maxSize c; entries := [] |}.

Definition memo_size (c : MemoCache) : nat := length (entries c).
End MemoCache.
Arguments MemoCache : clear implicits.

(** A movement cost: a number of tiles or JavaScript's [Infinity]. *)
Inductive Distance := Finite (n : Z) | Infinity.

#[global] Instance Distance_eq_dec : EqDecision Distance.
Proof. solve_decision. Defined.

Definition dist_ltb (a b : Distance) : bool :=
  match a, b with
  | Finite x, Finite y => x <? y
  | Finite _, Infinity => true
  | Infinity, _ => false
  end.

Definition dist_eqb (a b : Distance) : bool := bool_decide (a = b).

Record DistanceResult := mkDistanceResult {
  movementDistance : Distance;
  canReach : bool;
  directDistance : Z;
}.

Record TargetResult := mkTargetResult {
  hexId : Z;
  target_distance : Distance;
}.

Record TargetInfo := mkTargetInfo {
  enemyHexId : option Z;
  allyHexId : option Z;
  info_distance : Distance;
}.

(** The key builders of './memoization'.  The keys are strings in the
    source; any type with decidable equality stands for them. *)
Class CacheKeys `{HexOps} := {
  PathKey : Type;
  PathKey_eq_dec :: EqDecision PathKey;
  generatePathCacheKey : Z → Z → Z → PathKey;
  GridKey : Type;
  GridKey_eq_dec :: EqDecision GridKey;
  generateGridCacheKey : list GridTile → gmap string Z → GridKey;
}.

Section Cache.
Context `{CacheKeys}.

Record PathfindingCache := mkCache {
  pathCache : MemoCache PathKey (option (list Hex));
  effectiveDistanceCache : MemoCache PathKey DistanceResult;
  closestEnemyCache : MemoCache GridKey (gmap Z TargetInfo);
  closestAllyCache : MemoCache GridKey (gmap Z TargetInfo);
}.

Definition newPathfindingCache : PathfindingCache :=
  {| pathCache := mkMemo 500 [];
     effectiveDistanceCache := mkMemo 500 [];
     closestEnemyCache := mkMemo 100 [];
     closestAllyCache := mkMemo 100 [] |}.

Definition getEffectiveDistance (key : PathKey) (c : PathfindingCache)
    : option DistanceResult * PathfindingCache :=
  let (v, m) := memo_get key (effectiveDistanceCache c) in
  (v, {| pathCache := pathCache c; effectiveDistanceCache := m;
         closestEnemyCache := closestEnemyCache c;
         closestAllyCache := closestAllyCache c |}).

Definition setEffectiveDistance (key : PathKey) (value : DistanceResult)
    (c : PathfindingCache) : PathfindingCache :=
  {| pathCache := pathCache c;
     effectiveDistanceCache := memo_set key value (effectiveDistanceCache c);
     closestEnemyCache := closestEnemyCache c;
     closestAllyCache := closestAllyCache c |}.

Definition cacheGetClosestEnemyMap (key : GridKey) (c : PathfindingCache)
    : option (gmap Z TargetInfo) * PathfindingCache :=
  let (v, m) := memo_get key (closestEnemyCache c) in
  (v, {| pathCache := pathCache c;
         effectiveDistanceCache := effectiveDistanceCache c;
         closestEnemyCache := m;
         closestAllyCache := closestAllyCache c |}).

Definition cacheSetClosestEnemyMap (key : GridKey) (value : gmap Z TargetInfo)
    (c : PathfindingCache) : PathfindingCache :=
  {| pathCache := pathCache c;
     effectiveDistanceCache := effectiveDistanceCache c;
     closestEnemyCache := memo_set key value (closestEnemyCache c);
     closestAllyCache := closestAllyCache c |}.

Definition cacheGetClosestAllyMap (key : GridKey) (c : PathfindingCache)
    : option (gmap Z TargetInfo) * PathfindingCache :=
  let (v, m) := memo_get key (closestAllyCache c) in
  (v, {| pathCache := pathCache c;
         effectiveDistanceCache := effectiveDistanceCache c;
         closestEnemyCache := closestEnemyCache c;
         closestAllyCache := m |}).

Definition cacheSetClosestAllyMap (key : GridKey) (value : gmap Z TargetInfo)
    (c : PathfindingCache) : PathfindingCache :=
  {| pathCache := pathCache c;
     effectiveDistanceCache := effectiveDistanceCache c;
     closestEnemyCache := closestEnemyCache c;
     closestAllyCache := memo_set key value (closestAllyCache c) |}.

Definition getPath (key : PathKey) (c : PathfindingCache)
    : option (option (list Hex)) * PathfindingCache :=
  let (v, m) := memo_get key (pathCache c) in
  (v, {| pathCache := m;
         effectiveDistanceCache := effectiveDistanceCache c;
         closestEnemyCache := closestEnemyCache c;
         closestAllyCache := closestAllyCache c |}).

Definition setPath (key : PathKey) (value : option (list Hex))
    (c : PathfindingCache) : PathfindingCache :=
  {| pathCache := memo_set key value (pathCache c);
     effectiveDistanceCache := effectiveDistanceCache c;
     closestEnemyCache := closestEnemyCache c;
     closestAllyCache := closestAllyCache c |}.

Definition clear (c : PathfindingCache) : PathfindingCache :=
  {| pathCache := memo_clear (pathCache c);
     effectiveDistanceCache := memo_clear (effectiveDistanceCache c);
     closestEnemyCache := memo_clear (closestEnemyCache c);
     closestAllyCache := memo_clear (closestAllyCache c) |}.

(** The argument of [clearSpecific]: 'path', 'effectiveDistance',
    'closestEnemy' or 'closestAlly'. *)
Inductive CacheType :=
  | PathCache
  | EffectiveDistanceCache
  | ClosestEnemyCache
  | ClosestAllyCache.

Definition clearSpecific (cacheType : CacheType) (c : PathfindingCache)
    : PathfindingCache :=
  match cacheType with
  | PathCache =>
      {| pathCache := memo_clear (pathCache c);
         effectiveDistanceCache := effectiveDistanceCache c;
         closestEnemyCache := closestEnemyCache c;
         closestAllyCache := closestAllyCache c |}
  | EffectiveDistanceCache =>
      {| pathCache := pathCache c;
         effectiveDistanceCache := memo_clear (effectiveDistanceCache c);
         closestEnemyCache := closestEnemyCache c;
         closestAllyCache := closestAllyCache c |}
  | ClosestEnemyCache =>
      {| pathCache := pathCache c;
         effectiveDistanceCache := effectiveDistanceCache c;
         closestEnemyCache := memo_clear (closestEnemyCache c);
         closestAllyCache := closestAllyCache c |}
  | ClosestAllyCache =>
      {| pathCache := pathCache c;
         effectiveDistanceCache := effectiveDistanceCache c;
         closestEnemyCache := closestEnemyCache c;
         closestAllyCache := memo_clear (closestAllyCache c) |}
  end.

Definition getStats (c : PathfindingCache) : nat * nat * nat * nat :=
  (memo_size (pathCache c), memo_size (effectiveDistanceCache c),
   memo_size (closestEnemyCache c), memo_size (closestAllyCache c)).

(** ** Effective distance *)

Definition calculateEffectiveDistance (fuel : nat) (start goal : Hex) (range : Z)
    (getTile : Hex → option GridTile) (canTraverse : GridTile → bool)
    (cachingEnabled : bool) (cache : PathfindingCache)
    : option (DistanceResult * PathfindingCache) :=
  let cacheKey := generatePathCacheKey (getId start) (getId goal) range in
  let '(cached, cache) :=
    if cachingEnabled then getEffectiveDistance cacheKey cache else (None, cache) in
  match cached with
  | Some result => Some (result, cache)
  | None =>
      let directDistance := distance start goal in
      if directDistance <=? range then
        let result := {| movementDistance := Finite 0; canReach := true;
                         directDistance := directDistance |} in
        Some (result,
              if cachingEnabled then setEffectiveDistance cacheKey result cache else cache)
      else
        path ← findPath fuel start goal getTile canTraverse;
        match path with
        | None =>
            let result := {| movementDistance := Infinity; canReach := false;
                             directDistance := directDistance |} in
            Some (result,
                  if cachingEnabled then setEffectiveDistance cacheKey result cache
                  else cache)
        | Some p =>
            let pathLength := Z.of_nat (length p) - 1 in
            let movementNeeded := Z.max 0 (pathLength - range) in
            let result := {| movementDistance := Finite movementNeeded;
                             canReach := true;
                             directDistance := directDistance |} in
            Some (result,
                  if cachingEnabled then setEffectiveDistance cacheKey result cache
                  else cache)
        end
  end.
End Cache.

(** ** Ranged reachability *)

Section Ranged.
Context `{HexOps}.

Record RangedDistanceResult := mkRanged {
  ranged_movementDistance : Distance;
  ranged_canReach : bool;
  reachableTargets : list Hex;
}.

Definition rangedUnreachable : RangedDistanceResult :=
  {| ranged_movementDistance := Infinity; ranged_canReach := false;
     reachableTargets := [] |}.

(** The variables the two inner loops of a layer update. *)
Record LayerState := mkLayer {
  visited : gset HexKey;
  nextQueue : list Hex;
  reachableAtThisDistance : list Hex;
}.

Definition inRange (range : Z) (from target : Hex) : bool :=
  distance from target <=? range.

(** The body of the loop over the six directions. *)
Definition visitDirection (targets : list Hex) (range : Z)
    (getTile : Hex → option GridTile) (canTraverse : GridTile → bool)
    (currentHex : Hex) (st : LayerState) (direction : nat) : LayerState :=
  let nb := neighbor currentHex direction in
  let neighborKey := toString nb in
  if bool_decide (neighborKey ∈ visited st) then st
  else match getTile nb with
  | None => st
  | Some tile =>
    if negb (canTraverse tile) then st
    else
      {| visited := {[neighborKey]} ∪ visited st;
         nextQueue := nextQueue st ++ [nb];
         reachableAtThisDistance :=
           reachableAtThisDistance st ++ List.filter (inRange range nb) targets |}
  end.

Definition processLayer (targets : list Hex) (range : Z)
    (getTile : Hex → option GridTile) (canTraverse : GridTile → bool)
    (currentQueue : list Hex) (seen : gset HexKey) : LayerState :=
  foldl (λ st currentHex,
           foldl (visitDirection targets range getTile canTraverse currentHex) st (seq 0 6))
        {| visited := seen; nextQueue := []; reachableAtThisDistance := [] |}
        currentQueue.

(** [Array.from(new Set(l.map(toString))).map(str => l.find(...))]: the
    first hex of every key, in order of first occurrence. *)
Fixpoint uniqueByKey (seen : gset HexKey) (l : list Hex) : list Hex :=
  match l with
  | [] => []
  | x :: l' =>
      if bool_decide (toString x ∈ seen) then uniqueByKey seen l'
      else x :: uniqueByKey ({[toString x]} ∪ seen) l'
  end.

(** The layered loop [while (currentQueue.length > 0 && currentMoves < 20)].
    [layers] is the number of iterations the cap still allows (the loop
    starts with 20 of them at [currentMoves = 0]).  Besides the result the
    loop reports the values of [currentMoves] and [currentQueue] at the
    moment it is left. *)
Fixpoint searchLayers (layers : nat) (targets : list Hex) (range : Z)
    (getTile : Hex → option GridTile) (canTraverse : GridTile → bool)
    (currentMoves : Z) (currentQueue : list Hex) (seen : gset HexKey)
    : RangedDistanceResult * (Z * list Hex) :=
  match layers with
  | O => (rangedUnreachable, (currentMoves, currentQueue))
  | S n =>
      if (0 <? Z.of_nat (length currentQueue)) && (currentMoves <? 20) then
        let st := processLayer targets range getTile canTraverse currentQueue seen in
        if (0 <? Z.of_nat (length (reachableAtThisDistance st))) then
          ({| ranged_movementDistance := Finite (currentMoves + 1);
              ranged_canReach := true;
              reachableTargets := uniqueByKey ∅ (reachableAtThisDistance st) |},
           (currentMoves, currentQueue))
        else
          searchLayers n targets range getTile canTraverse
            (currentMoves + 1) (nextQueue st) (visited st)
      else (rangedUnreachable, (currentMoves, currentQueue))
  end.

(** The values of [currentQueue] and [visited] at the head of the loop
    once [k] layers have been processed without finding a target: the
    loop starts from [start] alone, and every layer hands its [nextQueue]
    and its [visited] on to the next ([currentQueue = nextQueue]). *)
Fixpoint frontier (targets : list Hex) (range : Z)
    (getTile : Hex → option GridTile) (canTraverse : GridTile → bool)
    (start : Hex) (k : nat) : list Hex * gset HexKey :=
  match k with
  | O => ([start], {[toString start]})
  | S n =>
      let st := processLayer targets range getTile canTraverse
                  (frontier targets range getTile canTraverse start n).1
                  (frontier targets range getTile canTraverse start n).2 in
      (nextQueue st, visited st)
  end.

(** The function with the state in which its search loop was left;
    [None] when the function returns before the loop. *)
Definition rangedSearch (start : Hex) (targets : list Hex) (range : Z)
    (getTile : Hex → option GridTile) (canTraverse : GridTile → bool)
    : RangedDistanceResult * option (Z * list Hex) :=
  if (Z.of_nat (length targets) =? 0) then (rangedUnreachable, None)
  else
    let immediateTargets := List.filter (inRange range start) targets in
    if (0 <? Z.of_nat (length immediateTargets)) then
      ({| ranged_movementDistance := Finite 0; ranged_canReach := true;
          reachableTargets := immediateTargets |}, None)
    else
      let (result, exit) :=
        searchLayers 20 targets range getTile canTraverse 0 [start] {[toString start]} in
      (result, Some exit).

Definition calculateRangedMovementDistance (start : Hex) (targets : list Hex)
    (range : Z) (getTile : Hex → option GridTile)
    (canTraverse : GridTile → bool) : RangedDistanceResult :=
  (rangedSearch start targets range getTile canTraverse).1.

(** ** Utility functions *)

Definition defaultCanTraverse (tile : GridTile) : bool :=
  negb (bool_decide (state tile = BLOCKED))
  && negb (bool_decide (state tile = BLOCKED_BREAKABLE)).

Definition isVerticallyAligned (sourceHex targetHex : Hex) : bool :=
  hex_q sourceHex =? hex_q targetHex.
End Ranged.

(** ** Diagonal rows *)

Definition rowEndings : list Z :=
  [2; 5; 7; 10; 14; 17; 21; 24; 28; 31; 35; 38; 40; 43; 45].

(** [for (let i = 0; i < rowEndings.length; i++) if (hexId <= rowEndings[i]) return i + 1] *)
Fixpoint tableRow (i : Z) (endings : list Z) (hexId : Z) : option Z :=
  match endings with
  | [] => None
  | e :: rest => if hexId <=? e then Some (i + 1) else tableRow (i + 1) rest hexId
  end.

Definition fallbackRowSize (rowNum : Z) : Z :=
  if (rowNum mod 4 =? 1) && (4 <? rowNum) then 4
  else if rowNum mod 2 =? 0 then 3
  else 2.

(** [while (hexId > currentEnd) { ... }], then [return rowNum].  Every
    iteration moves [currentEnd] forward, so [fuel] iterations are enough
    for any [hexId <= currentEnd + fuel]. *)
Fixpoint fallbackRow (fuel : nat) (hexId currentEnd rowNum : Z) : Z :=
  match fuel with
  | O => rowNum
  | S n =>
      if currentEnd <? hexId then
        let rowSize := fallbackRowSize rowNum in
        let currentEnd := currentEnd + rowSize in
        let rowNum := rowNum + 1 in
        if hexId <=? currentEnd then rowNum
        else fallbackRow n hexId currentEnd rowNum
      else rowNum
  end.

Definition getRowNumber (hexId : Z) : Z :=
  match tableRow 0 rowEndings hexId with
  | Some row => row
  | None => fallbackRow (Z.to_nat hexId) hexId 45 16
  end.

Definition areHexesInSameDiagonalRow (hexId1 hexId2 : Z) : bool :=
  getRowNumber hexId1 =? getRowNumber hexId2.

(** ** Target selection and tie-breaking *)

Section Targets.
Context `{CacheKeys}.

(** One round of the tie-break loop over the candidates of a ranged
    unit: the new value of [bestTarget]. *)
Definition chooseBest (sourceTile bestTarget currentTarget : GridTile) : GridTile :=
  let currentIsVertical := isVerticallyAligned (hex sourceTile) (hex currentTarget) in
  let bestIsVertical := isVerticallyAligned (hex sourceTile) (hex bestTarget) in
  if currentIsVertical && negb bestIsVertical then currentTarget
  else if negb currentIsVertical && bestIsVertical then bestTarget
  else if areHexesInSameDiagonalRow (getId (hex currentTarget)) (getId (hex bestTarget)) then
    if getId (hex currentTarget) <? getId (hex bestTarget) then currentTarget
    else bestTarget
  else if negb currentIsVertical && negb bestIsVertical then
    let currentDirectDistance := distance (hex sourceTile) (hex currentTarget) in
    let bestDirectDistance := distance (hex sourceTile) (hex bestTarget) in
    if currentDirectDistance <? bestDirectDistance then currentTarget
    else bestTarget
  else bestTarget.

(** The traversal override of the melee loop: the target's own cell is
    always traversable. *)
Definition canTraverseToTarget (canTraverse : GridTile → bool)
    (targetTile tile : GridTile) : bool :=
  if equals (hex tile) (hex targetTile) then true else canTraverse tile.

(** The update of [closest] for a reachable target at movement distance
    [dist].  The outer [None] stands for a failed lookup of the tile of
    [closest] among the targets. *)
Definition updateClosest (sourceTile : GridTile) (targetTiles : list GridTile)
    (targetTile : GridTile) (dist : Distance) (closest : option TargetResult)
    : option (option TargetResult) :=
  let candidate := {| hexId := getId (hex targetTile); target_distance := dist |} in
  match closest with
  | None => Some (Some candidate)
  | Some best =>
      if dist_ltb dist (target_distance best) then Some (Some candidate)
      else if dist_eqb dist (target_distance best) then
        let currentIsVertical := isVerticallyAligned (hex sourceTile) (hex targetTile) in
        closestTile ← List.find (λ t, getId (hex t) =? hexId best) targetTiles;
        let closestIsVertical := isVerticallyAligned (hex sourceTile) (hex closestTile) in
        if currentIsVertical && negb closestIsVertical then Some (Some candidate)
        else if negb currentIsVertical && closestIsVertical then Some closest
        else if areHexesInSameDiagonalRow (getId (hex targetTile)) (hexId best) then
          if getId (hex targetTile) <? hexId best then Some (Some candidate)
          else Some closest
        else if negb currentIsVertical && negb closestIsVertical then
          let currentDirectDistance := distance (hex sourceTile) (hex targetTile) in
          let closestDirectDistance := distance (hex sourceTile) (hex closestTile) in
          if currentDirectDistance <? closestDirectDistance then Some (Some candidate)
          else Some closest
        else Some closest
      else Some closest
  end.

(** The loop over the targets of a melee unit. *)
Fixpoint meleeLoop (fuel : nat) (sourceTile : GridTile) (targetTiles : list GridTile)
    (sourceRange : Z) (getTile : Hex → option GridTile)
    (canTraverse : GridTile → bool) (cachingEnabled : bool)
    (remaining : list GridTile) (closest : option TargetResult)
    (cache : PathfindingCache) : option (option TargetResult * PathfindingCache) :=
  match remaining with
  | [] => Some (closest, cache)
  | targetTile :: rest =>
      '(effectiveDistance, cache) ←
        calculateEffectiveDistance fuel (hex sourceTile) (hex targetTile) sourceRange
          getTile (canTraverseToTarget canTraverse targetTile) cachingEnabled cache;
      if negb (canReach effectiveDistance) then
        meleeLoop fuel sourceTile targetTiles sourceRange getTile canTraverse
          cachingEnabled rest closest cache
      else
        closest ← updateClosest sourceTile targetTiles targetTile
                    (movementDistance effectiveDistance) closest;
        meleeLoop fuel sourceTile targetTiles sourceRange getTile canTraverse
          cachingEnabled rest closest cache
  end.

(** The candidates of a ranged unit: the target tiles on a reachable hex. *)
Definition candidateTargets (targetTiles : list GridTile)
    (rangedResult : RangedDistanceResult) : list GridTile :=
  List.filter
    (λ tile, existsb (λ reachableHex, equals reachableHex (hex tile))
               (reachableTargets rangedResult))
    targetTiles.

(** [gridPreset] is accepted by the source and never read; it is left
    out. *)
Definition findClosestTarget (fuel : nat) (sourceTile : GridTile)
    (targetTiles : list GridTile) (sourceRange : Z)
    (getTile : Hex → option GridTile) (canTraverse : GridTile → bool)
    (cachingEnabled : bool) (cache : PathfindingCache)
    : option (option TargetResult * PathfindingCache) :=
  if Z.of_nat (length targetTiles) =? 0 then Some (None, cache)
  else if 1 <? sourceRange then
    let targetHexes := map hex targetTiles in
    let rangedResult :=
      calculateRangedMovementDistance (hex sourceTile) targetHexes sourceRange
        getTile canTraverse in
    if negb (ranged_canReach rangedResult)
       || (Z.of_nat (length (reachableTargets rangedResult)) =? 0)
    then Some (None, cache)
    else
      match candidateTargets targetTiles rangedResult with
      | [] => Some (None, cache)
      | first :: rest =>
          let bestTarget := foldl (chooseBest sourceTile) first rest in
          Some (Some {| hexId := getId (hex bestTarget);
                        target_distance := ranged_movementDistance rangedResult |},
                cache)
      end
  else
    meleeLoop fuel sourceTile targetTiles sourceRange getTile canTraverse
      cachingEnabled targetTiles None cache.

(** ** Closest-target maps *)

(** [tile.character ? (characterRanges.get(tile.character) ?? 1) : 1];
    the empty string is falsy. *)
Definition rangeOf (characterRanges : gmap string Z) (tile : GridTile) : Z :=
  match character tile with
  | Some name =>
      if bool_decide (name = ""%string) then 1
      else default 1 (characterRanges !! name)
  | None => 1
  end.

(** The lookup used when the caller supplies none: a scan of the tiles
    with characters. *)
Definition getTileHelper (tilesWithCharacters : list GridTile)
    (getTile : option (Hex → option GridTile)) : Hex → option GridTile :=
  match getTile with
  | Some lookup => lookup
  | None => λ x, List.find (λ t, equals (hex t) x) tilesWithCharacters
  end.

Definition hasTeam (side : Team) (tile : GridTile) : bool :=
  bool_decide (team tile = Some side).

(** The loop over the source tiles of either map; [mkInfo] builds the
    entry from the hex id of the chosen target and its distance. *)
Fixpoint closestLoop (fuel : nat) (mkInfo : Z → Distance → TargetInfo)
    (characterRanges : gmap string Z) (targetTiles : list GridTile)
    (lookup : Hex → option GridTile) (cachingEnabled : bool)
    (sources : list GridTile) (result : gmap Z TargetInfo)
    (cache : PathfindingCache) : option (gmap Z TargetInfo * PathfindingCache) :=
  match sources with
  | [] => Some (result, cache)
  | sourceTile :: rest =>
      let range := rangeOf characterRanges sourceTile in
      '(closestTarget, cache) ←
        findClosestTarget fuel sourceTile targetTiles range lookup
          defaultCanTraverse cachingEnabled cache;
      let result :=
        match closestTarget with
        | Some found =>
            <[getId (hex sourceTile) := mkInfo (hexId found) (target_distance found)]> result
        | None => result
        end in
      closestLoop fuel mkInfo characterRanges targetTiles lookup cachingEnabled
        rest result cache
  end.

Definition enemyInfo (id : Z) (dist : Distance) : TargetInfo :=
  {| enemyHexId := Some id; allyHexId := None; info_distance := dist |}.

Definition allyInfo (id : Z) (dist : Distance) : TargetInfo :=
  {| enemyHexId := None; allyHexId := Some id; info_distance := dist |}.

Definition getClosestEnemyMap (fuel : nat) (tilesWithCharacters : list GridTile)
    (characterRanges : gmap string Z) (cachingEnabled : bool)
    (getTile : option (Hex → option GridTile)) (cache : PathfindingCache)
    : option (gmap Z TargetInfo * PathfindingCache) :=
  let cacheKey := generateGridCacheKey tilesWithCharacters characterRanges in
  let '(cached, cache) :=
    if cachingEnabled then cacheGetClosestEnemyMap cacheKey cache else (None, cache) in
  match cached with
  | Some found => Some (found, cache)
  | None =>
      let allyTiles := List.filter (hasTeam ALLY) tilesWithCharacters in
      let enemyTiles := List.filter (hasTeam ENEMY) tilesWithCharacters in
      let lookup := getTileHelper tilesWithCharacters getTile in
      '(result, cache) ←
        closestLoop fuel enemyInfo characterRanges enemyTiles lookup cachingEnabled
          allyTiles ∅ cache;
      Some (result,
            if cachingEnabled then cacheSetClosestEnemyMap cacheKey result cache
            else cache)
  end.

Definition getClosestAllyMap (fuel : nat) (tilesWithCharacters : list GridTile)
    (characterRanges : gmap string Z) (cachingEnabled : bool)
    (getTile : option (Hex → option GridTile)) (cache : PathfindingCache)
    : option (gmap Z TargetInfo * PathfindingCache) :=
  let cacheKey := generateGridCacheKey tilesWithCharacters characterRanges in
  let '(cached, cache) :=
    if cachingEnabled then cacheGetClosestAllyMap cacheKey cache else (None, cache) in
  match cached with
  | Some found => Some (found, cache)
  | None =>
      let allyTiles := List.filter (hasTeam ALLY) tilesWithCharacters in
      let enemyTiles := List.filter (hasTeam ENEMY) tilesWithCharacters in
      let lookup := getTileHelper tilesWithCharacters getTile in
      '(result, cache) ←
        closestLoop fuel allyInfo characterRanges allyTiles lookup cachingEnabled
          enemyTiles ∅ cache;
      Some (result,
            if cachingEnabled then cacheSetClosestAllyMap cacheKey result cache
            else cache)
  end.

(** ** Cache management *)

Definition clearPathfindingCache (cache : PathfindingCache) : PathfindingCache :=
  clear cache.

Definition clearSpecificCache (cacheType : CacheType) (cache : PathfindingCache)
    : PathfindingCache :=
  clearSpecific cacheType cache.

Definition getCacheStats (cache : PathfindingCache) : nat * nat * nat * nat :=
  getStats cache.
End Targets.

(** ** A cube-coordinate instance *)

(** Modelled from the spec: the Hex of './hex', a cube coordinate triple
    with an identifier; the distance is half the sum of the coordinate
    differences, the six neighbours are taken in a fixed order of the
    unit directions, [equals] and the string form look at the coordinates
    only, and a hex computed by [neighbor] carries the identifier -1. *)
Module Cube.
Record CubeHex := mkHex { cq : Z; cr : Z; cs : Z; cid : Z }.

Definition directions : list (Z * Z * Z) :=
  [(1, 0, -1); (1, -1, 0); (0, -1, 1); (-1, 0, 1); (-1, 1, 0); (0, 1, -1)].

Definition cube_neighbor (a : CubeHex) (d : nat) : CubeHex :=
  match directions !! d with
  | Some (dq, dr, ds) => mkHex (cq a + dq) (cr a + dr) (cs a + ds) (-1)
  | None => a
  end.

Definition cube_distance (a b : CubeHex) : Z :=
  (Z.abs (cq a - cq b) + Z.abs (cr a - cr b) + Z.abs (cs a - cs b)) / 2.

Definition cube_key (a : CubeHex) : Z * Z * Z := (cq a, cr a, cs a).

Definition cube_equals (a b : CubeHex) : bool :=
  (cq a =? cq b) && (cr a =? cr b) && (cs a =? cs b).

Definition cubeHex : HexOps :=
  {| Hex := CubeHex; HexKey := Z * Z * Z;
     hex_q := cq; distance := cube_distance; neighbor := cube_neighbor;
     equals := cube_equals; toString := cube_key; getId := cid |}.

Definition teamCode (t : option Team) : Z :=
  match t with None => 0 | Some ALLY => 1 | Some ENEMY => 2 end.

(** Modelled from the spec: the key builders of './memoization'.  The
    path key is the triple it is derived from; the grid key is the
    finite map from each occupied hex id to its team and range, which
    does not depend on the order of the tiles. *)
Definition cubeKeys : @CacheKeys cubeHex :=
  {| PathKey := Z * Z * Z;
     generatePathCacheKey := λ a b c, (a, b, c);
     GridKey := gmap Z (Z * Z);
     generateGridCacheKey := λ tiles ranges,
       list_to_map
         (map (λ t : @GridTile cubeHex,
                 (cid (hex t),
                  (teamCode (team t),
                   match character t with
                   | Some name => default 1 (ranges !! name)
                   | None => 1
                   end)))
              tiles) |}.

(** An open board: every cell carries a default tile. *)
Definition openBoard (x : CubeHex) : option (@GridTile cubeHex) :=
  Some (mkTile cubeHex x DEFAULT None None).

(** A board without tiles. *)
Definition emptyBoard (x : CubeHex) : option (@GridTile cubeHex) := None.

(** A board made of the cells listed in [cells], those of [walls] being
    blocked; a cell outside [cells] has no tile. *)
Definition listBoard (cells walls : list (Z * Z * Z)) (x : CubeHex)
    : option (@GridTile cubeHex) :=
  if bool_decide (cube_key x ∈ cells) then
    Some (mkTile cubeHex x
            (if bool_decide (cube_key x ∈ walls) then BLOCKED else DEFAULT)
            None None)
  else None.

(** The seven cells around the origin. *)
Definition ring1 : list (Z * Z * Z) :=
  [(0, 0, 0); (1, 0, -1); (1, -1, 0); (0, -1, 1); (-1, 0, 1); (-1, 1, 0); (0, 1, -1)].
End Cube.

(** * Properties of the path search *)

Section SearchFacts.
Context {M : HexOps} {L : HexLaws M}.

(** Every consecutive pair of a path is one step apart. *)
Definition consecutiveAdjacent (path : list Hex) : Prop :=
  ∀ (i : nat) (a b : Hex),
    path !! i = Some a → path !! S i = Some b → distance a b = 1.

Lemma consecutiveAdjacent_snoc (pre : list Hex) (a b : Hex) :
  consecutiveAdjacent pre → last pre = Some a → distance a b = 1 →
  consecutiveAdjacent (pre ++ [b]).
Proof.
  intros Hpre Hlast Hab i x y Hx Hy.
  destruct (decide (S i < length pre)%nat) as [Hlt|Hge].
  - rewrite lookup_app_l in Hx by lia. rewrite lookup_app_l in Hy by lia.
    eauto.
  - assert (Hi : (i < length pre)%nat).
    { apply lookup_lt_Some in Hy. rewrite length_app in Hy. simpl in Hy. lia. }
    assert (S i = length pre) as Hlen by lia.
    rewrite lookup_app_l in Hx by lia.
    rewrite lookup_app_r in Hy by lia.
    rewrite Hlen, Nat.sub_diag in Hy. simpl in Hy.
    rewrite last_lookup in Hlast.
    replace (pred (length pre)) with i in Hlast by lia.
    congruence.
Qed.

(** The invariant of the node table: keys name their nodes, costs are
    not negative, the only node without a parent is the start node, and
    a parent is a closed node one step and one unit of cost before its
    child. *)
Record SearchInv (start : Hex) (st : SearchState) : Prop := {
  inv_key : ∀ k nd, nodeMap st !! k = Some nd → toString (node_hex nd) = k;
  inv_g : ∀ k nd, nodeMap st !! k = Some nd → 0 ≤ g nd;
  inv_root : ∀ k nd, nodeMap st !! k = Some nd → parent nd = None → node_hex nd = start;
  inv_parent : ∀ k nd pk, nodeMap st !! k = Some nd → parent nd = Some pk →
    ∃ pnd, nodeMap st !! pk = Some pnd ∧ pk ∈ closedSet st ∧
           g nd = g pnd + 1 ∧ distance (node_hex pnd) (node_hex nd) = 1;
}.

Lemma startState_inv (start goal : Hex) : SearchInv start (startState start goal).
Proof.
  split; simpl; intros k nd; intros; simplify_map_eq; simpl in *; try done.
Qed.

(** A closed node is left alone by the visit of a neighbour, and the
    closed set does not change. *)
Lemma visitNeighbor_closed goal getTile canTraverse current st d k :
  k ∈ closedSet st →
  nodeMap (visitNeighbor goal getTile canTraverse current st d) !! k = nodeMap st !! k
  ∧ closedSet (visitNeighbor goal getTile canTraverse current st d) = closedSet st.
Proof.
  intros Hk. unfold visitNeighbor.
  case_bool_decide as Hcl; [done|].
  destruct (getTile _); [|done].
  destruct (negb _); [done|].
  destruct (nodeMap st !! _) eqn:Hnb; simpl.
  - destruct (_ <? _); simpl; [|done].
    split; [|done]. apply lookup_insert_ne. congruence.
  - split; [|done]. apply lookup_insert_ne. congruence.
Qed.

Lemma visitNeighbor_inv start goal getTile canTraverse current st d :
  SearchInv start st → (d < 6)%nat →
  nodeMap st !! toString (node_hex current) = Some current →
  toString (node_hex current) ∈ closedSet st →
  SearchInv start (visitNeighbor goal getTile canTraverse current st d).
Proof.
  intros Hinv Hd Hcur Hclosed. unfold visitNeighbor.
  case_bool_decide as Hcl; [done|].
  destruct (getTile _); [|done].
  destruct (negb _); [done|].
  set (nb := neighbor (node_hex current) d) in *.
  assert (Hne : toString (node_hex current) ≠ toString nb) by congruence.
  destruct (nodeMap st !! toString nb) as [old|] eqn:Hnb.
  - destruct (_ <? _) eqn:Hlt; [|done].
    pose proof (inv_key _ _ Hinv _ _ Hnb) as Hold.
    split; simpl; intros k nd.
    + intros Hl. destruct (decide (toString nb = k)) as [<-|Hk]; simplify_map_eq; [done|].
      eapply inv_key; eauto.
    + intros Hl. destruct (decide (toString nb = k)) as [<-|Hk]; simplify_map_eq.
      * simpl. pose proof (inv_g _ _ Hinv _ _ Hcur). lia.
      * eapply inv_g; eauto.
    + intros Hl Hp. destruct (decide (toString nb = k)) as [<-|Hk]; simplify_map_eq.
      eapply inv_root; eauto.
    + intros pk Hl Hp. destruct (decide (toString nb = k)) as [<-|Hk]; simplify_map_eq.
      * exists current. simpl.
        repeat split; try done.
        rewrite (distance_toString _ (node_hex current) _ nb); [|done..].
        by apply distance_neighbor.
      * destruct (inv_parent _ _ Hinv _ _ _ Hl Hp) as (pnd & Hpl & Hpc & Hg & Hdist).
        exists pnd. rewrite lookup_insert_ne by congruence. done.
  - split; simpl; intros k nd.
    + intros Hl. destruct (decide (toString nb = k)) as [<-|Hk]; simplify_map_eq; [done|].
      eapply inv_key; eauto.
    + intros Hl. destruct (decide (toString nb = k)) as [<-|Hk]; simplify_map_eq.
      * simpl. pose proof (inv_g _ _ Hinv _ _ Hcur). lia.
      * eapply inv_g; eauto.
    + intros Hl Hp. destruct (decide (toString nb = k)) as [<-|Hk]; simplify_map_eq.
      eapply inv_root; eauto.
    + intros pk Hl Hp. destruct (decide (toString nb = k)) as [<-|Hk]; simplify_map_eq.
      * exists current. simpl.
        repeat split; try done. by apply distance_neighbor.
      * destruct (inv_parent _ _ Hinv _ _ _ Hl Hp) as (pnd & Hpl & Hpc & Hg & Hdist).
        exists pnd. rewrite lookup_insert_ne by congruence. done.
Qed.

Lemma visitNeighbors_inv start goal getTile canTraverse current ds st :
  SearchInv start st → Forall (λ d, d < 6)%nat ds →
  nodeMap st !! toString (node_hex current) = Some current →
  toString (node_hex current) ∈ closedSet st →
  SearchInv start (foldl (visitNeighbor goal getTile canTraverse current) st ds).
Proof.
  revert st. induction ds as [|d ds IH]; intros st Hinv Hds Hcur Hcl; [done|].
  inversion Hds; subst. simpl. apply IH; [|done|..].
  - by apply visitNeighbor_inv.
  - destruct (visitNeighbor_closed goal getTile canTraverse current st d _ Hcl) as [-> _].
    done.
  - destruct (visitNeighbor_closed goal getTile canTraverse current st d _ Hcl) as [_ ->].
    done.
Qed.

Lemma directions_lt_6 : Forall (λ d, d < 6)%nat (seq 0 6).
Proof. repeat constructor. Qed.

(** Following the parent links from a node of the table yields a walk
    from the start to that node. *)
Lemma reconstructPath_walk start st fuel k nd acc path :
  SearchInv start st → nodeMap st !! k = Some nd →
  reconstructPath fuel (nodeMap st) (Some k) acc = Some path →
  ∃ pre, path = pre ++ acc ∧ head pre = Some start ∧
         last pre = Some (node_hex nd) ∧ consecutiveAdjacent pre.
Proof.
  intros Hinv. revert k nd acc.
  induction fuel as [|n IH]; intros k nd acc Hk Hrec; [done|].
  simpl in Hrec. rewrite Hk in Hrec. simpl in Hrec.
  destruct (parent nd) as [pk|] eqn:Hp.
  - destruct (inv_parent _ _ Hinv _ _ _ Hk Hp) as (pnd & Hpl & _ & _ & Hdist).
    destruct (IH _ _ _ Hpl Hrec) as (pre & -> & Hhd & Hlast & Hadj).
    exists (pre ++ [node_hex nd]). split; [by rewrite <- app_assoc|].
    split; [by destruct pre|].
    split; [by rewrite last_snoc|].
    by eapply consecutiveAdjacent_snoc.
  - assert (path = node_hex nd :: acc) as ->.
    { destruct n; simpl in Hrec; congruence. }
    exists [node_hex nd]. rewrite (inv_root _ _ Hinv _ _ Hk Hp).
    repeat split; try done.
Qed.

(** Closing a node keeps the invariant. *)
Lemma closeNode_inv start st rest k :
  SearchInv start st →
  SearchInv start {| openSet := rest; closedSet := {[k]} ∪ closedSet st;
                     nodeMap := nodeMap st |}.
Proof.
  intros Hinv. split; cbn [nodeMap closedSet]; [apply Hinv..|].
  intros k' nd pk Hl Hp.
  destruct (inv_parent _ _ Hinv _ _ _ Hl Hp) as (pnd & ? & ? & ? & ?).
  exists pnd. repeat split; try done. by apply elem_of_union_r.
Qed.

(** One iteration of the main loop. *)
Lemma searchLoop_step budget n goal getTile canTraverse st :
  searchLoop budget (S n) goal getTile canTraverse st =
  if isEmpty (openSet st) then Some None
  else match dequeue (openSet st) with
  | None => Some None
  | Some (item, rest) =>
      match nodeMap st !! toString item with
      | None => None
      | Some current =>
          if equals (node_hex current) goal then
            match reconstructPath budget (nodeMap st) (Some (toString item)) [] with
            | None => None
            | Some path => Some (Some path)
            end
          else
            searchLoop budget n goal getTile canTraverse
              (foldl (visitNeighbor goal getTile canTraverse current)
                 {| openSet := rest;
                    closedSet := {[toString (node_hex current)]} ∪ closedSet st;
                    nodeMap := nodeMap st |} (seq 0 6))
      end
  end.
Proof.
  cbn [searchLoop]. destruct (isEmpty _); [reflexivity|].
  destruct (dequeue _) as [[item rest]|]; [|reflexivity].
  destruct (nodeMap st !! toString item); [|reflexivity].
  cbn [mbind option_bind]. destruct (equals _ _); [|reflexivity].
  destruct (reconstructPath _ _ _ _); reflexivity.
Qed.

Lemma searchLoop_walk start goal getTile canTraverse budget fuel st path :
  SearchInv start st →
  searchLoop budget fuel goal getTile canTraverse st = Some (Some path) →
  head path = Some start ∧
  (∃ e, last path = Some e ∧ equals e goal = true) ∧
  consecutiveAdjacent path.
Proof.
  revert st. induction fuel as [|n IH]; intros st Hinv Hrun; [done|].
  rewrite searchLoop_step in Hrun.
  destruct (isEmpty (openSet st)); [done|].
  destruct (dequeue (openSet st)) as [[item rest]|]; [|done].
  destruct (nodeMap st !! toString item) as [current|] eqn:Hcur; [|done].
  destruct (equals (node_hex current) goal) eqn:Hgoal.
  - destruct (reconstructPath budget _ _ _) as [p|] eqn:Hrec; [|done].
    inversion Hrun; subst.
    destruct (reconstructPath_walk _ _ _ _ _ _ _ Hinv Hcur Hrec)
      as (pre & -> & Hhd & Hlast & Hadj).
    rewrite app_nil_r. eauto.
  - apply IH in Hrun; [exact Hrun|].
    pose proof (inv_key _ _ Hinv _ _ Hcur) as Hkey.
    apply visitNeighbors_inv.
    + by apply closeNode_inv.
    + apply directions_lt_6.
    + cbn [nodeMap]. by rewrite Hkey.
    + cbn [closedSet]. apply elem_of_union_l, elem_of_singleton_2. reflexivity.
Qed.

(** When the start is the goal the first node taken from the open set
    ends the search. *)
Lemma findPath_start_is_goal fuel start goal getTile canTraverse :
  equals start goal = true →
  findPath (S fuel) start goal getTile canTraverse = Some (Some [start]).
Proof.
  intros Heq. unfold findPath. rewrite searchLoop_step.
  unfold startState. cbn [openSet nodeMap enqueue isEmpty dequeue].
  rewrite lookup_singleton_eq. cbn [node_hex]. rewrite Heq.
  cbn [reconstructPath]. rewrite lookup_singleton_eq.
  cbn [mbind option_bind parent node_hex]. by destruct fuel.
Qed.
End SearchFacts.

(** ** The priority queue keeps its entries *)

Section PriorityQueueFacts.
Context {T : Type}.
Implicit Types (q : PriorityQueue T) (x y : T) (p : Z).

Lemma enqueue_length x p q : length (enqueue x p q) = S (length q).
Proof.
  induction q as [|[y py] q IH]; [done|].
  cbn [enqueue]. destruct (p <? py); cbn [length]; congruence.
Qed.

Lemma enqueue_elem x p q (e : T * Z) :
  e ∈ enqueue x p q ↔ e = (x, p) ∨ e ∈ q.
Proof.
  induction q as [|[y py] q IH]; cbn [enqueue].
  - rewrite list_elem_of_singleton. set_solver.
  - destruct (p <? py).
    + rewrite elem_of_cons. done.
    + rewrite !elem_of_cons, IH. tauto.
Qed.

Lemma removeEntry_length (found : T → bool) q :
  existsb (λ e, found e.1) q = true →
  S (length (removeEntry found q)) = length q.
Proof.
  induction q as [|[y py] q IH]; [done|].
  cbn [existsb removeEntry fst]. destruct (found y); [done|].
  cbn [orb length]. intros Hex. by rewrite IH.
Qed.

Lemma removeEntry_elem (found : T → bool) q (e : T * Z) :
  e ∈ removeEntry found q → e ∈ q.
Proof.
  induction q as [|[y py] q IH]; [done|].
  cbn [removeEntry]. destruct (found y).
  - rewrite elem_of_cons. tauto.
  - rewrite !elem_of_cons. tauto.
Qed.

Lemma updatePriority_length x p (same : T → T → bool) q :
  length (updatePriority x p same q) = length q.
Proof.
  unfold updatePriority.
  destruct (existsb _ q) eqn:Hex; [|done].
  rewrite enqueue_length. by apply (removeEntry_length (λ y, same y x)).
Qed.

Lemma updatePriority_elem x p (same : T → T → bool) q (e : T * Z) :
  e ∈ updatePriority x p same q → e.1 = x ∨ e ∈ q.
Proof.
  unfold updatePriority. destruct (existsb _ q); [|tauto].
  rewrite enqueue_elem. intros [->|He]; [by left|].
  right. by eapply removeEntry_elem.
Qed.

Lemma dequeue_length x q q' : dequeue q = Some (x, q') → length q = S (length q').
Proof. destruct q as [|[y py] q]; [done|]. cbn. congruence. Qed.

Lemma dequeue_elem x q q' :
  dequeue q = Some (x, q') → (∃ p, (x, p) ∈ q) ∧ ∀ e, e ∈ q' → e ∈ q.
Proof.
  destruct q as [|[y py] q]; [done|]. cbn. intros [= -> ->].
  split; [exists py; rewrite elem_of_cons; tauto|].
  intros e. rewrite elem_of_cons. tauto.
Qed.
End PriorityQueueFacts.

(** ** Termination of the search on a finite board *)

Section SearchTermination.
Context {M : HexOps} {L : HexLaws M}.
Variables (goal : Hex) (getTile : Hex → option GridTile)
          (canTraverse : GridTile → bool).

(** Every entry of the open set has its node in the table. *)
Definition OpenInv (st : SearchState) : Prop :=
  ∀ x p, (x, p) ∈ openSet st → is_Some (nodeMap st !! toString x).

(** No node of the table sits on the goal. *)
Definition NoGoalNode (st : SearchState) : Prop :=
  ∀ k nd, nodeMap st !! k = Some nd → equals (node_hex nd) goal = false.

(** The open entries plus the cells of the board not met so far. *)
Definition searchMeasure (board : gset HexKey) (st : SearchState) : nat :=
  (length (openSet st) + size (board ∖ dom (nodeMap st)))%nat.

Lemma size_unseen_insert (board seen : gset HexKey) (k : HexKey) :
  k ∈ board → k ∉ seen →
  S (size (board ∖ ({[k]} ∪ seen))) = size (board ∖ seen).
Proof.
  intros Hb Hs.
  assert (board ∖ seen = {[k]} ∪ board ∖ ({[k]} ∪ seen)) as ->.
  { apply set_eq. intros x. rewrite !elem_of_union, !elem_of_difference,
      elem_of_union, elem_of_singleton.
    destruct (decide (x = k)) as [->|]; naive_solver. }
  pose proof (size_union (A:=HexKey) (C:=gset HexKey)
                {[k]} (board ∖ ({[k]} ∪ seen))) as Hsize.
  rewrite Hsize by set_solver.
  by rewrite (size_singleton (A:=HexKey) (C:=gset HexKey)).
Qed.

Lemma visitNeighbor_progress board start current st d :
  (∀ x, traversable getTile canTraverse x = true → toString x ∈ board) →
  SearchInv start st → OpenInv st →
  OpenInv (visitNeighbor goal getTile canTraverse current st d)
  ∧ (searchMeasure board (visitNeighbor goal getTile canTraverse current st d)
     ≤ searchMeasure board st)%nat.
Proof.
  intros Hboard Hinv Hopen. unfold visitNeighbor.
  case_bool_decide as Hcl; [done|].
  set (nb := neighbor (node_hex current) d) in *.
  destruct (getTile nb) as [tile|] eqn:Htile; [|done].
  destruct (canTraverse tile) eqn:Hct; [|done]. cbn [negb].
  assert (Hnb_board : toString nb ∈ board).
  { apply Hboard. unfold traversable. by rewrite Htile. }
  destruct (nodeMap st !! toString nb) as [old|] eqn:Hnb.
  - destruct (_ <? _); [|done].
    pose proof (inv_key _ _ Hinv _ _ Hnb) as Hold.
    split.
    + intros x p. cbn [openSet nodeMap node_hex]. intros Hx.
      apply updatePriority_elem in Hx as [Hx|Hx]; cbn [fst] in Hx.
      * subst x. rewrite Hold, lookup_insert_eq. eauto.
      * apply Hopen in Hx as [nd Hx].
        destruct (decide (toString nb = toString x)) as [<-|Hne].
        -- rewrite lookup_insert_eq. eauto.
        -- rewrite lookup_insert_ne by done. eauto.
    + unfold searchMeasure. cbn [openSet nodeMap].
      rewrite updatePriority_length, dom_insert_L.
      assert ({[toString nb]} ∪ dom (nodeMap st) = dom (nodeMap st)) as ->; [|done].
      apply elem_of_dom_2 in Hnb. set_solver.
  - split.
    + intros x p. cbn [openSet nodeMap]. rewrite enqueue_elem.
      intros [[= -> ->]|Hx].
      * rewrite lookup_insert_eq. eauto.
      * apply Hopen in Hx as [nd Hx].
        destruct (decide (toString nb = toString x)) as [<-|Hne].
        -- rewrite lookup_insert_eq. eauto.
        -- rewrite lookup_insert_ne by done. eauto.
    + unfold searchMeasure. cbn [openSet nodeMap].
      rewrite enqueue_length, dom_insert_L.
      apply not_elem_of_dom in Hnb.
      pose proof (size_unseen_insert board (dom (nodeMap st)) _ Hnb_board Hnb).
      lia.
Qed.

Lemma visitNeighbors_progress board start current ds st :
  (∀ x, traversable getTile canTraverse x = true → toString x ∈ board) →
  Forall (λ d, d < 6)%nat ds →
  nodeMap st !! toString (node_hex current) = Some current →
  toString (node_hex current) ∈ closedSet st →
  SearchInv start st → OpenInv st →
  OpenInv (foldl (visitNeighbor goal getTile canTraverse current) st ds)
  ∧ (searchMeasure board (foldl (visitNeighbor goal getTile canTraverse current) st ds)
     ≤ searchMeasure board st)%nat.
Proof.
  intros Hboard. revert st.
  induction ds as [|d ds IH]; intros st Hds Hcur Hcl Hinv Hopen; [done|].
  inversion Hds; subst. cbn [foldl].
  destruct (visitNeighbor_progress board start current st d Hboard Hinv Hopen)
    as [Hopen' Hle].
  destruct (visitNeighbor_closed goal getTile canTraverse current st d _ Hcl)
    as [Hsame Hclosed].
  destruct (IH (visitNeighbor goal getTile canTraverse current st d)) as [Ho Hm];
    try done.
  - by rewrite Hsame.
  - by rewrite Hclosed.
  - by apply visitNeighbor_inv.
  - split; [done|lia].
Qed.

(** When the goal cell cannot be entered, no node is ever put on it. *)
Lemma visitNeighbor_noGoal current st d :
  (∀ x, equals x goal = true → traversable getTile canTraverse x = false) →
  (∀ k nd, nodeMap st !! k = Some nd → toString (node_hex nd) = k) →
  NoGoalNode st →
  NoGoalNode (visitNeighbor goal getTile canTraverse current st d).
Proof.
  intros Hblocked Hkeys Hno. unfold visitNeighbor.
  case_bool_decide as Hcl; [done|].
  set (nb := neighbor (node_hex current) d) in *.
  destruct (getTile nb) as [tile|] eqn:Htile; [|done].
  destruct (canTraverse tile) eqn:Hct; [|done]. cbn [negb].
  assert (Hnb : equals nb goal = false).
  { destruct (equals nb goal) eqn:E; [|done].
    apply Hblocked in E. unfold traversable in E. rewrite Htile in E. congruence. }
  destruct (nodeMap st !! toString nb) as [old|] eqn:Hold.
  - destruct (_ <? _); [|done].
    intros k nd. cbn [nodeMap].
    destruct (decide (toString nb = k)) as [<-|Hne].
    + rewrite lookup_insert_eq. intros [= <-]. cbn [node_hex]. eauto.
    + rewrite lookup_insert_ne by done. apply Hno.
  - intros k nd. cbn [nodeMap].
    destruct (decide (toString nb = k)) as [<-|Hne].
    + rewrite lookup_insert_eq. by intros [= <-].
    + rewrite lookup_insert_ne by done. apply Hno.
Qed.

Lemma visitNeighbors_noGoal start current ds st :
  (∀ x, equals x goal = true → traversable getTile canTraverse x = false) →
  Forall (λ d, d < 6)%nat ds →
  nodeMap st !! toString (node_hex current) = Some current →
  toString (node_hex current) ∈ closedSet st →
  SearchInv start st → NoGoalNode st →
  NoGoalNode (foldl (visitNeighbor goal getTile canTraverse current) st ds).
Proof.
  intros Hblocked. revert st.
  induction ds as [|d ds IH]; intros st Hds Hcur Hcl Hinv Hno; [done|].
  inversion Hds; subst. cbn [foldl].
  destruct (visitNeighbor_closed goal getTile canTraverse current st d _ Hcl)
    as [Hsame Hclosed].
  apply IH; try done.
  - by rewrite Hsame.
  - by rewrite Hclosed.
  - by apply visitNeighbor_inv.
  - apply visitNeighbor_noGoal; [done| |done]. apply Hinv.
Qed.

(** With the goal out of reach of every entry the loop never returns a
    path. *)
Lemma searchLoop_noGoal start budget fuel st path :
  (∀ x, equals x goal = true → traversable getTile canTraverse x = false) →
  SearchInv start st → NoGoalNode st →
  searchLoop budget fuel goal getTile canTraverse st ≠ Some (Some path).
Proof.
  intros Hblocked. revert st.
  induction fuel as [|n IH]; intros st Hinv Hno; [done|].
  rewrite searchLoop_step.
  destruct (isEmpty (openSet st)); [done|].
  destruct (dequeue (openSet st)) as [[item rest]|]; [|done].
  destruct (nodeMap st !! toString item) as [current|] eqn:Hcur; [|done].
  rewrite (Hno _ _ Hcur).
  pose proof (inv_key _ _ Hinv _ _ Hcur) as Hkey.
  apply IH.
  - apply visitNeighbors_inv; [by apply closeNode_inv|apply directions_lt_6|..].
    + cbn [nodeMap]. by rewrite Hkey.
    + cbn [closedSet]. apply elem_of_union_l, elem_of_singleton_2. reflexivity.
  - eapply visitNeighbors_noGoal; [done|apply directions_lt_6|..|done].
    + cbn [nodeMap]. by rewrite Hkey.
    + cbn [closedSet]. apply elem_of_union_l, elem_of_singleton_2. reflexivity.
    + by apply closeNode_inv.
Qed.

(** On a finite board, with the goal out of reach, the loop ends with
    "no path" once the open entries are used up. *)
Lemma searchLoop_exhausts board start budget fuel st :
  (∀ x, equals x goal = true → traversable getTile canTraverse x = false) →
  (∀ x, traversable getTile canTraverse x = true → toString x ∈ board) →
  SearchInv start st → NoGoalNode st → OpenInv st →
  (searchMeasure board st < fuel)%nat →
  searchLoop budget fuel goal getTile canTraverse st = Some None.
Proof.
  intros Hblocked Hboard. revert st.
  induction fuel as [|n IH]; intros st Hinv Hno Hopen Hfuel; [lia|].
  rewrite searchLoop_step.
  destruct (isEmpty (openSet st)); [done|].
  destruct (dequeue (openSet st)) as [[item rest]|] eqn:Hdq; [|done].
  destruct (dequeue_elem _ _ _ Hdq) as [[p Hitem] Hrest].
  destruct (Hopen _ _ Hitem) as [current Hcur]. rewrite Hcur.
  rewrite (Hno _ _ Hcur).
  pose proof (inv_key _ _ Hinv _ _ Hcur) as Hkey.
  set (st1 := {| openSet := rest;
                 closedSet := {[toString (node_hex current)]} ∪ closedSet st;
                 nodeMap := nodeMap st |}).
  assert (Hinv1 : SearchInv start st1) by by apply closeNode_inv.
  assert (Hcur1 : nodeMap st1 !! toString (node_hex current) = Some current).
  { cbn [nodeMap st1]. by rewrite Hkey. }
  assert (Hcl1 : toString (node_hex current) ∈ closedSet st1).
  { cbn [closedSet st1]. apply elem_of_union_l, elem_of_singleton_2. reflexivity. }
  assert (Hopen1 : OpenInv st1).
  { intros x q Hx. apply (Hopen x q). by apply Hrest. }
  destruct (visitNeighbors_progress board start current (seq 0 6) st1 Hboard
              directions_lt_6 Hcur1 Hcl1 Hinv1 Hopen1) as [Hopen2 Hle].
  apply IH.
  - by apply visitNeighbors_inv; [|apply directions_lt_6|..].
  - by eapply visitNeighbors_noGoal; [|apply directions_lt_6|..].
  - done.
  - assert (searchMeasure board st = S (searchMeasure board st1)).
    { unfold searchMeasure. cbn [openSet nodeMap st1].
      by rewrite (dequeue_length _ _ _ Hdq). }
    lia.
Qed.
End SearchTermination.


(** ** The cube instance satisfies the laws *)

Lemma cube_laws : HexLaws Cube.cubeHex.
Proof.
  split.
  - intros [q1 r1 s1 i1] [q2 r2 s2 i2]. cbn.
    unfold Cube.cube_equals, Cube.cube_key. cbn.
    rewrite !andb_true_iff, !Z.eqb_eq. split; [intros [[-> ->] ->]; done|].
    by intros [= -> -> ->].
  - intros [q1 r1 s1 i1] [q2 r2 s2 i2] [q3 r3 s3 i3] [q4 r4 s4 i4]. cbn.
    unfold Cube.cube_key, Cube.cube_distance. cbn.
    by intros [= -> -> ->] [= -> -> ->].
  - intros [q r s i] d Hd. cbn. unfold Cube.cube_distance, Cube.cube_neighbor.
    do 6 (destruct d as [|d]; [cbn; match goal with |- ?x / 2 = 1 => replace x with 2 by lia end; done|]).
    lia.
  - intros [q1 r1 s1 i1] [q2 r2 s2 i2] d. cbn.
    unfold Cube.cube_key, Cube.cube_neighbor. cbn.
    intros [= -> -> ->]. by destruct (Cube.directions !! d) as [[[dq dr] ds]|].
Qed.

(** * The claims about findPath *)

(** C1.  Whenever findPath returns a sequence, the sequence starts with the
    start hex, ends on the goal cell (a hex that [equals] the goal), every
    consecutive pair is at hex distance 1, its length is at least 1, and
    its length is 1 when the start equals the goal. *)
Theorem findPath_returns_walk {M : HexOps} {L : HexLaws M}
    (fuel : nat) (start goal : Hex)
    (getTile : Hex → option GridTile) (canTraverse : GridTile → bool)
    (path : list Hex) :
  findPath fuel start goal getTile canTraverse = Some (Some path) →
  head path = Some start ∧
  (∃ e, last path = Some e ∧ equals e goal = true) ∧
  consecutiveAdjacent path ∧
  (1 ≤ length path)%nat ∧
  (equals start goal = true → length path = 1%nat).
Proof.
  intros Hrun.
  destruct (searchLoop_walk start goal getTile canTraverse fuel fuel
              (startState start goal) path (startState_inv start goal) Hrun)
    as (Hhd & Hlast & Hadj).
  repeat split; try done.
  - destruct path; [done|]. cbn. lia.
  - intros Heq. destruct fuel as [|n]; [done|].
    rewrite (findPath_start_is_goal n start goal getTile canTraverse Heq) in Hrun.
    by inversion Hrun.
Qed.

(** A detour around two blocked cells: the path found has five hexes. *)
Lemma findPath_returns_walk_witness :
  let start := Cube.mkHex 0 0 0 1 in
  let goal := Cube.mkHex 2 (-1) (-1) 2 in
  let path := [Cube.mkHex 0 0 0 1; Cube.mkHex 0 (-1) 1 (-1); Cube.mkHex 1 (-2) 1 (-1);
               Cube.mkHex 2 (-2) 0 (-1); Cube.mkHex 2 (-1) (-1) (-1)] in
  head path = Some start ∧
  (∃ e, last path = Some e ∧ Cube.cube_equals e goal = true) ∧
  @consecutiveAdjacent Cube.cubeHex path ∧
  (1 ≤ length path)%nat ∧
  (Cube.cube_equals start goal = true → length path = 1%nat).
Proof.
  apply (@findPath_returns_walk Cube.cubeHex cube_laws 50
           (Cube.mkHex 0 0 0 1) (Cube.mkHex 2 (-1) (-1) 2)
           (Cube.listBoard
              [(0, 0, 0); (1, 0, -1); (1, -1, 0); (0, -1, 1); (1, -2, 1);
               (2, -2, 0); (2, -1, -1)]
              [(1, 0, -1); (1, -1, 0)])
           defaultCanTraverse).
  vm_compute. reflexivity.
Defined.

(** C9.  findPath checks traversability only when a cell is entered as a
    neighbour.  (1) For every lookup and predicate findPath(s, s) is the
    one-element sequence [s]: the result does not depend on the lookup.
    (2) When the start differs from the goal and the goal cell has no
    tile or a tile the predicate rejects, findPath never returns a path,
    and on a board with finitely many traversable cells it returns
    "no path" within as many iterations as the board has cells, plus
    one. *)
Theorem findPath_checks_entered_cells {M : HexOps} {L : HexLaws M} :
  (∀ (fuel : nat) (s : Hex) (getTile : Hex → option GridTile)
     (canTraverse : GridTile → bool),
     findPath (S fuel) s s getTile canTraverse = Some (Some [s]))
  ∧
  (∀ (start goal : Hex) (getTile : Hex → option GridTile)
     (canTraverse : GridTile → bool),
     equals start goal = false →
     (∀ x, equals x goal = true → traversable getTile canTraverse x = false) →
     (∀ fuel path, findPath fuel start goal getTile canTraverse ≠ Some (Some path))
     ∧
     (∀ board : gset HexKey,
        (∀ x, traversable getTile canTraverse x = true → toString x ∈ board) →
        ∀ fuel, (size board + 1 < fuel)%nat →
          findPath fuel start goal getTile canTraverse = Some None)).
Proof.
  split.
  - intros fuel s getTile canTraverse. apply findPath_start_is_goal.
    by apply equals_toString.
  - intros start goal getTile canTraverse Hne Hblocked.
    assert (Hno : NoGoalNode goal (startState start goal)).
    { intros k nd. unfold startState. cbn [nodeMap].
      intros Hl. apply lookup_singleton_Some in Hl as [_ <-]. done. }
    split.
    + intros fuel path. unfold findPath.
      by apply (searchLoop_noGoal goal getTile canTraverse start);
        [|apply startState_inv|].
    + intros board Hboard fuel Hfuel. unfold findPath.
      apply (searchLoop_exhausts goal getTile canTraverse board start);
        [done|done|apply startState_inv|done| |].
      * intros x p. unfold startState. cbn [openSet nodeMap enqueue].
        rewrite list_elem_of_singleton. intros [= -> ->].
        rewrite lookup_singleton_eq. eauto.
      * unfold searchMeasure, startState. cbn [openSet nodeMap enqueue length].
        assert (size (board ∖ dom ({[toString start :=
          {| node_hex := start; g := 0; h := distance start goal;
             f := distance start goal; parent := None |}]} : gmap HexKey PathNode))
                ≤ size board)%nat; [|lia].
        apply subseteq_size. set_solver.
Qed.

(** The ring around the origin with the goal cell blocked: the search from
    the origin ends with "no path" within nine iterations, and a search
    from a cell to itself succeeds on a board without tiles. *)
Lemma findPath_checks_entered_cells_witness :
  @findPath Cube.cubeHex 1 (Cube.mkHex 4 (-4) 0 7) (Cube.mkHex 4 (-4) 0 7)
    Cube.emptyBoard defaultCanTraverse = Some (Some [Cube.mkHex 4 (-4) 0 7])
  ∧ @findPath Cube.cubeHex 9 (Cube.mkHex 0 0 0 1) (Cube.mkHex 1 0 (-1) 2)
      (Cube.listBoard Cube.ring1 [(1, 0, -1)]) defaultCanTraverse = Some None.
Proof.
  destruct (@findPath_checks_entered_cells Cube.cubeHex cube_laws) as [Hself Hblocked].
  split; [apply Hself|].
  destruct (Hblocked (Cube.mkHex 0 0 0 1) (Cube.mkHex 1 0 (-1) 2)
              (Cube.listBoard Cube.ring1 [(1, 0, -1)]) defaultCanTraverse)
    as [_ Hends].
  - reflexivity.
  - intros [q r s i]. cbn. unfold Cube.cube_equals. cbn.
    rewrite !andb_true_iff, !Z.eqb_eq. intros [[-> ->] ->]. reflexivity.
  - apply (Hends (list_to_set Cube.ring1)).
    + intros x. unfold traversable, Cube.listBoard.
      case_bool_decide as Hin; [|done]. intros _.
      change (Cube.cube_key x ∈ (list_to_set Cube.ring1 : gset (Z * Z * Z))).
      by apply elem_of_list_to_set.
    + vm_compute. lia.
Defined.

(** * The claims about calculateEffectiveDistance *)

Section EffectiveDistanceFacts.
Context `{CacheKeys}.

(** The call computes its result: caching is disabled, or the cache holds
    no entry under the key of the query. *)
Definition computesAfresh (cachingEnabled : bool) (cache : PathfindingCache)
    (start goal : Hex) (range : Z) : Prop :=
  cachingEnabled = true →
  memo_lookup (generatePathCacheKey (getId start) (getId goal) range)
    (entries (effectiveDistanceCache cache)) = None.

(** The cache a computing call leaves behind. *)
Definition cacheAfter (cachingEnabled : bool) (cache : PathfindingCache)
    (start goal : Hex) (range : Z) (result : DistanceResult) : PathfindingCache :=
  if cachingEnabled
  then setEffectiveDistance (generatePathCacheKey (getId start) (getId goal) range)
         result cache
  else cache.

Lemma getEffectiveDistance_miss (key : PathKey) (cache : PathfindingCache) :
  memo_lookup key (entries (effectiveDistanceCache cache)) = None →
  getEffectiveDistance key cache = (None, cache).
Proof.
  intros Hmiss. unfold getEffectiveDistance, memo_get. rewrite Hmiss.
  by destruct cache.
Qed.

(** A computing call is the computation of the function body. *)
Lemma calculateEffectiveDistance_afresh fuel start goal range getTile canTraverse
    cachingEnabled cache :
  computesAfresh cachingEnabled cache start goal range →
  calculateEffectiveDistance fuel start goal range getTile canTraverse
    cachingEnabled cache =
  if distance start goal <=? range then
    let result := {| movementDistance := Finite 0; canReach := true;
                     directDistance := distance start goal |} in
    Some (result, cacheAfter cachingEnabled cache start goal range result)
  else
    path ← findPath fuel start goal getTile canTraverse;
    let result :=
      match path with
      | None => {| movementDistance := Infinity; canReach := false;
                   directDistance := distance start goal |}
      | Some p => {| movementDistance :=
                       Finite (Z.max 0 (Z.of_nat (length p) - 1 - range));
                     canReach := true;
                     directDistance := distance start goal |}
      end in
    Some (result, cacheAfter cachingEnabled cache start goal range result).
Proof.
  intros Hfresh. unfold calculateEffectiveDistance, cacheAfter.
  destruct cachingEnabled.
  - rewrite getEffectiveDistance_miss by by apply Hfresh.
    destruct (_ <=? _); [done|].
    destruct (findPath _ _ _ _ _) as [[p|]|]; done.
  - destruct (_ <=? _); [done|].
    destruct (findPath _ _ _ _ _) as [[p|]|]; done.
Qed.
End EffectiveDistanceFacts.

(** C6.  When the goal is within range the result is movement distance 0,
    reachable, with the direct distance; this holds with any step budget
    for the path search, the empty one included, and for every lookup and
    predicate: the search is not invoked and neither of them is
    consulted.  The call is one that computes its result (caching off, or
    no entry under its key). *)
Theorem calculateEffectiveDistance_within_range `{CacheKeys}
    (fuel : nat) (start goal : Hex) (range : Z)
    (getTile : Hex → option GridTile) (canTraverse : GridTile → bool)
    (cachingEnabled : bool) (cache : PathfindingCache) :
  computesAfresh cachingEnabled cache start goal range →
  distance start goal ≤ range →
  let result := {| movementDistance := Finite 0; canReach := true;
                   directDistance := distance start goal |} in
  calculateEffectiveDistance fuel start goal range getTile canTraverse
    cachingEnabled cache
  = Some (result, cacheAfter cachingEnabled cache start goal range result)
  ∧ calculateEffectiveDistance 0 start goal range getTile canTraverse
      cachingEnabled cache
    = Some (result, cacheAfter cachingEnabled cache start goal range result).
Proof.
  intros Hfresh Hle result.
  rewrite !calculateEffectiveDistance_afresh by done.
  apply Z.leb_le in Hle. by rewrite Hle.
Qed.

(** Two cells apart with range 2, on a board without tiles and with no
    step budget, cache enabled and empty. *)
Lemma calculateEffectiveDistance_within_range_witness :
  let start := Cube.mkHex 0 0 0 1 in
  let goal := Cube.mkHex 2 (-2) 0 2 in
  let result := {| movementDistance := Finite 0; canReach := true; directDistance := 2 |} in
  let after := @setEffectiveDistance Cube.cubeHex Cube.cubeKeys (1, 2, 2) result
                 newPathfindingCache in
  @calculateEffectiveDistance Cube.cubeHex Cube.cubeKeys 5 start goal 2
    Cube.emptyBoard defaultCanTraverse true newPathfindingCache = Some (result, after)
  ∧ @calculateEffectiveDistance Cube.cubeHex Cube.cubeKeys 0 start goal 2
      Cube.emptyBoard defaultCanTraverse true newPathfindingCache = Some (result, after).
Proof.
  apply (@calculateEffectiveDistance_within_range Cube.cubeHex Cube.cubeKeys 5
           (Cube.mkHex 0 0 0 1) (Cube.mkHex 2 (-2) 0 2) 2
           Cube.emptyBoard defaultCanTraverse true newPathfindingCache).
  - intros _. reflexivity.
  - vm_compute. discriminate.
Defined.

(** C2.  When the goal is out of range and findPath returns a path, the
    result is reachable and its movement distance is the number of steps
    of the path minus the range, floored at 0. *)
Theorem calculateEffectiveDistance_path_found `{CacheKeys}
    (fuel : nat) (start goal : Hex) (range : Z)
    (getTile : Hex → option GridTile) (canTraverse : GridTile → bool)
    (cachingEnabled : bool) (cache : PathfindingCache) (path : list Hex) :
  computesAfresh cachingEnabled cache start goal range →
  range < distance start goal →
  findPath fuel start goal getTile canTraverse = Some (Some path) →
  ∃ result cache',
    calculateEffectiveDistance fuel start goal range getTile canTraverse
      cachingEnabled cache = Some (result, cache')
    ∧ canReach result = true
    ∧ movementDistance result
      = Finite (Z.max 0 ((Z.of_nat (length path) - 1) - range)).
Proof.
  intros Hfresh Hlt Hpath.
  rewrite calculateEffectiveDistance_afresh by done.
  apply Z.leb_gt in Hlt. rewrite Hlt, Hpath. cbn. eauto.
Qed.

(** Three steps to the goal with range 1 on the open board: two tiles of
    movement. *)
Lemma calculateEffectiveDistance_path_found_witness :
  ∃ result cache',
    @calculateEffectiveDistance Cube.cubeHex Cube.cubeKeys 20
      (Cube.mkHex 0 0 0 1) (Cube.mkHex 3 (-3) 0 13) 1
      Cube.openBoard defaultCanTraverse false newPathfindingCache
    = Some (result, cache')
    ∧ canReach result = true
    ∧ movementDistance result = Finite (Z.max 0 ((Z.of_nat 4 - 1) - 1)).
Proof.
  apply (@calculateEffectiveDistance_path_found Cube.cubeHex Cube.cubeKeys 20
           (Cube.mkHex 0 0 0 1) (Cube.mkHex 3 (-3) 0 13) 1
           Cube.openBoard defaultCanTraverse false newPathfindingCache
           [Cube.mkHex 0 0 0 1; Cube.mkHex 1 (-1) 0 (-1); Cube.mkHex 2 (-2) 0 (-1);
            Cube.mkHex 3 (-3) 0 (-1)]).
  - intros Hon. discriminate Hon.
  - vm_compute. reflexivity.
  - vm_compute. reflexivity.
Defined.

(** C8.  When the goal is out of range and findPath returns "no path", the
    call returns a result structure (it does not fail) with canReach
    false, an infinite movement distance and the direct distance. *)
Theorem calculateEffectiveDistance_unreachable `{CacheKeys}
    (fuel : nat) (start goal : Hex) (range : Z)
    (getTile : Hex → option GridTile) (canTraverse : GridTile → bool)
    (cachingEnabled : bool) (cache : PathfindingCache) :
  computesAfresh cachingEnabled cache start goal range →
  range < distance start goal →
  findPath fuel start goal getTile canTraverse = Some None →
  let result := {| movementDistance := Infinity; canReach := false;
                   directDistance := distance start goal |} in
  calculateEffectiveDistance fuel start goal range getTile canTraverse
    cachingEnabled cache
  = Some (result, cacheAfter cachingEnabled cache start goal range result).
Proof.
  intros Hfresh Hlt Hpath result.
  rewrite calculateEffectiveDistance_afresh by done.
  apply Z.leb_gt in Hlt. by rewrite Hlt, Hpath.
Qed.

(** A goal behind a wall that cuts the board in two. *)
Lemma calculateEffectiveDistance_unreachable_witness :
  let board := Cube.listBoard
                 [(0, 0, 0); (1, -1, 0); (1, 0, -1); (2, -2, 0); (2, -1, -1); (3, -2, -1)]
                 [(2, -2, 0); (2, -1, -1)] in
  @calculateEffectiveDistance Cube.cubeHex Cube.cubeKeys 20
    (Cube.mkHex 0 0 0 1) (Cube.mkHex 3 (-2) (-1) 6) 1 board defaultCanTraverse
    false newPathfindingCache
  = Some ({| movementDistance := Infinity; canReach := false; directDistance := 3 |},
          newPathfindingCache).
Proof.
  apply (@calculateEffectiveDistance_unreachable Cube.cubeHex Cube.cubeKeys 20
           (Cube.mkHex 0 0 0 1) (Cube.mkHex 3 (-2) (-1) 6) 1
           (Cube.listBoard
              [(0, 0, 0); (1, -1, 0); (1, 0, -1); (2, -2, 0); (2, -1, -1); (3, -2, -1)]
              [(2, -2, 0); (2, -1, -1)])
           defaultCanTraverse false newPathfindingCache).
  - intros Hon. discriminate Hon.
  - vm_compute. reflexivity.
  - vm_compute. reflexivity.
Defined.

(** * The claim about the diagonal rows *)

(** The row sizes listed for rows 1 to 15. *)
Definition listedRowSizes : list Z := [2; 3; 2; 3; 4; 3; 4; 3; 4; 3; 4; 3; 2; 3; 2].

(** The partition as the specification words it: the listed sizes, taken
    as a cycle that goes on after row 15. *)
Definition cyclicRowSize (n : nat) : Z := nth ((n - 1) mod 15) listedRowSizes 0.

(** The partition the function computes: the listed sizes for rows 1 to
    15, then rows of 3, 4, 3 and 2 identifiers, repeating. *)
Definition computedRowSize (n : nat) : Z :=
  if (n <=? 15)%nat then nth (n - 1) listedRowSizes 0
  else nth ((n - 16) mod 4) [3; 4; 3; 2] 0.

(** The last identifier of row [n] when the rows are consecutive, start at
    identifier 1 and row [k] has [size k] identifiers. *)
Fixpoint lastIdOfRow (size : nat → Z) (n : nat) : Z :=
  match n with
  | O => 0
  | S m => lastIdOfRow size m + size (S m)
  end.

Definition inRow (size : nat → Z) (n : nat) (id : Z) : Prop :=
  (1 ≤ n)%nat ∧ lastIdOfRow size (n - 1) < id ≤ lastIdOfRow size n.

Definition sameRow (size : nat → Z) (id1 id2 : Z) : Prop :=
  ∃ n, inRow size n id1 ∧ inRow size n id2.

Definition inRowb (size : nat → Z) (n : nat) (id : Z) : bool :=
  (1 <=? n)%nat && (lastIdOfRow size (n - 1) <? id) && (id <=? lastIdOfRow size n).

(** The number the function gives to row [n] of its partition: the rows
    after the table are numbered from 17. *)
Definition rowLabel (n : nat) : Z :=
  if (n <=? 15)%nat then Z.of_nat n else Z.of_nat n + 1.

Lemma inRowb_spec size n id : inRowb size n id = true ↔ inRow size n id.
Proof.
  unfold inRowb, inRow.
  rewrite !andb_true_iff, Nat.leb_le, Z.ltb_lt, Z.leb_le. tauto.
Qed.

Lemma computedRowSize_pos n : (1 ≤ n)%nat → 2 ≤ computedRowSize n ≤ 4.
Proof.
  intros Hn. unfold computedRowSize.
  destruct (n <=? 15)%nat eqn:Hle.
  - apply Nat.leb_le in Hle.
    do 16 (destruct n as [|n]; [cbn; lia|]). lia.
  - pose proof (Nat.mod_upper_bound (n - 16) 4 ltac:(lia)) as Hm.
    destruct ((n - 16) mod 4)%nat as [|[|[|[|k]]]]; cbn; lia.
Qed.

Lemma lastIdOfRow_mono size n m :
  (∀ k, (1 ≤ k)%nat → 0 < size k) → (n < m)%nat →
  lastIdOfRow size n < lastIdOfRow size m.
Proof.
  intros Hpos Hlt. induction Hlt as [|m Hlt IH]; cbn [lastIdOfRow].
  - pose proof (Hpos (S n) ltac:(lia)). lia.
  - pose proof (Hpos (S m) ltac:(lia)). lia.
Qed.

(** A positive identifier lies in one row only. *)
Lemma inRow_unique size n m id :
  (∀ k, (1 ≤ k)%nat → 0 < size k) →
  inRow size n id → inRow size m id → n = m.
Proof.
  intros Hpos [Hn [Hn1 Hn2]] [Hm [Hm1 Hm2]].
  destruct (Nat.lt_trichotomy n m) as [Hlt|[->|Hlt]]; [|done|].
  - destruct (decide (n = m - 1)%nat) as [->|Hne]; [lia|].
    pose proof (lastIdOfRow_mono size n (m - 1) Hpos ltac:(lia)). lia.
  - destruct (decide (m = n - 1)%nat) as [->|Hne]; [lia|].
    pose proof (lastIdOfRow_mono size m (n - 1) Hpos ltac:(lia)). lia.
Qed.

Lemma computedRowSize_fallback n :
  (16 ≤ n)%nat → fallbackRowSize (Z.of_nat n) = computedRowSize n.
Proof.
  intros Hn. unfold computedRowSize, fallbackRowSize.
  replace (n <=? 15)%nat with false by (symmetry; apply Nat.leb_gt; lia).
  assert (∃ k r, n = (16 + 4 * k + r)%nat ∧ (r < 4)%nat) as (k & r & -> & Hr).
  { exists ((n - 16) / 4)%nat, ((n - 16) mod 4)%nat.
    pose proof (Nat.div_mod_eq (n - 16) 4).
    pose proof (Nat.mod_upper_bound (n - 16) 4 ltac:(lia)). lia. }
  replace ((16 + 4 * k + r - 16) mod 4)%nat with r.
  2:{ replace (16 + 4 * k + r - 16)%nat with (r + k * 4)%nat by lia.
      rewrite Nat.Div0.mod_add. symmetry. by apply Nat.mod_small. }
  replace (Z.of_nat (16 + 4 * k + r)) with (Z.of_nat r + (4 + Z.of_nat k) * 4) by lia.
  rewrite Z_mod_plus_full.
  replace ((Z.of_nat r + (4 + Z.of_nat k) * 4) mod 2)
    with (Z.of_nat r mod 2).
  2:{ replace (Z.of_nat r + (4 + Z.of_nat k) * 4)
        with (Z.of_nat r + (2 * (4 + Z.of_nat k)) * 2) by lia.
      by rewrite Z_mod_plus_full. }
  destruct r as [|[|[|[|r]]]]; [| | | |lia]; cbn [nth Z.of_nat].
  - replace (4 <? _) with true by (symmetry; apply Z.ltb_lt; lia). done.
  - replace (4 <? _) with true by (symmetry; apply Z.ltb_lt; lia). done.
  - replace (4 <? _) with true by (symmetry; apply Z.ltb_lt; lia). done.
  - replace (4 <? _) with true by (symmetry; apply Z.ltb_lt; lia). done.
Qed.

Lemma tableRow_None i endings id :
  Forall (λ e, e < id) endings → tableRow i endings id = None.
Proof.
  revert i. induction endings as [|e endings IH]; intros i Hall; [done|].
  inversion Hall; subst. cbn [tableRow].
  replace (id <=? e) with false by (symmetry; apply Z.leb_gt; lia).
  by apply IH.
Qed.

(** The fallback loop walks the rows of the computed partition from row
    [n] on and returns the number after the index of the row it stops in. *)
Lemma fallbackRow_row fuel n id :
  (16 ≤ n)%nat →
  lastIdOfRow computedRowSize (n - 1) < id →
  id - lastIdOfRow computedRowSize (n - 1) ≤ Z.of_nat fuel →
  ∃ m, (n ≤ m)%nat ∧ inRow computedRowSize m id ∧
       fallbackRow fuel id (lastIdOfRow computedRowSize (n - 1)) (Z.of_nat n)
       = Z.of_nat m + 1.
Proof.
  revert n. induction fuel as [|fuel IH]; intros n Hn Hlt Hfuel; [lia|].
  cbn [fallbackRow].
  replace (_ <? id) with true by (symmetry; apply Z.ltb_lt; lia).
  rewrite computedRowSize_fallback by done.
  assert (Hend : lastIdOfRow computedRowSize (n - 1) + computedRowSize n
                 = lastIdOfRow computedRowSize n).
  { destruct n; [lia|]. cbn [lastIdOfRow]. by replace (S n - 1)%nat with n by lia. }
  rewrite Hend.
  destruct (id <=? lastIdOfRow computedRowSize n) eqn:Hin.
  - apply Z.leb_le in Hin. exists n. split; [done|].
    split; [|done]. split; [lia|]. lia.
  - apply Z.leb_gt in Hin.
    pose proof (computedRowSize_pos n ltac:(lia)).
    destruct (IH (S n)) as (m & Hm & Hrow & Hres).
    + lia.
    + by replace (S n - 1)%nat with n by lia.
    + replace (S n - 1)%nat with n by lia. lia.
    + exists m. split; [lia|]. split; [done|].
      replace (S n - 1)%nat with n in Hres by lia.
      by replace (Z.of_nat n + 1) with (Z.of_nat (S n)) by lia.
Qed.

(** The table part, checked identifier by identifier. *)
Lemma getRowNumber_table id :
  0 < id ≤ 45 →
  ∃ n, (n ≤ 15)%nat ∧ inRow computedRowSize n id ∧ getRowNumber id = Z.of_nat n.
Proof.
  intros Hid.
  assert (Hall : forallb
            (λ k, let n := Z.to_nat (getRowNumber (Z.of_nat k)) in
                  (n <=? 15)%nat && inRowb computedRowSize n (Z.of_nat k)
                  && (getRowNumber (Z.of_nat k) =? Z.of_nat n))
            (seq 1 45) = true) by (vm_compute; reflexivity).
  rewrite forallb_forall in Hall.
  specialize (Hall (Z.to_nat id)).
  rewrite Z2Nat.id in Hall by lia.
  assert (Hin : In (Z.to_nat id) (seq 1 45)) by (apply in_seq; lia).
  apply Hall in Hin. cbv zeta in Hin.
  rewrite !andb_true_iff in Hin. destruct Hin as [[Hle Hrow] Heq].
  exists (Z.to_nat (getRowNumber id)).
  apply Nat.leb_le in Hle. apply inRowb_spec in Hrow. apply Z.eqb_eq in Heq.
  done.
Qed.

Lemma rowLabel_inj n m : rowLabel n = rowLabel m → n = m.
Proof.
  unfold rowLabel.
  destruct (n <=? 15)%nat eqn:Hn, (m <=? 15)%nat eqn:Hm;
    rewrite ?Nat.leb_le, ?Nat.leb_gt in *; lia.
Qed.

(** The row number of a positive identifier is the label of its row in
    the computed partition. *)
Lemma getRowNumber_row id :
  0 < id → ∃ n, inRow computedRowSize n id ∧ getRowNumber id = rowLabel n.
Proof.
  intros Hpos. destruct (decide (id ≤ 45)) as [Hle|Hgt].
  - destruct (getRowNumber_table id ltac:(lia)) as (n & Hn & Hrow & Heq).
    exists n. split; [done|]. unfold rowLabel.
    by replace (n <=? 15)%nat with true by (symmetry; apply Nat.leb_le; lia).
  - unfold getRowNumber. rewrite tableRow_None.
    2:{ unfold rowEndings. repeat (constructor; [lia|]). constructor. }
    change 45 with (lastIdOfRow computedRowSize (16 - 1)).
    change 16 with (Z.of_nat 16).
    destruct (fallbackRow_row (Z.to_nat id) 16 id) as (m & Hm & Hrow & Heq).
    + lia.
    + change (lastIdOfRow computedRowSize (16 - 1)) with 45. lia.
    + change (lastIdOfRow computedRowSize (16 - 1)) with 45. lia.
    + exists m. split; [done|]. rewrite Heq. unfold rowLabel.
      by replace (m <=? 15)%nat with false by (symmetry; apply Nat.leb_gt; lia).
Qed.

(** C7, as amended.  For positive identifiers the function holds exactly
    when both lie in the same row of the partition into consecutive rows
    whose sizes are 2,3,2,3,4,3,4,3,4,3,4,3,2,3,2 for rows 1 to 15
    (identifiers 1 to 45) and then 3,4,3,2 repeating (46-48, 49-52, 53-55,
    56-57, and so on). *)
Theorem areHexesInSameDiagonalRow_partition (id1 id2 : Z) :
  0 < id1 → 0 < id2 →
  (areHexesInSameDiagonalRow id1 id2 = true ↔ sameRow computedRowSize id1 id2).
Proof.
  intros H1 H2.
  destruct (getRowNumber_row id1 H1) as (n1 & Hrow1 & Heq1).
  destruct (getRowNumber_row id2 H2) as (n2 & Hrow2 & Heq2).
  assert (Hpos : ∀ k, (1 ≤ k)%nat → 0 < computedRowSize k).
  { intros k Hk. pose proof (computedRowSize_pos k Hk). lia. }
  unfold areHexesInSameDiagonalRow. rewrite Z.eqb_eq, Heq1, Heq2. split.
  - intros Heq%rowLabel_inj. subst n2. by exists n1.
  - intros (n & Ha & Hb).
    rewrite (inRow_unique _ _ _ _ Hpos Hrow1 Ha).
    by rewrite (inRow_unique _ _ _ _ Hpos Hrow2 Hb).
Qed.

(** Identifiers 50 and 52 share the four-identifier row 49-52. *)
Lemma areHexesInSameDiagonalRow_partition_witness :
  areHexesInSameDiagonalRow 50 52 = true ↔ sameRow computedRowSize 50 52.
Proof.
  apply (areHexesInSameDiagonalRow_partition 50 52); lia.
Defined.

Lemma cyclicRowSize_pos n : 0 < cyclicRowSize n.
Proof.
  unfold cyclicRowSize.
  pose proof (Nat.mod_upper_bound (n - 1) 15 ltac:(lia)) as Hm.
  generalize dependent ((n - 1) mod 15)%nat. intros r Hr.
  do 15 (destruct r as [|r]; [cbn; lia|]). lia.
Qed.

(** C7, as stated, fails beyond the table: if the listed sizes went on as
    a cycle, row 16 would be 46-47 and row 17 would start at 48, but the
    function puts 47 and 48 in one row. *)
Lemma cyclic_rows_counterexample :
  ¬ (areHexesInSameDiagonalRow 47 48 = true ↔ sameRow cyclicRowSize 47 48).
Proof.
  intros [Hto _].
  destruct (Hto ltac:(vm_compute; reflexivity)) as (n & H47 & H48).
  assert (Hrow : inRow cyclicRowSize 16 47).
  { apply inRowb_spec. vm_compute. reflexivity. }
  assert (n = 16%nat) as ->.
  { eapply inRow_unique; [|exact H47|exact Hrow].
    intros k _. apply cyclicRowSize_pos. }
  apply inRowb_spec in H48. vm_compute in H48. discriminate.
Qed.

(** * The claim about the ranged search *)

Section RangedFacts.
Context {M : HexOps} {L : HexLaws M}.
Variables (targets : list Hex) (range : Z)
          (getTile : Hex → option GridTile) (canTraverse : GridTile → bool).

(** [reachableIn start n x]: [x] is reached from [start] by [n] moves, each
    into a traversable neighbour. *)
Inductive reachableIn (start : Hex) : nat → Hex → Prop :=
  | reach_start : reachableIn start 0 start
  | reach_step n x d :
      reachableIn start n x → (d < 6)%nat →
      traversable getTile canTraverse (neighbor x d) = true →
      reachableIn start (S n) (neighbor x d).

(** Some target is within range of [x]. *)
Definition targetInRange (x : Hex) : Prop :=
  ∃ t, t ∈ targets ∧ distance x t ≤ range.

(** The pairs of a hex of the queue and a direction, in the order in which
    a layer visits them. *)
Definition layerSteps (ds : list nat) (queue : list Hex) : list (Hex * nat) :=
  flat_map (λ y, map (pair y) ds) queue.

(** What holds of the variables of a layer after the steps [done]. *)
Record LayerInv (seen : gset HexKey) (done : list (Hex * nat)) (st : LayerState)
    : Prop := {
  li_visited : ∀ key, key ∈ visited st ↔
    key ∈ seen ∨ ∃ x, x ∈ nextQueue st ∧ toString x = key;
  li_next : ∀ x, x ∈ nextQueue st →
    ∃ y d, (y, d) ∈ done ∧ x = neighbor y d ∧
           traversable getTile canTraverse x = true;
  li_done : ∀ y d, (y, d) ∈ done →
    traversable getTile canTraverse (neighbor y d) = true →
    toString (neighbor y d) ∈ visited st;
  li_found : ∀ t, t ∈ reachableAtThisDistance st ↔
    t ∈ targets ∧ ∃ x, x ∈ nextQueue st ∧ distance x t ≤ range;
}.

Lemma visitDirection_cases y st d :
  (visitDirection targets range getTile canTraverse y st d = st
   ∧ ((toString (neighbor y d) ∈ visited st)
      ∨ (traversable getTile canTraverse (neighbor y d) = false)))
  ∨ (visitDirection targets range getTile canTraverse y st d
     = {| visited := {[toString (neighbor y d)]} ∪ visited st;
          nextQueue := nextQueue st ++ [neighbor y d];
          reachableAtThisDistance :=
            reachableAtThisDistance st
            ++ List.filter (inRange range (neighbor y d)) targets |}
     ∧ (toString (neighbor y d) ∉ visited st)
     ∧ traversable getTile canTraverse (neighbor y d) = true).
Proof.
  unfold visitDirection, traversable.
  case_bool_decide as Hin; [left; split; [done|by left]|].
  destruct (getTile (neighbor y d)) as [tile|]; [|left; split; [done|by right]].
  destruct (canTraverse tile); cbn [negb]; [by right|left; split; [done|by right]].
Qed.

Lemma visitDirection_inv seen done st y d :
  LayerInv seen done st →
  LayerInv seen (done ++ [(y, d)])
    (visitDirection targets range getTile canTraverse y st d).
Proof.
  intros Hinv.
  destruct (visitDirection_cases y st d) as [[-> Hskip]|(-> & Hnew & Htrav)].
  - split.
    + apply Hinv.
    + intros x Hx. destruct (li_next _ _ _ Hinv x Hx) as (y' & d' & ? & ? & ?).
      exists y', d'. rewrite elem_of_app. tauto.
    + intros y' d'. rewrite elem_of_app, list_elem_of_singleton.
      intros [Hold|[= -> ->]] Ht; [by eapply li_done|].
      destruct Hskip as [Hin|Hno]; [done|congruence].
    + apply Hinv.
  - split; cbn [visited nextQueue reachableAtThisDistance].
    + intros key. rewrite elem_of_union, elem_of_singleton, (li_visited _ _ _ Hinv).
      split.
      * intros [->|[Hs|(x & Hx & Hk)]]; [|by left|].
        -- right. exists (neighbor y d). rewrite elem_of_app, list_elem_of_singleton. tauto.
        -- right. exists x. rewrite elem_of_app. tauto.
      * intros [Hs|(x & Hx & Hk)]; [right; by left|].
        rewrite elem_of_app, list_elem_of_singleton in Hx.
        destruct Hx as [Hx| ->]; [|by left]. right. right. eauto.
    + intros x. rewrite elem_of_app, list_elem_of_singleton. intros [Hx| ->].
      * destruct (li_next _ _ _ Hinv x Hx) as (y' & d' & ? & ? & ?).
        exists y', d'. rewrite elem_of_app. tauto.
      * exists y, d. rewrite elem_of_app, list_elem_of_singleton. tauto.
    + intros y' d'. rewrite elem_of_app, list_elem_of_singleton.
      rewrite elem_of_union, elem_of_singleton.
      intros [Hold|[= -> ->]] Ht; [right; by eapply li_done|by left].
    + intros t. rewrite elem_of_app, (li_found _ _ _ Hinv).
      rewrite (list_elem_of_In (List.filter _ _)), filter_In, <- list_elem_of_In.
      unfold inRange. rewrite Z.leb_le. split.
      * intros [(Ht & x & Hx & Hd)|[Ht Hd]].
        -- split; [done|]. exists x. rewrite elem_of_app. tauto.
        -- split; [done|]. exists (neighbor y d).
           rewrite elem_of_app, list_elem_of_singleton. tauto.
      * intros (Ht & x & Hx & Hd).
        rewrite elem_of_app, list_elem_of_singleton in Hx.
        destruct Hx as [Hx| ->]; [left; eauto|right; done].
Qed.

Lemma visitDirections_inv seen ds done st y :
  LayerInv seen done st →
  LayerInv seen (done ++ map (pair y) ds)
    (foldl (visitDirection targets range getTile canTraverse y) st ds).
Proof.
  revert done st. induction ds as [|d ds IH]; intros done st Hinv.
  - by rewrite app_nil_r.
  - cbn [foldl map].
    replace (done ++ (y, d) :: map (pair y) ds)
      with ((done ++ [(y, d)]) ++ map (pair y) ds) by by rewrite <- app_assoc.
    apply IH. by apply visitDirection_inv.
Qed.

Lemma layerFold_inv seen ds queue done st :
  LayerInv seen done st →
  LayerInv seen (done ++ layerSteps ds queue)
    (foldl (λ st currentHex,
              foldl (visitDirection targets range getTile canTraverse currentHex) st ds)
       st queue).
Proof.
  revert done st. induction queue as [|y queue IH]; intros done st Hinv.
  - by rewrite app_nil_r.
  - cbn [foldl layerSteps flat_map]. rewrite app_assoc.
    apply IH. by apply visitDirections_inv.
Qed.

Lemma processLayer_inv queue seen :
  LayerInv seen (layerSteps (seq 0 6) queue)
    (processLayer targets range getTile canTraverse queue seen).
Proof.
  unfold processLayer.
  apply (layerFold_inv seen (seq 0 6) queue []).
  split; cbn [visited nextQueue reachableAtThisDistance].
  - intros key. split; [tauto|]. intros [?|(x & Hx & _)]; [done|].
    by apply elem_of_nil in Hx.
  - intros x Hx. by apply elem_of_nil in Hx.
  - intros y d Hy. by apply elem_of_nil in Hy.
  - intros t. split; [intros Ht; by apply elem_of_nil in Ht|].
    intros (_ & x & Hx & _). by apply elem_of_nil in Hx.
Qed.

Lemma elem_of_layerSteps y d queue :
  (y, d) ∈ layerSteps (seq 0 6) queue ↔ y ∈ queue ∧ (d < 6)%nat.
Proof.
  unfold layerSteps. rewrite list_elem_of_In, in_flat_map. split.
  - intros (y' & Hy' & Hin). apply in_map_iff in Hin as (d' & [= -> ->] & Hd).
    apply in_seq in Hd. rewrite list_elem_of_In. split; [done|lia].
  - intros [Hy Hd]. exists y. rewrite <- list_elem_of_In. split; [done|].
    apply in_map_iff. exists d. split; [done|]. apply in_seq. lia.
Qed.
End RangedFacts.

Section RangedSearchFacts.
Context {M : HexOps} {L : HexLaws M}.
Variables (targets : list Hex) (range : Z)
          (getTile : Hex → option GridTile) (canTraverse : GridTile → bool)
          (start : Hex).
Hypothesis respects : ∀ x y : Hex, toString x = toString y →
  traversable getTile canTraverse x = traversable getTile canTraverse y.

(** What holds when the loop is about to process the hexes [queue] that
    are [k] moves away, having seen the keys [seen]. *)
Record BfsInv (k : nat) (queue : list Hex) (seen : gset HexKey) : Prop := {
  bi_start : toString start ∈ seen;
  bi_queue : ∀ x, x ∈ queue → reachableIn getTile canTraverse start k x;
  bi_expanded : ∀ x, toString x ∈ seen →
    (∃ y, y ∈ queue ∧ toString y = toString x)
    ∨ (∀ d, (d < 6)%nat → traversable getTile canTraverse (neighbor x d) = true →
            toString (neighbor x d) ∈ seen);
  bi_complete : ∀ n x, (n ≤ k)%nat →
    reachableIn getTile canTraverse start n x → toString x ∈ seen;
  bi_clear : ∀ x, toString x ∈ seen → ¬ targetInRange targets range x;
}.

Lemma targetInRange_toString x y :
  toString x = toString y → targetInRange targets range x → targetInRange targets range y.
Proof.
  intros Hk (t & Ht & Hd). exists t. split; [done|].
  by rewrite <- (distance_toString x y t t Hk eq_refl).
Qed.

Lemma bfs_initial :
  (∀ t, t ∈ targets → range < distance start t) →
  BfsInv 0 [start] {[toString start]}.
Proof.
  intros Hfar. split.
  - by apply elem_of_singleton.
  - intros x Hx. apply list_elem_of_singleton in Hx as ->. constructor.
  - intros x Hx. apply elem_of_singleton in Hx. left. exists start.
    split; [by apply list_elem_of_singleton|done].
  - intros n x Hn Hreach. assert (n = 0%nat) as -> by lia.
    inversion Hreach; subst. by apply elem_of_singleton.
  - intros x Hx (t & Ht & Hd). apply elem_of_singleton in Hx.
    rewrite (distance_toString x start t t Hx eq_refl) in Hd.
    specialize (Hfar t Ht). lia.
Qed.

(** A layer that finds no target hands the invariant on to the next. *)
Lemma bfs_next_layer k queue seen :
  BfsInv k queue seen →
  reachableAtThisDistance (processLayer targets range getTile canTraverse queue seen) = [] →
  BfsInv (S k)
    (nextQueue (processLayer targets range getTile canTraverse queue seen))
    (visited (processLayer targets range getTile canTraverse queue seen)).
Proof.
  intros Hinv Hnone.
  pose proof (processLayer_inv targets range getTile canTraverse queue seen) as Hlayer.
  set (st := processLayer targets range getTile canTraverse queue seen) in *.
  assert (Hgrow : ∀ key, key ∈ seen → key ∈ visited st).
  { intros key Hk. apply (li_visited _ _ _ _ _ _ _ Hlayer). by left. }
  assert (Hexp : ∀ y x d, y ∈ queue → toString y = toString x → (d < 6)%nat →
            traversable getTile canTraverse (neighbor x d) = true →
            toString (neighbor x d) ∈ visited st).
  { intros y x d Hy Hk Hd Ht.
    rewrite <- (neighbor_toString y x d Hk).
    apply (li_done _ _ _ _ _ _ _ Hlayer); [by apply elem_of_layerSteps|].
    by rewrite (respects _ _ (neighbor_toString y x d Hk)). }
  split.
  - apply Hgrow, Hinv.
  - intros x Hx.
    destruct (li_next _ _ _ _ _ _ _ Hlayer x Hx) as (y & d & Hyd & -> & Ht).
    apply elem_of_layerSteps in Hyd as [Hy Hd].
    constructor; [by apply Hinv|done|done].
  - intros x Hx. apply (li_visited _ _ _ _ _ _ _ Hlayer) in Hx as [Hs|(y & Hy & Hk)].
    + right. intros d Hd Ht.
      destruct (bi_expanded _ _ _ Hinv x Hs) as [(y & Hy & Hk)|Hdone].
      * by eapply Hexp.
      * by apply Hgrow, Hdone.
    + left. eauto.
  - intros n x Hn Hreach.
    destruct (decide (n ≤ k)%nat) as [Hle|Hgt].
    { by eapply Hgrow, bi_complete. }
    assert (n = S k) as -> by lia.
    inversion Hreach as [|n' x' d Hprev Hd Ht]; subst.
    pose proof (bi_complete _ _ _ Hinv k x' ltac:(lia) Hprev) as Hs.
    destruct (bi_expanded _ _ _ Hinv x' Hs) as [(y & Hy & Hk)|Hdone].
    + by eapply Hexp.
    + by apply Hgrow, Hdone.
  - intros x Hx Hin.
    apply (li_visited _ _ _ _ _ _ _ Hlayer) in Hx as [Hs|(y & Hy & Hk)].
    + by eapply bi_clear.
    + apply (targetInRange_toString x y) in Hin as (t & Ht & Hdist); [|done].
      assert (Hfound : t ∈ reachableAtThisDistance st).
      { apply (li_found _ _ _ _ _ _ _ Hlayer). eauto. }
      rewrite Hnone in Hfound. by apply elem_of_nil in Hfound.
Qed.

(** A layer that finds a target found it from a cell one move further. *)
Lemma bfs_found k queue seen t :
  BfsInv k queue seen →
  t ∈ reachableAtThisDistance (processLayer targets range getTile canTraverse queue seen) →
  ∃ x, reachableIn getTile canTraverse start (S k) x ∧ targetInRange targets range x.
Proof.
  intros Hinv Ht.
  pose proof (processLayer_inv targets range getTile canTraverse queue seen) as Hlayer.
  apply (li_found _ _ _ _ _ _ _ Hlayer) in Ht as (Ht & x & Hx & Hd).
  destruct (li_next _ _ _ _ _ _ _ Hlayer x Hx) as (y & d & Hyd & -> & Htrav).
  apply elem_of_layerSteps in Hyd as [Hy Hd6].
  exists (neighbor y d). split.
  - constructor; [by apply Hinv|done|done].
  - by exists t.
Qed.

(** With an empty queue everything reachable has been seen. *)
Lemma bfs_closed k seen n x :
  BfsInv k [] seen →
  reachableIn getTile canTraverse start n x → toString x ∈ seen.
Proof.
  intros Hinv Hreach. induction Hreach as [|n x d Hprev IH Hd Ht].
  - apply Hinv.
  - destruct (bi_expanded _ _ _ Hinv x IH) as [(y & Hy & _)|Hdone].
    + by apply elem_of_nil in Hy.
    + by apply Hdone.
Qed.
(** The layered loop, started on layer [k] with [layers] iterations left
    to the cap: either it gives up, with the queue empty or the cap
    reached, and then no cell within 20 moves is within range of a target;
    or it succeeds at a layer after [k] and within the cap, from a cell
    that many moves away that is within range of a target. *)
Lemma searchLayers_spec layers k queue seen result moves exitQueue :
  BfsInv k queue seen → (layers + k = 20)%nat →
  searchLayers layers targets range getTile canTraverse (Z.of_nat k) queue seen
    = (result, (moves, exitQueue)) →
  (result = rangedUnreachable ∧ (exitQueue = [] ∨ moves = 20)
   ∧ ∀ n x, (n ≤ 20)%nat → reachableIn getTile canTraverse start n x →
            ¬ targetInRange targets range x)
  ∨ (∃ m, (k < m ≤ 20)%nat ∧ ranged_canReach result = true
          ∧ ranged_movementDistance result = Finite (Z.of_nat m)
          ∧ ∃ x, reachableIn getTile canTraverse start m x
                 ∧ targetInRange targets range x).
Proof.
  revert k queue seen. induction layers as [|n IH]; intros k queue seen Hinv Hk Hrun.
  - cbn [searchLayers] in Hrun. injection Hrun as <- <- <-.
    left. split; [done|]. split; [right; lia|].
    intros m x Hm Hreach. eapply bi_clear; [done|].
    eapply bi_complete; [done| |done]. lia.
  - cbn [searchLayers] in Hrun.
    destruct queue as [|y queue].
    + cbn in Hrun. injection Hrun as <- <- <-.
      left. split; [done|]. split; [by left|].
      intros m x Hm Hreach. eapply bi_clear; [done|]. by eapply bfs_closed.
    + replace (0 <? Z.of_nat (length (y :: queue))) with true in Hrun
        by (symmetry; apply Z.ltb_lt; cbn [length]; lia).
      replace (Z.of_nat k <? 20) with true in Hrun
        by (symmetry; apply Z.ltb_lt; lia).
      cbn [andb] in Hrun.
      destruct (reachableAtThisDistance
                  (processLayer targets range getTile canTraverse (y :: queue) seen))
        as [|t found] eqn:Hfound.
      * change (0 <? Z.of_nat (length (@nil Hex))) with false in Hrun.
        cbv iota in Hrun.
        replace (Z.of_nat k + 1) with (Z.of_nat (S k)) in Hrun by lia.
        apply (IH (S k)) in Hrun.
        -- destruct Hrun as [Hrun|(m & Hm & Hrest)]; [by left|].
           right. exists m. split; [lia|done].
        -- by apply bfs_next_layer.
        -- lia.
      * replace (0 <? Z.of_nat (length (t :: found))) with true in Hrun
          by (symmetry; apply Z.ltb_lt; cbn [length]; lia).
        injection Hrun as <- <- <-.
        right. exists (S k). split; [lia|]. split; [done|].
        split; [cbn; f_equal; lia|].
        apply (bfs_found k (y :: queue) seen t); [done|].
        rewrite Hfound. apply elem_of_cons. by left.
Qed.

(** The search from [start] when no target is within range of it. *)
Lemma rangedSearch_spec :
  targets ≠ [] →
  (∀ t, t ∈ targets → range < distance start t) →
  ∃ result moves exitQueue,
    rangedSearch start targets range getTile canTraverse
      = (result, Some (moves, exitQueue))
    ∧ ((result = rangedUnreachable ∧ (exitQueue = [] ∨ moves = 20)
        ∧ ∀ n x, (n ≤ 20)%nat → reachableIn getTile canTraverse start n x →
                 ¬ targetInRange targets range x)
       ∨ (∃ m, (1 ≤ m ≤ 20)%nat ∧ ranged_canReach result = true
               ∧ ranged_movementDistance result = Finite (Z.of_nat m)
               ∧ ∃ x, reachableIn getTile canTraverse start m x
                      ∧ targetInRange targets range x)).
Proof.
  intros Hsome Hfar. unfold rangedSearch.
  replace (Z.of_nat (length targets) =? 0) with false
    by (symmetry; apply Z.eqb_neq; destruct targets; [done|cbn [length]; lia]).
  assert (List.filter (inRange range start) targets = []) as ->.
  { clear Hsome. induction targets as [|t ts IH]; [done|]. cbn [List.filter].
    unfold inRange at 1.
    replace (distance start t <=? range) with false.
    - apply IH. intros t' Ht'. apply Hfar. apply elem_of_cons. by right.
    - symmetry. apply Z.leb_gt. apply Hfar. apply elem_of_cons. by left. }
  change (0 <? Z.of_nat (length (@nil Hex))) with false. cbv iota.
  destruct (searchLayers 20 targets range getTile canTraverse 0 [start]
              {[toString start]}) as [result [moves exitQueue]] eqn:Hrun.
  exists result, moves, exitQueue. split; [done|].
  apply (searchLayers_spec 20 0 [start] {[toString start]}) in Hrun;
    [|by apply bfs_initial|done].
  destruct Hrun as [Hrun|(m & Hm & Hrest)]; [by left|].
  right. exists m. split; [lia|done].
Qed.

(** Where the loop is left when it gives up.  Started on the frontier of
    layer [k], none of the frontiers before it being empty, a search that
    fails is left on the first layer whose frontier is empty, or on layer
    20 when no frontier before it is empty. *)
Lemma searchLayers_exit layers k result moves exitQueue :
  (layers + k = 20)%nat →
  (∀ j, (j < k)%nat → (frontier targets range getTile canTraverse start j).1 ≠ []) →
  searchLayers layers targets range getTile canTraverse (Z.of_nat k)
    (frontier targets range getTile canTraverse start k).1
    (frontier targets range getTile canTraverse start k).2
    = (result, (moves, exitQueue)) →
  ranged_canReach result = false →
  ∃ layer, (k ≤ layer ≤ 20)%nat ∧ moves = Z.of_nat layer
    ∧ exitQueue = (frontier targets range getTile canTraverse start layer).1
    ∧ ((frontier targets range getTile canTraverse start layer).1 = [] ∨ layer = 20%nat)
    ∧ ∀ j, (j < layer)%nat →
        (frontier targets range getTile canTraverse start j).1 ≠ [].
Proof.
  revert k. induction layers as [|n IH]; intros k Hk Hbefore Hrun Hfail.
  - cbn [searchLayers] in Hrun. injection Hrun as <- <- <-.
    exists k. split; [lia|]. split; [done|]. split; [done|].
    split; [right; lia|done].
  - cbn [searchLayers] in Hrun.
    destruct (frontier targets range getTile canTraverse start k).1
      as [|y queue] eqn:Hqueue.
    + cbn in Hrun. injection Hrun as <- <- <-.
      exists k. split; [lia|]. split; [done|]. split; [by rewrite Hqueue|].
      split; [by left|done].
    + replace (0 <? Z.of_nat (length (y :: queue))) with true in Hrun
        by (symmetry; apply Z.ltb_lt; cbn [length]; lia).
      replace (Z.of_nat k <? 20) with true in Hrun
        by (symmetry; apply Z.ltb_lt; lia).
      cbn [andb] in Hrun.
      destruct (0 <? Z.of_nat (length (reachableAtThisDistance
                  (processLayer targets range getTile canTraverse (y :: queue)
                     (frontier targets range getTile canTraverse start k).2)))).
      { injection Hrun as <- <- <-. discriminate Hfail. }
      replace (Z.of_nat k + 1) with (Z.of_nat (S k)) in Hrun by lia.
      destruct (IH (S k)) as (layer & Hlayer & Hrest); [lia| | |done|].
      * intros j Hj. destruct (decide (j = k)) as [->|Hne].
        -- by rewrite Hqueue.
        -- apply Hbefore. lia.
      * cbn [frontier fst snd]. by rewrite Hqueue.
      * exists layer. split; [lia|done].
Qed.
End RangedSearchFacts.

(** C4, as amended.  For a non-empty target list with no target within
    range of the start, and a lookup and predicate that answer by cell:
    the result is the unreachable one (canReach false, infinite distance,
    no targets) exactly when no cell reachable within 1 to 20 moves is
    within range of a target; a successful result has a movement distance
    between 1 and 20; and the unreachable result is produced as soon as
    the frontier is empty or after 20 layers, whichever comes first: the
    loop is left on a layer of at most 20 whose frontier is empty, or on
    layer 20, and the frontier of no layer before that one is empty. *)
Theorem calculateRangedMovementDistance_capped {M : HexOps} {L : HexLaws M}
    (start : Hex) (targets : list Hex) (range : Z)
    (getTile : Hex → option GridTile) (canTraverse : GridTile → bool) :
  (∀ x y : Hex, toString x = toString y →
     traversable getTile canTraverse x = traversable getTile canTraverse y) →
  targets ≠ [] →
  (∀ t, t ∈ targets → range < distance start t) →
  let result := calculateRangedMovementDistance start targets range getTile canTraverse in
  let frontierOf := λ k, (frontier targets range getTile canTraverse start k).1 in
  (result = rangedUnreachable ↔
     ¬ ∃ n x, (1 ≤ n ≤ 20)%nat ∧ reachableIn getTile canTraverse start n x
              ∧ targetInRange targets range x)
  ∧ (ranged_canReach result = true →
       ∃ m, ranged_movementDistance result = Finite m ∧ 1 ≤ m ≤ 20)
  ∧ (ranged_canReach result = false →
       result = rangedUnreachable
       ∧ ∃ layer : nat,
           (rangedSearch start targets range getTile canTraverse).2
             = Some (Z.of_nat layer, frontierOf layer)
           ∧ (1 ≤ layer ≤ 20)%nat
           ∧ (frontierOf layer = [] ∨ layer = 20%nat)
           ∧ ∀ j, (j < layer)%nat → frontierOf j ≠ []).
Proof.
  intros Hresp Hsome Hfar result frontierOf.
  destruct (rangedSearch_spec targets range getTile canTraverse start Hresp Hsome Hfar)
    as (res & moves & exitQueue & Hrun & Hspec).
  assert (result = res) as ->.
  { unfold result, calculateRangedMovementDistance. by rewrite Hrun. }
  assert (Hexit : ranged_canReach res = false →
            ∃ layer : nat, moves = Z.of_nat layer ∧ exitQueue = frontierOf layer
              ∧ (1 ≤ layer ≤ 20)%nat
              ∧ (frontierOf layer = [] ∨ layer = 20%nat)
              ∧ ∀ j, (j < layer)%nat → frontierOf j ≠ []).
  { intros Hfail. unfold rangedSearch in Hrun.
    destruct (Z.of_nat (length targets) =? 0); [done|].
    destruct (0 <? Z.of_nat (length (List.filter (inRange range start) targets)));
      [done|].
    destruct (searchLayers 20 targets range getTile canTraverse 0 [start]
                {[toString start]}) as [res' [moves' exitQueue']] eqn:Hloop.
    injection Hrun as -> -> ->.
    destruct (searchLayers_exit targets range getTile canTraverse start
                20 0 res moves exitQueue) as (layer & Hlayer & -> & -> & Hstop & Hbefore);
      [done|intros j Hj; lia|exact Hloop|done|].
    exists layer. split; [done|]. split; [done|]. split; [|done].
    split; [|lia].
    destruct layer as [|layer]; [|lia].
    destruct Hstop as [Hempty|Htwenty]; [discriminate Hempty|lia]. }
  rewrite Hrun. cbn [snd].
  destruct Hspec as [(-> & _ & Hnone)|(m & Hm & Hreach & Hdist & x & Hx & Hin)].
  - split; [|split].
    + split; [|done]. intros _ (n & x & Hn & Hx & Hin).
      apply (Hnone n x); [lia|done|done].
    + intros Hcan. discriminate Hcan.
    + intros Hfail. split; [done|].
      destruct (Hexit Hfail) as (layer & -> & -> & Hrest). by exists layer.
  - split; [|split].
    + split.
      * intros ->. discriminate Hreach.
      * intros Hno. destruct Hno. exists m, x. done.
    + intros _. exists (Z.of_nat m). split; [done|lia].
    + intros Hcan. congruence.
Qed.

(** A target five cells away on the open board, range 2. *)
Lemma calculateRangedMovementDistance_capped_witness :
  let start := Cube.mkHex 0 0 0 1 in
  let targets := [Cube.mkHex 5 (-5) 0 2] in
  let result := @calculateRangedMovementDistance Cube.cubeHex start targets 2
                  Cube.openBoard defaultCanTraverse in
  let frontierOf := λ k, (@frontier Cube.cubeHex targets 2 Cube.openBoard
                            defaultCanTraverse start k).1 in
  (result = rangedUnreachable ↔
     ¬ ∃ n x, (1 ≤ n ≤ 20)%nat
              ∧ @reachableIn Cube.cubeHex Cube.openBoard defaultCanTraverse start n x
              ∧ @targetInRange Cube.cubeHex targets 2 x)
  ∧ (ranged_canReach result = true →
       ∃ m, ranged_movementDistance result = Finite m ∧ 1 ≤ m ≤ 20)
  ∧ (ranged_canReach result = false →
       result = rangedUnreachable
       ∧ ∃ layer : nat,
           (@rangedSearch Cube.cubeHex start targets 2 Cube.openBoard
              defaultCanTraverse).2 = Some (Z.of_nat layer, frontierOf layer)
           ∧ (1 ≤ layer ≤ 20)%nat
           ∧ (frontierOf layer = [] ∨ layer = 20%nat)
           ∧ ∀ j, (j < layer)%nat → frontierOf j ≠ []).
Proof.
  apply (@calculateRangedMovementDistance_capped Cube.cubeHex cube_laws
           (Cube.mkHex 0 0 0 1) [Cube.mkHex 5 (-5) 0 2] 2
           Cube.openBoard defaultCanTraverse).
  - intros x y _. reflexivity.
  - discriminate.
  - intros t Ht. apply list_elem_of_singleton in Ht as ->. vm_compute. reflexivity.
Defined.

(** C4, as stated, fails: on a board without tiles the start has no
    neighbour to move to, and the search gives up after its first layer,
    with [currentMoves = 1], not after twenty. *)
Lemma ranged_search_gives_up_early :
  let start := Cube.mkHex 0 0 0 1 in
  let targets := [Cube.mkHex 5 (-5) 0 2] in
  let run := @rangedSearch Cube.cubeHex start targets 2
               Cube.emptyBoard defaultCanTraverse in
  targets ≠ [] ∧ 2 < Cube.cube_distance start (Cube.mkHex 5 (-5) 0 2)
  ∧ run.1 = rangedUnreachable
  ∧ run.2 = Some (1, [])
  ∧ ¬ ∃ exitQueue, run.2 = Some (20, exitQueue).
Proof.
  cbv zeta. split; [discriminate|]. split; [vm_compute; reflexivity|].
  split; [vm_compute; reflexivity|]. split; [vm_compute; reflexivity|].
  intros [q Hq]. vm_compute in Hq. discriminate Hq.
Qed.

(** On the seven cells around the origin the frontier of layer 1 holds
    the six neighbours of the start and the frontier of layer 2 is empty:
    the search for a target five cells away is left on layer 2. *)
Lemma ranged_search_stops_on_the_empty_frontier :
  let start := Cube.mkHex 0 0 0 1 in
  let targets := [Cube.mkHex 5 (-5) 0 2] in
  let board := Cube.listBoard Cube.ring1 [] in
  (@rangedSearch Cube.cubeHex start targets 2 board defaultCanTraverse).2
    = Some (2, [])
  ∧ length (@frontier Cube.cubeHex targets 2 board defaultCanTraverse start 1).1
    = 6%nat
  ∧ (@frontier Cube.cubeHex targets 2 board defaultCanTraverse start 2).1 = [].
Proof.
  cbv zeta. split; [vm_compute; reflexivity|].
  split; vm_compute; reflexivity.
Qed.

(** [assert_run H t] evaluates the closed term [t] and records the
    equation between [t] and its value as [H]. *)
Ltac assert_run H t :=
  let v := eval vm_compute in t in
  assert (H : t = v) by (vm_cast_no_check (@eq_refl _ v)).

(** [by_evaluation] proves an equation whose right-hand side is the value
    of its left-hand side. *)
Ltac by_evaluation :=
  lazymatch goal with
  | |- _ = ?v => vm_cast_no_check (@eq_refl _ v)
  end.

(** * The claim about the tie-break *)

Section TieBreakFacts.
Context `{CacheKeys}.

Definition vertical (sourceTile tile : GridTile) : Prop :=
  isVerticallyAligned (hex sourceTile) (hex tile) = true.

(** A round of the ranged tie-break keeps one of its two tiles, and keeps
    a vertically aligned one when there is one. *)
Lemma chooseBest_cases sourceTile best current :
  (chooseBest sourceTile best current = best
   ∨ chooseBest sourceTile best current = current)
  ∧ (vertical sourceTile best ∨ vertical sourceTile current →
     vertical sourceTile (chooseBest sourceTile best current)).
Proof.
  unfold chooseBest, vertical.
  destruct (isVerticallyAligned (hex sourceTile) (hex current)) eqn:Hc,
           (isVerticallyAligned (hex sourceTile) (hex best)) eqn:Hb;
    cbn [andb negb].
  - destruct (areHexesInSameDiagonalRow _ _); [|by split; [left|]].
    destruct (_ <? _); split; try tauto; by rewrite ?Hc, ?Hb.
  - split; [by right|]. by rewrite Hc.
  - split; [by left|]. by rewrite Hb.
  - destruct (areHexesInSameDiagonalRow _ _).
    + destruct (_ <? _); split; try tauto; intros [?|?]; done.
    + destruct (_ <? _); split; try tauto; intros [?|?]; done.
Qed.

Lemma chooseBest_fold sourceTile rest first :
  foldl (chooseBest sourceTile) first rest ∈ first :: rest
  ∧ ((∃ c, c ∈ first :: rest ∧ vertical sourceTile c) →
     vertical sourceTile (foldl (chooseBest sourceTile) first rest)).
Proof.
  revert first. induction rest as [|current rest IH]; intros first.
  - cbn [foldl]. split; [apply elem_of_cons; by left|].
    intros (c & Hc & Hv). by apply list_elem_of_singleton in Hc as ->.
  - cbn [foldl].
    destruct (chooseBest_cases sourceTile first current) as [Hpick Hvert].
    destruct (IH (chooseBest sourceTile first current)) as [Hin Hkeep].
    split.
    + apply elem_of_cons in Hin as [->|Hin].
      * destruct Hpick as [-> | ->]; rewrite !elem_of_cons; tauto.
      * rewrite !elem_of_cons. tauto.
    + intros (c & Hc & Hv). apply Hkeep.
      rewrite !elem_of_cons in Hc. destruct Hc as [->|[->|Hc]].
      * exists (chooseBest sourceTile first current).
        split; [apply elem_of_cons; by left|]. apply Hvert. by left.
      * exists (chooseBest sourceTile first current).
        split; [apply elem_of_cons; by left|]. apply Hvert. by right.
      * exists c. split; [apply elem_of_cons; by right|done].
Qed.

(** The ranged path: the only vertically aligned candidate wins. *)
Lemma findClosestTarget_ranged_vertical fuel sourceTile targetTiles sourceRange
    getTile canTraverse cachingEnabled cache winner :
  1 < sourceRange →
  let rangedResult :=
    calculateRangedMovementDistance (hex sourceTile) (map hex targetTiles)
      sourceRange getTile canTraverse in
  ranged_canReach rangedResult = true →
  winner ∈ candidateTargets targetTiles rangedResult →
  vertical sourceTile winner →
  (∀ c, c ∈ candidateTargets targetTiles rangedResult →
        vertical sourceTile c → c = winner) →
  findClosestTarget fuel sourceTile targetTiles sourceRange getTile canTraverse
    cachingEnabled cache
  = Some (Some {| hexId := getId (hex winner);
                  target_distance := ranged_movementDistance rangedResult |},
          cache).
Proof.
  intros Hrange rangedResult Hreach Hwin Hvert Honly.
  unfold findClosestTarget. fold rangedResult.
  assert (Htargets : winner ∈ targetTiles).
  { unfold candidateTargets in Hwin.
    apply list_elem_of_In, filter_In in Hwin as [Hin _]. by apply list_elem_of_In. }
  replace (Z.of_nat (length targetTiles) =? 0) with false
    by (symmetry; apply Z.eqb_neq; destruct targetTiles;
        [by apply elem_of_nil in Htargets|cbn [length]; lia]).
  replace (1 <? sourceRange) with true by (symmetry; by apply Z.ltb_lt).
  rewrite Hreach. cbn [negb orb].
  replace (Z.of_nat (length (reachableTargets rangedResult)) =? 0) with false.
  2:{ symmetry. apply Z.eqb_neq. unfold candidateTargets in Hwin.
      apply list_elem_of_In, filter_In in Hwin as [_ Hex].
      destruct (reachableTargets rangedResult); [done|cbn [length]; lia]. }
  destruct (candidateTargets targetTiles rangedResult) as [|first rest] eqn:Hcand.
  { by apply elem_of_nil in Hwin. }
  destruct (chooseBest_fold sourceTile rest first) as [Hin Hkeep].
  rewrite (Honly _ Hin); [done|]. apply Hkeep. by exists winner.
Qed.
End TieBreakFacts.

Section MeleeFacts.
Context `{CacheKeys}.

(** The effective distances the melee loop obtains for the targets, in
    order, with the cache the calls leave behind. *)
Fixpoint meleeDistances (fuel : nat) (sourceTile : GridTile) (sourceRange : Z)
    (getTile : Hex → option GridTile) (canTraverse : GridTile → bool)
    (cachingEnabled : bool) (remaining : list GridTile) (cache : PathfindingCache)
    : option (list DistanceResult * PathfindingCache) :=
  match remaining with
  | [] => Some ([], cache)
  | targetTile :: rest =>
      '(d, cache) ←
        calculateEffectiveDistance fuel (hex sourceTile) (hex targetTile) sourceRange
          getTile (canTraverseToTarget canTraverse targetTile) cachingEnabled cache;
      '(ds, cache) ←
        meleeDistances fuel sourceTile sourceRange getTile canTraverse
          cachingEnabled rest cache;
      Some (d :: ds, cache)
  end.

(** The updates of [closest] for targets with known effective distances. *)
Fixpoint selectClosest (sourceTile : GridTile) (targetTiles : list GridTile)
    (observed : list (GridTile * DistanceResult)) (closest : option TargetResult)
    : option (option TargetResult) :=
  match observed with
  | [] => Some closest
  | (targetTile, d) :: rest =>
      if negb (canReach d) then selectClosest sourceTile targetTiles rest closest
      else
        closest ← updateClosest sourceTile targetTiles targetTile
                    (movementDistance d) closest;
        selectClosest sourceTile targetTiles rest closest
  end.

(** The melee loop is the selection over the distances it obtains. *)
Lemma meleeLoop_select fuel sourceTile targetTiles sourceRange getTile canTraverse
    cachingEnabled remaining closest cache :
  meleeLoop fuel sourceTile targetTiles sourceRange getTile canTraverse
    cachingEnabled remaining closest cache
  = match meleeDistances fuel sourceTile sourceRange getTile canTraverse
            cachingEnabled remaining cache with
    | None => None
    | Some (ds, cache') =>
        match selectClosest sourceTile targetTiles (zip remaining ds) closest with
        | None => None
        | Some found => Some (found, cache')
        end
    end.
Proof.
  revert closest cache.
  induction remaining as [|t rest IH]; intros closest cache; [done|].
  cbn [meleeLoop meleeDistances].
  destruct (calculateEffectiveDistance _ _ _ _ _ _ _ _) as [[d cache1]|]; [|done].
  cbn [mbind option_bind].
  destruct (canReach d) eqn:Hreach; cbn [negb].
  - destruct (updateClosest _ _ _ _ _) as [closest'|] eqn:Hupd; cbn [mbind option_bind].
    + rewrite IH.
      destruct (meleeDistances _ _ _ _ _ _ _ _) as [[ds cache2]|]; [|done].
      cbn. rewrite Hreach. cbn. rewrite Hupd. done.
    + destruct (meleeDistances _ _ _ _ _ _ _ _) as [[ds cache2]|]; [|done].
      cbn. rewrite Hreach. cbn. rewrite Hupd. done.
  - rewrite IH.
    destruct (meleeDistances _ _ _ _ _ _ _ _) as [[ds cache2]|]; [|done].
    cbn. rewrite Hreach. done.
Qed.

Lemma dist_ltb_total a b : dist_ltb a b = false → dist_ltb b a = false → a = b.
Proof.
  destruct a as [x|], b as [y|]; cbn; try done.
  rewrite !Z.ltb_ge. intros. f_equal. lia.
Qed.

Lemma dist_ltb_below a b c : dist_ltb a b = true → dist_ltb c b = false → dist_ltb c a = false.
Proof.
  destruct a as [x|], b as [y|], c as [z|]; cbn; try done.
  rewrite Z.ltb_lt, !Z.ltb_ge. lia.
Qed.

Lemma dist_ltb_irrefl a : dist_ltb a a = false.
Proof. destruct a; cbn; [apply Z.ltb_irrefl|done]. Qed.

(** With distinct identifiers, the search by identifier finds the tile. *)
Lemma find_by_id (targetTiles : list GridTile) (c : GridTile) :
  NoDup (map (λ t, getId (hex t)) targetTiles) → c ∈ targetTiles →
  List.find (λ t, getId (hex t) =? getId (hex c)) targetTiles = Some c.
Proof.
  induction targetTiles as [|t ts IH]; intros Hnd Hin.
  - by apply elem_of_nil in Hin.
  - cbn [map] in Hnd. apply NoDup_cons in Hnd as [Hfresh Hnd].
    cbn [List.find]. apply elem_of_cons in Hin as [->|Hin].
    + by rewrite Z.eqb_refl.
    + destruct (getId (hex t) =? getId (hex c)) eqn:Heq; [|by apply IH].
      apply Z.eqb_eq in Heq. destruct Hfresh.
      rewrite Heq. apply list_elem_of_fmap. by exists c.
Qed.

(** What the selection has established after the targets [processed]. *)
Definition Chosen (sourceTile : GridTile) (targetTiles : list GridTile)
    (processed : list (GridTile * DistanceResult)) (closest : option TargetResult)
    : Prop :=
  match closest with
  | None => ∀ t d, (t, d) ∈ processed → canReach d = false
  | Some best =>
      ∃ c dc, (c, dc) ∈ processed ∧ canReach dc = true ∧ c ∈ targetTiles
        ∧ hexId best = getId (hex c)
        ∧ target_distance best = movementDistance dc
        ∧ (∀ t d, (t, d) ∈ processed → canReach d = true →
                  dist_ltb (movementDistance d) (target_distance best) = false)
        ∧ (∀ t d, (t, d) ∈ processed → canReach d = true →
                  movementDistance d = target_distance best →
                  vertical sourceTile t → vertical sourceTile c)
  end.
(** An update for a reachable target keeps what has been established. *)
Lemma updateClosest_chosen sourceTile targetTiles processed closest t d :
  NoDup (map (λ t, getId (hex t)) targetTiles) →
  t ∈ targetTiles → canReach d = true →
  Chosen sourceTile targetTiles processed closest →
  ∃ closest',
    updateClosest sourceTile targetTiles t (movementDistance d) closest = Some closest'
    ∧ Chosen sourceTile targetTiles (processed ++ [(t, d)]) closest'.
Proof.
  intros Hnd Ht Hreach Hch. destruct closest as [best|]; cbn [Chosen updateClosest] in *.
  - destruct Hch as (c & dc & Hc & Hcr & Hct & Hid & Hdist & Hmin & Hvert).
    unfold vertical in *.
    assert (Hkeep : dist_ltb (movementDistance d) (target_distance best) = false →
              (movementDistance d = target_distance best →
               isVerticallyAligned (hex sourceTile) (hex t) = true →
               isVerticallyAligned (hex sourceTile) (hex c) = true) →
              Chosen sourceTile targetTiles (processed ++ [(t, d)]) (Some best)).
    { intros Hge Hv. exists c, dc. repeat split; try done.
      - apply elem_of_app. by left.
      - intros t' d'. rewrite elem_of_app, list_elem_of_singleton.
        intros [Hin|[= -> ->]] Hr; [by eapply Hmin|done].
      - intros t' d'. rewrite elem_of_app, list_elem_of_singleton.
        intros [Hin|[= -> ->]] Hr Heq Hvt; [by eapply Hvert|by apply Hv]. }
    assert (Hrepl : dist_ltb (movementDistance d) (target_distance best) = true
              ∨ (movementDistance d = target_distance best
                 ∧ (isVerticallyAligned (hex sourceTile) (hex c) = true →
                    isVerticallyAligned (hex sourceTile) (hex t) = true)) →
              Chosen sourceTile targetTiles (processed ++ [(t, d)])
                (Some {| hexId := getId (hex t);
                         target_distance := movementDistance d |})).
    { intros Hcase. exists t, d. cbn [hexId target_distance]. repeat split; try done.
      - apply elem_of_app. right. by apply list_elem_of_singleton.
      - intros t' d'. rewrite elem_of_app, list_elem_of_singleton.
        intros [Hin|[= -> ->]] Hr; [|apply dist_ltb_irrefl].
        destruct Hcase as [Hlt|[Heq _]].
        + eapply dist_ltb_below; [done|]. by eapply Hmin.
        + rewrite Heq. by eapply Hmin.
      - intros t' d'. rewrite elem_of_app, list_elem_of_singleton.
        intros [Hin|[= -> ->]] Hr Heq Hvt; [|done].
        destruct Hcase as [Hlt|[Heq' Hcv]].
        + pose proof (Hmin _ _ Hin Hr) as Hge. rewrite Heq in Hge. congruence.
        + apply Hcv. eapply Hvert; [done..| |done]. congruence. }
    destruct (dist_ltb (movementDistance d) (target_distance best)) eqn:Hlt.
    { eexists. split; [done|]. apply Hrepl. by left. }
    unfold dist_eqb. case_bool_decide as Heq.
    + rewrite Hid, (find_by_id _ _ Hnd Hct). cbn [mbind option_bind].
      destruct (isVerticallyAligned (hex sourceTile) (hex t)) eqn:Hvt,
               (isVerticallyAligned (hex sourceTile) (hex c)) eqn:Hvc;
        cbn [andb negb];
        repeat (match goal with
                | |- context [if ?b then _ else _] => destruct b
                end);
        (eexists; split; [reflexivity|]);
        first [ apply Hkeep; [done|intros; done]
              | apply Hrepl; right; split; [done|intros; done] ].
    + eexists. split; [done|]. apply Hkeep; [done|]. intros; done.
  - eexists. split; [done|]. exists t, d. cbn [hexId target_distance].
    repeat split; try done.
    + apply elem_of_app. right. by apply list_elem_of_singleton.
    + intros t' d'. rewrite elem_of_app, list_elem_of_singleton.
      intros [Hin|[= -> ->]] Hr; [|apply dist_ltb_irrefl].
      rewrite (Hch _ _ Hin) in Hr. done.
    + intros t' d'. rewrite elem_of_app, list_elem_of_singleton.
      intros [Hin|[= -> ->]] Hr; [|done].
      rewrite (Hch _ _ Hin) in Hr. done.
Qed.

Lemma selectClosest_chosen sourceTile targetTiles rest processed closest :
  NoDup (map (λ t, getId (hex t)) targetTiles) →
  (∀ t d, (t, d) ∈ rest → t ∈ targetTiles) →
  Chosen sourceTile targetTiles processed closest →
  ∃ final, selectClosest sourceTile targetTiles rest closest = Some final
           ∧ Chosen sourceTile targetTiles (processed ++ rest) final.
Proof.
  intros Hnd. revert processed closest.
  induction rest as [|[t d] rest IH]; intros processed closest Hin Hch.
  - exists closest. by rewrite app_nil_r.
  - cbn [selectClosest].
    assert (Hrest : ∀ t' d', (t', d') ∈ rest → t' ∈ targetTiles).
    { intros t' d' Hx. apply (Hin t' d'). apply elem_of_cons. by right. }
    replace (processed ++ (t, d) :: rest) with ((processed ++ [(t, d)]) ++ rest)
      by by rewrite <- app_assoc.
    destruct (canReach d) eqn:Hreach; cbn [negb].
    + destruct (updateClosest_chosen sourceTile targetTiles processed closest t d)
        as (closest' & -> & Hch'); try done.
      { apply (Hin t d). apply elem_of_cons. by left. }
      cbn [mbind option_bind]. by apply IH.
    + apply IH; [done|].
      destruct closest as [best|]; cbn [Chosen] in *.
      * destruct Hch as (c & dc & Hc & Hcr & Hct & Hid & Hdist & Hmin & Hvert).
        exists c, dc. repeat split; try done.
        -- apply elem_of_app. by left.
        -- intros t' d'. rewrite elem_of_app, list_elem_of_singleton.
           intros [Hx|[= -> ->]] Hr; [by eapply Hmin|congruence].
        -- intros t' d'. rewrite elem_of_app, list_elem_of_singleton.
           intros [Hx|[= -> ->]] Hr; [by eapply Hvert|congruence].
      * intros t' d'. rewrite elem_of_app, list_elem_of_singleton.
        intros [Hx|[= -> ->]]; [by eapply Hch|done].
Qed.

(** The melee path: among the reachable targets at the least movement
    distance the only vertically aligned one wins. *)
Lemma findClosestTarget_melee_vertical fuel sourceTile targetTiles sourceRange
    getTile canTraverse cachingEnabled cache ds cache' winner dw :
  sourceRange ≤ 1 →
  NoDup (map (λ t, getId (hex t)) targetTiles) →
  meleeDistances fuel sourceTile sourceRange getTile canTraverse cachingEnabled
    targetTiles cache = Some (ds, cache') →
  (winner, dw) ∈ zip targetTiles ds →
  canReach dw = true →
  vertical sourceTile winner →
  (∀ t d, (t, d) ∈ zip targetTiles ds → canReach d = true →
     dist_ltb (movementDistance d) (movementDistance dw) = false
     ∧ (movementDistance d = movementDistance dw → vertical sourceTile t → t = winner)) →
  findClosestTarget fuel sourceTile targetTiles sourceRange getTile canTraverse
    cachingEnabled cache
  = Some (Some {| hexId := getId (hex winner);
                  target_distance := movementDistance dw |}, cache').
Proof.
  intros Hrange Hnd Hds Hwin Hreach Hvert Hothers.
  unfold findClosestTarget.
  replace (Z.of_nat (length targetTiles) =? 0) with false.
  2:{ symmetry. apply Z.eqb_neq. apply elem_of_zip_l in Hwin.
      destruct targetTiles; [by apply elem_of_nil in Hwin|cbn [length]; lia]. }
  replace (1 <? sourceRange) with false by (symmetry; apply Z.ltb_ge; lia).
  rewrite meleeLoop_select, Hds.
  destruct (selectClosest_chosen sourceTile targetTiles (zip targetTiles ds) [] None)
    as (final & -> & Hch); [done| | |].
  { intros t d Hin. by apply elem_of_zip_l in Hin. }
  { intros t d Hin. by apply elem_of_nil in Hin. }
  rewrite app_nil_l in Hch.
  destruct final as [best|]; cbn [Chosen] in Hch.
  2:{ rewrite (Hch _ _ Hwin) in Hreach. done. }
  destruct Hch as (c & dc & Hc & Hcr & Hct & Hid & Hdist & Hmin & Hv).
  destruct (Hothers _ _ Hc Hcr) as [Hge Honly].
  pose proof (Hmin _ _ Hwin Hreach) as Hle. rewrite Hdist in Hle.
  pose proof (dist_ltb_total _ _ Hge Hle) as Heq.
  assert (c = winner) as ->.
  { apply Honly; [done|].
    assert (Htie : movementDistance dw = target_distance best)
      by (by rewrite Hdist).
    exact (Hv winner dw Hwin Hreach Htie Hvert). }
  destruct best as [id dist]. cbn [hexId target_distance] in *. rewrite Hid, Hdist, Heq. reflexivity.
Qed.
End MeleeFacts.

(** C5.  When exactly one of the candidates tied at the least movement
    distance is vertically aligned with the source (same q), that
    candidate is selected, whatever the hex ids are.  Ranged path
    (range > 1): the candidates are the target tiles on the hexes the
    ranged search reports.  Melee path: the candidates are the reachable
    targets whose effective distance is least, the targets having pairwise
    distinct hex ids.  Two tied candidates are the case of a candidate
    list of length two. *)
Theorem findClosestTarget_prefers_vertical `{CacheKeys}
    (fuel : nat) (sourceTile : GridTile) (targetTiles : list GridTile)
    (sourceRange : Z) (getTile : Hex → option GridTile)
    (canTraverse : GridTile → bool) (cachingEnabled : bool)
    (cache : PathfindingCache) (winner : GridTile) :
  vertical sourceTile winner →
  (1 < sourceRange →
   let rangedResult :=
     calculateRangedMovementDistance (hex sourceTile) (map hex targetTiles)
       sourceRange getTile canTraverse in
   ranged_canReach rangedResult = true →
   winner ∈ candidateTargets targetTiles rangedResult →
   (∀ c, c ∈ candidateTargets targetTiles rangedResult →
         vertical sourceTile c → c = winner) →
   findClosestTarget fuel sourceTile targetTiles sourceRange getTile canTraverse
     cachingEnabled cache
   = Some (Some {| hexId := getId (hex winner);
                   target_distance := ranged_movementDistance rangedResult |},
           cache))
  ∧
  (sourceRange ≤ 1 →
   NoDup (map (λ t, getId (hex t)) targetTiles) →
   ∀ ds cache' dw,
     meleeDistances fuel sourceTile sourceRange getTile canTraverse cachingEnabled
       targetTiles cache = Some (ds, cache') →
     (winner, dw) ∈ zip targetTiles ds →
     canReach dw = true →
     (∀ t d, (t, d) ∈ zip targetTiles ds → canReach d = true →
        dist_ltb (movementDistance d) (movementDistance dw) = false
        ∧ (movementDistance d = movementDistance dw →
           vertical sourceTile t → t = winner)) →
     findClosestTarget fuel sourceTile targetTiles sourceRange getTile canTraverse
       cachingEnabled cache
     = Some (Some {| hexId := getId (hex winner);
                     target_distance := movementDistance dw |}, cache')).
Proof.
  intros Hvert. split.
  - intros Hrange rangedResult Hreach Hwin Honly.
    by apply findClosestTarget_ranged_vertical.
  - intros Hrange Hnd ds cache' dw Hds Hwin Hreach Hothers.
    by eapply findClosestTarget_melee_vertical.
Qed.

(** A source at the origin with two enemies three cells away on the open
    board: hex 5 at (3,-3,0) and hex 30 at (0,3,-3), the latter on the
    q-axis of the source.  Hex 30 is chosen with range 2 (ranged path) and
    with range 1 (melee path), although its id is the higher one and it
    comes second. *)
Lemma findClosestTarget_prefers_vertical_witness :
  let source := mkTile Cube.cubeHex (Cube.mkHex 0 0 0 10) OCCUPIED_ALLY (Some ALLY) None in
  let other := mkTile Cube.cubeHex (Cube.mkHex 3 (-3) 0 5) OCCUPIED_ENEMY (Some ENEMY) None in
  let aligned := mkTile Cube.cubeHex (Cube.mkHex 0 3 (-3) 30) OCCUPIED_ENEMY (Some ENEMY) None in
  @findClosestTarget Cube.cubeHex Cube.cubeKeys 30 source [other; aligned] 2
    Cube.openBoard defaultCanTraverse false newPathfindingCache
  = Some (Some {| hexId := 30; target_distance := Finite 1 |}, newPathfindingCache)
  ∧ @findClosestTarget Cube.cubeHex Cube.cubeKeys 30 source [other; aligned] 1
      Cube.openBoard defaultCanTraverse false newPathfindingCache
    = Some (Some {| hexId := 30; target_distance := Finite 2 |}, newPathfindingCache).
Proof.
  intros source other aligned.
  assert (Hvert : @vertical Cube.cubeHex source aligned) by reflexivity.
  split.
  - destruct (@findClosestTarget_prefers_vertical Cube.cubeHex Cube.cubeKeys 30 source
                [other; aligned] 2 Cube.openBoard defaultCanTraverse false
                newPathfindingCache aligned Hvert) as [Hranged _].
    etrans; [apply Hranged|by_evaluation].
    + reflexivity.
    + vm_compute. reflexivity.
    + vm_compute. apply elem_of_cons. right. apply elem_of_cons. by left.
    + intros c Hc Hv. vm_compute in Hc.
      apply elem_of_cons in Hc as [->|Hc]; [discriminate Hv|].
      by apply list_elem_of_singleton in Hc.
  - destruct (@findClosestTarget_prefers_vertical Cube.cubeHex Cube.cubeKeys 30 source
                [other; aligned] 1 Cube.openBoard defaultCanTraverse false
                newPathfindingCache aligned Hvert) as [_ Hmelee].
    assert (Hds : @meleeDistances Cube.cubeHex Cube.cubeKeys 30 source 1
                    Cube.openBoard defaultCanTraverse false [other; aligned]
                    newPathfindingCache
                  = Some ([ {| movementDistance := Finite 2; canReach := true;
                               directDistance := 3 |};
                            {| movementDistance := Finite 2; canReach := true;
                               directDistance := 3 |} ], newPathfindingCache))
      by by_evaluation.
    assert (Hnd : NoDup (map (λ t : @GridTile Cube.cubeHex, Cube.cid (hex t))
                           [other; aligned])).
    { cbn. apply NoDup_cons. split; [|apply NoDup_singleton].
      rewrite list_elem_of_singleton. discriminate. }
    assert (Hle : 1 ≤ 1) by lia.
    etrans;
      [apply (Hmelee Hle Hnd _ _
                {| movementDistance := Finite 2; canReach := true; directDistance := 3 |}
                Hds)
      |reflexivity].
    + apply elem_of_cons. right. apply elem_of_cons. by left.
    + reflexivity.
    + intros t d Hin Hr. cbn [zip zip_with] in Hin.
      apply elem_of_cons in Hin as [[= -> ->]|Hin].
      { split; [reflexivity|]. intros _ Hv. discriminate Hv. }
      apply list_elem_of_singleton in Hin as [= -> ->].
      split; reflexivity.
Defined.

(** * The claim about the keys and values of the closest-target maps *)

Section MapFacts.
Context `{CacheKeys}.

(** Every key of an enemy map is the hex id of an ally tile of the input
    and every [enemyHexId] is the hex id of an enemy tile of the input. *)
Definition enemyMapWellFormed (tiles : list GridTile) (m : gmap Z TargetInfo) : Prop :=
  ∀ k info, m !! k = Some info →
    (∃ a, a ∈ tiles ∧ team a = Some ALLY ∧ getId (hex a) = k)
    ∧ (∃ e, e ∈ tiles ∧ team e = Some ENEMY ∧ enemyHexId info = Some (getId (hex e))).

(** Dually for an ally map. *)
Definition allyMapWellFormed (tiles : list GridTile) (m : gmap Z TargetInfo) : Prop :=
  ∀ k info, m !! k = Some info →
    (∃ e, e ∈ tiles ∧ team e = Some ENEMY ∧ getId (hex e) = k)
    ∧ (∃ a, a ∈ tiles ∧ team a = Some ALLY ∧ allyHexId info = Some (getId (hex a))).

Lemma updateClosest_result sourceTile targetTiles t dist closest closest' :
  updateClosest sourceTile targetTiles t dist closest = Some closest' →
  closest' = closest
  ∨ closest' = Some {| hexId := getId (hex t); target_distance := dist |}.
Proof.
  unfold updateClosest. destruct closest as [best|]; [|intros [= <-]; by right].
  destruct (dist_ltb _ _); [intros [= <-]; by right|].
  destruct (dist_eqb _ _); [|intros [= <-]; by left].
  destruct (List.find _ _) as [closestTile|]; [|done]. cbn [mbind option_bind].
  repeat (match goal with
          | |- context [if ?b then _ else _] => destruct b
          end);
    intros [= <-]; tauto.
Qed.

(** The identifier the melee loop ends with is that of a target tile. *)
Lemma meleeLoop_target fuel sourceTile targetTiles sourceRange getTile canTraverse
    cachingEnabled remaining closest cache found cache' :
  (∀ t, t ∈ remaining → t ∈ targetTiles) →
  (∀ b, closest = Some b → ∃ t, t ∈ targetTiles ∧ hexId b = getId (hex t)) →
  meleeLoop fuel sourceTile targetTiles sourceRange getTile canTraverse
    cachingEnabled remaining closest cache = Some (Some found, cache') →
  ∃ t, t ∈ targetTiles ∧ hexId found = getId (hex t).
Proof.
  revert closest cache.
  induction remaining as [|t rest IH]; intros closest cache Hsub Hclosest Hrun.
  - cbn [meleeLoop] in Hrun. injection Hrun as -> ->. by apply Hclosest.
  - cbn [meleeLoop] in Hrun.
    destruct (calculateEffectiveDistance _ _ _ _ _ _ _ _) as [[d cache1]|]; [|done].
    cbn [mbind option_bind] in Hrun.
    assert (Hrest : ∀ t', t' ∈ rest → t' ∈ targetTiles).
    { intros t' Ht'. apply Hsub. apply elem_of_cons. by right. }
    destruct (negb (canReach d)); [by eapply IH|].
    destruct (updateClosest _ _ _ _ _) as [closest'|] eqn:Hupd; [|done].
    cbn [mbind option_bind] in Hrun.
    eapply IH; [done| |done].
    apply updateClosest_result in Hupd as [->| ->]; [done|].
    intros b [= <-]. exists t. split; [|done].
    apply Hsub. apply elem_of_cons. by left.
Qed.

(** The identifier findClosestTarget returns is that of a target tile. *)
Lemma findClosestTarget_target fuel sourceTile targetTiles sourceRange getTile
    canTraverse cachingEnabled cache found cache' :
  findClosestTarget fuel sourceTile targetTiles sourceRange getTile canTraverse
    cachingEnabled cache = Some (Some found, cache') →
  ∃ t, t ∈ targetTiles ∧ hexId found = getId (hex t).
Proof.
  unfold findClosestTarget.
  destruct (_ =? 0); [done|].
  destruct (1 <? sourceRange).
  - destruct (_ || _); [done|].
    destruct (candidateTargets _ _) as [|first rest] eqn:Hcand; [done|].
    intros [= <- _].
    destruct (chooseBest_fold sourceTile rest first) as [Hin _].
    exists (foldl (chooseBest sourceTile) first rest). split; [|done].
    rewrite <- Hcand in Hin. unfold candidateTargets in Hin.
    apply list_elem_of_In, filter_In in Hin as [Hin _]. by apply list_elem_of_In.
  - intros Hrun. eapply meleeLoop_target; [| |exact Hrun]; done.
Qed.

(** The loop over the sources fills the map with source ids as keys and
    target ids as values. *)
Lemma closestLoop_entries fuel mkInfo characterRanges targetTiles lookup
    cachingEnabled sources result cache result' cache'
    (P : Z → TargetInfo → Prop) :
  (∀ s t dist, s ∈ sources → t ∈ targetTiles →
     P (getId (hex s)) (mkInfo (getId (hex t)) dist)) →
  (∀ k info, result !! k = Some info → P k info) →
  closestLoop fuel mkInfo characterRanges targetTiles lookup cachingEnabled
    sources result cache = Some (result', cache') →
  ∀ k info, result' !! k = Some info → P k info.
Proof.
  revert result cache.
  induction sources as [|s rest IH]; intros result cache Hnew Hold Hrun.
  - cbn [closestLoop] in Hrun. by injection Hrun as <- <-.
  - cbn [closestLoop] in Hrun.
    destruct (findClosestTarget _ _ _ _ _ _ _ _) as [[closestTarget cache1]|] eqn:Hfind;
      [|done].
    cbn [mbind option_bind] in Hrun.
    eapply IH; [| |exact Hrun].
    + intros s' t dist Hs' Ht. apply Hnew; [|done]. apply elem_of_cons. by right.
    + destruct closestTarget as [found|]; [|done].
      apply findClosestTarget_target in Hfind as (t & Ht & ->).
      intros k info. destruct (decide (getId (hex s) = k)) as [<-|Hne].
      * rewrite lookup_insert_eq. intros [= <-].
        apply Hnew; [apply elem_of_cons; by left|done].
      * rewrite lookup_insert_ne by done. apply Hold.
Qed.

Lemma elem_of_hasTeam side (tiles : list GridTile) t :
  t ∈ List.filter (hasTeam side) tiles ↔ t ∈ tiles ∧ team t = Some side.
Proof.
  rewrite list_elem_of_In, filter_In, <- list_elem_of_In.
  unfold hasTeam. by rewrite bool_decide_eq_true.
Qed.
End MapFacts.

(** C10.  Every key of the map getClosestEnemyMap returns is the hex id of
    an input tile of team ALLY and every enemyHexId in it is the hex id of
    an input tile of team ENEMY; dually for getClosestAllyMap.  The map is
    either computed by the call or taken from the cache; in the latter
    case it is as good as the entry found there. *)
Theorem closest_maps_name_input_tiles `{CacheKeys}
    (fuel : nat) (tilesWithCharacters : list GridTile)
    (characterRanges : gmap string Z) (cachingEnabled : bool)
    (getTile : option (Hex → option GridTile)) (cache : PathfindingCache)
    (result : gmap Z TargetInfo) (cache' : PathfindingCache) :
  (getClosestEnemyMap fuel tilesWithCharacters characterRanges cachingEnabled
     getTile cache = Some (result, cache') →
   (cachingEnabled = true →
    ∀ m, memo_lookup (generateGridCacheKey tilesWithCharacters characterRanges)
           (entries (closestEnemyCache cache)) = Some m →
         enemyMapWellFormed tilesWithCharacters m) →
   enemyMapWellFormed tilesWithCharacters result)
  ∧
  (getClosestAllyMap fuel tilesWithCharacters characterRanges cachingEnabled
     getTile cache = Some (result, cache') →
   (cachingEnabled = true →
    ∀ m, memo_lookup (generateGridCacheKey tilesWithCharacters characterRanges)
           (entries (closestAllyCache cache)) = Some m →
         allyMapWellFormed tilesWithCharacters m) →
   allyMapWellFormed tilesWithCharacters result).
Proof.
  split.
  - unfold getClosestEnemyMap. intros Hrun Hcached.
    assert (Hloop : ∀ c r c',
              closestLoop fuel enemyInfo characterRanges
                (List.filter (hasTeam ENEMY) tilesWithCharacters)
                (getTileHelper tilesWithCharacters getTile) cachingEnabled
                (List.filter (hasTeam ALLY) tilesWithCharacters) ∅ c = Some (r, c') →
              enemyMapWellFormed tilesWithCharacters r).
    { intros c r c' Hl k info Hk.
      refine (closestLoop_entries _ _ _ _ _ _ _ _ _ _ _
               (λ k info,
                  (∃ a, a ∈ tilesWithCharacters ∧ team a = Some ALLY ∧ getId (hex a) = k)
                  ∧ (∃ e, e ∈ tilesWithCharacters ∧ team e = Some ENEMY
                          ∧ enemyHexId info = Some (getId (hex e))))
               _ _ Hl k info Hk); [|intros k' info' Hno; by rewrite lookup_empty in Hno].
      intros s t dist Hs Ht.
      apply elem_of_hasTeam in Hs as [Hs Hsteam].
      apply elem_of_hasTeam in Ht as [Ht Htteam].
      split; [by exists s|by exists t]. }
    destruct cachingEnabled.
    + unfold cacheGetClosestEnemyMap, memo_get in Hrun.
      destruct (memo_lookup _ _) as [m|] eqn:Hlook.
      * injection Hrun as <- _. by apply Hcached.
      * destruct (closestLoop _ _ _ _ _ _ _ _ _) as [[r c']|] eqn:Hl; [|done].
        cbn in Hrun. injection Hrun as <- _. by eapply Hloop.
    + destruct (closestLoop _ _ _ _ _ _ _ _ _) as [[r c']|] eqn:Hl; [|done].
      cbn in Hrun. injection Hrun as <- _. by eapply Hloop.
  - unfold getClosestAllyMap. intros Hrun Hcached.
    assert (Hloop : ∀ c r c',
              closestLoop fuel allyInfo characterRanges
                (List.filter (hasTeam ALLY) tilesWithCharacters)
                (getTileHelper tilesWithCharacters getTile) cachingEnabled
                (List.filter (hasTeam ENEMY) tilesWithCharacters) ∅ c = Some (r, c') →
              allyMapWellFormed tilesWithCharacters r).
    { intros c r c' Hl k info Hk.
      refine (closestLoop_entries _ _ _ _ _ _ _ _ _ _ _
               (λ k info,
                  (∃ e, e ∈ tilesWithCharacters ∧ team e = Some ENEMY ∧ getId (hex e) = k)
                  ∧ (∃ a, a ∈ tilesWithCharacters ∧ team a = Some ALLY
                          ∧ allyHexId info = Some (getId (hex a))))
               _ _ Hl k info Hk); [|intros k' info' Hno; by rewrite lookup_empty in Hno].
      intros s t dist Hs Ht.
      apply elem_of_hasTeam in Hs as [Hs Hsteam].
      apply elem_of_hasTeam in Ht as [Ht Htteam].
      split; [by exists s|by exists t]. }
    destruct cachingEnabled.
    + unfold cacheGetClosestAllyMap, memo_get in Hrun.
      destruct (memo_lookup _ _) as [m|] eqn:Hlook.
      * injection Hrun as <- _. by apply Hcached.
      * destruct (closestLoop _ _ _ _ _ _ _ _ _) as [[r c']|] eqn:Hl; [|done].
        cbn in Hrun. injection Hrun as <- _. by eapply Hloop.
    + destruct (closestLoop _ _ _ _ _ _ _ _ _) as [[r c']|] eqn:Hl; [|done].
      cbn in Hrun. injection Hrun as <- _. by eapply Hloop.
Qed.

(** An ally on hex 1 and an enemy on hex 13, two cells apart on the open
    board, with caching on and an empty cache: each map has one entry,
    from the one hex id to the other. *)
Lemma closest_maps_name_input_tiles_witness :
  let tiles :=
    [mkTile Cube.cubeHex (Cube.mkHex 0 0 0 1) OCCUPIED_ALLY (Some ALLY) (Some "a"%string);
     mkTile Cube.cubeHex (Cube.mkHex 2 (-2) 0 13) OCCUPIED_ENEMY (Some ENEMY) (Some "e"%string)] in
  ∃ enemies allies cache1 cache2,
    @getClosestEnemyMap Cube.cubeHex Cube.cubeKeys 20 tiles ∅ true
      (Some Cube.openBoard) newPathfindingCache = Some (enemies, cache1)
    ∧ enemies !! 1 = Some (enemyInfo 13 (Finite 1))
    ∧ @enemyMapWellFormed Cube.cubeHex tiles enemies
    ∧ @getClosestAllyMap Cube.cubeHex Cube.cubeKeys 20 tiles ∅ true
        (Some Cube.openBoard) newPathfindingCache = Some (allies, cache2)
    ∧ allies !! 13 = Some (allyInfo 1 (Finite 1))
    ∧ @allyMapWellFormed Cube.cubeHex tiles allies.
Proof.
  intros tiles.
  assert_run He (@getClosestEnemyMap Cube.cubeHex Cube.cubeKeys 20 tiles ∅ true
                   (Some Cube.openBoard) newPathfindingCache).
  assert_run Ha (@getClosestAllyMap Cube.cubeHex Cube.cubeKeys 20 tiles ∅ true
                   (Some Cube.openBoard) newPathfindingCache).
  eexists _, _, _, _.
  split; [exact He|]. split; [vm_compute; reflexivity|].
  split.
  { apply (proj1 (@closest_maps_name_input_tiles Cube.cubeHex Cube.cubeKeys 20 tiles ∅
                    true (Some Cube.openBoard) newPathfindingCache _ _) He).
    intros _ m Hm. vm_compute in Hm. discriminate Hm. }
  split; [exact Ha|]. split; [vm_compute; reflexivity|].
  apply (proj2 (@closest_maps_name_input_tiles Cube.cubeHex Cube.cubeKeys 20 tiles ∅
                  true (Some Cube.openBoard) newPathfindingCache _ _) Ha).
  intros _ m Hm. vm_compute in Hm. discriminate Hm.
Defined.

(** * The claim about cache transparency *)

(** ** A larger step budget does not change a result *)

Section Budget.
Context `{CacheKeys}.

Lemma reconstructPath_mono nm n m node acc path :
  reconstructPath n nm node acc = Some path → (n ≤ m)%nat →
  reconstructPath m nm node acc = Some path.
Proof.
  revert m node acc. induction n as [|n IH]; intros m node acc Hrun Hle.
  - destruct node as [k|]; [done|]. by destruct m.
  - destruct node as [k|]; [|by destruct m].
    destruct m as [|m]; [lia|]. cbn [reconstructPath] in *.
    destruct (nm !! k) as [nd|]; [|done]. cbn [mbind option_bind] in *.
    apply IH; [done|lia].
Qed.

Lemma searchLoop_mono goal getTile canTraverse b b' n n' st result :
  searchLoop b n goal getTile canTraverse st = Some result →
  (b ≤ b')%nat → (n ≤ n')%nat →
  searchLoop b' n' goal getTile canTraverse st = Some result.
Proof.
  intros Hrun Hb. revert n' st Hrun.
  induction n as [|n IH]; intros n' st Hrun Hn; [done|].
  destruct n' as [|n']; [lia|].
  rewrite searchLoop_step in *.
  destruct (isEmpty (openSet st)); [done|].
  destruct (dequeue (openSet st)) as [[item rest]|]; [|done].
  destruct (nodeMap st !! toString item) as [current|]; [|done].
  destruct (equals (node_hex current) goal).
  - destruct (reconstructPath b _ _ _) as [p|] eqn:Hrec; [|done].
    by rewrite (reconstructPath_mono _ _ _ _ _ _ Hrec Hb).
  - apply IH; [done|lia].
Qed.

Lemma findPath_mono n m start goal getTile canTraverse result :
  findPath n start goal getTile canTraverse = Some result → (n ≤ m)%nat →
  findPath m start goal getTile canTraverse = Some result.
Proof. intros Hrun Hle. unfold findPath in *. by eapply searchLoop_mono. Qed.

(** The value of a call: its result without the cache it leaves. *)
Definition valueOf {A : Type} (r : option (A * PathfindingCache)) : option A :=
  fst <$> r.

Lemma valueOf_Some {A : Type} (r : option (A * PathfindingCache)) (v : A) :
  valueOf r = Some v ↔ ∃ c, r = Some (v, c).
Proof.
  unfold valueOf. destruct r as [[a c]|]; cbn; [|naive_solver].
  split; [intros [= ->]; eauto|]. by intros (c' & [= -> _]).
Qed.

(** With caching off the cache is neither read nor written. *)
Lemma calculateEffectiveDistance_off fuel start goal range getTile canTraverse cache :
  calculateEffectiveDistance fuel start goal range getTile canTraverse false cache
  = (λ v, (v, cache)) <$>
      valueOf (calculateEffectiveDistance fuel start goal range getTile canTraverse
                 false newPathfindingCache).
Proof.
  unfold calculateEffectiveDistance, valueOf.
  destruct (_ <=? _); [done|].
  by destruct (findPath _ _ _ _ _) as [[p|]|].
Qed.

Lemma calculateEffectiveDistance_off_mono n m start goal range getTile canTraverse
    cache v :
  valueOf (calculateEffectiveDistance n start goal range getTile canTraverse false cache)
    = Some v →
  (n ≤ m)%nat →
  valueOf (calculateEffectiveDistance m start goal range getTile canTraverse false cache)
    = Some v.
Proof.
  unfold calculateEffectiveDistance, valueOf. intros Hrun Hle.
  destruct (_ <=? _); [done|].
  destruct (findPath n _ _ _ _) as [r|] eqn:Hpath; [|done].
  by rewrite (findPath_mono _ _ _ _ _ _ _ Hpath Hle).
Qed.
End Budget.

(** ** What the memo cache holds *)

Section MemoFacts.
Context {K V : Type} `{EqDecision K}.
Implicit Types (c : MemoCache K V) (l : list (K * V)) (e : K * V).

Lemma memo_lookup_elem key l v : memo_lookup key l = Some v → (key, v) ∈ l.
Proof.
  unfold memo_lookup. destruct (find _ l) as [[k v0]|] eqn:Hfind; [|done].
  cbn. intros [= <-]. apply find_some in Hfind as [Hin Hkey].
  apply bool_decide_eq_true in Hkey. cbn in Hkey. subst k.
  by apply list_elem_of_In.
Qed.

Lemma memo_remove_elem key l e : e ∈ memo_remove key l → e ∈ l.
Proof. unfold memo_remove. rewrite list_elem_of_filter. tauto. Qed.

Lemma memo_get_value key c : (memo_get key c).1 = memo_lookup key (entries c).
Proof. unfold memo_get. by destruct (memo_lookup key (entries c)). Qed.

Lemma memo_get_elem key c e : e ∈ entries (memo_get key c).2 → e ∈ entries c.
Proof.
  unfold memo_get. destruct (memo_lookup key (entries c)) as [v|] eqn:Hl; [|done].
  cbn [snd entries]. rewrite elem_of_app, list_elem_of_singleton.
  intros [He| ->]; [by eapply memo_remove_elem|by apply memo_lookup_elem].
Qed.

Lemma memo_set_elem key v c e :
  e ∈ entries (memo_set key v c) → e = (key, v) ∨ e ∈ entries c.
Proof.
  unfold memo_set. cbn [entries]. rewrite elem_of_app, list_elem_of_singleton.
  intros [He|He]; [right|by left].
  destruct (memo_lookup key (entries c)); [by eapply memo_remove_elem|].
  case_bool_decide; [|done].
  destruct (entries c) as [|e0 l]; [done|]. cbn [tail] in He.
  apply elem_of_cons. by right.
Qed.
End MemoFacts.

(** ** Coherent caches *)

Section Transparency.
Context `{CacheKeys}.
Variables (getTile : Hex → option GridTile)
          (canTraverseFor : Hex → GridTile → bool)
          (cells : Hex → Prop).
Hypothesis key_inj : ∀ a b c a' b' c',
  generatePathCacheKey a b c = generatePathCacheKey a' b' c' →
  a = a' ∧ b = b' ∧ c = c'.
Hypothesis id_inj : ∀ x y : Hex, cells x → cells y → getId x = getId y → x = y.

(** The effective-distance cache is coherent with a board (the lookup and,
    for every goal, the predicate used for it): every entry stored for a
    pair of cells is the value the computation yields for that pair. *)
Definition DistanceCoherent (cache : PathfindingCache) : Prop :=
  ∀ start goal range v, cells start → cells goal →
    (generatePathCacheKey (getId start) (getId goal) range, v)
      ∈ entries (effectiveDistanceCache cache) →
    ∃ fuel,
      valueOf (calculateEffectiveDistance fuel start goal range getTile
                 (canTraverseFor goal) false newPathfindingCache) = Some v.

Lemma valueOf_off fuel start goal range canTraverse cache :
  valueOf (calculateEffectiveDistance fuel start goal range getTile canTraverse
             false cache)
  = valueOf (calculateEffectiveDistance fuel start goal range getTile canTraverse
               false newPathfindingCache).
Proof.
  rewrite calculateEffectiveDistance_off. unfold valueOf.
  by destruct (calculateEffectiveDistance _ _ _ _ _ _ _ _) as [[v c]|].
Qed.

(** A call with caching on: a hit returns the stored value, a miss the
    value computed, which it stores. *)
Lemma calculateEffectiveDistance_on fuel start goal range canTraverse cache :
  calculateEffectiveDistance fuel start goal range getTile canTraverse true cache
  = let key := generatePathCacheKey (getId start) (getId goal) range in
    match memo_lookup key (entries (effectiveDistanceCache cache)) with
    | Some v => Some (v, (getEffectiveDistance key cache).2)
    | None =>
        match valueOf (calculateEffectiveDistance fuel start goal range getTile
                         canTraverse false newPathfindingCache) with
        | Some v => Some (v, setEffectiveDistance key v cache)
        | None => None
        end
    end.
Proof.
  cbv zeta.
  destruct (memo_lookup _ _) as [v|] eqn:Hlook.
  - unfold calculateEffectiveDistance, getEffectiveDistance, memo_get.
    by rewrite Hlook.
  - rewrite calculateEffectiveDistance_afresh by (intros _; exact Hlook).
    unfold calculateEffectiveDistance, valueOf, cacheAfter.
    destruct (_ <=? _); [done|].
    by destruct (findPath _ _ _ _ _) as [[p|]|].
Qed.

Lemma getEffectiveDistance_entries key cache e :
  e ∈ entries (effectiveDistanceCache (getEffectiveDistance key cache).2) →
  e ∈ entries (effectiveDistanceCache cache).
Proof.
  unfold getEffectiveDistance.
  pose proof (memo_get_elem key (effectiveDistanceCache cache) e) as Hget.
  destruct (memo_get key (effectiveDistanceCache cache)) as [o m]. exact Hget.
Qed.

(** Caching on: the value returned is the value of the computation, and
    the cache stays coherent. *)
Lemma calculateEffectiveDistance_transparent fuel start goal range cache v cache' :
  cells start → cells goal → DistanceCoherent cache →
  calculateEffectiveDistance fuel start goal range getTile (canTraverseFor goal)
    true cache = Some (v, cache') →
  DistanceCoherent cache'
  ∧ closestEnemyCache cache' = closestEnemyCache cache
  ∧ closestAllyCache cache' = closestAllyCache cache
  ∧ ∃ fuel',
      valueOf (calculateEffectiveDistance fuel' start goal range getTile
                 (canTraverseFor goal) false newPathfindingCache) = Some v.
Proof.
  intros Hs Hg Hco. rewrite calculateEffectiveDistance_on. cbv zeta.
  destruct (memo_lookup _ _) as [v0|] eqn:Hlook.
  - intros [= <- <-]. split; [|split; [|split]].
    + intros s g r v' Hs' Hg' Hin. apply getEffectiveDistance_entries in Hin.
      by apply Hco.
    + unfold getEffectiveDistance.
      by destruct (memo_get _ (effectiveDistanceCache cache)).
    + unfold getEffectiveDistance.
      by destruct (memo_get _ (effectiveDistanceCache cache)).
    + apply memo_lookup_elem in Hlook. by apply Hco.
  - destruct (valueOf _) as [v0|] eqn:Hval; [|done].
    intros [= <- <-]. split; [|split; [done|split; [done|by exists fuel]]].
    intros s g r v' Hs' Hg' Hin. cbn [setEffectiveDistance effectiveDistanceCache] in Hin.
    apply memo_set_elem in Hin as [[= Hkey ->]|Hin]; [|by apply Hco].
    apply key_inj in Hkey as (Hids & Hidg & ->).
    apply (id_inj _ _ Hs' Hs) in Hids as ->.
    apply (id_inj _ _ Hg' Hg) in Hidg as ->.
    by exists fuel.
Qed.

(** The values of the computation at two budgets agree. *)
Lemma valueOf_off_agree n m start goal range canTraverse v w :
  valueOf (calculateEffectiveDistance n start goal range getTile canTraverse
             false newPathfindingCache) = Some v →
  valueOf (calculateEffectiveDistance m start goal range getTile canTraverse
             false newPathfindingCache) = Some w →
  v = w.
Proof.
  intros Hn Hm.
  apply (calculateEffectiveDistance_off_mono _ (n `max` m)) in Hn; [|lia].
  apply (calculateEffectiveDistance_off_mono _ (n `max` m)) in Hm; [|lia].
  congruence.
Qed.

(** Caching on returns whenever the computation does, with its value. *)
Lemma calculateEffectiveDistance_transparent_back fuel start goal range cache v :
  cells start → cells goal → DistanceCoherent cache →
  valueOf (calculateEffectiveDistance fuel start goal range getTile
             (canTraverseFor goal) false newPathfindingCache) = Some v →
  ∃ cache',
    calculateEffectiveDistance fuel start goal range getTile (canTraverseFor goal)
      true cache = Some (v, cache').
Proof.
  intros Hs Hg Hco Hval. rewrite calculateEffectiveDistance_on. cbv zeta.
  destruct (memo_lookup _ _) as [v0|] eqn:Hlook.
  - apply memo_lookup_elem in Hlook.
    destruct (Hco _ _ _ _ Hs Hg Hlook) as [fuel' Hval'].
    rewrite (valueOf_off_agree _ _ _ _ _ _ _ _ Hval' Hval). eauto.
  - rewrite Hval. eauto.
Qed.
End Transparency.

Section BudgetOfLoops.
Context `{CacheKeys}.

Lemma calculateEffectiveDistance_mono n m start goal range getTile canTraverse
    cachingEnabled cache out :
  calculateEffectiveDistance n start goal range getTile canTraverse cachingEnabled
    cache = Some out →
  (n ≤ m)%nat →
  calculateEffectiveDistance m start goal range getTile canTraverse cachingEnabled
    cache = Some out.
Proof.
  unfold calculateEffectiveDistance. intros Hrun Hle.
  destruct (if cachingEnabled then _ else _) as [[v|] cache1]; [done|].
  destruct (_ <=? _); [done|].
  destruct (findPath n _ _ _ _) as [r|] eqn:Hpath; [|done].
  by rewrite (findPath_mono _ _ _ _ _ _ _ Hpath Hle).
Qed.

Lemma meleeLoop_mono n m sourceTile targetTiles sourceRange getTile canTraverse
    cachingEnabled remaining closest cache out :
  meleeLoop n sourceTile targetTiles sourceRange getTile canTraverse cachingEnabled
    remaining closest cache = Some out →
  (n ≤ m)%nat →
  meleeLoop m sourceTile targetTiles sourceRange getTile canTraverse cachingEnabled
    remaining closest cache = Some out.
Proof.
  intros Hrun Hle. revert closest cache Hrun.
  induction remaining as [|t rest IH]; intros closest cache Hrun; [done|].
  cbn [meleeLoop] in *.
  destruct (calculateEffectiveDistance n _ _ _ _ _ _ _) as [[d cache1]|] eqn:Hd; [|done].
  rewrite (calculateEffectiveDistance_mono _ _ _ _ _ _ _ _ _ _ Hd Hle).
  cbn [mbind option_bind] in *.
  destruct (negb (canReach d)); [by apply IH|].
  destruct (updateClosest _ _ _ _ _) as [closest'|]; [|done].
  cbn [mbind option_bind] in *. by apply IH.
Qed.

Lemma findClosestTarget_mono n m sourceTile targetTiles sourceRange getTile
    canTraverse cachingEnabled cache out :
  findClosestTarget n sourceTile targetTiles sourceRange getTile canTraverse
    cachingEnabled cache = Some out →
  (n ≤ m)%nat →
  findClosestTarget m sourceTile targetTiles sourceRange getTile canTraverse
    cachingEnabled cache = Some out.
Proof.
  unfold findClosestTarget. intros Hrun Hle.
  destruct (_ =? 0); [done|].
  destruct (1 <? sourceRange); [done|].
  by eapply meleeLoop_mono.
Qed.

Lemma closestLoop_mono n m mkInfo characterRanges targetTiles lookup cachingEnabled
    sources result cache out :
  closestLoop n mkInfo characterRanges targetTiles lookup cachingEnabled sources
    result cache = Some out →
  (n ≤ m)%nat →
  closestLoop m mkInfo characterRanges targetTiles lookup cachingEnabled sources
    result cache = Some out.
Proof.
  intros Hrun Hle. revert result cache Hrun.
  induction sources as [|s rest IH]; intros result cache Hrun; [done|].
  cbn [closestLoop] in *.
  destruct (findClosestTarget n _ _ _ _ _ _ _) as [[found cache1]|] eqn:Hf; [|done].
  rewrite (findClosestTarget_mono _ _ _ _ _ _ _ _ _ _ Hf Hle).
  cbn [mbind option_bind] in *. by apply IH.
Qed.

Lemma getClosestEnemyMap_mono n m tiles characterRanges cachingEnabled getTile cache out :
  getClosestEnemyMap n tiles characterRanges cachingEnabled getTile cache = Some out →
  (n ≤ m)%nat →
  getClosestEnemyMap m tiles characterRanges cachingEnabled getTile cache = Some out.
Proof.
  unfold getClosestEnemyMap. intros Hrun Hle.
  destruct (if cachingEnabled then _ else _) as [[found|] cache1]; [done|].
  destruct (closestLoop n _ _ _ _ _ _ _ _) as [[result cache2]|] eqn:Hl; [|done].
  by rewrite (closestLoop_mono _ _ _ _ _ _ _ _ _ _ _ Hl Hle).
Qed.

Lemma getClosestAllyMap_mono n m tiles characterRanges cachingEnabled getTile cache out :
  getClosestAllyMap n tiles characterRanges cachingEnabled getTile cache = Some out →
  (n ≤ m)%nat →
  getClosestAllyMap m tiles characterRanges cachingEnabled getTile cache = Some out.
Proof.
  unfold getClosestAllyMap. intros Hrun Hle.
  destruct (if cachingEnabled then _ else _) as [[found|] cache1]; [done|].
  destruct (closestLoop n _ _ _ _ _ _ _ _) as [[result cache2]|] eqn:Hl; [|done].
  by rewrite (closestLoop_mono _ _ _ _ _ _ _ _ _ _ _ Hl Hle).
Qed.

(** With caching off no function touches the cache. *)
Lemma meleeLoop_off n sourceTile targetTiles sourceRange getTile canTraverse
    remaining closest cache :
  meleeLoop n sourceTile targetTiles sourceRange getTile canTraverse false
    remaining closest cache
  = (λ v, (v, cache)) <$>
      valueOf (meleeLoop n sourceTile targetTiles sourceRange getTile canTraverse
                 false remaining closest newPathfindingCache).
Proof.
  revert closest. induction remaining as [|t rest IH]; intros closest; [done|].
  cbn [meleeLoop].
  rewrite (calculateEffectiveDistance_off _ _ _ _ _ _ newPathfindingCache).
  rewrite (calculateEffectiveDistance_off _ _ _ _ _ _ cache).
  destruct (valueOf (calculateEffectiveDistance _ _ _ _ _ _ _ _)) as [d|]; [|done].
  cbn [fmap option_fmap option_map mbind option_bind].
  destruct (negb (canReach d)); [apply IH|].
  destruct (updateClosest _ _ _ _ _) as [closest'|]; [|done].
  cbn [mbind option_bind]. apply IH.
Qed.

Lemma findClosestTarget_off n sourceTile targetTiles sourceRange getTile canTraverse
    cache :
  findClosestTarget n sourceTile targetTiles sourceRange getTile canTraverse false cache
  = (λ v, (v, cache)) <$>
      valueOf (findClosestTarget n sourceTile targetTiles sourceRange getTile
                 canTraverse false newPathfindingCache).
Proof.
  unfold findClosestTarget.
  destruct (_ =? 0); [done|].
  destruct (1 <? sourceRange).
  - destruct (_ || _); [done|]. by destruct (candidateTargets _ _).
  - apply meleeLoop_off.
Qed.

Lemma closestLoop_off n mkInfo characterRanges targetTiles lookup sources result cache :
  closestLoop n mkInfo characterRanges targetTiles lookup false sources result cache
  = (λ v, (v, cache)) <$>
      valueOf (closestLoop n mkInfo characterRanges targetTiles lookup false sources
                 result newPathfindingCache).
Proof.
  revert result. induction sources as [|s rest IH]; intros result; [done|].
  cbn [closestLoop].
  rewrite (findClosestTarget_off _ _ _ _ _ _ newPathfindingCache).
  rewrite (findClosestTarget_off _ _ _ _ _ _ cache).
  destruct (valueOf (findClosestTarget _ _ _ _ _ _ _ _)) as [found|]; [|done].
  cbn [fmap option_fmap option_map mbind option_bind]. apply IH.
Qed.
End BudgetOfLoops.

(** ** Transparency of the loops *)

Section LoopTransparency.
Context `{CacheKeys}.
Variables (getTile : Hex → option GridTile) (canTraverse : GridTile → bool)
          (cells : Hex → Prop).
Hypothesis key_inj : ∀ a b c a' b' c',
  generatePathCacheKey a b c = generatePathCacheKey a' b' c' →
  a = a' ∧ b = b' ∧ c = c'.
Hypothesis id_inj : ∀ x y : Hex, cells x → cells y → getId x = getId y → x = y.

(** The predicate findClosestTarget uses on the way to [goal]. *)
Definition traverseTo (goal : Hex) (tile : GridTile) : bool :=
  if equals (hex tile) goal then true else canTraverse tile.

(** Coherence with the board as findClosestTarget queries it. *)
Definition TargetCoherent (cache : PathfindingCache) : Prop :=
  DistanceCoherent getTile traverseTo cells cache.

Lemma meleeLoop_transparent fuel sourceTile targetTiles sourceRange remaining
    closest cache found cache' :
  cells (hex sourceTile) → (∀ t, t ∈ remaining → cells (hex t)) →
  TargetCoherent cache →
  meleeLoop fuel sourceTile targetTiles sourceRange getTile canTraverse true
    remaining closest cache = Some (found, cache') →
  TargetCoherent cache'
  ∧ closestEnemyCache cache' = closestEnemyCache cache
  ∧ closestAllyCache cache' = closestAllyCache cache
  ∧ ∃ fuel',
      valueOf (meleeLoop fuel' sourceTile targetTiles sourceRange getTile canTraverse
                 false remaining closest newPathfindingCache) = Some found.
Proof.
  intros Hsrc. revert closest cache.
  induction remaining as [|t rest IH]; intros closest cache Hcells Hco Hrun.
  - cbn [meleeLoop] in Hrun. injection Hrun as <- <-.
    split; [done|]. split; [done|]. split; [done|]. by exists 0%nat.
  - cbn [meleeLoop] in Hrun.
    destruct (calculateEffectiveDistance fuel _ _ _ _ _ true cache)
      as [[d cache1]|] eqn:Hd; [|done].
    cbn [mbind option_bind] in Hrun.
    assert (Ht : cells (hex t)) by (apply Hcells, elem_of_cons; by left).
    assert (Hrest : ∀ t', t' ∈ rest → cells (hex t'))
      by (intros t' Ht'; apply Hcells, elem_of_cons; by right).
    destruct (calculateEffectiveDistance_transparent getTile traverseTo cells
                key_inj id_inj fuel (hex sourceTile) (hex t) sourceRange cache d cache1
                Hsrc Ht Hco Hd) as (Hco1 & He1 & Ha1 & f1 & Hv1).
    assert (Hjoin : ∀ closest' f2,
              valueOf (meleeLoop f2 sourceTile targetTiles sourceRange getTile
                         canTraverse false rest closest' newPathfindingCache)
                = Some found →
              (if negb (canReach d) then closest' = closest
               else updateClosest sourceTile targetTiles t (movementDistance d) closest
                    = Some closest') →
              ∃ fuel',
                valueOf (meleeLoop fuel' sourceTile targetTiles sourceRange getTile
                           canTraverse false (t :: rest) closest newPathfindingCache)
                  = Some found).
    { intros closest' f2 Hv2 Hstep. exists (f1 `max` f2)%nat.
      apply valueOf_Some in Hv2 as [c2 Hv2].
      apply (meleeLoop_mono _ (f1 `max` f2)) in Hv2; [|lia].
      apply (calculateEffectiveDistance_off_mono _ (f1 `max` f2)) in Hv1; [|lia].
      cbn [meleeLoop]. rewrite calculateEffectiveDistance_off.
      change (canTraverseToTarget canTraverse t) with (traverseTo (hex t)).
      rewrite Hv1. cbn [fmap option_fmap option_map mbind option_bind].
      destruct (negb (canReach d)).
      - subst closest'. by rewrite Hv2.
      - rewrite Hstep. cbn [mbind option_bind]. by rewrite Hv2. }
    destruct (negb (canReach d)) eqn:Hreach.
    + destruct (IH closest cache1 Hrest Hco1 Hrun) as (Hco' & He' & Ha' & f2 & Hv2).
      split; [done|]. split; [congruence|]. split; [congruence|].
      by apply (Hjoin closest f2).
    + destruct (updateClosest _ _ _ _ _) as [closest'|] eqn:Hupd; [|done].
      cbn [mbind option_bind] in Hrun.
      destruct (IH closest' cache1 Hrest Hco1 Hrun) as (Hco' & He' & Ha' & f2 & Hv2).
      split; [done|]. split; [congruence|]. split; [congruence|].
      by apply (Hjoin closest' f2).
Qed.

Lemma meleeLoop_transparent_back fuel sourceTile targetTiles sourceRange remaining
    closest cache found :
  cells (hex sourceTile) → (∀ t, t ∈ remaining → cells (hex t)) →
  TargetCoherent cache →
  valueOf (meleeLoop fuel sourceTile targetTiles sourceRange getTile canTraverse
             false remaining closest newPathfindingCache) = Some found →
  ∃ cache',
    meleeLoop fuel sourceTile targetTiles sourceRange getTile canTraverse true
      remaining closest cache = Some (found, cache').
Proof.
  intros Hsrc. revert closest cache.
  induction remaining as [|t rest IH]; intros closest cache Hcells Hco Hrun.
  - cbn in Hrun. injection Hrun as <-. by exists cache.
  - cbn [meleeLoop] in *. rewrite calculateEffectiveDistance_off in Hrun.
    change (canTraverseToTarget canTraverse t) with (traverseTo (hex t)) in *.
    destruct (valueOf (calculateEffectiveDistance fuel _ _ _ _ _ false _))
      as [d|] eqn:Hv; [|done].
    cbn [fmap option_fmap option_map mbind option_bind] in Hrun.
    assert (Ht : cells (hex t)) by (apply Hcells, elem_of_cons; by left).
    assert (Hrest : ∀ t', t' ∈ rest → cells (hex t'))
      by (intros t' Ht'; apply Hcells, elem_of_cons; by right).
    destruct (calculateEffectiveDistance_transparent_back getTile traverseTo cells
                fuel (hex sourceTile) (hex t) sourceRange cache d Hsrc Ht Hco Hv)
      as [cache1 Hd].
    destruct (calculateEffectiveDistance_transparent getTile traverseTo cells
                key_inj id_inj fuel (hex sourceTile) (hex t) sourceRange cache d cache1
                Hsrc Ht Hco Hd) as (Hco1 & _).
    rewrite Hd. cbn [mbind option_bind].
    destruct (negb (canReach d)); [by apply IH|].
    destruct (updateClosest _ _ _ _ _) as [closest'|]; [|done].
    cbn [mbind option_bind] in *. by apply IH.
Qed.

Lemma findClosestTarget_transparent fuel sourceTile targetTiles sourceRange cache
    found cache' :
  cells (hex sourceTile) → (∀ t, t ∈ targetTiles → cells (hex t)) →
  TargetCoherent cache →
  findClosestTarget fuel sourceTile targetTiles sourceRange getTile canTraverse true
    cache = Some (found, cache') →
  TargetCoherent cache'
  ∧ closestEnemyCache cache' = closestEnemyCache cache
  ∧ closestAllyCache cache' = closestAllyCache cache
  ∧ ∃ fuel',
      valueOf (findClosestTarget fuel' sourceTile targetTiles sourceRange getTile
                 canTraverse false newPathfindingCache) = Some found.
Proof.
  intros Hsrc Hcells Hco. unfold findClosestTarget.
  destruct (_ =? 0).
  { intros [= <- <-]. split; [done|]. split; [done|]. split; [done|]. by exists 0%nat. }
  destruct (1 <? sourceRange).
  - destruct (_ || _).
    { intros [= <- <-]. split; [done|]. split; [done|]. split; [done|].
      by exists 0%nat. }
    destruct (candidateTargets _ _) as [|first rest];
      intros [= <- <-]; (split; [done|]); (split; [done|]); (split; [done|]);
      by exists 0%nat.
  - by apply meleeLoop_transparent.
Qed.

Lemma findClosestTarget_transparent_back fuel sourceTile targetTiles sourceRange cache
    found :
  cells (hex sourceTile) → (∀ t, t ∈ targetTiles → cells (hex t)) →
  TargetCoherent cache →
  valueOf (findClosestTarget fuel sourceTile targetTiles sourceRange getTile
             canTraverse false newPathfindingCache) = Some found →
  ∃ cache',
    findClosestTarget fuel sourceTile targetTiles sourceRange getTile canTraverse true
      cache = Some (found, cache').
Proof.
  intros Hsrc Hcells Hco. unfold findClosestTarget.
  destruct (_ =? 0).
  { intros [= <-]. by exists cache. }
  destruct (1 <? sourceRange).
  - destruct (_ || _).
    { intros [= <-]. by exists cache. }
    destruct (candidateTargets _ _) as [|first rest]; intros [= <-]; by exists cache.
  - by apply meleeLoop_transparent_back.
Qed.
End LoopTransparency.

(** ** Transparency of the closest-target maps *)

Section MapTransparency.
Context `{CacheKeys}.
Variables (tiles : list GridTile) (characterRanges : gmap string Z)
          (getTile : option (Hex → option GridTile)) (cells : Hex → Prop).
Hypothesis key_inj : ∀ a b c a' b' c',
  generatePathCacheKey a b c = generatePathCacheKey a' b' c' →
  a = a' ∧ b = b' ∧ c = c'.
Hypothesis id_inj : ∀ x y : Hex, cells x → cells y → getId x = getId y → x = y.
Hypothesis tiles_cells : ∀ t, t ∈ tiles → cells (hex t).

(** The entry of the enemy-map cache for this board, if there is one, is
    the map the computation yields. *)
Definition EnemyMapCoherent (cache : PathfindingCache) : Prop :=
  ∀ m, (generateGridCacheKey tiles characterRanges, m)
         ∈ entries (closestEnemyCache cache) →
    ∃ fuel, valueOf (getClosestEnemyMap fuel tiles characterRanges false getTile
                       newPathfindingCache) = Some m.

Definition AllyMapCoherent (cache : PathfindingCache) : Prop :=
  ∀ m, (generateGridCacheKey tiles characterRanges, m)
         ∈ entries (closestAllyCache cache) →
    ∃ fuel, valueOf (getClosestAllyMap fuel tiles characterRanges false getTile
                       newPathfindingCache) = Some m.

(** A cache coherent with the board of the tiles: its three parts are. *)
Record BoardCoherent (cache : PathfindingCache) : Prop := {
  co_distance :
    TargetCoherent (getTileHelper tiles getTile) defaultCanTraverse cells cache;
  co_enemy : EnemyMapCoherent cache;
  co_ally : AllyMapCoherent cache;
}.

Lemma closestLoop_transparent fuel mkInfo targetTiles sources result cache out cache' :
  (∀ s, s ∈ sources → cells (hex s)) → (∀ t, t ∈ targetTiles → cells (hex t)) →
  TargetCoherent (getTileHelper tiles getTile) defaultCanTraverse cells cache →
  closestLoop fuel mkInfo characterRanges targetTiles (getTileHelper tiles getTile)
    true sources result cache = Some (out, cache') →
  TargetCoherent (getTileHelper tiles getTile) defaultCanTraverse cells cache'
  ∧ closestEnemyCache cache' = closestEnemyCache cache
  ∧ closestAllyCache cache' = closestAllyCache cache
  ∧ ∃ fuel',
      valueOf (closestLoop fuel' mkInfo characterRanges targetTiles
                 (getTileHelper tiles getTile) false sources result
                 newPathfindingCache) = Some out.
Proof.
  intros Hsources Htargets. revert result cache.
  induction sources as [|s rest IH]; intros result cache Hco Hrun.
  - cbn [closestLoop] in Hrun. injection Hrun as <- <-.
    split; [done|]. split; [done|]. split; [done|]. by exists 0%nat.
  - cbn [closestLoop] in Hrun.
    destruct (findClosestTarget fuel _ _ _ _ _ true cache)
      as [[found cache1]|] eqn:Hf; [|done].
    cbn [mbind option_bind] in Hrun.
    assert (Hs : cells (hex s)) by (apply Hsources, elem_of_cons; by left).
    assert (Hrest : ∀ s', s' ∈ rest → cells (hex s'))
      by (intros s' Hs'; apply Hsources, elem_of_cons; by right).
    destruct (findClosestTarget_transparent _ _ cells key_inj id_inj _ _ _ _ _ _ _
                Hs Htargets Hco Hf) as (Hco1 & He1 & Ha1 & f1 & Hv1).
    destruct (IH Hrest _ _ Hco1 Hrun) as (Hco' & He' & Ha' & f2 & Hv2).
    split; [done|]. split; [congruence|]. split; [congruence|].
    exists (f1 `max` f2)%nat.
    apply valueOf_Some in Hv1 as [c1 Hv1]. apply valueOf_Some in Hv2 as [c2 Hv2].
    apply (findClosestTarget_mono _ (f1 `max` f2)) in Hv1; [|lia].
    apply (closestLoop_mono _ (f1 `max` f2)) in Hv2; [|lia].
    cbn [closestLoop]. rewrite findClosestTarget_off, Hv1.
    cbn [valueOf fmap option_fmap option_map mbind option_bind fst].
    by rewrite Hv2.
Qed.

Lemma closestLoop_transparent_back fuel mkInfo targetTiles sources result cache out :
  (∀ s, s ∈ sources → cells (hex s)) → (∀ t, t ∈ targetTiles → cells (hex t)) →
  TargetCoherent (getTileHelper tiles getTile) defaultCanTraverse cells cache →
  valueOf (closestLoop fuel mkInfo characterRanges targetTiles
             (getTileHelper tiles getTile) false sources result newPathfindingCache)
    = Some out →
  ∃ cache',
    closestLoop fuel mkInfo characterRanges targetTiles (getTileHelper tiles getTile)
      true sources result cache = Some (out, cache').
Proof.
  intros Hsources Htargets. revert result cache.
  induction sources as [|s rest IH]; intros result cache Hco Hrun.
  - cbn in Hrun. injection Hrun as <-. by exists cache.
  - cbn [closestLoop] in *. rewrite findClosestTarget_off in Hrun.
    destruct (valueOf (findClosestTarget fuel _ _ _ _ _ false _))
      as [found|] eqn:Hv; [|done].
    cbn [fmap option_fmap option_map mbind option_bind] in Hrun.
    assert (Hs : cells (hex s)) by (apply Hsources, elem_of_cons; by left).
    assert (Hrest : ∀ s', s' ∈ rest → cells (hex s'))
      by (intros s' Hs'; apply Hsources, elem_of_cons; by right).
    destruct (findClosestTarget_transparent_back _ _ cells key_inj id_inj _ _ _ _ _ _
                Hs Htargets Hco Hv) as [cache1 Hf].
    destruct (findClosestTarget_transparent _ _ cells key_inj id_inj _ _ _ _ _ _ _
                Hs Htargets Hco Hf) as (Hco1 & _).
    rewrite Hf. cbn [mbind option_bind]. by apply IH.
Qed.

Lemma hasTeam_cells side t : t ∈ List.filter (hasTeam side) tiles → cells (hex t).
Proof. intros Ht. apply elem_of_hasTeam in Ht as [Ht _]. by apply tiles_cells. Qed.

Lemma getClosestEnemyMap_off fuel cache :
  valueOf (getClosestEnemyMap fuel tiles characterRanges false getTile cache)
  = valueOf (getClosestEnemyMap fuel tiles characterRanges false getTile
               newPathfindingCache).
Proof.
  unfold getClosestEnemyMap. rewrite (closestLoop_off _ _ _ _ _ _ _ cache).
  rewrite (closestLoop_off _ _ _ _ _ _ _ newPathfindingCache) at 2.
  by destruct (valueOf (closestLoop _ _ _ _ _ _ _ _ _)).
Qed.

Lemma getClosestAllyMap_off fuel cache :
  valueOf (getClosestAllyMap fuel tiles characterRanges false getTile cache)
  = valueOf (getClosestAllyMap fuel tiles characterRanges false getTile
               newPathfindingCache).
Proof.
  unfold getClosestAllyMap. rewrite (closestLoop_off _ _ _ _ _ _ _ cache).
  rewrite (closestLoop_off _ _ _ _ _ _ _ newPathfindingCache) at 2.
  by destruct (valueOf (closestLoop _ _ _ _ _ _ _ _ _)).
Qed.
Lemma cacheGetClosestEnemyMap_miss key cache :
  memo_lookup key (entries (closestEnemyCache cache)) = None →
  cacheGetClosestEnemyMap key cache = (None, cache).
Proof.
  intros Hmiss. unfold cacheGetClosestEnemyMap, memo_get. rewrite Hmiss.
  by destruct cache.
Qed.

Lemma cacheGetClosestAllyMap_miss key cache :
  memo_lookup key (entries (closestAllyCache cache)) = None →
  cacheGetClosestAllyMap key cache = (None, cache).
Proof.
  intros Hmiss. unfold cacheGetClosestAllyMap, memo_get. rewrite Hmiss.
  by destruct cache.
Qed.

Lemma cacheGetClosestEnemyMap_hit key cache m :
  memo_lookup key (entries (closestEnemyCache cache)) = Some m →
  ∃ c1, cacheGetClosestEnemyMap key cache = (Some m, c1)
        ∧ effectiveDistanceCache c1 = effectiveDistanceCache cache
        ∧ closestAllyCache c1 = closestAllyCache cache
        ∧ ∀ e, e ∈ entries (closestEnemyCache c1) → e ∈ entries (closestEnemyCache cache).
Proof.
  intros Hhit. unfold cacheGetClosestEnemyMap.
  pose proof (memo_get_value key (closestEnemyCache cache)) as Hval.
  pose proof (memo_get_elem key (closestEnemyCache cache)) as Helem.
  destruct (memo_get key (closestEnemyCache cache)) as [o c]. cbn [fst snd] in *.
  eexists. split; [by rewrite Hval, Hhit|]. done.
Qed.

Lemma cacheGetClosestAllyMap_hit key cache m :
  memo_lookup key (entries (closestAllyCache cache)) = Some m →
  ∃ c1, cacheGetClosestAllyMap key cache = (Some m, c1)
        ∧ effectiveDistanceCache c1 = effectiveDistanceCache cache
        ∧ closestEnemyCache c1 = closestEnemyCache cache
        ∧ ∀ e, e ∈ entries (closestAllyCache c1) → e ∈ entries (closestAllyCache cache).
Proof.
  intros Hhit. unfold cacheGetClosestAllyMap.
  pose proof (memo_get_value key (closestAllyCache cache)) as Hval.
  pose proof (memo_get_elem key (closestAllyCache cache)) as Helem.
  destruct (memo_get key (closestAllyCache cache)) as [o c]. cbn [fst snd] in *.
  eexists. split; [by rewrite Hval, Hhit|]. done.
Qed.

Lemma TargetCoherent_ext lookup canTraverse c1 c2 :
  effectiveDistanceCache c1 = effectiveDistanceCache c2 →
  TargetCoherent lookup canTraverse cells c1 →
  TargetCoherent lookup canTraverse cells c2.
Proof.
  intros Heq Hco s g r v Hs Hg Hin. rewrite <- Heq in Hin. by apply Hco.
Qed.

(** The computation of a map, with caching off, from that of its loop. *)
Lemma getClosestEnemyMap_value fuel m :
  valueOf (getClosestEnemyMap fuel tiles characterRanges false getTile
             newPathfindingCache) = Some m
  ↔ valueOf (closestLoop fuel enemyInfo characterRanges
               (List.filter (hasTeam ENEMY) tiles) (getTileHelper tiles getTile) false
               (List.filter (hasTeam ALLY) tiles) ∅ newPathfindingCache) = Some m.
Proof.
  unfold getClosestEnemyMap.
  by destruct (closestLoop _ _ _ _ _ _ _ _ _) as [[r c]|].
Qed.

Lemma getClosestAllyMap_value fuel m :
  valueOf (getClosestAllyMap fuel tiles characterRanges false getTile
             newPathfindingCache) = Some m
  ↔ valueOf (closestLoop fuel allyInfo characterRanges
               (List.filter (hasTeam ALLY) tiles) (getTileHelper tiles getTile) false
               (List.filter (hasTeam ENEMY) tiles) ∅ newPathfindingCache) = Some m.
Proof.
  unfold getClosestAllyMap.
  by destruct (closestLoop _ _ _ _ _ _ _ _ _) as [[r c]|].
Qed.

Lemma getClosestEnemyMap_transparent fuel cache m cache' :
  BoardCoherent cache →
  getClosestEnemyMap fuel tiles characterRanges true getTile cache = Some (m, cache') →
  BoardCoherent cache'
  ∧ ∃ fuel', valueOf (getClosestEnemyMap fuel' tiles characterRanges false getTile
                        newPathfindingCache) = Some m.
Proof.
  intros [Hd He Ha]. unfold getClosestEnemyMap at 1.
  destruct (memo_lookup (generateGridCacheKey tiles characterRanges)
              (entries (closestEnemyCache cache))) as [m0|] eqn:Hlook.
  - destruct (cacheGetClosestEnemyMap_hit _ _ _ Hlook) as (c1 & -> & Hed & Hal & Hen).
    intros [= <- <-]. split.
    + split.
      * by eapply TargetCoherent_ext.
      * intros m' Hin. by apply He, Hen.
      * intros m' Hin. rewrite Hal in Hin. by apply Ha.
    + by apply He, memo_lookup_elem.
  - rewrite (cacheGetClosestEnemyMap_miss _ _ Hlook).
    destruct (closestLoop fuel _ _ _ _ _ _ _ _) as [[result cache2]|] eqn:Hloop; [|done].
    cbn [mbind option_bind]. intros [= <- <-].
    destruct (closestLoop_transparent _ _ _ _ _ _ _ _
                (hasTeam_cells ALLY) (hasTeam_cells ENEMY) Hd Hloop)
      as (Hd2 & He2 & Ha2 & f & Hv).
    split; [|exists f; by apply getClosestEnemyMap_value].
    split.
    + by eapply TargetCoherent_ext.
    + intros m' Hin. cbn [cacheSetClosestEnemyMap closestEnemyCache] in Hin.
      apply memo_set_elem in Hin as [[= ->]|Hin].
      * exists f. by apply getClosestEnemyMap_value.
      * rewrite He2 in Hin. by apply He.
    + intros m' Hin. cbn [cacheSetClosestEnemyMap closestAllyCache] in Hin.
      rewrite Ha2 in Hin. by apply Ha.
Qed.

Lemma getClosestAllyMap_transparent fuel cache m cache' :
  BoardCoherent cache →
  getClosestAllyMap fuel tiles characterRanges true getTile cache = Some (m, cache') →
  BoardCoherent cache'
  ∧ ∃ fuel', valueOf (getClosestAllyMap fuel' tiles characterRanges false getTile
                        newPathfindingCache) = Some m.
Proof.
  intros [Hd He Ha]. unfold getClosestAllyMap at 1.
  destruct (memo_lookup (generateGridCacheKey tiles characterRanges)
              (entries (closestAllyCache cache))) as [m0|] eqn:Hlook.
  - destruct (cacheGetClosestAllyMap_hit _ _ _ Hlook) as (c1 & -> & Hed & Hen & Hal).
    intros [= <- <-]. split.
    + split.
      * by eapply TargetCoherent_ext.
      * intros m' Hin. rewrite Hen in Hin. by apply He.
      * intros m' Hin. by apply Ha, Hal.
    + by apply Ha, memo_lookup_elem.
  - rewrite (cacheGetClosestAllyMap_miss _ _ Hlook).
    destruct (closestLoop fuel _ _ _ _ _ _ _ _) as [[result cache2]|] eqn:Hloop; [|done].
    cbn [mbind option_bind]. intros [= <- <-].
    destruct (closestLoop_transparent _ _ _ _ _ _ _ _
                (hasTeam_cells ENEMY) (hasTeam_cells ALLY) Hd Hloop)
      as (Hd2 & He2 & Ha2 & f & Hv).
    split; [|exists f; by apply getClosestAllyMap_value].
    split.
    + by eapply TargetCoherent_ext.
    + intros m' Hin. cbn [cacheSetClosestAllyMap closestEnemyCache] in Hin.
      rewrite He2 in Hin. by apply He.
    + intros m' Hin. cbn [cacheSetClosestAllyMap closestAllyCache] in Hin.
      apply memo_set_elem in Hin as [[= ->]|Hin].
      * exists f. by apply getClosestAllyMap_value.
      * rewrite Ha2 in Hin. by apply Ha.
Qed.

Lemma getClosestEnemyMap_transparent_back fuel cache m :
  BoardCoherent cache →
  valueOf (getClosestEnemyMap fuel tiles characterRanges false getTile
             newPathfindingCache) = Some m →
  ∃ cache', getClosestEnemyMap fuel tiles characterRanges true getTile cache
            = Some (m, cache').
Proof.
  intros [Hd He Ha] Hval. unfold getClosestEnemyMap at 1.
  destruct (memo_lookup (generateGridCacheKey tiles characterRanges)
              (entries (closestEnemyCache cache))) as [m0|] eqn:Hlook.
  - destruct (cacheGetClosestEnemyMap_hit _ _ _ Hlook) as (c1 & -> & _).
    destruct (He m0 (memo_lookup_elem _ _ _ Hlook)) as [f0 Hval0].
    apply valueOf_Some in Hval as [c Hval]. apply valueOf_Some in Hval0 as [c0 Hval0].
    apply (getClosestEnemyMap_mono _ (fuel `max` f0)) in Hval; [|lia].
    apply (getClosestEnemyMap_mono _ (fuel `max` f0)) in Hval0; [|lia].
    assert (m0 = m) as -> by congruence. eauto.
  - rewrite (cacheGetClosestEnemyMap_miss _ _ Hlook).
    apply getClosestEnemyMap_value in Hval.
    destruct (closestLoop_transparent_back _ _ _ _ _ _ _
                (hasTeam_cells ALLY) (hasTeam_cells ENEMY) Hd Hval) as [cache2 ->].
    cbn [mbind option_bind]. eauto.
Qed.

Lemma getClosestAllyMap_transparent_back fuel cache m :
  BoardCoherent cache →
  valueOf (getClosestAllyMap fuel tiles characterRanges false getTile
             newPathfindingCache) = Some m →
  ∃ cache', getClosestAllyMap fuel tiles characterRanges true getTile cache
            = Some (m, cache').
Proof.
  intros [Hd He Ha] Hval. unfold getClosestAllyMap at 1.
  destruct (memo_lookup (generateGridCacheKey tiles characterRanges)
              (entries (closestAllyCache cache))) as [m0|] eqn:Hlook.
  - destruct (cacheGetClosestAllyMap_hit _ _ _ Hlook) as (c1 & -> & _).
    destruct (Ha m0 (memo_lookup_elem _ _ _ Hlook)) as [f0 Hval0].
    apply valueOf_Some in Hval as [c Hval]. apply valueOf_Some in Hval0 as [c0 Hval0].
    apply (getClosestAllyMap_mono _ (fuel `max` f0)) in Hval; [|lia].
    apply (getClosestAllyMap_mono _ (fuel `max` f0)) in Hval0; [|lia].
    assert (m0 = m) as -> by congruence. eauto.
  - rewrite (cacheGetClosestAllyMap_miss _ _ Hlook).
    apply getClosestAllyMap_value in Hval.
    destruct (closestLoop_transparent_back _ _ _ _ _ _ _
                (hasTeam_cells ENEMY) (hasTeam_cells ALLY) Hd Hval) as [cache2 ->].
    cbn [mbind option_bind]. eauto.
Qed.
End MapTransparency.

(** ** The four functions return the same values with caching on and off *)

Section SameValues.
Context `{CacheKeys}.

(** [run n on c] is a call with step budget [n], caching flag [on] and
    cache [c].  Caching on and off give the same values from [cache]:
    a value returned with caching on is the value the call computes with
    caching off (at every large enough budget), and the cache left behind
    is coherent again; a value computed with caching off is returned with
    caching on at the same budget. *)
Definition sameValues {A : Type} (coherent : PathfindingCache → Prop)
    (run : nat → bool → PathfindingCache → option (A * PathfindingCache))
    (fuel : nat) (cache : PathfindingCache) : Prop :=
  (∀ v cache', run fuel true cache = Some (v, cache') →
     coherent cache'
     ∧ ∃ fuel', ∀ n, (fuel' ≤ n)%nat → valueOf (run n false cache) = Some v)
  ∧ (∀ v, valueOf (run fuel false cache) = Some v →
          valueOf (run fuel true cache) = Some v).

Lemma valueOf_findClosestTarget_off n sourceTile targetTiles sourceRange getTile
    canTraverse cache :
  valueOf (findClosestTarget n sourceTile targetTiles sourceRange getTile canTraverse
             false cache)
  = valueOf (findClosestTarget n sourceTile targetTiles sourceRange getTile canTraverse
               false newPathfindingCache).
Proof.
  rewrite (findClosestTarget_off _ _ _ _ _ _ cache).
  by destruct (valueOf (findClosestTarget _ _ _ _ _ _ _ _)).
Qed.

(** An empty cache is coherent with every board. *)
Lemma newPathfindingCache_coherent getTile canTraverseFor cells :
  DistanceCoherent getTile canTraverseFor cells newPathfindingCache.
Proof. intros s g r v _ _ Hin. by apply elem_of_nil in Hin. Qed.

Lemma newPathfindingCache_board_coherent tiles characterRanges getTile cells :
  BoardCoherent tiles characterRanges getTile cells newPathfindingCache.
Proof.
  split.
  - apply newPathfindingCache_coherent.
  - intros m Hin. by apply elem_of_nil in Hin.
  - intros m Hin. by apply elem_of_nil in Hin.
Qed.
End SameValues.





(** The key does not record the traversal predicate either.  On one
    board of three cells in a line, the enemy on the last one, and with a
    predicate that accepts free tiles only, a call of
    calculateEffectiveDistance towards the hex of an enemy stores
    "unreachable" for hexes 10 and 5; findClosestTarget, which accepts the
    tile of its target, then finds that entry with caching on and returns
    no target, and returns hex 5 at one tile of movement with caching
    off. *)
Lemma cached_distance_ignores_the_predicate :
  let source := mkTile Cube.cubeHex (Cube.mkHex 0 0 0 10) OCCUPIED_ALLY (Some ALLY)
                  (Some "a"%string) in
  let target := mkTile Cube.cubeHex (Cube.mkHex 2 (-2) 0 5) OCCUPIED_ENEMY (Some ENEMY)
                  (Some "e"%string) in
  let board := λ x, if Cube.cube_equals x (hex target) then Some target
                    else Cube.listBoard [(0, 0, 0); (1, -1, 0)] [] x in
  let freeOnly := λ tile : @GridTile Cube.cubeHex, bool_decide (state tile = DEFAULT) in
  let stored := {| movementDistance := Infinity; canReach := false;
                   directDistance := 2 |} in
  let cache := @setEffectiveDistance Cube.cubeHex Cube.cubeKeys (10, 5, 1) stored
                 newPathfindingCache in
  @calculateEffectiveDistance Cube.cubeHex Cube.cubeKeys 20 (hex source) (hex target) 1
    board freeOnly true newPathfindingCache = Some (stored, cache)
  ∧ valueOf (@findClosestTarget Cube.cubeHex Cube.cubeKeys 20 source [target] 1
               board freeOnly true cache) = Some None
  ∧ valueOf (@findClosestTarget Cube.cubeHex Cube.cubeKeys 20 source [target] 1
               board freeOnly false cache)
    = Some (Some {| hexId := 5; target_distance := Finite 1 |}).
Proof.
  cbv zeta. split; [by_evaluation|]. split; by_evaluation.
Qed.
(** * Round trips of the memo cache *)

Section MemoRoundTrip.
Context {K V : Type} `{EqDecision K}.

Lemma memo_lookup_app (key : K) (l1 l2 : list (K * V)) :
  memo_lookup key (l1 ++ l2)
  = match memo_lookup key l1 with
    | Some v => Some v
    | None => memo_lookup key l2
    end.
Proof.
  unfold memo_lookup. induction l1 as [|[k v] l1 IH]; [done|].
  cbn [app find]. case_bool_decide; cbn; [done|]. exact IH.
Qed.

Lemma memo_lookup_remove (key key' : K) (l : list (K * V)) :
  memo_lookup key' (memo_remove key l)
  = if decide (key' = key) then None else memo_lookup key' l.
Proof.
  unfold memo_lookup, memo_remove. induction l as [|[k v] l IH].
  - by destruct (decide (key' = key)).
  - rewrite filter_cons. cbn [fst find].
    destruct (decide (k ≠ key)) as [Hk|Hk].
    + cbn [find fst]. case_bool_decide as Hk'.
      * subst k. cbn. by rewrite decide_False by done.
      * exact IH.
    + apply dec_stable in Hk. subst k. rewrite IH.
      destruct (decide (key' = key)) as [->|Hne]; [done|].
      by rewrite bool_decide_eq_false_2 by done.
Qed.

Lemma memo_lookup_tail_None (key : K) (l : list (K * V)) :
  memo_lookup key l = None → memo_lookup key (tail l) = None.
Proof.
  unfold memo_lookup. destruct l as [|[k v] l]; [done|].
  cbn [find tail fst]. by case_bool_decide.
Qed.

(** What was stored under a key is what a lookup of the key finds. *)
Lemma memo_set_lookup (key : K) (v : V) (c : MemoCache K V) :
  memo_lookup key (entries (memo_set key v c)) = Some v.
Proof.
  unfold memo_set. cbn [entries]. rewrite memo_lookup_app.
  destruct (memo_lookup key (entries c)) eqn:Hl.
  - rewrite memo_lookup_remove, decide_True by done.
    unfold memo_lookup. cbn. by rewrite bool_decide_eq_true_2.
  - assert (memo_lookup key (if bool_decide (maxSize c ≤ length (entries c))%nat
                             then tail (entries c) else entries c) = None) as ->.
    { case_bool_decide; [by apply memo_lookup_tail_None|done]. }
    unfold memo_lookup. cbn. by rewrite bool_decide_eq_true_2.
Qed.

(** A lookup that hits leaves every key with the value it had. *)
Lemma memo_get_lookup (key key' : K) (c : MemoCache K V) :
  memo_lookup key' (entries (memo_get key c).2) = memo_lookup key' (entries c).
Proof.
  unfold memo_get. destruct (memo_lookup key (entries c)) as [v|] eqn:Hl; [|done].
  cbn [snd entries]. rewrite memo_lookup_app, memo_lookup_remove.
  destruct (decide (key' = key)) as [->|Hne].
  - unfold memo_lookup at 1. cbn. by rewrite bool_decide_eq_true_2.
  - destruct (memo_lookup key' (entries c)); [done|].
    unfold memo_lookup. cbn. by rewrite bool_decide_eq_false_2 by done.
Qed.
End MemoRoundTrip.
(** * Cache management *)

Section CacheManagement.
Context `{CacheKeys}.

(** The cache with its path store replaced. *)
Definition withPathCache (p : MemoCache PathKey (option (list Hex)))
    (c : PathfindingCache) : PathfindingCache :=
  {| pathCache := p;
     effectiveDistanceCache := effectiveDistanceCache c;
     closestEnemyCache := closestEnemyCache c;
     closestAllyCache := closestAllyCache c |}.

(** What a call returns when the path store of its cache is replaced by
    [p] beforehand, in terms of what it returns otherwise. *)
Definition withPathCacheAfter {A : Type} (p : MemoCache PathKey (option (list Hex)))
    (r : option (A * PathfindingCache)) : option (A * PathfindingCache) :=
  (λ out, (out.1, withPathCache p out.2)) <$> r.

Lemma calculateEffectiveDistance_withPathCache p fuel start goal range getTile
    canTraverse cachingEnabled cache :
  calculateEffectiveDistance fuel start goal range getTile canTraverse cachingEnabled
    (withPathCache p cache)
  = withPathCacheAfter p
      (calculateEffectiveDistance fuel start goal range getTile canTraverse
         cachingEnabled cache).
Proof.
  unfold calculateEffectiveDistance, getEffectiveDistance, withPathCacheAfter.
  destruct cachingEnabled.
  - cbn [effectiveDistanceCache withPathCache].
    destruct (memo_get _ (effectiveDistanceCache cache)) as [[v|] m]; [reflexivity|].
    destruct (_ <=? _); [reflexivity|].
    destruct (findPath _ _ _ _ _) as [[path|]|]; reflexivity.
  - destruct (_ <=? _); [reflexivity|].
    destruct (findPath _ _ _ _ _) as [[path|]|]; reflexivity.
Qed.

Lemma meleeLoop_withPathCache p fuel sourceTile targetTiles sourceRange getTile
    canTraverse cachingEnabled remaining closest cache :
  meleeLoop fuel sourceTile targetTiles sourceRange getTile canTraverse cachingEnabled
    remaining closest (withPathCache p cache)
  = withPathCacheAfter p
      (meleeLoop fuel sourceTile targetTiles sourceRange getTile canTraverse
         cachingEnabled remaining closest cache).
Proof.
  revert closest cache.
  induction remaining as [|t rest IH]; intros closest cache; [reflexivity|].
  cbn [meleeLoop]. rewrite calculateEffectiveDistance_withPathCache.
  destruct (calculateEffectiveDistance _ _ _ _ _ _ _ cache) as [[d c1]|]; [|reflexivity].
  cbn. destruct (negb (canReach d)); [apply IH|].
  destruct (updateClosest _ _ _ _ _) as [closest'|]; [|reflexivity].
  cbn. apply IH.
Qed.

Lemma findClosestTarget_withPathCache p fuel sourceTile targetTiles sourceRange getTile
    canTraverse cachingEnabled cache :
  findClosestTarget fuel sourceTile targetTiles sourceRange getTile canTraverse
    cachingEnabled (withPathCache p cache)
  = withPathCacheAfter p
      (findClosestTarget fuel sourceTile targetTiles sourceRange getTile canTraverse
         cachingEnabled cache).
Proof.
  unfold findClosestTarget.
  destruct (_ =? 0); [reflexivity|].
  destruct (1 <? sourceRange); [|apply meleeLoop_withPathCache].
  destruct (_ || _); [reflexivity|].
  destruct (candidateTargets _ _); reflexivity.
Qed.

Lemma closestLoop_withPathCache p fuel mkInfo characterRanges targetTiles lookup
    cachingEnabled sources result cache :
  closestLoop fuel mkInfo characterRanges targetTiles lookup cachingEnabled sources
    result (withPathCache p cache)
  = withPathCacheAfter p
      (closestLoop fuel mkInfo characterRanges targetTiles lookup cachingEnabled
         sources result cache).
Proof.
  revert result cache.
  induction sources as [|s rest IH]; intros result cache; [reflexivity|].
  cbn [closestLoop]. rewrite findClosestTarget_withPathCache.
  destruct (findClosestTarget _ _ _ _ _ _ _ cache) as [[found c1]|]; [|reflexivity].
  cbn. apply IH.
Qed.

Lemma getClosestEnemyMap_withPathCache p fuel tiles characterRanges cachingEnabled
    getTile cache :
  getClosestEnemyMap fuel tiles characterRanges cachingEnabled getTile
    (withPathCache p cache)
  = withPathCacheAfter p
      (getClosestEnemyMap fuel tiles characterRanges cachingEnabled getTile cache).
Proof.
  unfold getClosestEnemyMap, cacheGetClosestEnemyMap.
  destruct cachingEnabled.
  - cbn [closestEnemyCache withPathCache].
    destruct (memo_get _ (closestEnemyCache cache)) as [[v|] m]; [reflexivity|].
    match goal with
    | |- context [closestLoop ?a ?b ?c ?d ?e ?f ?g ?i (mkCache ?pc ?ed ?en ?al)] =>
        change (mkCache pc ed en al)
          with (withPathCache p (mkCache (pathCache cache) ed en al))
    end.
    rewrite closestLoop_withPathCache.
    destruct (closestLoop _ _ _ _ _ _ _ _ _) as [[result c1]|]; reflexivity.
  - rewrite closestLoop_withPathCache.
    destruct (closestLoop _ _ _ _ _ _ _ _ _) as [[result c1]|]; reflexivity.
Qed.

Lemma getClosestAllyMap_withPathCache p fuel tiles characterRanges cachingEnabled
    getTile cache :
  getClosestAllyMap fuel tiles characterRanges cachingEnabled getTile
    (withPathCache p cache)
  = withPathCacheAfter p
      (getClosestAllyMap fuel tiles characterRanges cachingEnabled getTile cache).
Proof.
  unfold getClosestAllyMap, cacheGetClosestAllyMap.
  destruct cachingEnabled.
  - cbn [closestAllyCache withPathCache].
    destruct (memo_get _ (closestAllyCache cache)) as [[v|] m]; [reflexivity|].
    match goal with
    | |- context [closestLoop ?a ?b ?c ?d ?e ?f ?g ?i (mkCache ?pc ?ed ?en ?al)] =>
        change (mkCache pc ed en al)
          with (withPathCache p (mkCache (pathCache cache) ed en al))
    end.
    rewrite closestLoop_withPathCache.
    destruct (closestLoop _ _ _ _ _ _ _ _ _) as [[result c1]|]; reflexivity.
  - rewrite closestLoop_withPathCache.
    destruct (closestLoop _ _ _ _ _ _ _ _ _) as [[result c1]|]; reflexivity.
Qed.
End CacheManagement.

(** X1.  The path store of the cache is dead code for the four cached
    functions.  Whatever setPath has stored beforehand, each of them
    returns the value and leaves the three other stores as it does
    without that, and the path store found afterwards is the one setPath
    left: it is neither read nor written.  What setPath stores under a
    key is what getPath finds there. *)
Theorem path_cache_is_never_used `{CacheKeys}
    (key : PathKey) (value : option (list Hex)) (fuel : nat)
    (start goal : Hex) (range : Z) (getTile : Hex → option GridTile)
    (canTraverse : GridTile → bool) (sourceTile : GridTile)
    (targetTiles tiles : list GridTile) (characterRanges : gmap string Z)
    (getTileOpt : option (Hex → option GridTile))
    (cachingEnabled : bool) (cache : PathfindingCache) :
  let stored := setPath key value cache in
  calculateEffectiveDistance fuel start goal range getTile canTraverse cachingEnabled
    stored
  = withPathCacheAfter (pathCache stored)
      (calculateEffectiveDistance fuel start goal range getTile canTraverse
         cachingEnabled cache)
  ∧ findClosestTarget fuel sourceTile targetTiles range getTile canTraverse
      cachingEnabled stored
    = withPathCacheAfter (pathCache stored)
        (findClosestTarget fuel sourceTile targetTiles range getTile canTraverse
           cachingEnabled cache)
  ∧ getClosestEnemyMap fuel tiles characterRanges cachingEnabled getTileOpt stored
    = withPathCacheAfter (pathCache stored)
        (getClosestEnemyMap fuel tiles characterRanges cachingEnabled getTileOpt cache)
  ∧ getClosestAllyMap fuel tiles characterRanges cachingEnabled getTileOpt stored
    = withPathCacheAfter (pathCache stored)
        (getClosestAllyMap fuel tiles characterRanges cachingEnabled getTileOpt cache)
  ∧ (getPath key stored).1 = Some value.
Proof.
  cbv zeta.
  change (setPath key value cache)
    with (withPathCache (memo_set key value (pathCache cache)) cache).
  cbn [pathCache withPathCache].
  split; [apply calculateEffectiveDistance_withPathCache|].
  split; [apply findClosestTarget_withPathCache|].
  split; [apply getClosestEnemyMap_withPathCache|].
  split; [apply getClosestAllyMap_withPathCache|].
  unfold getPath. cbn [pathCache withPathCache].
  pose proof (memo_get_value key (memo_set key value (pathCache cache))) as Hval.
  destruct (memo_get key (memo_set key value (pathCache cache))) as [v m].
  cbn [fst] in *. rewrite Hval. apply memo_set_lookup.
Qed.

(** The size the statistics report for a store. *)
Definition statOf (cacheType : CacheType) (stats : nat * nat * nat * nat) : nat :=
  match cacheType, stats with
  | PathCache, (a, _, _, _) => a
  | EffectiveDistanceCache, (_, b, _, _) => b
  | ClosestEnemyCache, (_, _, c, _) => c
  | ClosestAllyCache, (_, _, _, d) => d
  end.

#[global] Instance CacheType_eq_dec : EqDecision CacheType.
Proof. solve_decision. Defined.

(** X2.  clearSpecificCache empties the store it names and leaves the
    size of every other store as it was; clearing twice is clearing once,
    the order of two clearings does not matter, clearing the four stores
    one after the other is clearPathfindingCache, and after that
    getCacheStats reports four empty stores. *)
Theorem clearSpecificCache_clears_one_store `{CacheKeys} (cache : PathfindingCache) :
  (∀ a b, statOf b (getCacheStats (clearSpecificCache a cache))
          = if decide (b = a) then 0%nat else statOf b (getCacheStats cache))
  ∧ (∀ a, clearSpecificCache a (clearSpecificCache a cache) = clearSpecificCache a cache)
  ∧ (∀ a b, clearSpecificCache a (clearSpecificCache b cache)
            = clearSpecificCache b (clearSpecificCache a cache))
  ∧ clearSpecificCache ClosestAllyCache
      (clearSpecificCache ClosestEnemyCache
         (clearSpecificCache EffectiveDistanceCache
            (clearSpecificCache PathCache cache)))
    = clearPathfindingCache cache
  ∧ getCacheStats (clearPathfindingCache cache) = (0, 0, 0, 0)%nat.
Proof.
  repeat split.
  - by intros [] [].
  - by intros [].
  - by intros [] [].
Qed.

(** X3.  Clearing brings a cached query back to the computation: after
    clearPathfindingCache, or after clearSpecificCache for the store of
    effective distances, calculateEffectiveDistance with caching enabled
    returns what it returns with caching disabled, whatever the cache held
    before. *)
Theorem calculateEffectiveDistance_after_clear `{CacheKeys}
    (fuel : nat) (start goal : Hex) (range : Z)
    (getTile : Hex → option GridTile) (canTraverse : GridTile → bool)
    (cache : PathfindingCache) :
  valueOf (calculateEffectiveDistance fuel start goal range getTile canTraverse true
             (clearPathfindingCache cache))
  = valueOf (calculateEffectiveDistance fuel start goal range getTile canTraverse false
               cache)
  ∧ valueOf (calculateEffectiveDistance fuel start goal range getTile canTraverse true
               (clearSpecificCache EffectiveDistanceCache cache))
    = valueOf (calculateEffectiveDistance fuel start goal range getTile canTraverse
                 false cache).
Proof.
  split.
  - unfold calculateEffectiveDistance, getEffectiveDistance, clearPathfindingCache, clear.
    cbn [effectiveDistanceCache memo_clear memo_get entries memo_lookup find fmap
         option_fmap option_map].
    destruct (_ <=? _); [reflexivity|].
    destruct (findPath _ _ _ _ _) as [[path|]|]; reflexivity.
  - unfold calculateEffectiveDistance, getEffectiveDistance, clearSpecificCache,
      clearSpecific.
    cbn [effectiveDistanceCache memo_clear memo_get entries memo_lookup find fmap
         option_fmap option_map].
    destruct (_ <=? _); [reflexivity|].
    destruct (findPath _ _ _ _ _) as [[path|]|]; reflexivity.
Qed.

Lemma clear_board_coherent `{CacheKeys} tiles characterRanges getTile cells cache :
  BoardCoherent tiles characterRanges getTile cells (clearPathfindingCache cache).
Proof.
  split.
  - intros s g r v _ _ Hin. by apply elem_of_nil in Hin.
  - intros m Hin. by apply elem_of_nil in Hin.
  - intros m Hin. by apply elem_of_nil in Hin.
Qed.

(** X4.  Clearing makes the two maps agree with their computation again:
    on a board whose cells have distinct ids, with keys that identify
    their arguments, getClosestEnemyMap and getClosestAllyMap called with
    caching enabled on a cache that was just cleared (whatever it held
    before) return the maps the uncached calls return, and leave a cache
    that is coherent with the board. *)
Theorem closest_maps_after_clear `{CacheKeys}
    (tiles : list GridTile) (characterRanges : gmap string Z)
    (getTileOpt : option (Hex → option GridTile)) (cells : Hex → Prop)
    (fuel : nat) (cache : PathfindingCache) :
  (∀ a b c a' b' c',
     generatePathCacheKey a b c = generatePathCacheKey a' b' c' →
     a = a' ∧ b = b' ∧ c = c') →
  (∀ x y : Hex, cells x → cells y → getId x = getId y → x = y) →
  (∀ t, t ∈ tiles → cells (hex t)) →
  sameValues (BoardCoherent tiles characterRanges getTileOpt cells)
    (λ n on c, getClosestEnemyMap n tiles characterRanges on getTileOpt c)
    fuel (clearPathfindingCache cache)
  ∧ sameValues (BoardCoherent tiles characterRanges getTileOpt cells)
      (λ n on c, getClosestAllyMap n tiles characterRanges on getTileOpt c)
      fuel (clearPathfindingCache cache).
Proof.
  intros key_inj id_inj Htiles.
  pose proof (clear_board_coherent tiles characterRanges getTileOpt cells cache) as Hco.
  split; split.
  - intros m cache' Hrun.
    destruct (getClosestEnemyMap_transparent tiles characterRanges getTileOpt cells
                key_inj id_inj Htiles fuel _ m cache' Hco Hrun) as (Hco' & f & Hv).
    split; [done|]. exists f. intros n Hn. rewrite getClosestEnemyMap_off.
    apply valueOf_Some in Hv as [c Hv]. apply valueOf_Some. exists c.
    by eapply getClosestEnemyMap_mono.
  - intros m Hv. rewrite getClosestEnemyMap_off in Hv.
    destruct (getClosestEnemyMap_transparent_back tiles characterRanges getTileOpt
                cells key_inj id_inj Htiles fuel _ m Hco Hv) as [cache' ->].
    done.
  - intros m cache' Hrun.
    destruct (getClosestAllyMap_transparent tiles characterRanges getTileOpt cells
                key_inj id_inj Htiles fuel _ m cache' Hco Hrun) as (Hco' & f & Hv).
    split; [done|]. exists f. intros n Hn. rewrite getClosestAllyMap_off.
    apply valueOf_Some in Hv as [c Hv]. apply valueOf_Some. exists c.
    by eapply getClosestAllyMap_mono.
  - intros m Hv. rewrite getClosestAllyMap_off in Hv.
    destruct (getClosestAllyMap_transparent_back tiles characterRanges getTileOpt
                cells key_inj id_inj Htiles fuel _ m Hco Hv) as [cache' ->].
    done.
Qed.

(** A melee ally on hex 1 and an enemy on hex 2, two steps apart on the
    open board, and a cache that holds a stale "unreachable" for the
    pair: after clearing, the cached calls return the maps of the uncached
    ones. *)
Lemma closest_maps_after_clear_witness :
  let ally := mkTile Cube.cubeHex (Cube.mkHex 0 0 0 1) OCCUPIED_ALLY (Some ALLY)
                (Some "a"%string) in
  let enemy := mkTile Cube.cubeHex (Cube.mkHex 2 (-2) 0 2) OCCUPIED_ENEMY (Some ENEMY)
                 (Some "e"%string) in
  let tiles := [ally; enemy] in
  let stale := @setEffectiveDistance Cube.cubeHex Cube.cubeKeys (1, 2, 1)
                 {| movementDistance := Infinity; canReach := false;
                    directDistance := 2 |} newPathfindingCache in
  valueOf (@getClosestEnemyMap Cube.cubeHex Cube.cubeKeys 20 tiles ∅ true
             (Some Cube.openBoard) (clearPathfindingCache stale))
  = Some {[1 := enemyInfo 2 (Finite 1)]}
  ∧ valueOf (@getClosestAllyMap Cube.cubeHex Cube.cubeKeys 20 tiles ∅ true
               (Some Cube.openBoard) (clearPathfindingCache stale))
    = Some {[2 := allyInfo 1 (Finite 1)]}.
Proof.
  intros ally enemy tiles stale.
  set (cells := λ x : @Hex Cube.cubeHex, x ∈ [hex ally; hex enemy]).
  assert (Hkeys : ∀ a b c a' b' c' : Z,
            @generatePathCacheKey Cube.cubeHex Cube.cubeKeys a b c
            = @generatePathCacheKey Cube.cubeHex Cube.cubeKeys a' b' c' →
            a = a' ∧ b = b' ∧ c = c').
  { intros a b c a' b' c' Heq. by injection Heq as -> -> ->. }
  assert (Hids : ∀ x y : @Hex Cube.cubeHex, cells x → cells y →
            Cube.cid x = Cube.cid y → x = y).
  { intros x y Hx Hy. unfold cells in *.
    rewrite !elem_of_cons in Hx, Hy.
    destruct Hx as [->|[->|Hx]]; [| |by apply elem_of_nil in Hx];
      (destruct Hy as [->|[->|Hy]]; [| |by apply elem_of_nil in Hy]);
      cbn; intros Hid; first [reflexivity|discriminate Hid]. }
  assert (Htiles : ∀ t, t ∈ tiles → cells (hex t)).
  { intros t Ht. unfold tiles in Ht. rewrite !elem_of_cons in Ht. unfold cells.
    rewrite !elem_of_cons.
    destruct Ht as [->|[->|Ht]]; [by left|right; by left|by apply elem_of_nil in Ht]. }
  destruct (@closest_maps_after_clear Cube.cubeHex Cube.cubeKeys tiles ∅
              (Some Cube.openBoard) cells 20 stale Hkeys Hids Htiles)
    as [[_ Henemies] [_ Hallies]].
  split.
  - apply Henemies. by_evaluation.
  - apply Hallies. by_evaluation.
Defined.
(** * Cached results are replayed *)

Section Replay.
Context `{K : CacheKeys}.

(** A caching call of calculateEffectiveDistance that returns leaves its
    result in the store, under its key. *)
Lemma calculateEffectiveDistance_stores fuel start goal range getTile canTraverse
    cache result cache1 :
  calculateEffectiveDistance fuel start goal range getTile canTraverse true cache
    = Some (result, cache1) →
  memo_lookup (generatePathCacheKey (getId start) (getId goal) range)
    (entries (effectiveDistanceCache cache1)) = Some result.
Proof.
  intros Hrun. unfold calculateEffectiveDistance, getEffectiveDistance in Hrun.
  pose proof (memo_get_value (generatePathCacheKey (getId start) (getId goal) range)
                (effectiveDistanceCache cache)) as Hval.
  pose proof (memo_get_lookup (generatePathCacheKey (getId start) (getId goal) range)
                (generatePathCacheKey (getId start) (getId goal) range)
                (effectiveDistanceCache cache)) as Hkeep.
  destruct (memo_get _ (effectiveDistanceCache cache)) as [[v|] m].
  - injection Hrun as <- <-. cbn [effectiveDistanceCache fst snd] in *. congruence.
  - destruct (_ <=? _);
      [|destruct (findPath _ _ _ _ _) as [[path|]|]; [| |done]];
      injection Hrun as <- <-; cbn [effectiveDistanceCache setEffectiveDistance];
      apply memo_set_lookup.
Qed.

Lemma getClosestEnemyMap_stores fuel tiles characterRanges getTileOpt cache found cache1 :
  getClosestEnemyMap fuel tiles characterRanges true getTileOpt cache
    = Some (found, cache1) →
  memo_lookup (generateGridCacheKey tiles characterRanges)
    (entries (closestEnemyCache cache1)) = Some found.
Proof.
  intros Hrun. unfold getClosestEnemyMap, cacheGetClosestEnemyMap in Hrun.
  pose proof (memo_get_value (generateGridCacheKey tiles characterRanges)
                (closestEnemyCache cache)) as Hval.
  pose proof (memo_get_lookup (generateGridCacheKey tiles characterRanges)
                (generateGridCacheKey tiles characterRanges)
                (closestEnemyCache cache)) as Hkeep.
  destruct (memo_get _ (closestEnemyCache cache)) as [[v|] m].
  - injection Hrun as <- <-. cbn [closestEnemyCache fst snd] in *. congruence.
  - destruct (closestLoop _ _ _ _ _ _ _ _ _) as [[result c1]|]; [|done].
    injection Hrun as <- <-. cbn [closestEnemyCache cacheSetClosestEnemyMap].
    apply memo_set_lookup.
Qed.

Lemma getClosestAllyMap_stores fuel tiles characterRanges getTileOpt cache found cache1 :
  getClosestAllyMap fuel tiles characterRanges true getTileOpt cache
    = Some (found, cache1) →
  memo_lookup (generateGridCacheKey tiles characterRanges)
    (entries (closestAllyCache cache1)) = Some found.
Proof.
  intros Hrun. unfold getClosestAllyMap, cacheGetClosestAllyMap in Hrun.
  pose proof (memo_get_value (generateGridCacheKey tiles characterRanges)
                (closestAllyCache cache)) as Hval.
  pose proof (memo_get_lookup (generateGridCacheKey tiles characterRanges)
                (generateGridCacheKey tiles characterRanges)
                (closestAllyCache cache)) as Hkeep.
  destruct (memo_get _ (closestAllyCache cache)) as [[v|] m].
  - injection Hrun as <- <-. cbn [closestAllyCache fst snd] in *. congruence.
  - destruct (closestLoop _ _ _ _ _ _ _ _ _) as [[result c1]|]; [|done].
    injection Hrun as <- <-. cbn [closestAllyCache cacheSetClosestAllyMap].
    apply memo_set_lookup.
Qed.

(** A caching call whose key is in the store returns the value stored,
    and the value stays stored. *)
Lemma calculateEffectiveDistance_hit fuel start goal range getTile canTraverse
    cache result :
  memo_lookup (generatePathCacheKey (getId start) (getId goal) range)
    (entries (effectiveDistanceCache cache)) = Some result →
  ∃ cache1,
    calculateEffectiveDistance fuel start goal range getTile canTraverse true cache
      = Some (result, cache1)
    ∧ memo_lookup (generatePathCacheKey (getId start) (getId goal) range)
        (entries (effectiveDistanceCache cache1)) = Some result.
Proof.
  intros Hstored.
  assert (Hrun : ∃ cache1,
            calculateEffectiveDistance fuel start goal range getTile canTraverse true
              cache = Some (result, cache1)).
  { unfold calculateEffectiveDistance, getEffectiveDistance.
    pose proof (memo_get_value (generatePathCacheKey (getId start) (getId goal) range)
                  (effectiveDistanceCache cache)) as Hval.
    destruct (memo_get _ (effectiveDistanceCache cache)) as [v m].
    cbn [fst] in Hval. rewrite Hstored in Hval. subst v. eauto. }
  destruct Hrun as [cache1 Hrun]. exists cache1. split; [done|].
  by eapply calculateEffectiveDistance_stores.
Qed.

Lemma getClosestEnemyMap_hit fuel tiles characterRanges getTileOpt cache found :
  memo_lookup (generateGridCacheKey tiles characterRanges)
    (entries (closestEnemyCache cache)) = Some found →
  ∃ cache1,
    getClosestEnemyMap fuel tiles characterRanges true getTileOpt cache
      = Some (found, cache1)
    ∧ memo_lookup (generateGridCacheKey tiles characterRanges)
        (entries (closestEnemyCache cache1)) = Some found.
Proof.
  intros Hstored.
  assert (Hrun : ∃ cache1,
            getClosestEnemyMap fuel tiles characterRanges true getTileOpt cache
              = Some (found, cache1)).
  { unfold getClosestEnemyMap, cacheGetClosestEnemyMap.
    pose proof (memo_get_value (generateGridCacheKey tiles characterRanges)
                  (closestEnemyCache cache)) as Hval.
    destruct (memo_get _ (closestEnemyCache cache)) as [v m].
    cbn [fst] in Hval. rewrite Hstored in Hval. subst v. eauto. }
  destruct Hrun as [cache1 Hrun]. exists cache1. split; [done|].
  by eapply getClosestEnemyMap_stores.
Qed.

Lemma getClosestAllyMap_hit fuel tiles characterRanges getTileOpt cache found :
  memo_lookup (generateGridCacheKey tiles characterRanges)
    (entries (closestAllyCache cache)) = Some found →
  ∃ cache1,
    getClosestAllyMap fuel tiles characterRanges true getTileOpt cache
      = Some (found, cache1)
    ∧ memo_lookup (generateGridCacheKey tiles characterRanges)
        (entries (closestAllyCache cache1)) = Some found.
Proof.
  intros Hstored.
  assert (Hrun : ∃ cache1,
            getClosestAllyMap fuel tiles characterRanges true getTileOpt cache
              = Some (found, cache1)).
  { unfold getClosestAllyMap, cacheGetClosestAllyMap.
    pose proof (memo_get_value (generateGridCacheKey tiles characterRanges)
                  (closestAllyCache cache)) as Hval.
    destruct (memo_get _ (closestAllyCache cache)) as [v m].
    cbn [fst] in Hval. rewrite Hstored in Hval. subst v. eauto. }
  destruct Hrun as [cache1 Hrun]. exists cache1. split; [done|].
  by eapply getClosestAllyMap_stores.
Qed.
End Replay.

(** X19.  A cached result is replayed whatever the board, for as long as
    its entry is in the store.  A call of calculateEffectiveDistance with
    caching enabled leaves its result in the effective-distance store
    under the key of the start id, the goal id and the range; and on every
    cache whose store holds a value under that key, a call with caching
    enabled for hexes with these ids and this range returns that value,
    for any lookup, predicate and step budget, and the value is still
    stored afterwards.  The same holds of getClosestEnemyMap and
    getClosestAllyMap with the key of the tiles and ranges, for any
    lookup. *)
Theorem cached_results_are_replayed `{K : CacheKeys}
    (start goal : Hex) (range : Z)
    (tiles : list GridTile) (characterRanges : gmap string Z) :
  let distanceAt := λ cache,
    memo_lookup (generatePathCacheKey (getId start) (getId goal) range)
      (entries (effectiveDistanceCache cache)) in
  let enemiesAt := λ cache,
    memo_lookup (generateGridCacheKey tiles characterRanges)
      (entries (closestEnemyCache cache)) in
  let alliesAt := λ cache,
    memo_lookup (generateGridCacheKey tiles characterRanges)
      (entries (closestAllyCache cache)) in
  (∀ fuel getTile canTraverse cache result cache1,
     calculateEffectiveDistance fuel start goal range getTile canTraverse true cache
       = Some (result, cache1) →
     distanceAt cache1 = Some result)
  ∧ (∀ fuel getTileOpt cache found cache1,
       getClosestEnemyMap fuel tiles characterRanges true getTileOpt cache
         = Some (found, cache1) →
       enemiesAt cache1 = Some found)
  ∧ (∀ fuel getTileOpt cache found cache1,
       getClosestAllyMap fuel tiles characterRanges true getTileOpt cache
         = Some (found, cache1) →
       alliesAt cache1 = Some found)
  ∧ (∀ cache result, distanceAt cache = Some result →
     ∀ fuel start' goal' getTile canTraverse,
       getId start' = getId start → getId goal' = getId goal →
       ∃ cache1,
         calculateEffectiveDistance fuel start' goal' range getTile canTraverse true
           cache = Some (result, cache1)
         ∧ distanceAt cache1 = Some result)
  ∧ (∀ cache found, enemiesAt cache = Some found →
     ∀ fuel tiles' characterRanges' getTileOpt,
       generateGridCacheKey tiles' characterRanges'
         = generateGridCacheKey tiles characterRanges →
       ∃ cache1,
         getClosestEnemyMap fuel tiles' characterRanges' true getTileOpt cache
           = Some (found, cache1)
         ∧ enemiesAt cache1 = Some found)
  ∧ (∀ cache found, alliesAt cache = Some found →
     ∀ fuel tiles' characterRanges' getTileOpt,
       generateGridCacheKey tiles' characterRanges'
         = generateGridCacheKey tiles characterRanges →
       ∃ cache1,
         getClosestAllyMap fuel tiles' characterRanges' true getTileOpt cache
           = Some (found, cache1)
         ∧ alliesAt cache1 = Some found).
Proof.
  intros distanceAt enemiesAt alliesAt.
  split; [|split; [|split; [|split; [|split]]]].
  - intros fuel getTile canTraverse cache result cache1.
    apply calculateEffectiveDistance_stores.
  - intros fuel getTileOpt cache found cache1. apply getClosestEnemyMap_stores.
  - intros fuel getTileOpt cache found cache1. apply getClosestAllyMap_stores.
  - intros cache result Hstored fuel start' goal' getTile canTraverse Hs Hg.
    unfold distanceAt in *. rewrite <- Hs, <- Hg in *.
    by apply calculateEffectiveDistance_hit.
  - intros cache found Hstored fuel tiles' characterRanges' getTileOpt Hkey.
    unfold enemiesAt in *. rewrite <- Hkey in *.
    by apply getClosestEnemyMap_hit.
  - intros cache found Hstored fuel tiles' characterRanges' getTileOpt Hkey.
    unfold alliesAt in *. rewrite <- Hkey in *.
    by apply getClosestAllyMap_hit.
Qed.

(** A result computed and stored on the open board is replayed on a
    board without tiles, at a step budget of 0. *)
Lemma cached_results_are_replayed_witness :
  let start := Cube.mkHex 0 0 0 1 in
  let goal := Cube.mkHex 2 (-2) 0 2 in
  ∃ result cache1,
    @calculateEffectiveDistance Cube.cubeHex Cube.cubeKeys 20 start goal 1
      Cube.openBoard defaultCanTraverse true newPathfindingCache
      = Some (result, cache1)
    ∧ canReach result = true
    ∧ valueOf (@calculateEffectiveDistance Cube.cubeHex Cube.cubeKeys 0 start goal 1
                 Cube.emptyBoard defaultCanTraverse true cache1) = Some result.
Proof.
  intros start goal.
  set (stored := {| movementDistance := Finite 1; canReach := true;
                    directDistance := 2 |}).
  set (cache1 := @setEffectiveDistance Cube.cubeHex Cube.cubeKeys (1, 2, 1) stored
                   newPathfindingCache).
  assert (Hrun : @calculateEffectiveDistance Cube.cubeHex Cube.cubeKeys 20 start goal 1
                   Cube.openBoard defaultCanTraverse true newPathfindingCache
                 = Some (stored, cache1)) by by_evaluation.
  exists stored, cache1. split; [exact Hrun|]. split; [reflexivity|].
  destruct (@cached_results_are_replayed Cube.cubeHex Cube.cubeKeys start goal 1 [] ∅)
    as (Hstores & _ & _ & Hreplay & _).
  destruct (Hreplay cache1 stored (Hstores _ _ _ _ _ _ Hrun) 0%nat start goal
              Cube.emptyBoard defaultCanTraverse eq_refl eq_refl) as (cache2 & -> & _).
  reflexivity.
Defined.
(** * Which stores a call writes *)

Section Frame.
Context `{K : CacheKeys}.

(** The stores of the two maps are left alone by the distance queries. *)
Lemma calculateEffectiveDistance_map_stores fuel start goal range getTile canTraverse
    cachingEnabled cache out cache' :
  calculateEffectiveDistance fuel start goal range getTile canTraverse cachingEnabled
    cache = Some (out, cache') →
  closestEnemyCache cache' = closestEnemyCache cache
  ∧ closestAllyCache cache' = closestAllyCache cache.
Proof.
  unfold calculateEffectiveDistance, getEffectiveDistance.
  destruct cachingEnabled.
  - destruct (memo_get _ (effectiveDistanceCache cache)) as [[v|] m].
    + by intros [= <- <-].
    + destruct (_ <=? _); [by intros [= <- <-]|].
      destruct (findPath _ _ _ _ _) as [[path|]|]; [| |done]; by intros [= <- <-].
  - destruct (_ <=? _); [by intros [= <- <-]|].
    destruct (findPath _ _ _ _ _) as [[path|]|]; [| |done]; by intros [= <- <-].
Qed.

Lemma meleeLoop_map_stores fuel sourceTile targetTiles sourceRange getTile canTraverse
    cachingEnabled remaining closest cache out cache' :
  meleeLoop fuel sourceTile targetTiles sourceRange getTile canTraverse cachingEnabled
    remaining closest cache = Some (out, cache') →
  closestEnemyCache cache' = closestEnemyCache cache
  ∧ closestAllyCache cache' = closestAllyCache cache.
Proof.
  revert closest cache.
  induction remaining as [|t rest IH]; intros closest cache; cbn [meleeLoop].
  - by intros [= <- <-].
  - destruct (calculateEffectiveDistance _ _ _ _ _ _ _ cache) as [[d c1]|] eqn:Hd; [|done].
    apply calculateEffectiveDistance_map_stores in Hd as [He Ha].
    cbn. destruct (negb (canReach d)).
    + intros Hrun. apply IH in Hrun as [He' Ha']. split; congruence.
    + destruct (updateClosest _ _ _ _ _) as [closest'|]; [|done]. cbn.
      intros Hrun. apply IH in Hrun as [He' Ha']. split; congruence.
Qed.

Lemma findClosestTarget_map_stores fuel sourceTile targetTiles sourceRange getTile
    canTraverse cachingEnabled cache out cache' :
  findClosestTarget fuel sourceTile targetTiles sourceRange getTile canTraverse
    cachingEnabled cache = Some (out, cache') →
  closestEnemyCache cache' = closestEnemyCache cache
  ∧ closestAllyCache cache' = closestAllyCache cache.
Proof.
  unfold findClosestTarget.
  destruct (_ =? 0); [by intros [= <- <-]|].
  destruct (1 <? sourceRange); [|apply meleeLoop_map_stores].
  destruct (_ || _); [by intros [= <- <-]|].
  destruct (candidateTargets _ _); by intros [= <- <-].
Qed.

Lemma closestLoop_map_stores fuel mkInfo characterRanges targetTiles lookup
    cachingEnabled sources result cache out cache' :
  closestLoop fuel mkInfo characterRanges targetTiles lookup cachingEnabled sources
    result cache = Some (out, cache') →
  closestEnemyCache cache' = closestEnemyCache cache
  ∧ closestAllyCache cache' = closestAllyCache cache.
Proof.
  revert result cache.
  induction sources as [|s rest IH]; intros result cache; cbn [closestLoop].
  - by intros [= <- <-].
  - destruct (findClosestTarget _ _ _ _ _ _ _ cache) as [[found c1]|] eqn:Hf; [|done].
    apply findClosestTarget_map_stores in Hf as [He Ha]. cbn.
    intros Hrun. apply IH in Hrun as [He' Ha']. split; congruence.
Qed.

Lemma off_unchanged {A : Type} (r : option A) (cache : PathfindingCache) out cache' :
  (λ v, (v, cache)) <$> r = Some (out, cache') → cache' = cache.
Proof. destruct r; [by intros [= _ <-]|done]. Qed.
End Frame.

(** X20.  Which stores a call writes.  With caching disabled each of
    the four functions hands the cache back as it was.  With caching
    enabled calculateEffectiveDistance and findClosestTarget leave the
    stores of both maps alone, getClosestEnemyMap leaves the store of the
    ally maps alone and getClosestAllyMap the store of the enemy maps. *)
Theorem calls_write_their_own_stores `{K : CacheKeys}
    (fuel : nat) (start goal : Hex) (range : Z)
    (getTile : Hex → option GridTile) (canTraverse : GridTile → bool)
    (sourceTile : GridTile) (targetTiles tiles : list GridTile)
    (characterRanges : gmap string Z) (getTileOpt : option (Hex → option GridTile))
    (cachingEnabled : bool) (cache cache' : PathfindingCache) :
  (∀ out,
     calculateEffectiveDistance fuel start goal range getTile canTraverse cachingEnabled
       cache = Some (out, cache') →
     closestEnemyCache cache' = closestEnemyCache cache
     ∧ closestAllyCache cache' = closestAllyCache cache
     ∧ (cachingEnabled = false → cache' = cache))
  ∧ (∀ out,
       findClosestTarget fuel sourceTile targetTiles range getTile canTraverse
         cachingEnabled cache = Some (out, cache') →
       closestEnemyCache cache' = closestEnemyCache cache
       ∧ closestAllyCache cache' = closestAllyCache cache
       ∧ (cachingEnabled = false → cache' = cache))
  ∧ (∀ out,
       getClosestEnemyMap fuel tiles characterRanges cachingEnabled getTileOpt cache
         = Some (out, cache') →
       closestAllyCache cache' = closestAllyCache cache
       ∧ (cachingEnabled = false → cache' = cache))
  ∧ (∀ out,
       getClosestAllyMap fuel tiles characterRanges cachingEnabled getTileOpt cache
         = Some (out, cache') →
       closestEnemyCache cache' = closestEnemyCache cache
       ∧ (cachingEnabled = false → cache' = cache)).
Proof.
  split; [|split; [|split]].
  - intros out Hrun.
    destruct (calculateEffectiveDistance_map_stores _ _ _ _ _ _ _ _ _ _ Hrun) as [He Ha].
    split; [done|]. split; [done|]. intros ->.
    rewrite calculateEffectiveDistance_off in Hrun. by eapply off_unchanged.
  - intros out Hrun.
    destruct (findClosestTarget_map_stores _ _ _ _ _ _ _ _ _ _ Hrun) as [He Ha].
    split; [done|]. split; [done|]. intros ->.
    rewrite findClosestTarget_off in Hrun. by eapply off_unchanged.
  - intros out Hrun. unfold getClosestEnemyMap, cacheGetClosestEnemyMap in Hrun.
    destruct cachingEnabled.
    + split; [|done].
      destruct (memo_get _ (closestEnemyCache cache)) as [[v|] m].
      * by injection Hrun as <- <-.
      * destruct (closestLoop _ _ _ _ _ _ _ _ _) as [[result c1]|] eqn:Hloop; [|done].
        injection Hrun as <- <-.
        by apply closestLoop_map_stores in Hloop as [_ Ha].
    + destruct (closestLoop _ _ _ _ _ _ _ _ _) as [[result c1]|] eqn:Hloop; [|done].
      injection Hrun as <- <-.
      rewrite closestLoop_off in Hloop. apply off_unchanged in Hloop as ->. done.
  - intros out Hrun. unfold getClosestAllyMap, cacheGetClosestAllyMap in Hrun.
    destruct cachingEnabled.
    + split; [|done].
      destruct (memo_get _ (closestAllyCache cache)) as [[v|] m].
      * by injection Hrun as <- <-.
      * destruct (closestLoop _ _ _ _ _ _ _ _ _) as [[result c1]|] eqn:Hloop; [|done].
        injection Hrun as <- <-.
        by apply closestLoop_map_stores in Hloop as [He _].
    + destruct (closestLoop _ _ _ _ _ _ _ _ _) as [[result c1]|] eqn:Hloop; [|done].
      injection Hrun as <- <-.
      rewrite closestLoop_off in Hloop. apply off_unchanged in Hloop as ->. done.
Qed.
(** * More on the ranged search *)

Section UniqueByKey.
Context {M : HexOps}.

Lemma elem_of_uniqueByKey (seen : gset HexKey) (l : list Hex) (x : Hex) :
  x ∈ uniqueByKey seen l → x ∈ l ∧ toString x ∉ seen.
Proof.
  revert seen. induction l as [|y l IH]; intros seen; cbn [uniqueByKey].
  - intros Hx. by apply elem_of_nil in Hx.
  - case_bool_decide as Hy.
    + intros Hx. apply IH in Hx as [Hx Hs]. split; [|done].
      apply elem_of_cons. by right.
    + rewrite elem_of_cons. intros [->|Hx].
      * split; [|done]. apply elem_of_cons. by left.
      * apply IH in Hx as [Hx Hs]. split; [apply elem_of_cons; by right|].
        set_solver.
Qed.

Lemma uniqueByKey_NoDup (seen : gset HexKey) (l : list Hex) :
  NoDup (map toString (uniqueByKey seen l)).
Proof.
  revert seen. induction l as [|y l IH]; intros seen; cbn [uniqueByKey].
  - constructor.
  - case_bool_decide as Hy; [apply IH|].
    cbn [map]. constructor; [|apply IH].
    intros Hin. apply list_elem_of_fmap in Hin as (z & Hk & Hz).
    apply elem_of_uniqueByKey in Hz as [_ Hz]. set_solver.
Qed.

Lemma uniqueByKey_complete (seen : gset HexKey) (l : list Hex) (x : Hex) :
  x ∈ l → toString x ∉ seen →
  ∃ y, y ∈ uniqueByKey seen l ∧ toString y = toString x.
Proof.
  revert seen. induction l as [|z l IH]; intros seen Hx Hs.
  - by apply elem_of_nil in Hx.
  - cbn [uniqueByKey]. apply elem_of_cons in Hx as [->|Hx].
    + rewrite bool_decide_eq_false_2 by done.
      exists z. split; [apply elem_of_cons; by left|done].
    + case_bool_decide as Hz; [by apply IH|].
      destruct (decide (toString x = toString z)) as [Heq|Hne].
      * exists z. split; [apply elem_of_cons; by left|done].
      * destruct (IH ({[toString z]} ∪ seen) Hx) as (y & Hy & Hk); [set_solver|].
        exists y. split; [apply elem_of_cons; by right|done].
Qed.
End UniqueByKey.

Section RangedExact.
Context {M : HexOps} {L : HexLaws M}.
Variables (targets : list Hex) (range : Z)
          (getTile : Hex → option GridTile) (canTraverse : GridTile → bool)
          (start : Hex).
Hypothesis respects : ∀ x y : Hex, toString x = toString y →
  traversable getTile canTraverse x = traversable getTile canTraverse y.

(** A successful run of the layered loop stops in the layer it names, on
    the targets that layer has collected. *)
Lemma searchLayers_success layers k queue seen result exit :
  BfsInv targets range getTile canTraverse start k queue seen →
  searchLayers layers targets range getTile canTraverse (Z.of_nat k) queue seen
    = (result, exit) →
  ranged_canReach result = true →
  ∃ m queue' seen',
    (k ≤ m)%nat ∧ (m < k + layers)%nat ∧ (m < 20)%nat
    ∧ BfsInv targets range getTile canTraverse start m queue' seen'
    ∧ ranged_movementDistance result = Finite (Z.of_nat (S m))
    ∧ reachableTargets result
      = uniqueByKey ∅ (reachableAtThisDistance
                         (processLayer targets range getTile canTraverse queue' seen')).
Proof.
  revert k queue seen.
  induction layers as [|n IH]; intros k queue seen Hinv Hrun Hreach.
  - cbn [searchLayers] in Hrun. injection Hrun as <- <-. done.
  - cbn [searchLayers] in Hrun.
    destruct (0 <? Z.of_nat (length queue)) eqn:Hq; [|by injection Hrun as <- <-].
    destruct (Z.of_nat k <? 20) eqn:Hcap; [|by injection Hrun as <- <-].
    cbn [andb] in Hrun. apply Z.ltb_lt in Hcap.
    destruct (0 <? Z.of_nat (length (reachableAtThisDistance
                (processLayer targets range getTile canTraverse queue seen)))) eqn:Hfound.
    + injection Hrun as <- <-.
      exists k, queue, seen.
      split; [lia|]. split; [lia|]. split; [lia|]. split; [done|].
      split; [|done]. cbn [ranged_movementDistance]. f_equal. lia.
    + replace (Z.of_nat k + 1) with (Z.of_nat (S k)) in Hrun by lia.
      destruct (IH (S k) _ _ (bfs_next_layer targets range getTile canTraverse start
                               respects k queue seen Hinv
                               ltac:(destruct (reachableAtThisDistance _);
                                     [done|cbn [length] in Hfound;
                                           apply Z.ltb_ge in Hfound; lia]))
                  Hrun Hreach)
        as (m & queue' & seen' & Hm1 & Hm2 & Hm3 & Hrest).
      exists m, queue', seen'. repeat split; try lia; apply Hrest.
Qed.

(** The targets collected by the layer that follows [k]. *)
Lemma layer_targets k queue seen t :
  BfsInv targets range getTile canTraverse start k queue seen →
  (t ∈ reachableAtThisDistance (processLayer targets range getTile canTraverse queue seen)
   → t ∈ targets ∧ ∃ x, reachableIn getTile canTraverse start (S k) x
                        ∧ distance x t ≤ range)
  ∧ (t ∈ targets →
     (∃ x, reachableIn getTile canTraverse start (S k) x ∧ distance x t ≤ range) →
     t ∈ reachableAtThisDistance
           (processLayer targets range getTile canTraverse queue seen)).
Proof.
  intros Hinv.
  pose proof (processLayer_inv targets range getTile canTraverse queue seen) as Hlayer.
  set (st := processLayer targets range getTile canTraverse queue seen) in *.
  split.
  - intros Ht. apply (li_found _ _ _ _ _ _ _ Hlayer) in Ht as (Ht & x & Hx & Hd).
    split; [done|].
    destruct (li_next _ _ _ _ _ _ _ Hlayer x Hx) as (y & d & Hyd & -> & Htrav).
    apply elem_of_layerSteps in Hyd as [Hy Hd6].
    exists (neighbor y d). split; [|done].
    constructor; [by apply Hinv|done|done].
  - intros Ht (x & Hreach & Hd).
    inversion Hreach as [|n x' d Hprev Hd6 Htrav]; subst.
    assert (Hnew : toString (neighbor x' d) ∉ seen).
    { intros Hs. apply (bi_clear _ _ _ _ _ _ _ _ Hinv _ Hs). by exists t. }
    pose proof (bi_complete _ _ _ _ _ _ _ _ Hinv k x' ltac:(lia) Hprev) as Hs.
    destruct (bi_expanded _ _ _ _ _ _ _ _ Hinv x' Hs) as [(y & Hy & Hk)|Hdone];
      [|by destruct Hnew; apply Hdone].
    assert (Hvis : toString (neighbor y d) ∈ visited st).
    { apply (li_done _ _ _ _ _ _ _ Hlayer); [by apply elem_of_layerSteps|].
      by rewrite (respects _ _ (neighbor_toString y x' d Hk)). }
    apply (li_visited _ _ _ _ _ _ _ Hlayer) in Hvis as [Hold|(z & Hz & Hzk)].
    { destruct Hnew. by rewrite <- (neighbor_toString y x' d Hk). }
    apply (li_found _ _ _ _ _ _ _ Hlayer). split; [done|].
    exists z. split; [done|].
    rewrite (distance_toString z (neighbor x' d) t t); [done| |done].
    rewrite Hzk. by apply neighbor_toString.
Qed.
End RangedExact.

Section RangedEdge.
Context {M : HexOps}.

(** The layered loop, started at [moves], names a layer after [moves]. *)
Lemma searchLayers_moves layers targets range getTile canTraverse moves queue seen m :
  ranged_movementDistance
    (searchLayers layers targets range getTile canTraverse moves queue seen).1
  = Finite m → moves < m.
Proof.
  revert moves queue seen.
  induction layers as [|n IH]; intros moves queue seen; cbn [searchLayers]; [done|].
  destruct (_ && _); [|done].
  destruct (0 <? _).
  - cbn. intros [= <-]. lia.
  - intros Hm. apply IH in Hm. lia.
Qed.

Lemma filter_inRange_nil range start (targets : list Hex) :
  List.filter (inRange range start) targets = [] ↔
  ∀ t, t ∈ targets → range < distance start t.
Proof.
  induction targets as [|t ts IH]; cbn [List.filter].
  - split; [|done]. intros _ t Ht. by apply elem_of_nil in Ht.
  - unfold inRange at 1. destruct (distance start t <=? range) eqn:Hd.
    + split; [done|]. intros Hfar. apply Z.leb_le in Hd.
      specialize (Hfar t ltac:(apply elem_of_cons; by left)). lia.
    + apply Z.leb_gt in Hd. rewrite IH. split.
      * intros Hfar t' Ht'. apply elem_of_cons in Ht' as [->|Ht']; [done|by apply Hfar].
      * intros Hfar t' Ht'. apply Hfar. apply elem_of_cons. by right.
Qed.
End RangedEdge.

(** X5.  calculateRangedMovementDistance before its search: an empty
    target list gives the unreachable result; when some target is within
    range of the start the result is zero moves with exactly the targets
    within range, in the order of the list, for every lookup and
    predicate; and zero moves are reported in no other case. *)
Theorem calculateRangedMovementDistance_in_place {M : HexOps}
    (start : Hex) (targets : list Hex) (range : Z)
    (getTile : Hex → option GridTile) (canTraverse : GridTile → bool) :
  let result := calculateRangedMovementDistance start targets range getTile canTraverse in
  (targets = [] → result = rangedUnreachable)
  ∧ ((∃ t, t ∈ targets ∧ distance start t ≤ range) →
     result = {| ranged_movementDistance := Finite 0; ranged_canReach := true;
                 reachableTargets := List.filter (inRange range start) targets |})
  ∧ (ranged_movementDistance result = Finite 0 →
     ∃ t, t ∈ targets ∧ distance start t ≤ range).
Proof.
  cbv zeta. unfold calculateRangedMovementDistance, rangedSearch.
  split; [by intros ->|].
  destruct (List.filter (inRange range start) targets) as [|t0 found] eqn:Hfilter.
  - pose proof (proj1 (filter_inRange_nil range start targets) Hfilter) as Hfar.
    split.
    + intros (t & Ht & Hd). specialize (Hfar t Ht). lia.
    + destruct (_ =? 0); [done|].
      change (0 <? Z.of_nat (length (@nil Hex))) with false. cbv iota.
      destruct (searchLayers _ _ _ _ _ _ _ _) as [result exit] eqn:Hrun.
      cbn [fst]. intros Hzero.
      pose proof (searchLayers_moves 20 targets range getTile canTraverse 0 [start]
                    {[toString start]} 0) as Hpos.
      rewrite Hrun in Hpos. cbn [fst] in Hpos. specialize (Hpos Hzero). lia.
  - assert (Hin : t0 ∈ targets ∧ distance start t0 ≤ range).
    { assert (Hel : t0 ∈ List.filter (inRange range start) targets)
        by (rewrite Hfilter; apply elem_of_cons; by left).
      rewrite (list_elem_of_In (List.filter _ _)), filter_In, <- list_elem_of_In in Hel.
      destruct Hel as [Hel Hd]. split; [done|]. by apply Z.leb_le. }
    assert (Hlen : (Z.of_nat (length targets) =? 0) = false).
    { apply Z.eqb_neq. destruct Hin as [Hin _]. destruct targets; [|cbn [length]; lia].
      by apply elem_of_nil in Hin. }
    rewrite Hlen.
    replace (0 <? Z.of_nat (length (t0 :: found))) with true
      by (symmetry; apply Z.ltb_lt; cbn [length]; lia).
    cbn [fst]. split; [done|]. intros _. by exists t0.
Qed.

(** X6.  The ranged search is exact.  When no target is within range of
    the start and the search succeeds, the number of moves it reports is
    the least number of moves after which some target is within range:
    a cell that many moves away is within range of a target, and no cell
    fewer moves away is.  The targets it reports are those within range of
    some cell that many moves away: each reported hex is one of the
    targets and within range of such a cell, every such target is
    reported (by the first hex of the list with its key), and no key is
    reported twice. *)
Theorem calculateRangedMovementDistance_exact {M : HexOps} {L : HexLaws M}
    (start : Hex) (targets : list Hex) (range : Z)
    (getTile : Hex → option GridTile) (canTraverse : GridTile → bool) :
  (∀ x y : Hex, toString x = toString y →
     traversable getTile canTraverse x = traversable getTile canTraverse y) →
  (∀ t, t ∈ targets → range < distance start t) →
  let result := calculateRangedMovementDistance start targets range getTile canTraverse in
  ranged_canReach result = true →
  ∃ m : nat,
    ranged_movementDistance result = Finite (Z.of_nat m) ∧ (1 ≤ m ≤ 20)%nat
    ∧ (∀ n x, (n < m)%nat → reachableIn getTile canTraverse start n x →
              ¬ targetInRange targets range x)
    ∧ (∀ t, t ∈ reachableTargets result →
            t ∈ targets ∧ ∃ x, reachableIn getTile canTraverse start m x
                               ∧ distance x t ≤ range)
    ∧ (∀ t x, t ∈ targets → reachableIn getTile canTraverse start m x →
              distance x t ≤ range →
              ∃ t', t' ∈ reachableTargets result ∧ toString t' = toString t)
    ∧ NoDup (map toString (reachableTargets result)).
Proof.
  intros respects Hfar. cbv zeta.
  unfold calculateRangedMovementDistance, rangedSearch.
  destruct (_ =? 0); [done|].
  rewrite (proj2 (filter_inRange_nil range start targets) Hfar).
  change (0 <? Z.of_nat (length (@nil Hex))) with false. cbv iota.
  destruct (searchLayers _ _ _ _ _ _ _ _) as [result exit] eqn:Hrun.
  cbn [fst]. intros Hreach.
  destruct (searchLayers_success targets range getTile canTraverse start respects
              20 0 [start] {[toString start]} result exit
              (bfs_initial targets range getTile canTraverse start Hfar) Hrun Hreach)
    as (m & queue & seen & _ & _ & Hm & Hinv & Hdist & Htargets).
  exists (S m). split; [done|]. split; [lia|].
  rewrite Htargets. split; [|split; [|split]].
  - intros n x Hn Hx. apply (bi_clear _ _ _ _ _ _ _ _ Hinv).
    apply (bi_complete _ _ _ _ _ _ _ _ Hinv n x); [lia|done].
  - intros t Ht. apply elem_of_uniqueByKey in Ht as [Ht _].
    by apply (layer_targets targets range getTile canTraverse start respects
                m queue seen t Hinv).
  - intros t x Ht Hx Hd.
    apply uniqueByKey_complete; [|apply not_elem_of_empty].
    apply (layer_targets targets range getTile canTraverse start respects
             m queue seen t Hinv); [done|by exists x].
  - apply uniqueByKey_NoDup.
Qed.

(** A unit of range 2 on the open board with one target five cells away:
    three moves, and the target is reported once. *)
Lemma calculateRangedMovementDistance_exact_witness :
  let start := Cube.mkHex 0 0 0 1 in
  let targets := [Cube.mkHex 5 (-5) 0 2] in
  let result := @calculateRangedMovementDistance Cube.cubeHex start targets 2
                  Cube.openBoard defaultCanTraverse in
  ∃ m : nat,
    ranged_movementDistance result = Finite (Z.of_nat m) ∧ (1 ≤ m ≤ 20)%nat
    ∧ (∀ n x, (n < m)%nat →
              @reachableIn Cube.cubeHex Cube.openBoard defaultCanTraverse start n x →
              ¬ @targetInRange Cube.cubeHex targets 2 x)
    ∧ (∀ t, t ∈ reachableTargets result →
            t ∈ targets
            ∧ ∃ x, @reachableIn Cube.cubeHex Cube.openBoard defaultCanTraverse start m x
                   ∧ Cube.cube_distance x t ≤ 2)
    ∧ (∀ t x, t ∈ targets →
              @reachableIn Cube.cubeHex Cube.openBoard defaultCanTraverse start m x →
              Cube.cube_distance x t ≤ 2 →
              ∃ t', t' ∈ reachableTargets result ∧ Cube.cube_key t' = Cube.cube_key t)
    ∧ NoDup (map Cube.cube_key (reachableTargets result)).
Proof.
  intros start targets result.
  apply (@calculateRangedMovementDistance_exact Cube.cubeHex cube_laws start targets 2
           Cube.openBoard defaultCanTraverse).
  - intros x y _. reflexivity.
  - intros t Ht. apply list_elem_of_singleton in Ht as ->. vm_compute. reflexivity.
  - vm_compute. reflexivity.
Defined.
(** * More on findClosestTarget *)

Section RangedTargets.
Context {M : HexOps} {L : HexLaws M}.

(** What a successful run of the layered loop reports is a non-empty
    selection of the targets. *)
Lemma searchLayers_reports layers targets range getTile canTraverse moves queue seen :
  let result :=
    (searchLayers layers targets range getTile canTraverse moves queue seen).1 in
  ranged_canReach result = true →
  reachableTargets result ≠ [] ∧ ∀ t, t ∈ reachableTargets result → t ∈ targets.
Proof.
  cbv zeta. revert moves queue seen.
  induction layers as [|n IH]; intros moves queue seen; cbn [searchLayers]; [done|].
  destruct (_ && _); [|done].
  pose proof (processLayer_inv targets range getTile canTraverse queue seen) as Hlayer.
  destruct (reachableAtThisDistance
              (processLayer targets range getTile canTraverse queue seen))
    as [|t found] eqn:Hfound.
  - change (0 <? Z.of_nat (length (@nil Hex))) with false. cbv iota. apply IH.
  - replace (0 <? Z.of_nat (length (t :: found))) with true
      by (symmetry; apply Z.ltb_lt; cbn [length]; lia).
    cbn [fst reachableTargets]. intros _. split.
    + cbn [uniqueByKey]. rewrite bool_decide_eq_false_2 by apply not_elem_of_empty. done.
    + intros t' Ht'. apply elem_of_uniqueByKey in Ht' as [Ht' _].
      rewrite <- Hfound in Ht'.
      by apply (li_found _ _ _ _ _ _ _ Hlayer) in Ht' as [Ht' _].
Qed.

Lemma calculateRangedMovementDistance_reports start targets range getTile canTraverse :
  let result := calculateRangedMovementDistance start targets range getTile canTraverse in
  ranged_canReach result = true →
  reachableTargets result ≠ [] ∧ ∀ t, t ∈ reachableTargets result → t ∈ targets.
Proof.
  cbv zeta. unfold calculateRangedMovementDistance, rangedSearch.
  destruct (_ =? 0); [done|].
  destruct (List.filter (inRange range start) targets) as [|t found] eqn:Hfilter.
  - change (0 <? Z.of_nat (length (@nil Hex))) with false. cbv iota.
    pose proof (searchLayers_reports 20 targets range getTile canTraverse 0 [start]
                  {[toString start]}) as Hrep.
    destruct (searchLayers _ _ _ _ _ _ _ _) as [result exit]. exact Hrep.
  - replace (0 <? Z.of_nat (length (t :: found))) with true
      by (symmetry; apply Z.ltb_lt; cbn [length]; lia).
    cbn [fst reachableTargets]. intros _. split; [done|].
    intros t' Ht'. rewrite <- Hfilter in Ht'.
    rewrite (list_elem_of_In (List.filter _ _)), filter_In, <- list_elem_of_In in Ht'.
    tauto.
Qed.

Lemma elem_of_candidateTargets (targetTiles : list GridTile) rangedResult t :
  t ∈ candidateTargets targetTiles rangedResult ↔
  t ∈ targetTiles ∧ ∃ y, y ∈ reachableTargets rangedResult ∧ equals y (hex t) = true.
Proof.
  unfold candidateTargets.
  rewrite (list_elem_of_In (List.filter _ _)), filter_In, <- list_elem_of_In.
  rewrite existsb_exists. setoid_rewrite <- list_elem_of_In. done.
Qed.
End RangedTargets.

(** X7.  A ranged unit (range above 1) is served by the ranged search
    alone: the result of findClosestTarget does not depend on the step
    budget, on the caching flag or on the cache, and the cache is handed
    back untouched.  The result is null exactly when the ranged search
    fails; otherwise it carries the movement distance of the ranged
    search and the id of a target tile that sits on one of the hexes the
    search reports. *)
Theorem findClosestTarget_ranged_unit `{K : CacheKeys} {L : HexLaws H}
    (sourceTile : GridTile) (targetTiles : list GridTile) (sourceRange : Z)
    (getTile : Hex → option GridTile) (canTraverse : GridTile → bool) :
  1 < sourceRange →
  let rangedResult :=
    calculateRangedMovementDistance (hex sourceTile) (map hex targetTiles)
      sourceRange getTile canTraverse in
  ∃ found,
    (∀ fuel cachingEnabled cache,
       findClosestTarget fuel sourceTile targetTiles sourceRange getTile canTraverse
         cachingEnabled cache = Some (found, cache))
    ∧ (found = None ↔ ranged_canReach rangedResult = false)
    ∧ (∀ r, found = Some r →
         target_distance r = ranged_movementDistance rangedResult
         ∧ ∃ t y, t ∈ targetTiles ∧ hexId r = getId (hex t)
                  ∧ y ∈ reachableTargets rangedResult ∧ equals y (hex t) = true).
Proof.
  intros Hrange. cbv zeta.
  set (rangedResult := calculateRangedMovementDistance (hex sourceTile)
                         (map hex targetTiles) sourceRange getTile canTraverse).
  assert (Hrun : ∀ fuel cachingEnabled cache,
            findClosestTarget fuel sourceTile targetTiles sourceRange getTile canTraverse
              cachingEnabled cache
            = if Z.of_nat (length targetTiles) =? 0 then Some (None, cache)
              else if negb (ranged_canReach rangedResult)
                      || (Z.of_nat (length (reachableTargets rangedResult)) =? 0)
              then Some (None, cache)
              else match candidateTargets targetTiles rangedResult with
                   | [] => Some (None, cache)
                   | first :: rest =>
                       Some (Some {| hexId := getId (hex (foldl (chooseBest sourceTile)
                                                            first rest));
                                     target_distance :=
                                       ranged_movementDistance rangedResult |},
                             cache)
                   end).
  { intros fuel cachingEnabled cache. unfold findClosestTarget.
    destruct (_ =? 0); [done|].
    by replace (1 <? sourceRange) with true by (symmetry; by apply Z.ltb_lt). }
  destruct (ranged_canReach rangedResult) eqn:Hreach.
  - destruct (calculateRangedMovementDistance_reports (hex sourceTile)
                (map hex targetTiles) sourceRange getTile canTraverse Hreach)
      as [Hsome Hsub].
    fold rangedResult in Hsome, Hsub.
    destruct (reachableTargets rangedResult) as [|y ys] eqn:Hys; [done|].
    assert (Hy : y ∈ map hex targetTiles) by (apply Hsub, elem_of_cons; by left).
    apply list_elem_of_fmap in Hy as (t & -> & Ht).
    assert (Hcand : t ∈ candidateTargets targetTiles rangedResult).
    { apply elem_of_candidateTargets. split; [done|]. exists (hex t).
      split; [rewrite Hys; apply elem_of_cons; by left|by apply equals_toString]. }
    destruct (candidateTargets targetTiles rangedResult) as [|first rest] eqn:Hc;
      [by apply elem_of_nil in Hcand|].
    exists (Some {| hexId := getId (hex (foldl (chooseBest sourceTile) first rest));
                    target_distance := ranged_movementDistance rangedResult |}).
    split; [|split; [done|]].
    + intros fuel cachingEnabled cache. rewrite Hrun.
      replace (Z.of_nat (length targetTiles) =? 0) with false
        by (symmetry; apply Z.eqb_neq; destruct targetTiles;
            [by apply elem_of_nil in Ht|cbn [length]; lia]).
      replace (Z.of_nat (length (hex t :: ys)) =? 0) with false
        by (symmetry; apply Z.eqb_neq; cbn [length]; lia).
      reflexivity.
    + intros r [= <-]. cbn [target_distance hexId]. split; [done|].
      destruct (chooseBest_fold sourceTile rest first) as [Hbest _].
      rewrite <- Hc in Hbest. apply elem_of_candidateTargets in Hbest as (Hb & z & Hz & Hzb).
      exists (foldl (chooseBest sourceTile) first rest), z.
      rewrite <- Hys. done.
  - exists None. split; [|done].
    intros fuel cachingEnabled cache. rewrite Hrun. cbn [negb orb].
    by destruct (_ =? 0).
Qed.

(** A unit of range 2 with two enemies on the open board. *)
Lemma findClosestTarget_ranged_unit_witness :
  let source := mkTile Cube.cubeHex (Cube.mkHex 0 0 0 10) OCCUPIED_ALLY (Some ALLY) None in
  let near := mkTile Cube.cubeHex (Cube.mkHex 3 (-3) 0 5) OCCUPIED_ENEMY (Some ENEMY) None in
  let far := mkTile Cube.cubeHex (Cube.mkHex 0 5 (-5) 30) OCCUPIED_ENEMY (Some ENEMY) None in
  let rangedResult :=
    @calculateRangedMovementDistance Cube.cubeHex (hex source) (map hex [near; far]) 2
      Cube.openBoard defaultCanTraverse in
  ∃ found,
    (∀ fuel cachingEnabled cache,
       @findClosestTarget Cube.cubeHex Cube.cubeKeys fuel source [near; far] 2
         Cube.openBoard defaultCanTraverse cachingEnabled cache = Some (found, cache))
    ∧ (found = None ↔ ranged_canReach rangedResult = false)
    ∧ (∀ r, found = Some r →
         target_distance r = ranged_movementDistance rangedResult
         ∧ ∃ t y, t ∈ [near; far] ∧ hexId r = Cube.cid (hex t)
                  ∧ y ∈ reachableTargets rangedResult
                  ∧ Cube.cube_equals y (hex t) = true).
Proof.
  intros source near far.
  apply (@findClosestTarget_ranged_unit Cube.cubeHex Cube.cubeKeys cube_laws source
           [near; far] 2 Cube.openBoard defaultCanTraverse).
  reflexivity.
Defined.

Lemma dist_ltb_chain a b c :
  dist_ltb b a = false → dist_ltb c b = false → dist_ltb c a = false.
Proof.
  destruct a as [x|], b as [y|], c as [z|]; cbn; try done.
  rewrite !Z.ltb_ge. lia.
Qed.

Section MeleeClosest.
Context `{K : CacheKeys}.
Variables (fuel : nat) (sourceTile : GridTile) (targetTiles : list GridTile)
          (sourceRange : Z) (getTile : Hex → option GridTile)
          (canTraverse : GridTile → bool).

(** The effective distance the melee loop computes for a target. *)
Definition meleeDistance (cache : PathfindingCache) (t : GridTile)
    : option DistanceResult :=
  valueOf (calculateEffectiveDistance fuel (hex sourceTile) (hex t) sourceRange
             getTile (canTraverseToTarget canTraverse t) false cache).

(** All targets lie in one diagonal row and are alike in their vertical
    alignment with the source. *)
Definition alikeTargets : Prop :=
  ∃ v row, ∀ t, t ∈ targetTiles →
    isVerticallyAligned (hex sourceTile) (hex t) = v
    ∧ getRowNumber (getId (hex t)) = row.

(** No target is vertically aligned with the source, and no two targets
    lie in the same diagonal row. *)
Definition spreadTargets : Prop :=
  (∀ t, t ∈ targetTiles → isVerticallyAligned (hex sourceTile) (hex t) = false)
  ∧ (∀ t1 t2, t1 ∈ targetTiles → t2 ∈ targetTiles →
       getRowNumber (getId (hex t1)) = getRowNumber (getId (hex t2)) → t1 = t2).

(** What the loop has established after the targets [processed]. *)
Definition ClosestSoFar (cache : PathfindingCache) (processed : list GridTile)
    (closest : option TargetResult) : Prop :=
  match closest with
  | None => ∀ t d, t ∈ processed → meleeDistance cache t = Some d → canReach d = false
  | Some best =>
      (∃ t d, t ∈ processed ∧ t ∈ targetTiles ∧ meleeDistance cache t = Some d
              ∧ canReach d = true ∧ hexId best = getId (hex t)
              ∧ target_distance best = movementDistance d)
      ∧ (∀ t d, t ∈ processed → meleeDistance cache t = Some d → canReach d = true →
                dist_ltb (movementDistance d) (target_distance best) = false)
      ∧ (alikeTargets →
         ∀ t d, t ∈ processed → meleeDistance cache t = Some d → canReach d = true →
                movementDistance d = target_distance best → hexId best ≤ getId (hex t))
      ∧ (spreadTargets →
         ∀ c t d, c ∈ targetTiles → getId (hex c) = hexId best →
                  t ∈ processed → meleeDistance cache t = Some d → canReach d = true →
                  movementDistance d = target_distance best →
                  distance (hex sourceTile) (hex c) ≤ distance (hex sourceTile) (hex t))
  end.

Lemma find_id_some (c : GridTile) :
  c ∈ targetTiles →
  ∃ c', List.find (λ t, getId (hex t) =? getId (hex c)) targetTiles = Some c'
        ∧ c' ∈ targetTiles ∧ getId (hex c') = getId (hex c).
Proof.
  intros Hc.
  destruct (List.find (λ t, getId (hex t) =? getId (hex c)) targetTiles) as [c'|] eqn:Hf.
  - apply find_some in Hf as [Hin Hid]. exists c'.
    split; [done|]. split; [by apply list_elem_of_In|by apply Z.eqb_eq].
  - apply list_elem_of_In in Hc.
    pose proof (find_none _ _ Hf c Hc) as Hno. cbn in Hno.
    by rewrite Z.eqb_refl in Hno.
Qed.

(** One update of [closest] by a reachable target. *)
Lemma updateClosest_cases (t c : GridTile) (dist : Distance) (best : TargetResult) :
  t ∈ targetTiles → c ∈ targetTiles → hexId best = getId (hex c) →
  let candidate := {| hexId := getId (hex t); target_distance := dist |} in
  (updateClosest sourceTile targetTiles t dist (Some best) = Some (Some best)
   ∧ dist_ltb dist (target_distance best) = false
   ∧ (alikeTargets → dist = target_distance best → hexId best ≤ getId (hex t))
   ∧ (spreadTargets → dist = target_distance best →
      distance (hex sourceTile) (hex c) ≤ distance (hex sourceTile) (hex t)))
  ∨ (updateClosest sourceTile targetTiles t dist (Some best) = Some (Some candidate)
     ∧ dist_ltb (target_distance best) dist = false
     ∧ (alikeTargets → dist = target_distance best → getId (hex t) < hexId best)
     ∧ (spreadTargets → dist = target_distance best →
        distance (hex sourceTile) (hex t) < distance (hex sourceTile) (hex c))).
Proof.
  intros Ht Hc Hid. cbv zeta. unfold updateClosest.
  destruct (dist_ltb dist (target_distance best)) eqn:Hlt.
  - right. split; [done|]. split; [|split].
    + destruct dist as [x|], (target_distance best) as [y|]; cbn in *; try done.
      apply Z.ltb_lt in Hlt. apply Z.ltb_ge. lia.
    + intros _ ->. by rewrite dist_ltb_irrefl in Hlt.
    + intros _ ->. by rewrite dist_ltb_irrefl in Hlt.
  - unfold dist_eqb. case_bool_decide as Heq;
      [|left; split; [done|]; split; [done|]; split; by intros _ Hd].
    subst dist. rewrite Hid.
    destruct (find_id_some c Hc) as (c' & -> & Hc' & Hid').
    cbn [mbind option_bind].
    set (cv := isVerticallyAligned (hex sourceTile) (hex t)).
    set (bv := isVerticallyAligned (hex sourceTile) (hex c')).
    assert (Halike : alikeTargets →
              cv = bv ∧ areHexesInSameDiagonalRow (getId (hex t)) (getId (hex c)) = true).
    { intros (v & row & Hall).
      destruct (Hall t Ht) as [Hv1 Hr1]. destruct (Hall c' Hc') as [Hv2 Hr2].
      destruct (Hall c Hc) as [_ Hr3].
      split; [unfold cv, bv; congruence|].
      unfold areHexesInSameDiagonalRow. apply Z.eqb_eq. congruence. }
    assert (Hspread : spreadTargets →
              cv = false ∧ bv = false ∧ c' = c
              ∧ (areHexesInSameDiagonalRow (getId (hex t)) (getId (hex c)) = true →
                 t = c)).
    { intros [Hvert Hrows]. split; [by apply Hvert|]. split; [by apply Hvert|].
      split; [apply Hrows; [done|done|congruence]|].
      unfold areHexesInSameDiagonalRow. intros Hrow. apply Z.eqb_eq in Hrow.
      by apply Hrows. }
    destruct (cv && negb bv) eqn:E1.
    { right. split; [done|]. split; [apply dist_ltb_irrefl|]. split.
      - intros Ha _. destruct (Halike Ha) as [Hv _]. rewrite Hv in E1. by destruct bv.
      - intros Hs _. destruct (Hspread Hs) as (Hv & _). by rewrite Hv in E1. }
    destruct (negb cv && bv) eqn:E2.
    { left. split; [done|]. split; [done|]. split.
      - intros Ha _. destruct (Halike Ha) as [Hv _]. rewrite Hv in E2. by destruct bv.
      - intros Hs _. destruct (Hspread Hs) as (_ & Hv & _). rewrite Hv in E2.
        by destruct cv. }
    destruct (areHexesInSameDiagonalRow _ _) eqn:E3.
    { destruct (getId (hex t) <? getId (hex c)) eqn:E4.
      - right. split; [done|]. split; [apply dist_ltb_irrefl|]. split.
        + intros _ _. apply Z.ltb_lt in E4. lia.
        + intros Hs _. destruct (Hspread Hs) as (_ & _ & _ & Hsame).
          rewrite (Hsame eq_refl) in E4. by rewrite Z.ltb_irrefl in E4.
      - left. split; [done|]. split; [done|]. split.
        + intros _ _. apply Z.ltb_ge in E4. lia.
        + intros Hs _. destruct (Hspread Hs) as (_ & _ & _ & Hsame).
          rewrite (Hsame eq_refl). lia. }
    destruct (negb cv && negb bv) eqn:E5.
    { destruct (distance (hex sourceTile) (hex t) <? distance (hex sourceTile) (hex c'))
        eqn:E6.
      - right. split; [done|]. split; [apply dist_ltb_irrefl|]. split.
        + intros Ha _. destruct (Halike Ha) as [_ Hrow]. congruence.
        + intros Hs _. destruct (Hspread Hs) as (_ & _ & <- & _). by apply Z.ltb_lt.
      - left. split; [done|]. split; [done|]. split.
        + intros Ha _. destruct (Halike Ha) as [_ Hrow]. congruence.
        + intros Hs _. destruct (Hspread Hs) as (_ & _ & <- & _). by apply Z.ltb_ge. }
    left. split; [done|]. split; [done|]. split.
    + intros Ha _. destruct (Halike Ha) as [_ Hrow]. congruence.
    + intros Hs _. destruct (Hspread Hs) as (Hv1 & Hv2 & _).
      rewrite Hv1, Hv2 in E5. done.
Qed.

Lemma meleeDistance_cache cache cache' t :
  meleeDistance cache t = meleeDistance cache' t.
Proof.
  unfold meleeDistance.
  by rewrite (valueOf_off getTile fuel _ _ _ _ cache),
             (valueOf_off getTile fuel _ _ _ _ cache').
Qed.

Lemma meleeLoop_closest remaining processed closest cache found cache' :
  (∀ t, t ∈ remaining → t ∈ targetTiles) →
  ClosestSoFar cache processed closest →
  meleeLoop fuel sourceTile targetTiles sourceRange getTile canTraverse false
    remaining closest cache = Some (found, cache') →
  cache' = cache
  ∧ ClosestSoFar cache (processed ++ remaining) found
  ∧ ∀ t, t ∈ remaining → is_Some (meleeDistance cache t).
Proof.
  revert processed closest.
  induction remaining as [|t rest IH]; intros processed closest Hsub Hinv Hrun.
  - cbn [meleeLoop] in Hrun. injection Hrun as <- <-.
    rewrite app_nil_r. split; [done|]. split; [done|].
    intros t Ht. by apply elem_of_nil in Ht.
  - cbn [meleeLoop] in Hrun.
    rewrite calculateEffectiveDistance_off in Hrun.
    destruct (valueOf (calculateEffectiveDistance fuel (hex sourceTile) (hex t)
                sourceRange getTile (canTraverseToTarget canTraverse t) false
                newPathfindingCache)) as [d|] eqn:Hd; [|done].
    cbn in Hrun.
    assert (Hdt : meleeDistance cache t = Some d).
    { rewrite (meleeDistance_cache cache newPathfindingCache). exact Hd. }
    assert (Ht : t ∈ targetTiles) by (apply Hsub, elem_of_cons; by left).
    assert (Hrest : ∀ t', t' ∈ rest → t' ∈ targetTiles)
      by (intros t' Ht'; apply Hsub, elem_of_cons; by right).
    assert (Hstep : ∃ closest',
              (if negb (canReach d) then Some closest
               else updateClosest sourceTile targetTiles t (movementDistance d) closest)
              = Some closest'
              ∧ ClosestSoFar cache (processed ++ [t]) closest').
    { destruct (canReach d) eqn:Hreach; cbn [negb].
      - destruct closest as [best|].
        + destruct Hinv as ((c & dc & Hc & Hct & Hdc & Hrc & Hid & Hbest)
                            & Hmin & Hminid & Hmindist).
          destruct (updateClosest_cases t c (movementDistance d) best Ht Hct Hid)
            as [(-> & Hlt & Hidle & Hdle)|(-> & Hlt & Hidlt & Hdlt)].
          * eexists. split; [done|]. split; [|split; [|split]].
            -- exists c, dc. rewrite elem_of_app. tauto.
            -- intros t' d' Ht' Hd' Hr'. apply elem_of_app in Ht' as [Ht'|Ht'].
               ++ by eapply Hmin.
               ++ apply list_elem_of_singleton in Ht' as ->.
                  rewrite Hdt in Hd'. by injection Hd' as <-.
            -- intros Ha t' d' Ht' Hd' Hr' Heq. apply elem_of_app in Ht' as [Ht'|Ht'].
               ++ by eapply Hminid.
               ++ apply list_elem_of_singleton in Ht' as ->.
                  rewrite Hdt in Hd'. injection Hd' as <-. by apply Hidle.
            -- intros Hs c0 t' d' Hc0 Hid0 Ht' Hd' Hr' Heq.
               apply elem_of_app in Ht' as [Ht'|Ht'].
               ++ by eapply Hmindist.
               ++ apply list_elem_of_singleton in Ht' as ->.
                  rewrite Hdt in Hd'. injection Hd' as <-.
                  assert (c0 = c) as ->
                    by (apply (proj2 Hs); [done|done|congruence]).
                  by apply Hdle.
          * eexists. split; [done|]. cbn [ClosestSoFar hexId target_distance].
            split; [|split; [|split]].
            -- exists t, d. rewrite elem_of_app, list_elem_of_singleton. tauto.
            -- intros t' d' Ht' Hd' Hr'. apply elem_of_app in Ht' as [Ht'|Ht'].
               ++ eapply dist_ltb_chain; [exact Hlt|by eapply Hmin].
               ++ apply list_elem_of_singleton in Ht' as ->.
                  rewrite Hdt in Hd'. injection Hd' as <-. apply dist_ltb_irrefl.
            -- intros Ha t' d' Ht' Hd' Hr' Heq. apply elem_of_app in Ht' as [Ht'|Ht'].
               ++ assert (Hsame : movementDistance d = target_distance best).
                  { apply dist_ltb_total; [|done].
                    rewrite <- Heq. by eapply Hmin. }
                  specialize (Hidlt Ha Hsame).
                  specialize (Hminid Ha t' d' Ht' Hd' Hr' ltac:(congruence)). lia.
               ++ apply list_elem_of_singleton in Ht' as ->. lia.
            -- intros Hs c0 t' d' Hc0 Hid0 Ht' Hd' Hr' Heq.
               assert (c0 = t) as ->
                 by (apply (proj2 Hs); [done|done|congruence]).
               apply elem_of_app in Ht' as [Ht'|Ht'].
               ++ assert (Hsame : movementDistance d = target_distance best).
                  { apply dist_ltb_total; [|done].
                    rewrite <- Heq. by eapply Hmin. }
                  specialize (Hdlt Hs Hsame).
                  specialize (Hmindist Hs c t' d' Hct ltac:(done) Ht' Hd' Hr'
                                ltac:(congruence)). lia.
               ++ apply list_elem_of_singleton in Ht' as ->. lia.
        + cbn [updateClosest]. eexists. split; [done|].
          cbn [ClosestSoFar hexId target_distance]. split; [|split; [|split]].
          * exists t, d. rewrite elem_of_app, list_elem_of_singleton. tauto.
          * intros t' d' Ht' Hd' Hr'. apply elem_of_app in Ht' as [Ht'|Ht'].
            -- rewrite (Hinv t' d' Ht' Hd') in Hr'. done.
            -- apply list_elem_of_singleton in Ht' as ->.
               rewrite Hdt in Hd'. injection Hd' as <-. apply dist_ltb_irrefl.
          * intros Ha t' d' Ht' Hd' Hr' _. apply elem_of_app in Ht' as [Ht'|Ht'].
            -- rewrite (Hinv t' d' Ht' Hd') in Hr'. done.
            -- apply list_elem_of_singleton in Ht' as ->. lia.
          * intros Hs c0 t' d' Hc0 Hid0 Ht' Hd' Hr' _.
            apply elem_of_app in Ht' as [Ht'|Ht'].
            -- rewrite (Hinv t' d' Ht' Hd') in Hr'. done.
            -- apply list_elem_of_singleton in Ht' as ->.
               assert (c0 = t) as ->
                 by (apply (proj2 Hs); [done|done|congruence]).
               lia.
      - exists closest. split; [done|].
        destruct closest as [best|].
        + destruct Hinv as ((c & dc & Hc & Hrestc) & Hmin & Hminid & Hmindist).
          split; [|split; [|split]].
          * exists c, dc. rewrite elem_of_app. tauto.
          * intros t' d' Ht' Hd' Hr'. apply elem_of_app in Ht' as [Ht'|Ht'].
            -- by eapply Hmin.
            -- apply list_elem_of_singleton in Ht' as ->.
               rewrite Hdt in Hd'. injection Hd' as <-. congruence.
          * intros Ha t' d' Ht' Hd' Hr' Heq. apply elem_of_app in Ht' as [Ht'|Ht'].
            -- by eapply Hminid.
            -- apply list_elem_of_singleton in Ht' as ->.
               rewrite Hdt in Hd'. injection Hd' as <-. congruence.
          * intros Hs c0 t' d' Hc0 Hid0 Ht' Hd' Hr' Heq.
            apply elem_of_app in Ht' as [Ht'|Ht'].
            -- by eapply Hmindist.
            -- apply list_elem_of_singleton in Ht' as ->.
               rewrite Hdt in Hd'. injection Hd' as <-. congruence.
        + intros t' d' Ht' Hd'. apply elem_of_app in Ht' as [Ht'|Ht'].
          * by eapply Hinv.
          * apply list_elem_of_singleton in Ht' as ->.
            rewrite Hdt in Hd'. by injection Hd' as <-. }
    destruct Hstep as (closest' & Hstep & Hinv').
    assert (Hrun' : meleeLoop fuel sourceTile targetTiles sourceRange getTile canTraverse
                      false rest closest' cache = Some (found, cache')).
    { destruct (negb (canReach d)).
      - injection Hstep as <-. exact Hrun.
      - rewrite Hstep in Hrun. exact Hrun. }
    destruct (IH (processed ++ [t]) closest' Hrest Hinv' Hrun') as (Hc & Hfinal & Hall).
    rewrite <- app_assoc in Hfinal. split; [done|]. split; [done|].
    intros t' Ht'. apply elem_of_cons in Ht' as [->|Ht']; [by rewrite Hdt|by apply Hall].
Qed.
End MeleeClosest.

Section TieBreakById.
Context `{K : CacheKeys}.

Lemma chooseBest_alike (sourceTile best current : GridTile) :
  isVerticallyAligned (hex sourceTile) (hex current)
    = isVerticallyAligned (hex sourceTile) (hex best) →
  getRowNumber (getId (hex current)) = getRowNumber (getId (hex best)) →
  chooseBest sourceTile best current
  = if getId (hex current) <? getId (hex best) then current else best.
Proof.
  intros Hv Hrow. unfold chooseBest. rewrite Hv.
  destruct (isVerticallyAligned (hex sourceTile) (hex best)); cbn [negb andb].
  - unfold areHexesInSameDiagonalRow. rewrite Hrow, Z.eqb_refl. done.
  - unfold areHexesInSameDiagonalRow. rewrite Hrow, Z.eqb_refl. done.
Qed.

Lemma chooseBest_fold_least (sourceTile : GridTile) (rest : list GridTile)
    (first : GridTile) (v : bool) (row : Z) :
  (∀ t, t ∈ first :: rest →
        isVerticallyAligned (hex sourceTile) (hex t) = v
        ∧ getRowNumber (getId (hex t)) = row) →
  ∀ t, t ∈ first :: rest →
       getId (hex (foldl (chooseBest sourceTile) first rest)) ≤ getId (hex t).
Proof.
  revert first. induction rest as [|c rest IH]; intros first Hall t Ht.
  - apply list_elem_of_singleton in Ht as ->. cbn. lia.
  - cbn [foldl].
    destruct (Hall first ltac:(apply elem_of_cons; by left)) as [Hv1 Hr1].
    destruct (Hall c ltac:(apply elem_of_cons; right; apply elem_of_cons; by left))
      as [Hv2 Hr2].
    rewrite chooseBest_alike by congruence.
    destruct (getId (hex c) <? getId (hex first)) eqn:Hlt.
    + apply Z.ltb_lt in Hlt.
      assert (Hmin : ∀ t', t' ∈ c :: rest →
                getId (hex (foldl (chooseBest sourceTile) c rest)) ≤ getId (hex t')).
      { apply IH. intros t' Ht'. apply Hall. apply elem_of_cons. by right. }
      apply elem_of_cons in Ht as [->|Ht]; [|by apply Hmin].
      specialize (Hmin c ltac:(apply elem_of_cons; by left)). lia.
    + apply Z.ltb_ge in Hlt.
      assert (Hmin : ∀ t', t' ∈ first :: rest →
                getId (hex (foldl (chooseBest sourceTile) first rest)) ≤ getId (hex t')).
      { apply IH. intros t' Ht'. apply Hall.
        apply elem_of_cons in Ht' as [->|Ht']; [apply elem_of_cons; by left|].
        apply elem_of_cons; right. apply elem_of_cons. by right. }
      apply elem_of_cons in Ht as [->|Ht]; [by apply Hmin; apply elem_of_cons; left|].
      apply elem_of_cons in Ht as [->|Ht].
      * specialize (Hmin first ltac:(apply elem_of_cons; by left)). lia.
      * apply Hmin. apply elem_of_cons. by right.
Qed.
End TieBreakById.

(** X8.  A melee unit (range at most 1) gets the closest target.  With
    caching disabled findClosestTarget computes an effective distance to
    every target (each with the target's own cell made traversable), hands
    the cache back untouched, returns null exactly when no target can be
    reached, and otherwise returns the id of a reachable target together
    with its movement distance, which no reachable target undercuts. *)
Theorem findClosestTarget_melee_is_closest `{K : CacheKeys}
    (fuel : nat) (sourceTile : GridTile) (targetTiles : list GridTile)
    (sourceRange : Z) (getTile : Hex → option GridTile)
    (canTraverse : GridTile → bool) (cache : PathfindingCache)
    (found : option TargetResult) (cache' : PathfindingCache) :
  sourceRange ≤ 1 →
  findClosestTarget fuel sourceTile targetTiles sourceRange getTile canTraverse false
    cache = Some (found, cache') →
  let dist := meleeDistance fuel sourceTile sourceRange getTile canTraverse cache in
  cache' = cache
  ∧ (∀ t, t ∈ targetTiles → is_Some (dist t))
  ∧ match found with
    | None => ∀ t d, t ∈ targetTiles → dist t = Some d → canReach d = false
    | Some r =>
        (∃ t d, t ∈ targetTiles ∧ dist t = Some d ∧ canReach d = true
                ∧ hexId r = getId (hex t) ∧ target_distance r = movementDistance d)
        ∧ (∀ t d, t ∈ targetTiles → dist t = Some d → canReach d = true →
                  dist_ltb (movementDistance d) (target_distance r) = false)
    end.
Proof.
  intros Hrange Hrun. cbv zeta. unfold findClosestTarget in Hrun.
  destruct (Z.of_nat (length targetTiles) =? 0) eqn:Hlen.
  { injection Hrun as <- <-. apply Z.eqb_eq in Hlen.
    destruct targetTiles; [|cbn [length] in Hlen; lia].
    split; [done|]. split; intros t; intros; by apply elem_of_nil in H0. }
  replace (1 <? sourceRange) with false in Hrun by (symmetry; apply Z.ltb_ge; lia).
  destruct (meleeLoop_closest fuel sourceTile targetTiles sourceRange getTile canTraverse
              targetTiles [] None cache found cache') as (Hc & Hfinal & Hall);
    [done|by intros t d Ht; apply elem_of_nil in Ht|done|].
  cbn [app] in Hfinal. split; [done|]. split; [done|].
  destruct found as [r|]; [|exact Hfinal].
  destruct Hfinal as ((t & d & Ht & _ & Hrest) & Hmin & _).
  split; [by exists t, d|exact Hmin].
Qed.

(** A melee unit with a target three steps away and one two steps away on
    the open board: the nearer one is returned, one move away. *)
Lemma findClosestTarget_melee_is_closest_witness :
  let source := mkTile Cube.cubeHex (Cube.mkHex 0 0 0 10) OCCUPIED_ALLY (Some ALLY) None in
  let far := mkTile Cube.cubeHex (Cube.mkHex 3 (-3) 0 5) OCCUPIED_ENEMY (Some ENEMY) None in
  let near := mkTile Cube.cubeHex (Cube.mkHex 0 2 (-2) 30) OCCUPIED_ENEMY (Some ENEMY) None in
  let dist := @meleeDistance Cube.cubeHex Cube.cubeKeys 30 source 1 Cube.openBoard
                defaultCanTraverse newPathfindingCache in
  let r := {| hexId := 30; target_distance := Finite 1 |} in
  (∀ t, t ∈ [far; near] → is_Some (dist t))
  ∧ (∃ t d, t ∈ [far; near] ∧ dist t = Some d ∧ canReach d = true
            ∧ hexId r = Cube.cid (hex t) ∧ target_distance r = movementDistance d)
  ∧ (∀ t d, t ∈ [far; near] → dist t = Some d → canReach d = true →
            dist_ltb (movementDistance d) (target_distance r) = false).
Proof.
  intros source far near dist r.
  assert (Hrun : @findClosestTarget Cube.cubeHex Cube.cubeKeys 30 source [far; near] 1
                   Cube.openBoard defaultCanTraverse false newPathfindingCache
                 = Some (Some r, newPathfindingCache)) by by_evaluation.
  destruct (@findClosestTarget_melee_is_closest Cube.cubeHex Cube.cubeKeys 30 source
              [far; near] 1 Cube.openBoard defaultCanTraverse newPathfindingCache
              (Some r) newPathfindingCache ltac:(lia) Hrun) as (_ & Hall & Hsome & Hmin).
  split; [exact Hall|]. split; [exact Hsome|exact Hmin].
Defined.

(** X9.  The second tie-break.  When the targets lie in one diagonal row
    and are alike in their vertical alignment with the source, equal
    movement distances are settled by the hex id: the melee search
    returns the least id among the reachable targets at the least
    movement distance, the ranged search the least id among its
    candidates. *)
Theorem findClosestTarget_breaks_ties_by_id `{K : CacheKeys}
    (fuel : nat) (sourceTile : GridTile) (targetTiles : list GridTile)
    (sourceRange : Z) (getTile : Hex → option GridTile)
    (canTraverse : GridTile → bool) (cache : PathfindingCache)
    (r : TargetResult) (cache' : PathfindingCache) :
  alikeTargets sourceTile targetTiles →
  findClosestTarget fuel sourceTile targetTiles sourceRange getTile canTraverse false
    cache = Some (Some r, cache') →
  (sourceRange ≤ 1 →
   ∀ t d, t ∈ targetTiles →
     meleeDistance fuel sourceTile sourceRange getTile canTraverse cache t = Some d →
     canReach d = true → movementDistance d = target_distance r →
     hexId r ≤ getId (hex t))
  ∧ (1 < sourceRange →
     ∀ t, t ∈ candidateTargets targetTiles
                (calculateRangedMovementDistance (hex sourceTile) (map hex targetTiles)
                   sourceRange getTile canTraverse) →
          hexId r ≤ getId (hex t)).
Proof.
  intros Halike Hrun. unfold findClosestTarget in Hrun.
  destruct (Z.of_nat (length targetTiles) =? 0); [done|]. split.
  - intros Hrange.
    replace (1 <? sourceRange) with false in Hrun by (symmetry; apply Z.ltb_ge; lia).
    destruct (meleeLoop_closest fuel sourceTile targetTiles sourceRange getTile
                canTraverse targetTiles [] None cache (Some r) cache')
      as (Hc & Hfinal & Hall);
      [done|by intros t d Ht; apply elem_of_nil in Ht|done|].
    cbn [app] in Hfinal. destruct Hfinal as (_ & _ & Hid & _). by apply Hid.
  - intros Hrange.
    replace (1 <? sourceRange) with true in Hrun by (symmetry; by apply Z.ltb_lt).
    destruct (_ || _); [done|].
    destruct (candidateTargets _ _) as [|first rest] eqn:Hc; [done|].
    injection Hrun as <- <-. cbn [hexId].
    destruct Halike as (v & row & Hall).
    apply (chooseBest_fold_least sourceTile rest first v row).
    intros t Ht. apply Hall. rewrite <- Hc in Ht.
    unfold candidateTargets in Ht.
    rewrite (list_elem_of_In (List.filter _ _)), filter_In, <- list_elem_of_In in Ht.
    tauto.
Qed.

(** Two enemies of one diagonal row, neither aligned with the source and
    both one move away from a melee unit, both candidates of a ranged
    one: the lower id is returned whatever the order of the list. *)
Lemma findClosestTarget_breaks_ties_by_id_witness :
  let source := mkTile Cube.cubeHex (Cube.mkHex 0 0 0 10) OCCUPIED_ALLY (Some ALLY) None in
  let low := mkTile Cube.cubeHex (Cube.mkHex 2 (-2) 0 3) OCCUPIED_ENEMY (Some ENEMY) None in
  let high := mkTile Cube.cubeHex (Cube.mkHex (-2) 2 0 5) OCCUPIED_ENEMY (Some ENEMY) None in
  let r := {| hexId := 3; target_distance := Finite 1 |} in
  @findClosestTarget Cube.cubeHex Cube.cubeKeys 30 source [high; low] 1
    Cube.openBoard defaultCanTraverse false newPathfindingCache
  = Some (Some r, newPathfindingCache)
  ∧ (∀ t d, t ∈ [high; low] →
       @meleeDistance Cube.cubeHex Cube.cubeKeys 30 source 1 Cube.openBoard
         defaultCanTraverse newPathfindingCache t = Some d →
       canReach d = true → movementDistance d = target_distance r →
       hexId r ≤ Cube.cid (hex t)).
Proof.
  intros source low high r.
  assert (Hrun : @findClosestTarget Cube.cubeHex Cube.cubeKeys 30 source [high; low] 1
                   Cube.openBoard defaultCanTraverse false newPathfindingCache
                 = Some (Some r, newPathfindingCache)) by by_evaluation.
  split; [exact Hrun|].
  refine (proj1 (@findClosestTarget_breaks_ties_by_id Cube.cubeHex Cube.cubeKeys 30
                   source [high; low] 1 Cube.openBoard defaultCanTraverse
                   newPathfindingCache r newPathfindingCache _ Hrun) _); [|lia].
  exists false, 2. intros t Ht. rewrite !elem_of_cons in Ht.
  destruct Ht as [->|[->|Ht]]; [| |inversion Ht].
  - split; reflexivity.
  - split; reflexivity.
Defined.

Section TieBreakByDistance.
Context `{K : CacheKeys}.

Lemma chooseBest_spread (sourceTile : GridTile) (targetTiles : list GridTile)
    (best current : GridTile) :
  spreadTargets sourceTile targetTiles →
  best ∈ targetTiles → current ∈ targetTiles →
  (chooseBest sourceTile best current = best
   ∨ chooseBest sourceTile best current = current)
  ∧ distance (hex sourceTile) (hex (chooseBest sourceTile best current))
    ≤ distance (hex sourceTile) (hex best)
  ∧ distance (hex sourceTile) (hex (chooseBest sourceTile best current))
    ≤ distance (hex sourceTile) (hex current).
Proof.
  intros [Hvert Hrows] Hb Hc. unfold chooseBest.
  rewrite (Hvert best Hb), (Hvert current Hc). cbn [negb andb].
  destruct (areHexesInSameDiagonalRow _ _) eqn:Hrow.
  - unfold areHexesInSameDiagonalRow in Hrow. apply Z.eqb_eq in Hrow.
    rewrite (Hrows current best Hc Hb Hrow).
    rewrite Z.ltb_irrefl. split; [by left|lia].
  - destruct (_ <? _) eqn:Hlt.
    + apply Z.ltb_lt in Hlt. split; [by right|lia].
    + apply Z.ltb_ge in Hlt. split; [by left|lia].
Qed.

Lemma chooseBest_fold_nearest (sourceTile : GridTile) (targetTiles rest : list GridTile)
    (first : GridTile) :
  spreadTargets sourceTile targetTiles →
  (∀ t, t ∈ first :: rest → t ∈ targetTiles) →
  ∀ t, t ∈ first :: rest →
       distance (hex sourceTile) (hex (foldl (chooseBest sourceTile) first rest))
       ≤ distance (hex sourceTile) (hex t).
Proof.
  intros Hspread. revert first.
  induction rest as [|c rest IH]; intros first Hsub t Ht.
  - apply list_elem_of_singleton in Ht as ->. cbn. lia.
  - cbn [foldl].
    assert (Hf : first ∈ targetTiles) by (apply Hsub, elem_of_cons; by left).
    assert (Hc : c ∈ targetTiles)
      by (apply Hsub, elem_of_cons; right; apply elem_of_cons; by left).
    destruct (chooseBest_spread sourceTile targetTiles first c Hspread Hf Hc)
      as (Hwhich & Hle1 & Hle2).
    assert (Hmin : ∀ t', t' ∈ chooseBest sourceTile first c :: rest →
              distance (hex sourceTile)
                (hex (foldl (chooseBest sourceTile) (chooseBest sourceTile first c) rest))
              ≤ distance (hex sourceTile) (hex t')).
    { apply IH. intros t' Ht'. apply elem_of_cons in Ht' as [->|Ht'].
      - by destruct Hwhich as [-> | ->].
      - apply Hsub. apply elem_of_cons; right. apply elem_of_cons. by right. }
    pose proof (Hmin _ ltac:(apply elem_of_cons; by left)) as Hhead.
    apply elem_of_cons in Ht as [->|Ht]; [lia|].
    apply elem_of_cons in Ht as [->|Ht]; [lia|].
    apply Hmin. apply elem_of_cons. by right.
Qed.
End TieBreakByDistance.

(** X22.  The third tie-break.  When no target is vertically aligned
    with the source and no two targets lie in the same diagonal row,
    equal movement distances are settled by the direct distance: the
    target the melee search returns is as near to the source, as the hex
    distance goes, as any reachable target at the least movement
    distance, and the one the ranged search returns as near as any of its
    candidates. *)
Theorem findClosestTarget_breaks_ties_by_direct_distance `{K : CacheKeys}
    (fuel : nat) (sourceTile : GridTile) (targetTiles : list GridTile)
    (sourceRange : Z) (getTile : Hex → option GridTile)
    (canTraverse : GridTile → bool) (cache : PathfindingCache)
    (r : TargetResult) (cache' : PathfindingCache) :
  spreadTargets sourceTile targetTiles →
  findClosestTarget fuel sourceTile targetTiles sourceRange getTile canTraverse false
    cache = Some (Some r, cache') →
  ∃ c, c ∈ targetTiles ∧ hexId r = getId (hex c)
    ∧ (sourceRange ≤ 1 →
       ∀ t d, t ∈ targetTiles →
         meleeDistance fuel sourceTile sourceRange getTile canTraverse cache t = Some d →
         canReach d = true → movementDistance d = target_distance r →
         distance (hex sourceTile) (hex c) ≤ distance (hex sourceTile) (hex t))
    ∧ (1 < sourceRange →
       ∀ t, t ∈ candidateTargets targetTiles
                  (calculateRangedMovementDistance (hex sourceTile) (map hex targetTiles)
                     sourceRange getTile canTraverse) →
            distance (hex sourceTile) (hex c) ≤ distance (hex sourceTile) (hex t)).
Proof.
  intros Hspread Hrun. unfold findClosestTarget in Hrun.
  destruct (Z.of_nat (length targetTiles) =? 0); [done|].
  destruct (1 <? sourceRange) eqn:Hrange.
  - apply Z.ltb_lt in Hrange.
    destruct (_ || _); [done|].
    destruct (candidateTargets _ _) as [|first rest] eqn:Hc; [done|].
    injection Hrun as <- <-. cbn [hexId].
    assert (Hsub : ∀ t, t ∈ first :: rest → t ∈ targetTiles).
    { intros t Ht. rewrite <- Hc in Ht. unfold candidateTargets in Ht.
      rewrite (list_elem_of_In (List.filter _ _)), filter_In, <- list_elem_of_In in Ht.
      tauto. }
    exists (foldl (chooseBest sourceTile) first rest).
    split; [apply Hsub, chooseBest_fold|]. split; [done|]. split; [lia|].
    intros _. by apply (chooseBest_fold_nearest sourceTile targetTiles).
  - apply Z.ltb_ge in Hrange.
    destruct (meleeLoop_closest fuel sourceTile targetTiles sourceRange getTile
                canTraverse targetTiles [] None cache (Some r) cache')
      as (_ & Hfinal & _);
      [done|by intros t d Ht; apply elem_of_nil in Ht|done|].
    cbn [app] in Hfinal.
    destruct Hfinal as ((c & dc & _ & Hc & _ & _ & Hid & _) & _ & _ & Hnear).
    exists c. split; [done|]. split; [done|]. split; [|lia].
    intros _ t d Ht Hd Hreach Htie. by apply (Hnear Hspread c t d).
Qed.

(** Two enemies within reach of a unit of range 2, in different rows and
    neither aligned with the source: the one at the lesser hex distance is
    returned although it comes second and has the greater id. *)
Lemma findClosestTarget_breaks_ties_by_direct_distance_witness :
  let source := mkTile Cube.cubeHex (Cube.mkHex 0 0 0 20) OCCUPIED_ALLY (Some ALLY) None in
  let far := mkTile Cube.cubeHex (Cube.mkHex 2 (-2) 0 3) OCCUPIED_ENEMY (Some ENEMY) None in
  let near := mkTile Cube.cubeHex (Cube.mkHex (-1) 1 0 9) OCCUPIED_ENEMY (Some ENEMY) None in
  ∃ r c, @findClosestTarget Cube.cubeHex Cube.cubeKeys 30 source [far; near] 2
           Cube.openBoard defaultCanTraverse false newPathfindingCache
         = Some (Some r, newPathfindingCache)
    ∧ c ∈ [far; near] ∧ hexId r = Cube.cid (hex c)
    ∧ ∀ t, t ∈ candidateTargets [far; near]
                 (@calculateRangedMovementDistance Cube.cubeHex (hex source)
                    (map hex [far; near]) 2 Cube.openBoard defaultCanTraverse) →
           Cube.cube_distance (hex source) (hex c) ≤ Cube.cube_distance (hex source) (hex t).
Proof.
  intros source far near.
  assert_run Hrun (@findClosestTarget Cube.cubeHex Cube.cubeKeys 30 source [far; near] 2
                     Cube.openBoard defaultCanTraverse false newPathfindingCache).
  destruct (@findClosestTarget_breaks_ties_by_direct_distance Cube.cubeHex Cube.cubeKeys
              30 source [far; near] 2 Cube.openBoard defaultCanTraverse
              newPathfindingCache {| hexId := 9; target_distance := Finite 0 |}
              newPathfindingCache) as (c & Hc & Hid & _ & Hnear).
  - split.
    + intros t Ht. rewrite !elem_of_cons in Ht.
      destruct Ht as [->|[->|Ht]]; [reflexivity|reflexivity|inversion Ht].
    + intros t1 t2 Ht1 Ht2. rewrite !elem_of_cons in Ht1, Ht2.
      destruct Ht1 as [->|[->|Ht1]]; [| |inversion Ht1];
        (destruct Ht2 as [->|[->|Ht2]]; [| |inversion Ht2]);
        first [reflexivity|intros Hrow; vm_compute in Hrow; discriminate Hrow].
  - exact Hrun.
  - eexists _, c. split; [exact Hrun|]. split; [done|]. split; [done|].
    apply Hnear. lia.
Defined.
(** * More on the closest-target maps *)

Section MapTable.
Context `{K : CacheKeys}.

(** The entry a source tile gets from the result of its search. *)
Definition entryOf (mkInfo : Z → Distance → TargetInfo)
    (found : option TargetResult) : option TargetInfo :=
  (λ r, mkInfo (hexId r) (target_distance r)) <$> found.

Lemma closestLoop_table fuel mkInfo characterRanges targetTiles lookup sources
    result cache out cache' :
  NoDup (map (λ t, getId (hex t)) sources) →
  closestLoop fuel mkInfo characterRanges targetTiles lookup false sources result cache
    = Some (out, cache') →
  cache' = cache
  ∧ (∀ s, s ∈ sources →
       ∃ found,
         valueOf (findClosestTarget fuel s targetTiles (rangeOf characterRanges s) lookup
                    defaultCanTraverse false cache) = Some found
         ∧ out !! getId (hex s)
           = match entryOf mkInfo found with
             | Some info => Some info
             | None => result !! getId (hex s)
             end)
  ∧ (∀ k, (∀ s, s ∈ sources → getId (hex s) ≠ k) → out !! k = result !! k).
Proof.
  revert result. induction sources as [|s rest IH]; intros result Hnd Hrun.
  - cbn [closestLoop] in Hrun. injection Hrun as <- <-.
    split; [done|]. split; [|done]. intros s Hs. by apply elem_of_nil in Hs.
  - cbn [closestLoop] in Hrun. rewrite findClosestTarget_off in Hrun.
    destruct (valueOf (findClosestTarget fuel s targetTiles (rangeOf characterRanges s)
                lookup defaultCanTraverse false newPathfindingCache))
      as [found|] eqn:Hfound; [|done].
    cbn in Hrun. cbn [map] in Hnd. apply NoDup_cons in Hnd as [Hnew Hnd].
    destruct (IH _ Hnd Hrun) as (Hc & Hrest & Hother).
    assert (Hval : valueOf (findClosestTarget fuel s targetTiles
                     (rangeOf characterRanges s) lookup defaultCanTraverse false cache)
                   = Some found).
    { by rewrite valueOf_findClosestTarget_off. }
    split; [done|]. split.
    + intros s' Hs'. apply elem_of_cons in Hs' as [->|Hs'].
      * exists found. split; [done|].
        rewrite Hother.
        -- destruct found as [r|]; cbn; [by rewrite lookup_insert_eq|done].
        -- intros s' Hs' Hid. apply Hnew. apply list_elem_of_fmap. by exists s'.
      * destruct (Hrest s' Hs') as (found' & Hf' & Hout). exists found'.
        split; [done|]. rewrite Hout.
        destruct (entryOf mkInfo found'); [done|].
        destruct found as [r|]; [|done].
        apply lookup_insert_ne. intros Hid. apply Hnew.
        apply list_elem_of_fmap. by exists s'.
    + intros k Hk. rewrite Hother.
      * destruct found as [r|]; [|done].
        apply lookup_insert_ne. apply Hk. apply elem_of_cons. by left.
      * intros s' Hs'. apply Hk. apply elem_of_cons. by right.
Qed.

Lemma closestLoop_no_targets fuel mkInfo characterRanges lookup cachingEnabled sources
    result cache :
  closestLoop fuel mkInfo characterRanges [] lookup cachingEnabled sources result cache
  = Some (result, cache).
Proof.
  revert result. induction sources as [|s rest IH]; intros result; [done|].
  cbn [closestLoop]. unfold findClosestTarget at 1. cbn [length Z.of_nat Z.eqb].
  cbn. apply IH.
Qed.
End MapTable.

(** X10.  With caching disabled each map is the table of
    findClosestTarget: when the ids of the allies are pairwise distinct,
    getClosestEnemyMap hands the cache back untouched and maps the id of
    every ally to the enemy and distance findClosestTarget returns for it
    (with the range of its character, 1 by default, against the enemy
    tiles), has no entry for an ally whose search returns null and no
    entry for any other id; getClosestAllyMap does the same with the
    sides exchanged. *)
Theorem closest_maps_are_tables `{K : CacheKeys}
    (fuel : nat) (tiles : list GridTile) (characterRanges : gmap string Z)
    (getTile : option (Hex → option GridTile)) (cache : PathfindingCache)
    (out : gmap Z TargetInfo) (cache' : PathfindingCache) :
  let allies := List.filter (hasTeam ALLY) tiles in
  let enemies := List.filter (hasTeam ENEMY) tiles in
  let search source targets :=
    valueOf (findClosestTarget fuel source targets (rangeOf characterRanges source)
               (getTileHelper tiles getTile) defaultCanTraverse false cache) in
  (NoDup (map (λ t, getId (hex t)) allies) →
   getClosestEnemyMap fuel tiles characterRanges false getTile cache = Some (out, cache') →
   cache' = cache
   ∧ (∀ a, a ∈ allies →
        ∃ found, search a enemies = Some found
                 ∧ out !! getId (hex a) = entryOf enemyInfo found)
   ∧ (∀ k, (∀ a, a ∈ allies → getId (hex a) ≠ k) → out !! k = None))
  ∧
  (NoDup (map (λ t, getId (hex t)) enemies) →
   getClosestAllyMap fuel tiles characterRanges false getTile cache = Some (out, cache') →
   cache' = cache
   ∧ (∀ e, e ∈ enemies →
        ∃ found, search e allies = Some found
                 ∧ out !! getId (hex e) = entryOf allyInfo found)
   ∧ (∀ k, (∀ e, e ∈ enemies → getId (hex e) ≠ k) → out !! k = None)).
Proof.
  cbv zeta. split.
  - intros Hnd Hrun. unfold getClosestEnemyMap in Hrun.
    destruct (closestLoop _ _ _ _ _ _ _ _ _) as [[m c1]|] eqn:Hloop; [|done].
    injection Hrun as <- <-.
    destruct (closestLoop_table _ _ _ _ _ _ _ _ _ _ Hnd Hloop) as (-> & Htable & Hother).
    split; [done|]. split.
    + intros a Ha. destruct (Htable a Ha) as (found & Hf & Hout).
      exists found. split; [done|]. rewrite Hout, lookup_empty.
      by destruct (entryOf enemyInfo found).
    + intros k Hk. by rewrite Hother.
  - intros Hnd Hrun. unfold getClosestAllyMap in Hrun.
    destruct (closestLoop _ _ _ _ _ _ _ _ _) as [[m c1]|] eqn:Hloop; [|done].
    injection Hrun as <- <-.
    destruct (closestLoop_table _ _ _ _ _ _ _ _ _ _ Hnd Hloop) as (-> & Htable & Hother).
    split; [done|]. split.
    + intros a Ha. destruct (Htable a Ha) as (found & Hf & Hout).
      exists found. split; [done|]. rewrite Hout, lookup_empty.
      by destruct (entryOf allyInfo found).
    + intros k Hk. by rewrite Hother.
Qed.

(** A melee ally on hex 1 and an enemy on hex 13, two steps apart on the
    open board. *)
Lemma closest_maps_are_tables_witness :
  let ally := mkTile Cube.cubeHex (Cube.mkHex 0 0 0 1) OCCUPIED_ALLY (Some ALLY)
                (Some "a"%string) in
  let enemy := mkTile Cube.cubeHex (Cube.mkHex 2 (-2) 0 13) OCCUPIED_ENEMY (Some ENEMY)
                 (Some "e"%string) in
  let tiles := [ally; enemy] in
  let search source targets :=
    valueOf (@findClosestTarget Cube.cubeHex Cube.cubeKeys 20 source targets
               (rangeOf ∅ source) (getTileHelper tiles (Some Cube.openBoard))
               defaultCanTraverse false newPathfindingCache) in
  let out : gmap Z TargetInfo := {[1 := enemyInfo 13 (Finite 1)]} in
  (∀ a, a ∈ List.filter (hasTeam ALLY) tiles →
     ∃ found, search a (List.filter (hasTeam ENEMY) tiles) = Some found
              ∧ out !! Cube.cid (hex a) = entryOf enemyInfo found)
  ∧ (∀ k, (∀ a, a ∈ List.filter (hasTeam ALLY) tiles → Cube.cid (hex a) ≠ k) →
          out !! k = None).
Proof.
  intros ally enemy tiles search out.
  assert (Hrun : @getClosestEnemyMap Cube.cubeHex Cube.cubeKeys 20 tiles ∅ false
                   (Some Cube.openBoard) newPathfindingCache
                 = Some (out, newPathfindingCache)) by by_evaluation.
  refine (proj2 (proj1 (@closest_maps_are_tables Cube.cubeHex Cube.cubeKeys 20 tiles ∅
                          (Some Cube.openBoard) newPathfindingCache out
                          newPathfindingCache) _ Hrun)).
  change (NoDup [1]). apply NoDup_singleton.
Defined.

(** X11.  A board with no enemy, or with no ally, gives two empty maps:
    with caching disabled both functions return the empty map and the
    cache as it was, for every step budget, the empty one included. *)
Theorem closest_maps_one_side_missing `{K : CacheKeys}
    (fuel : nat) (tiles : list GridTile) (characterRanges : gmap string Z)
    (getTile : option (Hex → option GridTile)) (cache : PathfindingCache) :
  List.filter (hasTeam ENEMY) tiles = [] ∨ List.filter (hasTeam ALLY) tiles = [] →
  getClosestEnemyMap fuel tiles characterRanges false getTile cache = Some (∅, cache)
  ∧ getClosestAllyMap fuel tiles characterRanges false getTile cache = Some (∅, cache).
Proof.
  intros Hside. unfold getClosestEnemyMap, getClosestAllyMap.
  destruct Hside as [-> | ->].
  - rewrite closestLoop_no_targets. cbn [closestLoop]. done.
  - rewrite closestLoop_no_targets. cbn [closestLoop]. done.
Qed.

(** Two allies and no enemy, without any step budget. *)
Lemma closest_maps_one_side_missing_witness :
  let tiles :=
    [mkTile Cube.cubeHex (Cube.mkHex 0 0 0 1) OCCUPIED_ALLY (Some ALLY) (Some "a"%string);
     mkTile Cube.cubeHex (Cube.mkHex 1 (-1) 0 2) OCCUPIED_ALLY (Some ALLY) (Some "b"%string)] in
  @getClosestEnemyMap Cube.cubeHex Cube.cubeKeys 0 tiles ∅ false None newPathfindingCache
  = Some (∅, newPathfindingCache)
  ∧ @getClosestAllyMap Cube.cubeHex Cube.cubeKeys 0 tiles ∅ false None newPathfindingCache
    = Some (∅, newPathfindingCache).
Proof.
  intros tiles.
  apply (@closest_maps_one_side_missing Cube.cubeHex Cube.cubeKeys 0 tiles ∅ None
           newPathfindingCache).
  left. reflexivity.
Defined.
(** * More on the diagonal rows *)

Lemma getRowNumber_low (id : Z) : id ≤ 2 → getRowNumber id = 1.
Proof.
  intros Hid. unfold getRowNumber, rowEndings. cbn [tableRow].
  by replace (id <=? 2) with true by (symmetry; by apply Z.leb_le).
Qed.

Lemma rowLabel_values (n : nat) :
  (1 ≤ n)%nat → 1 ≤ rowLabel n ∧ rowLabel n ≠ 16 ∧ (rowLabel n = 1 → n = 1%nat).
Proof.
  intros Hn. unfold rowLabel. destruct (n <=? 15)%nat eqn:Hle.
  - apply Nat.leb_le in Hle. lia.
  - apply Nat.leb_gt in Hle. lia.
Qed.

(** X12.  The ids the table does not list.  Every id up to 2, zero and
    the negative ones included, is put in row 1, so any two of them count
    as being in the same diagonal row, and none of them shares a row with
    an id above 2.  No id is ever given row number 16: the rows computed
    past id 45 are numbered from 17 on. *)
Theorem areHexesInSameDiagonalRow_unlisted_ids :
  (∀ a b, a ≤ 2 → b ≤ 2 → areHexesInSameDiagonalRow a b = true)
  ∧ (∀ a b, a ≤ 2 → 2 < b → areHexesInSameDiagonalRow a b = false)
  ∧ (∀ id, 1 ≤ getRowNumber id ∧ getRowNumber id ≠ 16)
  ∧ getRowNumber 45 = 15 ∧ getRowNumber 46 = 17.
Proof.
  split; [|split; [|split]].
  - intros a b Ha Hb. unfold areHexesInSameDiagonalRow.
    rewrite !getRowNumber_low by done. reflexivity.
  - intros a b Ha Hb. unfold areHexesInSameDiagonalRow.
    rewrite (getRowNumber_low a) by done.
    destruct (getRowNumber_row b ltac:(lia)) as (n & Hrow & ->).
    apply Z.eqb_neq. intros Hlabel. symmetry in Hlabel.
    destruct Hrow as [Hn Hrange].
    apply (rowLabel_values n Hn) in Hlabel. subst n. cbn in Hrange. lia.
  - intros id. destruct (decide (id ≤ 2)) as [Hlow|Hhigh].
    + rewrite getRowNumber_low by done. lia.
    + destruct (getRowNumber_row id ltac:(lia)) as (n & [Hn _] & ->).
      pose proof (rowLabel_values n Hn). tauto.
  - split; reflexivity.
Qed.

(** X13.  Rows are runs of consecutive ids.  For positive ids, two ids in
    the same diagonal row are at most 3 apart and every id between them
    is in that row too; the row number never decreases as the id grows. *)
Theorem areHexesInSameDiagonalRow_runs (a b : Z) :
  0 < a → a ≤ b →
  getRowNumber a ≤ getRowNumber b
  ∧ (areHexesInSameDiagonalRow a b = true →
     b - a ≤ 3 ∧ ∀ c, a ≤ c ≤ b → areHexesInSameDiagonalRow a c = true).
Proof.
  intros Ha Hab.
  assert (Hpos : ∀ k, (1 ≤ k)%nat → 0 < computedRowSize k).
  { intros k Hk. pose proof (computedRowSize_pos k Hk). lia. }
  assert (Hlabel : ∀ n m, (n ≤ m)%nat → rowLabel n ≤ rowLabel m).
  { intros n m Hnm. unfold rowLabel.
    destruct (n <=? 15)%nat eqn:Hn, (m <=? 15)%nat eqn:Hm;
      try apply Nat.leb_le in Hn; try apply Nat.leb_le in Hm;
      try apply Nat.leb_gt in Hn; try apply Nat.leb_gt in Hm; lia. }
  destruct (getRowNumber_row a Ha) as (n & Hrowa & Hna).
  destruct (getRowNumber_row b ltac:(lia)) as (m & Hrowb & Hmb).
  assert (Hnm : (n ≤ m)%nat).
  { destruct (decide (n ≤ m)%nat) as [|Hgt]; [done|].
    destruct Hrowa as [Hn1 Hra], Hrowb as [Hm1 Hrb].
    assert (lastIdOfRow computedRowSize m ≤ lastIdOfRow computedRowSize (n - 1)).
    { destruct (decide (m = n - 1)%nat) as [->|Hne]; [lia|].
      apply Z.lt_le_incl, lastIdOfRow_mono; [done|lia]. }
    lia. }
  split; [rewrite Hna, Hmb; by apply Hlabel|].
  unfold areHexesInSameDiagonalRow. intros Hsame. apply Z.eqb_eq in Hsame.
  rewrite Hna, Hmb in Hsame. apply rowLabel_inj in Hsame. subst m.
  destruct Hrowa as [Hn1 Hra], Hrowb as [_ Hrb].
  assert (Hsize : lastIdOfRow computedRowSize n
                  = lastIdOfRow computedRowSize (n - 1) + computedRowSize n).
  { destruct n as [|n]; [lia|]. cbn [lastIdOfRow]. by rewrite Nat.sub_succ, Nat.sub_0_r. }
  pose proof (computedRowSize_pos n Hn1) as Hwidth.
  split; [lia|].
  intros c Hc.
  destruct (getRowNumber_row c ltac:(lia)) as (k & Hrowc & Hkc).
  assert (k = n) as ->.
  { apply (inRow_unique computedRowSize k n c Hpos Hrowc). split; [done|lia]. }
  apply Z.eqb_eq. congruence.
Qed.

(** Ids 32 to 35 make up a row of four. *)
Lemma areHexesInSameDiagonalRow_runs_witness :
  getRowNumber 32 ≤ getRowNumber 35
  ∧ (areHexesInSameDiagonalRow 32 35 = true →
     35 - 32 ≤ 3 ∧ ∀ c, 32 ≤ c ≤ 35 → areHexesInSameDiagonalRow 32 c = true).
Proof. apply (areHexesInSameDiagonalRow_runs 32 35); lia. Defined.
(** * More on findPath *)

Section PathCells.
Context {M : HexOps}.
Variables (goal : Hex) (getTile : Hex → option GridTile)
          (canTraverse : GridTile → bool).

(** Costs are not negative, a node without parent has cost 0, and a node
    that was entered from another one sits on a traversable cell. *)
Definition EnteredInv (st : SearchState) : Prop :=
  ∀ k nd, nodeMap st !! k = Some nd →
    0 ≤ g nd
    ∧ (parent nd = None → g nd = 0)
    ∧ (parent nd ≠ None → traversable getTile canTraverse (node_hex nd) = true).

Lemma visitNeighbor_entered current st d :
  0 ≤ g current → EnteredInv st →
  EnteredInv (visitNeighbor goal getTile canTraverse current st d).
Proof.
  intros Hcur Hinv. unfold visitNeighbor.
  case_bool_decide as Hcl; [done|].
  set (nb := neighbor (node_hex current) d) in *.
  destruct (getTile nb) as [tile|] eqn:Htile; [|done].
  destruct (canTraverse tile) eqn:Hct; [|done]. cbn [negb].
  assert (Hnb : traversable getTile canTraverse nb = true).
  { unfold traversable. by rewrite Htile. }
  destruct (nodeMap st !! toString nb) as [old|] eqn:Hold.
  - destruct (g current + 1 <? g old) eqn:Hlt; [|done].
    apply Z.ltb_lt in Hlt.
    intros k nd. cbn [nodeMap].
    destruct (decide (toString nb = k)) as [<-|Hne].
    + rewrite lookup_insert_eq. intros [= <-]. cbn [g parent node_hex].
      split; [lia|]. split; [done|]. intros _.
      destruct (Hinv _ _ Hold) as (_ & Hroot & Hent).
      destruct (parent old) eqn:Hp; [by apply Hent|].
      specialize (Hroot eq_refl). lia.
    + rewrite lookup_insert_ne by done. apply Hinv.
  - intros k nd. cbn [nodeMap].
    destruct (decide (toString nb = k)) as [<-|Hne].
    + rewrite lookup_insert_eq. intros [= <-]. cbn [g parent node_hex].
      split; [lia|]. split; [done|]. done.
    + rewrite lookup_insert_ne by done. apply Hinv.
Qed.

Lemma visitNeighbors_entered current ds st :
  0 ≤ g current → EnteredInv st →
  EnteredInv (foldl (visitNeighbor goal getTile canTraverse current) st ds).
Proof.
  intros Hcur. revert st. induction ds as [|d ds IH]; intros st Hinv; [done|].
  cbn [foldl]. apply IH. by apply visitNeighbor_entered.
Qed.

(** The cells collected along the parent links: all but the first were
    entered. *)
Lemma reconstructPath_entered fuel nm k acc path :
  (∀ k nd, nm !! k = Some nd →
     parent nd ≠ None → traversable getTile canTraverse (node_hex nd) = true) →
  reconstructPath fuel nm (Some k) acc = Some path →
  ∃ first rest, path = first :: rest ++ acc
    ∧ Forall (λ x, traversable getTile canTraverse x = true) rest.
Proof.
  intros Hinv. revert k acc.
  induction fuel as [|n IH]; intros k acc Hrec; [done|].
  cbn [reconstructPath] in Hrec.
  destruct (nm !! k) as [nd|] eqn:Hnd; [|done]. cbn [mbind option_bind] in Hrec.
  destruct (parent nd) as [pk|] eqn:Hp.
  - apply IH in Hrec as (first & rest & -> & Hrest).
    exists first, (rest ++ [node_hex nd]). split; [by rewrite <- app_assoc|].
    apply Forall_app. split; [done|]. constructor; [|done].
    apply (Hinv k nd Hnd). by rewrite Hp.
  - destruct n; cbn [reconstructPath] in Hrec; injection Hrec as <-;
      by exists (node_hex nd), [].
Qed.

Lemma searchLoop_entered budget fuel st path :
  EnteredInv st →
  searchLoop budget fuel goal getTile canTraverse st = Some (Some path) →
  Forall (λ x, traversable getTile canTraverse x = true) (tail path).
Proof.
  revert st. induction fuel as [|n IH]; intros st Hinv Hrun; [done|].
  rewrite searchLoop_step in Hrun.
  destruct (isEmpty (openSet st)); [done|].
  destruct (dequeue (openSet st)) as [[item rest]|]; [|done].
  destruct (nodeMap st !! toString item) as [current|] eqn:Hcur; [|done].
  destruct (equals (node_hex current) goal).
  - destruct (reconstructPath budget _ _ _) as [p|] eqn:Hrec; [|done].
    injection Hrun as <-.
    apply reconstructPath_entered in Hrec as (first & tl & -> & Htl).
    + by rewrite app_nil_r.
    + intros k nd Hnd. apply (Hinv k nd Hnd).
  - apply IH in Hrun; [done|].
    apply visitNeighbors_entered; [by apply (Hinv _ _ Hcur)|].
    intros k nd. cbn [nodeMap]. apply Hinv.
Qed.
End PathCells.

(** X14.  A path never crosses a cell it may not enter: in the sequence
    findPath returns, every hex after the first has a tile that the
    traversal predicate accepts, for any hex class, lookup and predicate.
    Nothing is asked of the first hex, the start. *)
Theorem findPath_enters_traversable_cells {M : HexOps}
    (fuel : nat) (start goal : Hex)
    (getTile : Hex → option GridTile) (canTraverse : GridTile → bool)
    (path : list Hex) :
  findPath fuel start goal getTile canTraverse = Some (Some path) →
  Forall (λ x, ∃ tile, getTile x = Some tile ∧ canTraverse tile = true) (tail path).
Proof.
  intros Hrun.
  assert (Htrav : Forall (λ x, traversable getTile canTraverse x = true) (tail path)).
  { apply (searchLoop_entered goal getTile canTraverse fuel fuel
             (startState start goal)); [|done].
    intros k nd. unfold startState. cbn [nodeMap].
    intros Hl. apply lookup_singleton_Some in Hl as [_ <-]. cbn. done. }
  eapply Forall_impl; [exact Htrav|].
  intros x Hx. unfold traversable in Hx.
  destruct (getTile x) as [tile|]; [by exists tile|done].
Qed.

(** The detour around two blocked cells: the four cells after the start
    carry traversable tiles. *)
Lemma findPath_enters_traversable_cells_witness :
  let board := Cube.listBoard
                 [(0, 0, 0); (1, 0, -1); (1, -1, 0); (0, -1, 1); (1, -2, 1);
                  (2, -2, 0); (2, -1, -1)]
                 [(1, 0, -1); (1, -1, 0)] in
  Forall (λ x, ∃ tile, board x = Some tile ∧ defaultCanTraverse tile = true)
    [Cube.mkHex 0 (-1) 1 (-1); Cube.mkHex 1 (-2) 1 (-1);
     Cube.mkHex 2 (-2) 0 (-1); Cube.mkHex 2 (-1) (-1) (-1)].
Proof.
  intros board.
  apply (@findPath_enters_traversable_cells Cube.cubeHex 50
           (Cube.mkHex 0 0 0 1) (Cube.mkHex 2 (-1) (-1) 2) board defaultCanTraverse
           [Cube.mkHex 0 0 0 1; Cube.mkHex 0 (-1) 1 (-1); Cube.mkHex 1 (-2) 1 (-1);
            Cube.mkHex 2 (-2) 0 (-1); Cube.mkHex 2 (-1) (-1) (-1)]).
  vm_compute. reflexivity.
Defined.

Section StartTile.
Context {M : HexOps}.
Variables (goal : Hex) (getTile getTile' : Hex → option GridTile)
          (canTraverse : GridTile → bool).

Lemma visitNeighbor_closedSet current st d :
  closedSet (visitNeighbor goal getTile canTraverse current st d) = closedSet st.
Proof.
  unfold visitNeighbor. case_bool_decide; [done|].
  destruct (getTile _); [|done]. destruct (negb _); [done|].
  destruct (nodeMap st !! _); [|done]. by destruct (_ <? _).
Qed.

Lemma visitNeighbor_agree current st d :
  (∀ x, toString x ∉ closedSet st → getTile x = getTile' x) →
  visitNeighbor goal getTile canTraverse current st d
  = visitNeighbor goal getTile' canTraverse current st d.
Proof.
  intros Hagree. unfold visitNeighbor.
  case_bool_decide as Hcl; [done|]. by rewrite (Hagree _ Hcl).
Qed.

Lemma visitNeighbors_agree current ds st :
  (∀ x, toString x ∉ closedSet st → getTile x = getTile' x) →
  foldl (visitNeighbor goal getTile canTraverse current) st ds
  = foldl (visitNeighbor goal getTile' canTraverse current) st ds
  ∧ closedSet (foldl (visitNeighbor goal getTile canTraverse current) st ds)
    = closedSet st.
Proof.
  revert st. induction ds as [|d ds IH]; intros st Hagree; [done|].
  cbn [foldl]. rewrite <- (visitNeighbor_agree current st d Hagree).
  destruct (IH (visitNeighbor goal getTile canTraverse current st d)) as [Hsame Hcl].
  { intros x. rewrite visitNeighbor_closedSet. apply Hagree. }
  split; [done|]. by rewrite Hcl, visitNeighbor_closedSet.
Qed.

(** Two lookups that agree on the cells that are not closed drive the
    loop alike. *)
Lemma searchLoop_agree budget fuel st :
  (∀ x, toString x ∉ closedSet st → getTile x = getTile' x) →
  searchLoop budget fuel goal getTile canTraverse st
  = searchLoop budget fuel goal getTile' canTraverse st.
Proof.
  revert st. induction fuel as [|n IH]; intros st Hagree; [done|].
  rewrite !searchLoop_step.
  destruct (isEmpty (openSet st)); [done|].
  destruct (dequeue (openSet st)) as [[item rest]|]; [|done].
  destruct (nodeMap st !! toString item) as [current|]; [|done].
  destruct (equals (node_hex current) goal); [done|].
  set (st1 := {| openSet := rest;
                 closedSet := {[toString (node_hex current)]} ∪ closedSet st;
                 nodeMap := nodeMap st |}).
  assert (Hagree1 : ∀ x, toString x ∉ closedSet st1 → getTile x = getTile' x).
  { intros x Hx. apply Hagree. cbn [closedSet st1] in Hx. set_solver. }
  destruct (visitNeighbors_agree current (seq 0 6) st1 Hagree1) as [<- Hcl].
  apply IH. intros x. rewrite Hcl. apply Hagree1.
Qed.
End StartTile.

(** X21.  The tile of the start cell is never looked at.  Two lookups
    that agree on every cell but the start's give the same result: the
    start is closed before any neighbour is visited, and a closed cell is
    skipped before its tile is fetched.  A unit may stand on a cell
    without tile, or on a blocked one, and still find its way. *)
Theorem findPath_ignores_start_tile {M : HexOps}
    (fuel : nat) (start goal : Hex)
    (getTile getTile' : Hex → option GridTile) (canTraverse : GridTile → bool) :
  (∀ x, toString x ≠ toString start → getTile x = getTile' x) →
  findPath fuel start goal getTile canTraverse
  = findPath fuel start goal getTile' canTraverse.
Proof.
  intros Hagree. unfold findPath.
  generalize fuel at 1 3. intros budget.
  destruct fuel as [|n]; [done|].
  rewrite !searchLoop_step.
  unfold startState. cbn [openSet nodeMap closedSet enqueue isEmpty dequeue].
  rewrite lookup_singleton_eq. cbn [node_hex].
  destruct (equals start goal); [done|].
  match goal with
  | |- searchLoop _ _ _ _ _ (foldl _ ?s _) = _ => set (st1 := s)
  end.
  assert (Hagree1 : ∀ x, toString x ∉ closedSet st1 → getTile x = getTile' x).
  { intros x Hx. apply Hagree. cbn [closedSet st1] in Hx. set_solver. }
  destruct (visitNeighbors_agree goal getTile getTile' canTraverse
              {| node_hex := start; g := 0; h := distance start goal;
                 f := distance start goal; parent := None |}
              (seq 0 6) st1 Hagree1) as [<- Hcl].
  apply searchLoop_agree. intros x. rewrite Hcl. apply Hagree1.
Qed.

(** The ring around the origin with the start cell blocked: the path to a
    neighbour is the one found on the ring without blocked cells. *)
Lemma findPath_ignores_start_tile_witness :
  @findPath Cube.cubeHex 9 (Cube.mkHex 0 0 0 1) (Cube.mkHex 1 0 (-1) 2)
    (Cube.listBoard Cube.ring1 [(0, 0, 0)]) defaultCanTraverse
  = @findPath Cube.cubeHex 9 (Cube.mkHex 0 0 0 1) (Cube.mkHex 1 0 (-1) 2)
      (Cube.listBoard Cube.ring1 []) defaultCanTraverse.
Proof.
  apply (@findPath_ignores_start_tile Cube.cubeHex).
  intros x Hx. change (Cube.cube_key x ≠ (0, 0, 0)) in Hx.
  unfold Cube.listBoard. case_bool_decide as Hcell; [|done].
  rewrite bool_decide_eq_false_2.
  - by rewrite bool_decide_eq_false_2 by apply not_elem_of_nil.
  - intros Hin. apply list_elem_of_singleton in Hin. done.
Defined.
(** * Shortest paths *)

(** What the optimality of the search relies on besides [HexLaws]: a
    cell is at distance 0 from itself, and one move changes the distance
    to any cell by at most 1 (the heuristic of the search is
    consistent). *)
Class HexMetric (M : HexOps) : Prop := {
  distance_self : ∀ a : Hex, distance a a = 0;
  distance_step : ∀ (a b : Hex) (d : nat), (d < 6)%nat →
    distance a b ≤ distance (neighbor a d) b + 1;
}.

Lemma cube_metric : HexMetric Cube.cubeHex.
Proof.
  split.
  - intros [q r s i]. cbn. unfold Cube.cube_distance. cbn.
    rewrite !Z.sub_diag. reflexivity.
  - intros [q r s i] [q' r' s' i'] d Hd. cbn.
    unfold Cube.cube_distance, Cube.cube_neighbor.
    do 6 (destruct d as [|d]; [cbn; Z.div_mod_to_equations; lia|]).
    lia.
Qed.

(** ** The open set as a sorted queue *)

Section SortedQueue.
Context {T : Type}.
Implicit Types (q : PriorityQueue T) (x y : T) (p : Z).

(** Every entry is followed by entries of no lower priority. *)
Fixpoint sortedQueue q : Prop :=
  match q with
  | [] => True
  | e :: q' => (∀ e', e' ∈ q' → e.2 ≤ e'.2) ∧ sortedQueue q'
  end.

Lemma enqueue_sorted x p q : sortedQueue q → sortedQueue (enqueue x p q).
Proof.
  induction q as [|[y py] q IH]; cbn [enqueue sortedQueue].
  - intros _. split; [|done]. intros e He. by apply elem_of_nil in He.
  - intros [Hhead Htail]. destruct (p <? py) eqn:Hlt; cbn [sortedQueue].
    + apply Z.ltb_lt in Hlt. split; [|done].
      intros e He. apply elem_of_cons in He as [->|He]; cbn [snd]; [lia|].
      specialize (Hhead e He). cbn [snd] in Hhead. lia.
    + apply Z.ltb_ge in Hlt. split; [|by apply IH].
      intros e He. apply enqueue_elem in He as [->|He]; cbn [snd]; [lia|].
      by apply Hhead.
Qed.

Lemma removeEntry_sorted (found : T → bool) q :
  sortedQueue q → sortedQueue (removeEntry found q).
Proof.
  induction q as [|[y py] q IH]; cbn [removeEntry sortedQueue]; [done|].
  intros [Hhead Htail]. destruct (found y); [done|].
  cbn [sortedQueue]. split; [|by apply IH].
  intros e He. apply Hhead. by eapply removeEntry_elem.
Qed.

Lemma removeEntry_keeps (found : T → bool) q (e : T * Z) :
  e ∈ q → found e.1 = false → e ∈ removeEntry found q.
Proof.
  induction q as [|[y py] q IH]; [done|].
  cbn [removeEntry]. rewrite elem_of_cons. intros [->|He] Hf.
  - cbn [fst] in Hf. rewrite Hf. apply elem_of_cons. by left.
  - destruct (found y); [done|]. apply elem_of_cons. right. by apply IH.
Qed.
End SortedQueue.

Section QueueKeys.
Context {M : HexOps} {L : HexLaws M}.

(** The key of the hex of an entry. *)
Definition keyOf (e : Hex * Z) : HexKey := toString e.1.

Lemma enqueue_keys (x : Hex) (p : Z) (q : PriorityQueue Hex) :
  map keyOf (enqueue x p q) ≡ₚ toString x :: map keyOf q.
Proof.
  induction q as [|[y py] q IH]; cbn [enqueue]; [done|].
  destruct (p <? py); [done|].
  cbn [map]. rewrite IH. apply Permutation_swap.
Qed.

Lemma elem_of_keys (q : PriorityQueue Hex) (k : HexKey) :
  k ∈ map keyOf q ↔ ∃ x p, (x, p) ∈ q ∧ toString x = k.
Proof.
  rewrite list_elem_of_fmap. split.
  - intros ([x p] & -> & He). by exists x, p.
  - intros (x & p & He & <-). by exists (x, p).
Qed.

(** Removing the entry of a key from a queue without repeated keys. *)
Lemma removeEntry_keys (item : Hex) (q : PriorityQueue Hex) :
  NoDup (map keyOf q) → toString item ∈ map keyOf q →
  existsb (λ e, equals e.1 item) q = true
  ∧ toString item :: map keyOf (removeEntry (λ y, equals y item) q) ≡ₚ map keyOf q.
Proof.
  induction q as [|[y py] q IH]; intros Hnd Hin.
  - by apply elem_of_nil in Hin.
  - cbn [map] in Hnd, Hin. apply NoDup_cons in Hnd as [Hy Hnd].
    cbn [existsb removeEntry fst].
    destruct (equals y item) eqn:Heq.
    + split; [done|]. apply equals_toString in Heq. cbn [map].
      unfold keyOf at 2. cbn [fst]. by rewrite Heq.
    + assert (Hne : toString y ≠ toString item).
      { intros Hk. apply equals_toString in Hk. congruence. }
      apply elem_of_cons in Hin as [Hin|Hin]; [by destruct Hne|].
      destruct (IH Hnd Hin) as [Hex Hperm]. split; [done|].
      cbn [map]. rewrite Permutation_swap. by rewrite Hperm.
Qed.
End QueueKeys.

Section AStar.
Context {M : HexOps} {L : HexLaws M} {R : HexMetric M}.
Variables (start goal : Hex) (getTile : Hex → option GridTile)
          (canTraverse : GridTile → bool).
Hypothesis respects : ∀ x y : Hex, toString x = toString y →
  traversable getTile canTraverse x = traversable getTile canTraverse y.

(** The invariant of the search.  Besides [SearchInv]: the costs of a
    node are those of a walk from the start to its cell; the open set is
    a sorted queue that holds, once and under its current priority, every
    node that is not closed; a closed node is not on the goal, its cost is
    that of a shortest walk, and the neighbours visited from it ([done])
    have nodes that cost at most one more. *)
Record AStarInv (done : HexKey → nat → Prop) (st : SearchState) : Prop := {
  as_search : SearchInv start st;
  as_h : ∀ k nd, nodeMap st !! k = Some nd →
    h nd = distance (node_hex nd) goal ∧ f nd = g nd + h nd;
  as_real : ∀ k nd, nodeMap st !! k = Some nd →
    ∃ n x, Z.of_nat n = g nd ∧ reachableIn getTile canTraverse start n x
           ∧ toString x = k;
  as_entered : ∀ k nd, nodeMap st !! k = Some nd → parent nd ≠ None →
    traversable getTile canTraverse (node_hex nd) = true;
  as_start : ∃ nd, nodeMap st !! toString start = Some nd ∧ g nd = 0;
  as_open : ∀ x p, (x, p) ∈ openSet st →
    ∃ nd, nodeMap st !! toString x = Some nd ∧ p = f nd
          ∧ toString x ∉ closedSet st;
  as_keys : NoDup (map keyOf (openSet st));
  as_sorted : sortedQueue (openSet st);
  as_partition : ∀ k, is_Some (nodeMap st !! k) → k ∉ closedSet st →
    ∃ x p, (x, p) ∈ openSet st ∧ toString x = k;
  as_closed : ∀ k, k ∈ closedSet st →
    ∃ nd, nodeMap st !! k = Some nd ∧ equals (node_hex nd) goal = false
          ∧ ∀ n x, reachableIn getTile canTraverse start n x → toString x = k →
                   g nd ≤ Z.of_nat n;
  as_expanded : ∀ k nd d, k ∈ closedSet st → nodeMap st !! k = Some nd →
    (d < 6)%nat → done k d →
    traversable getTile canTraverse (neighbor (node_hex nd) d) = true →
    ∃ nd', nodeMap st !! toString (neighbor (node_hex nd) d) = Some nd'
           ∧ g nd' ≤ g nd + 1;
  as_bound : ∀ k nd, nodeMap st !! k = Some nd →
    g nd ≤ Z.of_nat (size (closedSet st));
}.

Lemma AStarInv_weaken (done done' : HexKey → nat → Prop) st :
  (∀ k d, (d < 6)%nat → done' k d → done k d) →
  AStarInv done st → AStarInv done' st.
Proof.
  intros Himp Hinv. split; try apply Hinv.
  intros k nd d Hk Hnd Hd Hdone. apply (as_expanded _ _ Hinv k nd d); auto.
Qed.

Lemma startState_astar : AStarInv (λ _ _, True) (startState start goal).
Proof.
  split.
  - apply startState_inv.
  - intros k nd. unfold startState. cbn [nodeMap].
    intros Hl. apply lookup_singleton_Some in Hl as [_ <-]. cbn. split; [done|lia].
  - intros k nd. unfold startState. cbn [nodeMap].
    intros Hl. apply lookup_singleton_Some in Hl as [<- <-]. cbn.
    exists 0%nat, start. split; [done|]. split; [constructor|done].
  - intros k nd. unfold startState. cbn [nodeMap].
    intros Hl. apply lookup_singleton_Some in Hl as [_ <-]. cbn. done.
  - unfold startState. cbn [nodeMap]. rewrite lookup_singleton_eq. eauto.
  - intros x p. unfold startState. cbn [openSet nodeMap closedSet enqueue].
    rewrite list_elem_of_singleton. intros [= -> ->].
    rewrite lookup_singleton_eq. eexists. split; [done|]. split; [done|].
    apply not_elem_of_empty.
  - unfold startState. cbn [openSet enqueue map]. apply NoDup_singleton.
  - unfold startState. cbn [openSet enqueue sortedQueue]. split; [|done].
    intros e He. by apply elem_of_nil in He.
  - intros k [nd Hnd] _. unfold startState in *. cbn [nodeMap openSet enqueue] in *.
    apply lookup_singleton_Some in Hnd as [<- _].
    eexists _, _. split; [apply list_elem_of_singleton; reflexivity|done].
  - intros k Hk. unfold startState in Hk. cbn [closedSet] in Hk.
    by apply elem_of_empty in Hk.
  - intros k nd d Hk. unfold startState in Hk. cbn [closedSet] in Hk.
    by apply elem_of_empty in Hk.
  - intros k nd. unfold startState. cbn [nodeMap closedSet].
    intros Hl. apply lookup_singleton_Some in Hl as [_ <-]. cbn. lia.
Qed.

(** The walk to a neighbour of a node. *)
Lemma neighbor_real st done current d :
  AStarInv done st → (d < 6)%nat →
  nodeMap st !! toString (node_hex current) = Some current →
  traversable getTile canTraverse (neighbor (node_hex current) d) = true →
  ∃ n x, Z.of_nat n = g current + 1 ∧ reachableIn getTile canTraverse start n x
         ∧ toString x = toString (neighbor (node_hex current) d).
Proof.
  intros Hinv Hd Hcur Htrav.
  destruct (as_real _ _ Hinv _ _ Hcur) as (n & x & Hn & Hreach & Hk).
  exists (S n), (neighbor x d). split; [lia|]. split.
  - constructor; [done|done|].
    by rewrite (respects _ _ (neighbor_toString x (node_hex current) d Hk)).
  - by apply neighbor_toString.
Qed.

(** A visit that leaves the state alone, after making sure that the
    neighbour has a node that costs at most one more. *)
Lemma astar_visited st done current d :
  AStarInv done st →
  nodeMap st !! toString (node_hex current) = Some current →
  (traversable getTile canTraverse (neighbor (node_hex current) d) = true →
   ∃ nd', nodeMap st !! toString (neighbor (node_hex current) d) = Some nd'
          ∧ g nd' ≤ g current + 1) →
  AStarInv (λ k d', done k d' ∨ (k = toString (node_hex current) ∧ d' = d)) st.
Proof.
  intros Hinv Hcur Hnb. split; try apply Hinv.
  intros k nd d' Hk Hnd Hd [Hdone|[-> ->]] Htrav.
  - by apply (as_expanded _ _ Hinv k nd d').
  - rewrite Hcur in Hnd. injection Hnd as <-. by apply Hnb.
Qed.

(** A visit that puts the node [new] on the neighbour's cell: a node
    that was missing, or one that improves on the node of the cell. *)
Lemma astar_update st done current d new q' :
  AStarInv done st → (d < 6)%nat →
  nodeMap st !! toString (node_hex current) = Some current →
  toString (node_hex current) ∈ closedSet st →
  g current + 1 ≤ Z.of_nat (size (closedSet st)) →
  let nb := neighbor (node_hex current) d in
  let st' := {| openSet := q'; closedSet := closedSet st;
                nodeMap := <[toString nb := new]> (nodeMap st) |} in
  traversable getTile canTraverse nb = true →
  toString nb ∉ closedSet st →
  toString (node_hex new) = toString nb →
  g new = g current + 1 → h new = distance (node_hex new) goal →
  f new = g new + h new → parent new = Some (toString (node_hex current)) →
  (∀ old, nodeMap st !! toString nb = Some old → g new < g old) →
  SearchInv start st' →
  sortedQueue q' → NoDup (map keyOf q') →
  (∀ x p, (x, p) ∈ q' →
     (toString x = toString nb ∧ p = f new)
     ∨ ((x, p) ∈ openSet st ∧ toString x ≠ toString nb)) →
  (∃ x p, (x, p) ∈ q' ∧ toString x = toString nb) →
  (∀ x p, (x, p) ∈ openSet st → toString x ≠ toString nb → (x, p) ∈ q') →
  AStarInv (λ k d', done k d' ∨ (k = toString (node_hex current) ∧ d' = d)) st'.
Proof.
  intros Hinv Hd Hcur Hclosed Hsize nb st' Htrav Hopen Hkey Hg Hh Hf Hparent Hbetter
    Hsearch Hsorted Hnodup Hold Hnew Hkeep.
  pose proof (inv_g _ _ (as_search _ _ Hinv) _ _ Hcur) as Hgcur.
  assert (Hlook : ∀ k, k ≠ toString nb → nodeMap st' !! k = nodeMap st !! k).
  { intros k Hk. cbn [nodeMap st']. by apply lookup_insert_ne. }
  assert (Hlooknew : nodeMap st' !! toString nb = Some new).
  { cbn [nodeMap st']. apply lookup_insert_eq. }
  assert (Hclosed_ne : ∀ k, k ∈ closedSet st → k ≠ toString nb) by congruence.
  split.
  - exact Hsearch.
  - intros k nd Hnd. destruct (decide (k = toString nb)) as [->|Hne].
    + rewrite Hlooknew in Hnd. injection Hnd as <-. done.
    + rewrite Hlook in Hnd by done. by eapply as_h.
  - intros k nd Hnd. destruct (decide (k = toString nb)) as [->|Hne].
    + rewrite Hlooknew in Hnd. injection Hnd as <-. rewrite Hg.
      by apply (neighbor_real st done).
    + rewrite Hlook in Hnd by done. by eapply as_real.
  - intros k nd Hnd Hp. destruct (decide (k = toString nb)) as [->|Hne].
    + rewrite Hlooknew in Hnd. injection Hnd as <-.
      by rewrite (respects _ _ Hkey).
    + rewrite Hlook in Hnd by done. by eapply as_entered.
  - destruct (as_start _ _ Hinv) as (nd0 & Hnd0 & Hg0).
    exists nd0. split; [|done]. rewrite Hlook; [done|].
    intros Hk. rewrite Hk in Hnd0. specialize (Hbetter _ Hnd0). lia.
  - intros x p Hx. cbn [openSet st'] in Hx.
    destruct (Hold x p Hx) as [[Hk ->]|[Hx' Hne]].
    + rewrite Hk. exists new. by rewrite Hlooknew.
    + destruct (as_open _ _ Hinv x p Hx') as (nd & Hnd & Hp & Hcl).
      exists nd. by rewrite Hlook.
  - exact Hnodup.
  - exact Hsorted.
  - intros k Hsome Hcl. cbn [openSet st' closedSet] in *.
    destruct (decide (k = toString nb)) as [->|Hne]; [done|].
    rewrite Hlook in Hsome by done.
    destruct (as_partition _ _ Hinv k Hsome Hcl) as (x & p & Hx & Hk).
    exists x, p. split; [|done]. apply Hkeep; [done|congruence].
  - intros k Hk. cbn [closedSet st'] in Hk.
    rewrite Hlook by auto. by apply (as_closed _ _ Hinv).
  - intros k nd d' Hk Hnd Hd' Hdone Htravd. cbn [closedSet st'] in Hk.
    rewrite Hlook in Hnd by auto.
    assert (Hsome : ∃ nd', nodeMap st !! toString (neighbor (node_hex nd) d') = Some nd'
                           ∧ g nd' ≤ g nd + 1
              ∨ toString (neighbor (node_hex nd) d') = toString nb ∧ g new ≤ g nd + 1).
    { destruct Hdone as [Hdone|[-> ->]].
      - destruct (as_expanded _ _ Hinv k nd d' Hk Hnd Hd' Hdone Htravd) as (nd' & ? & ?).
        exists nd'. by left.
      - rewrite Hcur in Hnd. injection Hnd as <-. exists new. right. split; [done|lia]. }
    destruct Hsome as (nd' & [[Hnd' Hle]|[Hk' Hle]]).
    + destruct (decide (toString (neighbor (node_hex nd) d') = toString nb)) as [Heq|Hne].
      * rewrite Heq, Hlooknew. exists new. split; [done|].
        rewrite Heq in Hnd'. specialize (Hbetter _ Hnd'). lia.
      * rewrite Hlook by done. by exists nd'.
    + rewrite Hk', Hlooknew. by exists new.
  - intros k nd Hnd. cbn [closedSet st'].
    destruct (decide (k = toString nb)) as [->|Hne].
    + rewrite Hlooknew in Hnd. injection Hnd as <-. lia.
    + rewrite Hlook in Hnd by done. by eapply as_bound.
Qed.
End AStar.

Section AStarLoop.
Context {M : HexOps} {L : HexLaws M} {R : HexMetric M}.
Variables (start goal : Hex) (getTile : Hex → option GridTile)
          (canTraverse : GridTile → bool).
Hypothesis respects : ∀ x y : Hex, toString x = toString y →
  traversable getTile canTraverse x = traversable getTile canTraverse y.



(** One visit of a neighbour. *)
Lemma visitNeighbor_astar done current st d :
  AStarInv start goal getTile canTraverse done st → (d < 6)%nat →
  nodeMap st !! toString (node_hex current) = Some current →
  toString (node_hex current) ∈ closedSet st →
  g current + 1 ≤ Z.of_nat (size (closedSet st)) →
  AStarInv start goal getTile canTraverse (λ k d', done k d' ∨ (k = toString (node_hex current) ∧ d' = d))
    (visitNeighbor goal getTile canTraverse current st d).
Proof.
  intros Hinv Hd Hcur Hclosed Hsize.
  pose proof (visitNeighbor_inv start goal getTile canTraverse current st d
                (as_search _ _ _ _ _ _ Hinv) Hd Hcur Hclosed) as Hsearch.
  unfold visitNeighbor in *.
  set (nb := neighbor (node_hex current) d) in *.
  case_bool_decide as Hcl.
  { (* the neighbour is closed *)
    apply astar_visited; [done|done|]. intros Htrav.
    destruct (as_closed _ _ _ _ _ _ Hinv _ Hcl) as (nd' & Hnd' & _ & Hopt).
    exists nd'. split; [done|].
    destruct (neighbor_real start goal getTile canTraverse respects st done current d
                Hinv Hd Hcur Htrav) as (n & x & Hn & Hreach & Hk).
    specialize (Hopt n x Hreach Hk). lia. }
  destruct (getTile nb) as [tile|] eqn:Htile;
    [|apply astar_visited; [done|done|];
      unfold traversable; fold nb; by rewrite Htile].
  destruct (canTraverse tile) eqn:Hct; cbn [negb] in *;
    [|apply astar_visited; [done|done|];
      unfold traversable; fold nb; by rewrite Htile, Hct].
  assert (Htrav : traversable getTile canTraverse nb = true)
    by (unfold traversable; by rewrite Htile).
  destruct (nodeMap st !! toString nb) as [old|] eqn:Hold.
  - destruct (g current + 1 <? g old) eqn:Hlt.
    + (* a cheaper way to a known cell *)
      apply Z.ltb_lt in Hlt. cbn [node_hex f] in *.
      pose proof (inv_key _ _ (as_search _ _ _ _ _ _ Hinv) _ _ Hold) as Hkold.
      destruct (as_h _ _ _ _ _ _ Hinv _ _ Hold) as [Hhold _].
      destruct (as_partition _ _ _ _ _ _ Hinv (toString nb) ltac:(by eexists) Hcl)
        as (x0 & p0 & Hx0 & Hk0).
      assert (Hin : toString (node_hex old) ∈ map keyOf (openSet st)).
      { apply elem_of_keys. exists x0, p0. split; [done|congruence]. }
      destruct (removeEntry_keys (node_hex old) (openSet st)
                  (as_keys _ _ _ _ _ _ Hinv) Hin) as [Hex Hperm].
      assert (Hrest : ∀ e, e ∈ removeEntry (λ y, equals y (node_hex old)) (openSet st) →
                e ∈ openSet st ∧ toString e.1 ≠ toString nb).
      { intros e He. split; [by eapply removeEntry_elem|].
        intros Hk.
        assert (Hnd : NoDup (toString (node_hex old)
                             :: map keyOf (removeEntry (λ y, equals y (node_hex old))
                                             (openSet st)))).
        { rewrite Hperm. apply (as_keys _ _ _ _ _ _ Hinv). }
        apply NoDup_cons in Hnd as [Hnot _]. apply Hnot.
        apply list_elem_of_fmap. exists e. split; [|done].
        unfold keyOf. congruence. }
      unfold updatePriority. rewrite Hex.
      apply (astar_update start goal getTile canTraverse respects st done current d);
        try done.
      * intros old' Hold'. fold nb in Hold'. rewrite Hold in Hold'.
        injection Hold' as <-. cbn. lia.
      * unfold updatePriority in Hsearch. by rewrite Hex in Hsearch.
      * apply enqueue_sorted, removeEntry_sorted, (as_sorted _ _ _ _ _ _ Hinv).
      * rewrite enqueue_keys, Hperm.
        apply (as_keys _ _ _ _ _ _ Hinv).
      * intros x p Hx. apply enqueue_elem in Hx as [[= -> ->]|Hx].
        -- left. done.
        -- right. apply (Hrest (x, p) Hx).
      * eexists _, _. split; [apply enqueue_elem; by left|done].
      * intros x p Hx Hne. apply enqueue_elem. right.
        apply removeEntry_keeps; [done|]. cbn [fst].
        destruct (equals x (node_hex old)) eqn:Heq; [|done].
        apply equals_toString in Heq. destruct Hne. rewrite Heq. exact Hkold.
    + (* no improvement *)
      apply Z.ltb_ge in Hlt.
      apply astar_visited; [done|done|]. intros _. fold nb. by exists old.
  - (* a cell met for the first time *)
    cbn [f] in *.
    assert (Hfresh : toString nb ∉ map keyOf (openSet st)).
    { intros Hin. apply elem_of_keys in Hin as (x & p & Hx & Hk).
      destruct (as_open _ _ _ _ _ _ Hinv x p Hx) as (nd & Hnd & _).
      rewrite Hk in Hnd. congruence. }
    apply (astar_update start goal getTile canTraverse respects st done current d);
      try done.
    + intros old Hold'. fold nb in Hold'. congruence.
    + by apply enqueue_sorted, (as_sorted _ _ _ _ _ _ Hinv).
    + rewrite enqueue_keys. apply NoDup_cons. split; [done|].
      apply (as_keys _ _ _ _ _ _ Hinv).
    + intros x p Hx. apply enqueue_elem in Hx as [[= -> ->]|Hx].
      * left. done.
      * right. split; [done|]. intros Hk. apply Hfresh.
        apply elem_of_keys. by exists x, p.
    + eexists _, _. split; [apply enqueue_elem; by left|done].
    + intros x p Hx _. apply enqueue_elem. by right.
Qed.

Lemma visitNeighbors_astar current ds pre st :
  Forall (λ d, d < 6)%nat ds →
  nodeMap st !! toString (node_hex current) = Some current →
  toString (node_hex current) ∈ closedSet st →
  g current + 1 ≤ Z.of_nat (size (closedSet st)) →
  AStarInv start goal getTile canTraverse (λ k d, k ≠ toString (node_hex current) ∨ d ∈ pre) st →
  AStarInv start goal getTile canTraverse (λ k d, k ≠ toString (node_hex current) ∨ d ∈ pre ++ ds)
    (foldl (visitNeighbor goal getTile canTraverse current) st ds).
Proof.
  revert pre st. induction ds as [|d ds IH]; intros pre st Hds Hcur Hcl Hsize Hinv.
  - by rewrite app_nil_r.
  - inversion Hds; subst. cbn [foldl].
    destruct (visitNeighbor_closed goal getTile canTraverse current st d _ Hcl)
      as [Hsame Hclosed].
    replace (pre ++ d :: ds) with ((pre ++ [d]) ++ ds) by by rewrite <- app_assoc.
    apply IH; try done.
    + by rewrite Hsame.
    + by rewrite Hclosed.
    + by rewrite Hclosed.
    + eapply AStarInv_weaken; [|by apply visitNeighbor_astar].
      cbn. intros k d' _ [Hk|Hd']; [left; by left|].
      apply elem_of_app in Hd' as [Hd'|Hd']; [left; by right|].
      apply list_elem_of_singleton in Hd' as ->.
      destruct (decide (k = toString (node_hex current))); [by right|left; by left].
Qed.

(** Every cell a walk reaches is closed, or the walk passes an open node
    whose priority is at most the length of the walk plus the distance
    that is left. *)
Lemma astar_frontier st n x :
  AStarInv start goal getTile canTraverse (λ _ _, True) st →
  reachableIn getTile canTraverse start n x →
  toString x ∈ closedSet st
  ∨ ∃ y q, (y, q) ∈ openSet st ∧ q ≤ Z.of_nat n + distance x goal.
Proof.
  intros Hinv Hreach. induction Hreach as [|n x d Hprev IH Hd Htrav].
  - destruct (decide (toString start ∈ closedSet st)) as [Hcl|Hop]; [by left|].
    right. destruct (as_start _ _ _ _ _ _ Hinv) as (nd0 & Hnd0 & Hg0).
    destruct (as_partition _ _ _ _ _ _ Hinv _ ltac:(by eexists) Hop)
      as (y & q & Hy & Hk).
    exists y, q. split; [done|].
    destruct (as_open _ _ _ _ _ _ Hinv y q Hy) as (nd & Hnd & -> & _).
    rewrite Hk, Hnd0 in Hnd. injection Hnd as <-.
    destruct (as_h _ _ _ _ _ _ Hinv _ _ Hnd0) as [Hh ->]. rewrite Hh, Hg0.
    rewrite (distance_toString (node_hex nd0) start goal goal); [lia| |done].
    apply (inv_key _ _ (as_search _ _ _ _ _ _ Hinv) _ _ Hnd0).
  - destruct IH as [Hcl|(y & q & Hy & Hq)].
    + destruct (as_closed _ _ _ _ _ _ Hinv _ Hcl) as (ndx & Hndx & _ & Hopt).
      specialize (Hopt n x Hprev eq_refl).
      pose proof (inv_key _ _ (as_search _ _ _ _ _ _ Hinv) _ _ Hndx) as Hkx.
      pose proof (neighbor_toString (node_hex ndx) x d Hkx) as Hknb.
      destruct (as_expanded _ _ _ _ _ _ Hinv _ ndx d Hcl Hndx Hd I) as (nd' & Hnd' & Hle).
      { by rewrite (respects _ _ Hknb). }
      rewrite Hknb in Hnd'.
      destruct (decide (toString (neighbor x d) ∈ closedSet st)) as [Hcl'|Hop];
        [by left|].
      right.
      destruct (as_partition _ _ _ _ _ _ Hinv _ ltac:(by eexists) Hop)
        as (y & q & Hy & Hk).
      exists y, q. split; [done|].
      destruct (as_open _ _ _ _ _ _ Hinv y q Hy) as (nd & Hnd & -> & _).
      rewrite Hk, Hnd' in Hnd. injection Hnd as <-.
      destruct (as_h _ _ _ _ _ _ Hinv _ _ Hnd') as [Hh ->]. rewrite Hh.
      rewrite (distance_toString (node_hex nd') (neighbor x d) goal goal); [lia| |done].
      apply (inv_key _ _ (as_search _ _ _ _ _ _ Hinv) _ _ Hnd').
    + right. exists y, q. split; [done|].
      pose proof (distance_step x goal d Hd). lia.
Qed.

(** The node taken from the open set has the cost of a shortest walk. *)
Lemma astar_dequeue st item rest :
  AStarInv start goal getTile canTraverse (λ _ _, True) st →
  dequeue (openSet st) = Some (item, rest) →
  ∃ current,
    nodeMap st !! toString item = Some current
    ∧ toString (node_hex current) = toString item
    ∧ toString item ∉ closedSet st
    ∧ ∀ n x, reachableIn getTile canTraverse start n x → toString x = toString item →
             g current ≤ Z.of_nat n.
Proof.
  intros Hinv Hdq.
  destruct (openSet st) as [|[y p] q] eqn:Hopen; [done|].
  cbn in Hdq. injection Hdq as -> ->.
  assert (Hitem : (item, p) ∈ openSet st) by (rewrite Hopen; apply elem_of_cons; by left).
  destruct (as_open _ _ _ _ _ _ Hinv item p Hitem) as (current & Hcur & Hp & Hcl).
  exists current. split; [done|].
  pose proof (inv_key _ _ (as_search _ _ _ _ _ _ Hinv) _ _ Hcur) as Hkey.
  split; [done|]. split; [done|].
  intros n x Hreach Hk.
  destruct (astar_frontier st n x Hinv Hreach) as [Hclosed|(y & q & Hy & Hq)].
  { by rewrite Hk in Hclosed. }
  assert (Hmin : p ≤ q).
  { pose proof (as_sorted _ _ _ _ _ _ Hinv) as Hsorted.
    rewrite Hopen in Hsorted, Hy. cbn [sortedQueue] in Hsorted.
    destruct Hsorted as [Hhead _].
    apply elem_of_cons in Hy as [[= _ ->]|Hy]; [lia|].
    apply (Hhead (y, q) Hy). }
  destruct (as_h _ _ _ _ _ _ Hinv _ _ Hcur) as [Hh Hf].
  rewrite Hp, Hf, Hh in Hmin.
  rewrite (distance_toString (node_hex current) x goal goal) in Hmin; [lia| |done].
  congruence.
Qed.

(** Closing the node taken from the open set. *)
Lemma astar_close st item rest current :
  AStarInv start goal getTile canTraverse (λ _ _, True) st →
  dequeue (openSet st) = Some (item, rest) →
  nodeMap st !! toString item = Some current →
  equals (node_hex current) goal = false →
  let st1 := {| openSet := rest;
                closedSet := {[toString (node_hex current)]} ∪ closedSet st;
                nodeMap := nodeMap st |} in
  AStarInv start goal getTile canTraverse (λ k d, k ≠ toString (node_hex current) ∨ d ∈ @nil nat) st1
  ∧ g current + 1 ≤ Z.of_nat (size (closedSet st1)).
Proof.
  intros Hinv Hdq Hcur Hgoal st1.
  destruct (astar_dequeue st item rest Hinv Hdq) as (current' & Hcur' & Hkey & Hcl & Hopt).
  rewrite Hcur in Hcur'. injection Hcur' as <-.
  destruct (openSet st) as [|[y p] q] eqn:Hopen; [done|].
  cbn in Hdq. injection Hdq as -> ->.
  pose proof (as_keys _ _ _ _ _ _ Hinv) as Hnodup.
  rewrite Hopen in Hnodup. cbn [map] in Hnodup.
  apply NoDup_cons in Hnodup as [Hhead Hnodup].
  assert (Hrest : ∀ e, e ∈ rest → e ∈ openSet st ∧ toString e.1 ≠ toString item).
  { intros e He. split; [rewrite Hopen; apply elem_of_cons; by right|].
    intros Hk. apply Hhead. apply list_elem_of_fmap. by exists e. }
  assert (Hsize : size (closedSet st1) = S (size (closedSet st))).
  { cbn [closedSet st1].
    pose proof (size_union (A:=HexKey) (C:=gset HexKey)
                  {[toString (node_hex current)]} (closedSet st)) as Hu.
    rewrite Hu by (rewrite Hkey; set_solver).
    by rewrite (size_singleton (A:=HexKey) (C:=gset HexKey)). }
  split.
  - split.
    + apply closeNode_inv, Hinv.
    + apply (as_h _ _ _ _ _ _ Hinv).
    + apply (as_real _ _ _ _ _ _ Hinv).
    + apply (as_entered _ _ _ _ _ _ Hinv).
    + apply (as_start _ _ _ _ _ _ Hinv).
    + intros x p' Hx. cbn [openSet st1] in Hx.
      destruct (Hrest _ Hx) as [Hx' Hne]. cbn [fst] in Hne.
      destruct (as_open _ _ _ _ _ _ Hinv x p' Hx') as (nd & Hnd & Hp & Hcl').
      exists nd. split; [done|]. split; [done|]. cbn [closedSet st1].
      rewrite Hkey. set_solver.
    + exact Hnodup.
    + pose proof (as_sorted _ _ _ _ _ _ Hinv) as Hsorted.
      rewrite Hopen in Hsorted. apply Hsorted.
    + intros k Hsome Hnot. cbn [closedSet st1 nodeMap openSet] in *.
      destruct (as_partition _ _ _ _ _ _ Hinv k Hsome ltac:(set_solver))
        as (x & p' & Hx & Hk).
      exists x, p'. split; [|done].
      rewrite Hopen in Hx. apply elem_of_cons in Hx as [[= -> ->]|Hx]; [|done].
      rewrite <- Hkey in Hk. set_solver.
    + intros k Hk. cbn [closedSet st1 nodeMap] in *.
      apply elem_of_union in Hk as [Hk|Hk]; [|by apply (as_closed _ _ _ _ _ _ Hinv)].
      apply elem_of_singleton in Hk as ->. exists current.
      rewrite Hkey. split; [done|]. split; [done|]. exact Hopt.
    + intros k nd d Hk Hnd Hd [Hne|Hin] Htrav; [|by apply elem_of_nil in Hin].
      cbn [closedSet st1 nodeMap] in *.
      apply elem_of_union in Hk as [Hk|Hk]; [by apply elem_of_singleton in Hk|].
      by apply (as_expanded _ _ _ _ _ _ Hinv k nd d).
    + intros k nd Hnd. cbn [closedSet st1 nodeMap] in *.
      pose proof (as_bound _ _ _ _ _ _ Hinv _ _ Hnd). fold st1. lia.
  - pose proof (as_bound _ _ _ _ _ _ Hinv _ _ Hcur). lia.
Qed.

(** One full iteration that does not end the search. *)
Lemma astar_iteration st item rest current :
  AStarInv start goal getTile canTraverse (λ _ _, True) st →
  dequeue (openSet st) = Some (item, rest) →
  nodeMap st !! toString item = Some current →
  equals (node_hex current) goal = false →
  AStarInv start goal getTile canTraverse (λ _ _, True)
    (foldl (visitNeighbor goal getTile canTraverse current)
       {| openSet := rest;
          closedSet := {[toString (node_hex current)]} ∪ closedSet st;
          nodeMap := nodeMap st |} (seq 0 6)).
Proof.
  intros Hinv Hdq Hcur Hgoal.
  destruct (astar_close st item rest current Hinv Hdq Hcur Hgoal) as [Hinv1 Hsize].
  pose proof (inv_key _ _ (as_search _ _ _ _ _ _ Hinv) _ _ Hcur) as Hkey.
  eapply AStarInv_weaken;
    [|apply (visitNeighbors_astar current (seq 0 6) []); try done].
  - cbn beta. intros k d Hd _.
    destruct (decide (k = toString (node_hex current))); [right|by left].
    cbn [app]. apply elem_of_seq. lia.
  - apply directions_lt_6.
  - cbn [nodeMap]. by rewrite Hkey.
  - cbn [closedSet]. set_solver.
Qed.
End AStarLoop.

Section AStarResult.
Context {M : HexOps} {L : HexLaws M} {R : HexMetric M}.
Variables (start goal : Hex) (getTile : Hex → option GridTile)
          (canTraverse : GridTile → bool).
Hypothesis respects : ∀ x y : Hex, toString x = toString y →
  traversable getTile canTraverse x = traversable getTile canTraverse y.

(** The cells collected along the parent links of a node: as many as its
    cost plus one, no cell twice. *)
Lemma reconstructPath_chain st done fuel k nd acc path :
  AStarInv start goal getTile canTraverse done st →
  nodeMap st !! k = Some nd →
  reconstructPath fuel (nodeMap st) (Some k) acc = Some path →
  ∃ pre, path = pre ++ acc
    ∧ Z.of_nat (length pre) = g nd + 1
    ∧ NoDup (map toString pre)
    ∧ ∀ x, x ∈ pre → ∃ ndx, nodeMap st !! toString x = Some ndx ∧ g ndx ≤ g nd.
Proof.
  intros Hinv. pose proof (as_search _ _ _ _ _ _ Hinv) as Hsearch.
  revert k nd acc. induction fuel as [|n IH]; intros k nd acc Hnd Hrec; [done|].
  cbn [reconstructPath] in Hrec. rewrite Hnd in Hrec. cbn [mbind option_bind] in Hrec.
  pose proof (inv_key _ _ Hsearch _ _ Hnd) as Hkey.
  destruct (parent nd) as [pk|] eqn:Hp.
  - destruct (inv_parent _ _ Hsearch _ _ _ Hnd Hp) as (pnd & Hpnd & _ & Hg & _).
    destruct (IH pk pnd _ Hpnd Hrec) as (pre & -> & Hlen & Hnodup & Hall).
    exists (pre ++ [node_hex nd]). split; [by rewrite <- app_assoc|].
    split; [rewrite length_app; cbn [length]; lia|]. split.
    + rewrite map_app. cbn [map]. apply NoDup_app. split; [done|]. split.
      * intros key Hin Hlast. apply list_elem_of_singleton in Hlast as ->.
        apply list_elem_of_fmap in Hin as (x & Hk & Hx).
        destruct (Hall x Hx) as (ndx & Hndx & Hle).
        rewrite <- Hk, Hkey, Hnd in Hndx. injection Hndx as <-. lia.
      * apply NoDup_singleton.
    + intros x Hx. apply elem_of_app in Hx as [Hx|Hx].
      * destruct (Hall x Hx) as (ndx & Hndx & Hle). exists ndx. split; [done|lia].
      * apply list_elem_of_singleton in Hx as ->. exists nd. rewrite Hkey. split; [done|lia].
  - assert (path = node_hex nd :: acc) as ->.
    { destruct n; cbn [reconstructPath] in Hrec; by injection Hrec as <-. }
    assert (Hg : g nd = 0).
    { pose proof (inv_root _ _ Hsearch _ _ Hnd Hp) as Hroot.
      destruct (as_start _ _ _ _ _ _ Hinv) as (nd0 & Hnd0 & Hg0).
      rewrite <- Hroot, Hkey, Hnd in Hnd0. by injection Hnd0 as <-. }
    exists [node_hex nd]. split; [done|]. split; [cbn [length]; lia|].
    split; [apply NoDup_singleton|].
    intros x Hx. apply list_elem_of_singleton in Hx as ->. exists nd.
    rewrite Hkey. split; [done|lia].
Qed.

Lemma reconstructPath_enough st fuel k nd acc :
  SearchInv start st → nodeMap st !! k = Some nd →
  (Z.to_nat (g nd) < fuel)%nat →
  is_Some (reconstructPath fuel (nodeMap st) (Some k) acc).
Proof.
  intros Hsearch. revert k nd acc.
  induction fuel as [|n IH]; intros k nd acc Hnd Hfuel; [lia|].
  cbn [reconstructPath]. rewrite Hnd. cbn [mbind option_bind].
  destruct (parent nd) as [pk|] eqn:Hp.
  - destruct (inv_parent _ _ Hsearch _ _ _ Hnd Hp) as (pnd & Hpnd & _ & Hg & _).
    pose proof (inv_g _ _ Hsearch _ _ Hpnd).
    apply (IH pk pnd); [done|lia].
  - destruct n; cbn [reconstructPath]; eauto.
Qed.

Lemma equals_by_key (x y z : Hex) :
  toString x = toString y → equals x z = equals y z.
Proof.
  intros Hk. destruct (equals y z) eqn:Hy.
  - apply equals_toString. apply equals_toString in Hy. congruence.
  - destruct (equals x z) eqn:Hx; [|done].
    apply equals_toString in Hx.
    assert (equals y z = true) by (apply equals_toString; congruence). congruence.
Qed.

(** What the loop returns: a shortest walk to the goal, or nothing when
    no walk leads there. *)
Lemma searchLoop_astar budget fuel st r :
  AStarInv start goal getTile canTraverse (λ _ _, True) st →
  searchLoop budget fuel goal getTile canTraverse st = Some r →
  match r with
  | Some path =>
      NoDup (map toString path)
      ∧ (∃ n x, S n = length path ∧ reachableIn getTile canTraverse start n x
                ∧ equals x goal = true)
      ∧ (∀ n x, reachableIn getTile canTraverse start n x → equals x goal = true →
                (length path ≤ S n)%nat)
  | None => ∀ n x, reachableIn getTile canTraverse start n x → equals x goal = false
  end.
Proof.
  revert st. induction fuel as [|m IH]; intros st Hinv Hrun; [done|].
  rewrite searchLoop_step in Hrun.
  pose proof (as_search _ _ _ _ _ _ Hinv) as Hsearch.
  destruct (openSet st) as [|[item p] rest] eqn:Hopen.
  - cbn [isEmpty] in Hrun. injection Hrun as <-.
    intros n x Hreach.
    destruct (astar_frontier start goal getTile canTraverse respects st n x Hinv Hreach)
      as [Hcl|(y & q & Hy & _)]; [|rewrite Hopen in Hy; by apply elem_of_nil in Hy].
    destruct (as_closed _ _ _ _ _ _ Hinv _ Hcl) as (nd & Hnd & Hgoal & _).
    rewrite <- Hgoal. symmetry. apply equals_by_key.
    apply (inv_key _ _ Hsearch _ _ Hnd).
  - cbn [isEmpty] in Hrun.
    assert (Hdq : dequeue (openSet st) = Some (item, rest)) by by rewrite Hopen.
    rewrite <- Hopen, Hdq in Hrun.
    destruct (astar_dequeue start goal getTile canTraverse respects st item rest Hinv Hdq)
      as (current & Hcur & Hkey & Hcl & Hopt).
    rewrite Hcur in Hrun.
    destruct (equals (node_hex current) goal) eqn:Hgoal.
    + destruct (reconstructPath budget _ _ _) as [path|] eqn:Hrec; [|done].
      injection Hrun as <-.
      destruct (reconstructPath_chain st _ budget _ current [] path Hinv Hcur Hrec)
        as (pre & -> & Hlen & Hnodup & _).
      rewrite app_nil_r. split; [done|].
      destruct (as_real _ _ _ _ _ _ Hinv _ _ Hcur) as (n & x & Hn & Hreach & Hk).
      split.
      * exists n, x. split; [lia|]. split; [done|].
        rewrite <- Hgoal. apply equals_by_key. congruence.
      * intros n' x' Hreach' Hx'.
        assert (toString x' = toString item).
        { rewrite <- Hkey. apply equals_toString in Hx', Hgoal. congruence. }
        specialize (Hopt n' x' Hreach' H). lia.
    + apply IH in Hrun; [done|].
      by apply (astar_iteration start goal getTile canTraverse respects st item rest).
Qed.

(** On a board with finitely many traversable cells the loop returns. *)
Lemma searchLoop_total (board : gset HexKey) budget fuel st :
  (∀ x, traversable getTile canTraverse x = true → toString x ∈ board) →
  AStarInv start goal getTile canTraverse (λ _ _, True) st →
  (searchMeasure board st < fuel)%nat → (size board + 1 < budget)%nat →
  is_Some (searchLoop budget fuel goal getTile canTraverse st).
Proof.
  intros Hboard. revert st.
  induction fuel as [|m IH]; intros st Hinv Hfuel Hbudget; [lia|].
  rewrite searchLoop_step.
  pose proof (as_search _ _ _ _ _ _ Hinv) as Hsearch.
  destruct (openSet st) as [|[item p] rest] eqn:Hopen; [by eexists|].
  cbn [isEmpty].
  assert (Hdq : dequeue (openSet st) = Some (item, rest)) by by rewrite Hopen.
  rewrite <- Hopen, Hdq.
  destruct (astar_dequeue start goal getTile canTraverse respects st item rest Hinv Hdq)
    as (current & Hcur & Hkey & Hcl & Hopt).
  rewrite Hcur.
  destruct (equals (node_hex current) goal) eqn:Hgoal.
  - assert (Hclosed : closedSet st ⊆ {[toString start]} ∪ board).
    { intros k Hk.
      destruct (as_closed _ _ _ _ _ _ Hinv _ Hk) as (nd & Hnd & _).
      pose proof (inv_key _ _ Hsearch _ _ Hnd) as Hk'.
      destruct (parent nd) as [pk|] eqn:Hp.
      - apply elem_of_union_r. rewrite <- Hk'. apply Hboard.
        apply (as_entered _ _ _ _ _ _ Hinv _ _ Hnd). by rewrite Hp.
      - apply elem_of_union_l, elem_of_singleton.
        rewrite <- Hk'. f_equal. by apply (inv_root _ _ Hsearch _ _ Hnd). }
    assert (Hsize : (size (closedSet st) ≤ size board + 1)%nat).
    { pose proof (subseteq_size _ _ Hclosed) as Hsub.
      assert (Hsplit : {[toString start]} ∪ board
                       = {[toString start]} ∪ board ∖ {[toString start]}).
      { apply set_eq. intros k.
        rewrite !elem_of_union, elem_of_difference, elem_of_singleton.
        destruct (decide (k = toString start)); naive_solver. }
      rewrite Hsplit in Hsub.
      pose proof (size_union (A:=HexKey) (C:=gset HexKey) {[toString start]}
                    (board ∖ {[toString start]}) ltac:(set_solver)) as Hu.
      rewrite Hu, (size_singleton (A:=HexKey) (C:=gset HexKey)) in Hsub.
      pose proof (subseteq_size (board ∖ {[toString start]}) board ltac:(set_solver)).
      lia. }
    pose proof (as_bound _ _ _ _ _ _ Hinv _ _ Hcur) as Hg.
    destruct (reconstructPath_enough st budget (toString item) current [] Hsearch Hcur)
      as [path ->]; [lia|by eexists].
  - set (st1 := {| openSet := rest;
                   closedSet := {[toString (node_hex current)]} ∪ closedSet st;
                   nodeMap := nodeMap st |}).
    assert (Hopen0 : OpenInv st).
    { intros x q Hx. destruct (as_open _ _ _ _ _ _ Hinv x q Hx) as (nd & Hnd & _).
      by eexists. }
    assert (Hopen1 : OpenInv st1).
    { intros x q Hx. apply (Hopen0 x q). cbn [openSet st1] in Hx.
      rewrite Hopen. apply elem_of_cons. by right. }
    assert (Hcur1 : nodeMap st1 !! toString (node_hex current) = Some current).
    { cbn [nodeMap st1]. by rewrite Hkey. }
    assert (Hcl1 : toString (node_hex current) ∈ closedSet st1).
    { cbn [closedSet st1]. apply elem_of_union_l, elem_of_singleton_2. reflexivity. }
    destruct (visitNeighbors_progress goal getTile canTraverse board start current
                (seq 0 6) st1 Hboard directions_lt_6 Hcur1 Hcl1
                (closeNode_inv start st rest _ Hsearch) Hopen1) as [_ Hle].
    apply IH; [|
      |done].
    + by apply (astar_iteration start goal getTile canTraverse respects st item rest).
    + assert (searchMeasure board st = S (searchMeasure board st1)).
      { unfold searchMeasure. cbn [openSet nodeMap st1]. by rewrite Hopen. }
      fold st1. lia.
Qed.

(** A walk is at least as long as the distance it covers. *)
Lemma reachableIn_distance n x (b : Hex) :
  reachableIn getTile canTraverse start n x →
  distance start b ≤ Z.of_nat n + distance x b.
Proof.
  induction 1 as [|n x d Hprev IH Hd Htrav]; [lia|].
  pose proof (distance_step x b d Hd). lia.
Qed.

Lemma reachableIn_goal_distance n x :
  reachableIn getTile canTraverse start n x → equals x goal = true →
  distance start goal ≤ Z.of_nat n.
Proof.
  intros Hreach Hgoal. pose proof (reachableIn_distance n x goal Hreach) as Hle.
  apply equals_toString in Hgoal.
  rewrite (distance_toString x goal goal goal Hgoal eq_refl), distance_self in Hle. lia.
Qed.
End AStarResult.

(** The tile of a list board depends on the cell only. *)
Lemma listBoard_respects (cells walls : list (Z * Z * Z)) (x y : Cube.CubeHex) :
  Cube.cube_key x = Cube.cube_key y →
  @traversable Cube.cubeHex (Cube.listBoard cells walls) defaultCanTraverse x
  = @traversable Cube.cubeHex (Cube.listBoard cells walls) defaultCanTraverse y.
Proof.
  intros Hk. unfold traversable, Cube.listBoard. rewrite Hk.
  repeat case_bool_decide; reflexivity.
Qed.

(** X15.  findPath returns a shortest path.  For a hex class whose
    distance changes by at most 1 with every move, and a lookup and
    predicate that answer by cell, the sequence findPath returns visits
    no cell twice, is as long as a walk through traversable cells from
    the start to the goal, no such walk is shorter, and it has at least
    as many steps as the hex distance from the start to the goal. *)
Theorem findPath_returns_shortest_path {M : HexOps} {L : HexLaws M} {R : HexMetric M}
    (fuel : nat) (start goal : Hex)
    (getTile : Hex → option GridTile) (canTraverse : GridTile → bool)
    (path : list Hex) :
  (∀ x y : Hex, toString x = toString y →
     traversable getTile canTraverse x = traversable getTile canTraverse y) →
  findPath fuel start goal getTile canTraverse = Some (Some path) →
  NoDup (map toString path)
  ∧ (∃ n x, S n = length path ∧ reachableIn getTile canTraverse start n x
            ∧ equals x goal = true)
  ∧ (∀ n x, reachableIn getTile canTraverse start n x → equals x goal = true →
            (length path ≤ S n)%nat)
  ∧ distance start goal + 1 ≤ Z.of_nat (length path).
Proof.
  intros respects Hrun.
  pose proof (searchLoop_astar start goal getTile canTraverse respects fuel fuel
                (startState start goal) (Some path)
                (startState_astar start goal getTile canTraverse) Hrun)
    as (Hnodup & (n & x & Hn & Hreach & Hgoal) & Hmin).
  split; [done|]. split; [by exists n, x|]. split; [done|].
  pose proof (reachableIn_goal_distance start goal getTile canTraverse n x Hreach Hgoal).
  lia.
Qed.

(** The detour around two blocked cells: four steps, where the hex
    distance is two. *)
Lemma findPath_returns_shortest_path_witness :
  let start := Cube.mkHex 0 0 0 1 in
  let goal := Cube.mkHex 2 (-1) (-1) 2 in
  let board := Cube.listBoard
                 [(0, 0, 0); (1, 0, -1); (1, -1, 0); (0, -1, 1); (1, -2, 1);
                  (2, -2, 0); (2, -1, -1)]
                 [(1, 0, -1); (1, -1, 0)] in
  let path := [Cube.mkHex 0 0 0 1; Cube.mkHex 0 (-1) 1 (-1); Cube.mkHex 1 (-2) 1 (-1);
               Cube.mkHex 2 (-2) 0 (-1); Cube.mkHex 2 (-1) (-1) (-1)] in
  NoDup (map Cube.cube_key path)
  ∧ (∃ n x, S n = length path
            ∧ @reachableIn Cube.cubeHex board defaultCanTraverse start n x
            ∧ Cube.cube_equals x goal = true)
  ∧ (∀ n x, @reachableIn Cube.cubeHex board defaultCanTraverse start n x →
            Cube.cube_equals x goal = true → (length path ≤ S n)%nat)
  ∧ Cube.cube_distance start goal + 1 ≤ Z.of_nat (length path).
Proof.
  intros start goal board path.
  apply (@findPath_returns_shortest_path Cube.cubeHex cube_laws cube_metric 50
           start goal board defaultCanTraverse path).
  - apply listBoard_respects.
  - vm_compute. reflexivity.
Defined.

(** X16.  findPath decides reachability.  On a board with finitely
    many traversable cells (a lookup and predicate that answer by cell),
    findPath returns after at most one iteration per cell, plus one for
    the start; it returns null exactly when no walk through traversable
    cells leads from the start to the goal. *)
Theorem findPath_decides_reachability {M : HexOps} {L : HexLaws M} {R : HexMetric M}
    (fuel : nat) (start goal : Hex)
    (getTile : Hex → option GridTile) (canTraverse : GridTile → bool)
    (board : gset HexKey) :
  (∀ x y : Hex, toString x = toString y →
     traversable getTile canTraverse x = traversable getTile canTraverse y) →
  (∀ x, traversable getTile canTraverse x = true → toString x ∈ board) →
  (size board + 1 < fuel)%nat →
  ∃ r, findPath fuel start goal getTile canTraverse = Some r
       ∧ (r = None ↔
          ∀ n x, reachableIn getTile canTraverse start n x → equals x goal = false).
Proof.
  intros respects Hboard Hfuel.
  pose proof (startState_astar start goal getTile canTraverse) as Hinv.
  destruct (searchLoop_total start goal getTile canTraverse respects board fuel fuel
              (startState start goal) Hboard Hinv) as [r Hrun]; [|done|].
  { unfold searchMeasure, startState. cbn [openSet nodeMap enqueue length].
    pose proof (subseteq_size
                  (board ∖ dom ({[toString start :=
                     {| node_hex := start; g := 0; h := distance start goal;
                        f := distance start goal; parent := None |}]}
                     : gmap HexKey PathNode)) board ltac:(set_solver)).
    lia. }
  exists r. split; [done|].
  pose proof (searchLoop_astar start goal getTile canTraverse respects fuel fuel
                (startState start goal) r Hinv Hrun) as Hres.
  destruct r as [path|].
  - split; [done|]. intros Hnone.
    destruct Hres as (_ & (n & x & _ & Hreach & Hgoal) & _).
    rewrite (Hnone n x Hreach) in Hgoal. done.
  - done.
Qed.

(** The seven cells around the origin, the goal next to the start: a path
    is found within nine iterations, so the goal is not unreachable. *)
Lemma findPath_decides_reachability_witness :
  let start := Cube.mkHex 0 0 0 1 in
  let goal := Cube.mkHex 1 0 (-1) 2 in
  let board := Cube.listBoard Cube.ring1 [] in
  ∃ r, @findPath Cube.cubeHex 9 start goal board defaultCanTraverse = Some r
       ∧ (r = None ↔
          ∀ n x, @reachableIn Cube.cubeHex board defaultCanTraverse start n x →
                 Cube.cube_equals x goal = false).
Proof.
  intros start goal board.
  apply (@findPath_decides_reachability Cube.cubeHex cube_laws cube_metric 9
           start goal board defaultCanTraverse (list_to_set Cube.ring1)).
  - apply listBoard_respects.
  - intros x. unfold traversable, board, Cube.listBoard.
    case_bool_decide as Hin; [|done]. intros _.
    change (Cube.cube_key x ∈ (list_to_set Cube.ring1 : gset (Z * Z * Z))).
    by apply elem_of_list_to_set.
  - vm_compute. lia.
Defined.

(** X17.  findPathDistance is the walking distance.  Under the same
    conditions the number findPathDistance returns is the least number
    of moves of a walk through traversable cells from the start to the
    goal, it is never below the hex distance, and a null result means
    that no such walk exists. *)
Theorem findPathDistance_is_walking_distance {M : HexOps} {L : HexLaws M}
    {R : HexMetric M} (fuel : nat) (start goal : Hex)
    (getTile : Hex → option GridTile) (canTraverse : GridTile → bool)
    (r : option Z) :
  (∀ x y : Hex, toString x = toString y →
     traversable getTile canTraverse x = traversable getTile canTraverse y) →
  findPathDistance fuel start goal getTile canTraverse = Some r →
  match r with
  | Some steps =>
      (∃ n x, Z.of_nat n = steps ∧ reachableIn getTile canTraverse start n x
              ∧ equals x goal = true)
      ∧ (∀ n x, reachableIn getTile canTraverse start n x → equals x goal = true →
                steps ≤ Z.of_nat n)
      ∧ distance start goal ≤ steps
  | None => ∀ n x, reachableIn getTile canTraverse start n x → equals x goal = false
  end.
Proof.
  intros respects Hrun. unfold findPathDistance in Hrun.
  destruct (findPath fuel start goal getTile canTraverse) as [found|] eqn:Hfind; [|done].
  cbn in Hrun. injection Hrun as <-.
  pose proof (searchLoop_astar start goal getTile canTraverse respects fuel fuel
                (startState start goal) found
                (startState_astar start goal getTile canTraverse) Hfind) as Hres.
  destruct found as [path|]; [|done].
  destruct Hres as (_ & (n & x & Hn & Hreach & Hgoal) & Hmin).
  split; [exists n, x; split; [lia|done]|]. split.
  - intros n' x' Hreach' Hgoal'. specialize (Hmin n' x' Hreach' Hgoal'). lia.
  - pose proof (reachableIn_goal_distance start goal getTile canTraverse n x Hreach Hgoal).
    lia.
Qed.

(** The detour again: four moves. *)
Lemma findPathDistance_is_walking_distance_witness :
  let start := Cube.mkHex 0 0 0 1 in
  let goal := Cube.mkHex 2 (-1) (-1) 2 in
  let board := Cube.listBoard
                 [(0, 0, 0); (1, 0, -1); (1, -1, 0); (0, -1, 1); (1, -2, 1);
                  (2, -2, 0); (2, -1, -1)]
                 [(1, 0, -1); (1, -1, 0)] in
  (∃ n x, Z.of_nat n = 4
          ∧ @reachableIn Cube.cubeHex board defaultCanTraverse start n x
          ∧ Cube.cube_equals x goal = true)
  ∧ (∀ n x, @reachableIn Cube.cubeHex board defaultCanTraverse start n x →
            Cube.cube_equals x goal = true → 4 ≤ Z.of_nat n)
  ∧ Cube.cube_distance start goal ≤ 4.
Proof.
  intros start goal board.
  apply (@findPathDistance_is_walking_distance Cube.cubeHex cube_laws cube_metric 50
           start goal board defaultCanTraverse (Some 4)).
  - apply listBoard_respects.
  - vm_compute. reflexivity.
Defined.

(** X18.  What an effective distance measures.  When the goal is not
    within range and the result is computed (caching disabled), the cache
    is handed back untouched and the direct distance is the hex distance;
    a reachable result carries the length of a shortest walk through
    traversable cells to the goal minus the range, which is positive; an
    unreachable result means that no such walk exists. *)
Theorem calculateEffectiveDistance_measures_walks `{K : CacheKeys}
    {L : HexLaws H} {R : HexMetric H}
    (fuel : nat) (start goal : Hex) (range : Z)
    (getTile : Hex → option GridTile) (canTraverse : GridTile → bool)
    (cache : PathfindingCache) (result : DistanceResult) (cache' : PathfindingCache) :
  (∀ x y : Hex, toString x = toString y →
     traversable getTile canTraverse x = traversable getTile canTraverse y) →
  range < distance start goal →
  calculateEffectiveDistance fuel start goal range getTile canTraverse false cache
    = Some (result, cache') →
  cache' = cache
  ∧ directDistance result = distance start goal
  ∧ if canReach result then
      ∃ n x, reachableIn getTile canTraverse start n x ∧ equals x goal = true
             ∧ (∀ n' x', reachableIn getTile canTraverse start n' x' →
                         equals x' goal = true → (n ≤ n')%nat)
             ∧ movementDistance result = Finite (Z.of_nat n - range)
             ∧ 0 < Z.of_nat n - range
    else
      movementDistance result = Infinity
      ∧ ∀ n x, reachableIn getTile canTraverse start n x → equals x goal = false.
Proof.
  intros respects Hfar Hrun. unfold calculateEffectiveDistance in Hrun.
  replace (distance start goal <=? range) with false in Hrun
    by (symmetry; apply Z.leb_gt; lia).
  destruct (findPath fuel start goal getTile canTraverse) as [found|] eqn:Hfind; [|done].
  pose proof (searchLoop_astar start goal getTile canTraverse respects fuel fuel
                (startState start goal) found
                (startState_astar start goal getTile canTraverse) Hfind) as Hres.
  cbn [mbind option_bind] in Hrun.
  destruct found as [path|]; injection Hrun as <- <-; cbn.
  - split; [done|]. split; [done|].
    destruct Hres as (_ & (n & x & Hn & Hreach & Hgoal) & Hmin).
    pose proof (reachableIn_goal_distance start goal getTile canTraverse n x Hreach Hgoal).
    exists n, x. split; [done|]. split; [done|]. split.
    + intros n' x' Hreach' Hgoal'. specialize (Hmin n' x' Hreach' Hgoal'). lia.
    + split; [f_equal; lia|lia].
  - done.
Qed.

(** A melee unit three steps from its goal on the open board: two moves. *)
Lemma calculateEffectiveDistance_measures_walks_witness :
  let start := Cube.mkHex 0 0 0 1 in
  let goal := Cube.mkHex 3 (-3) 0 13 in
  let result := {| movementDistance := Finite 2; canReach := true;
                   directDistance := 3 |} in
  directDistance result = Cube.cube_distance start goal
  ∧ ∃ n x, @reachableIn Cube.cubeHex Cube.openBoard defaultCanTraverse start n x
           ∧ Cube.cube_equals x goal = true
           ∧ (∀ n' x', @reachableIn Cube.cubeHex Cube.openBoard defaultCanTraverse
                         start n' x' →
                       Cube.cube_equals x' goal = true → (n ≤ n')%nat)
           ∧ movementDistance result = Finite (Z.of_nat n - 1)
           ∧ 0 < Z.of_nat n - 1.
Proof.
  intros start goal result.
  refine (proj2 (@calculateEffectiveDistance_measures_walks Cube.cubeHex Cube.cubeKeys
                   cube_laws cube_metric 20 start goal 1 Cube.openBoard
                   defaultCanTraverse newPathfindingCache result newPathfindingCache
                   _ _ _)).
  - intros x y _. reflexivity.
  - vm_compute. reflexivity.
  - by_evaluation.
Defined.
